(** * A shallow embedding of the GDScript front end (lexer, parser, AST)

    The Go sources embedded here are
    - [internal/core/parser/token.go]   (token kinds, keyword table),
    - the lexer (package [parser], type [Lexer]),
    - [internal/core/ast/*.go]          (node model),
    - [internal/core/parser/parser.go]  (recursive-descent parser).

    Go [int] and [rune] values are modelled by [Z]; a Go [string] is a
    sequence of bytes and is modelled by Rocq's [string].  A Go run-time
    panic is the result [Panic]; loops are driven by an explicit amount
    of fuel and a loop that exhausts it yields [OutOfFuel]. *)

From Stdlib Require Import ZArith List String Ascii Bool Lia.
Import ListNotations.

Local Open Scope string_scope.
Local Open Scope list_scope.
Local Open Scope Z_scope.

(** Concatenation of Go strings. *)
Infix "+++" := String.append (at level 60, right associativity).

(** ** Results of partial computations *)

Inductive result (A : Type) : Type :=
| Ok (a : A)
| Panic (msg : string)
| OutOfFuel.

Arguments Ok {A} a.
Arguments Panic {A} msg.
Arguments OutOfFuel {A}.

Definition rbind {A B : Type} (m : result A) (k : A -> result B) : result B :=
  match m with
  | Ok a => k a
  | Panic msg => Panic msg
  | OutOfFuel => OutOfFuel
  end.

Notation "x <- m ;; k" := (rbind m (fun x => k))
  (at level 61, m at next level, right associativity).
Notation "' pat <- m ;; k" := (rbind m (fun x => match x with pat => k end))
  (at level 61, pat pattern, m at next level, right associativity).

(** ** Go strings and runes *)

Definition rune := Z.

(** [rune c] is the code point of the ASCII character literal [c]. *)
Definition rune_of (c : ascii) : rune := Z.of_nat (nat_of_ascii c).

Definition len (s : string) : Z := Z.of_nat (String.length s).

Fixpoint bytes_of (s : string) : list Z :=
  match s with
  | EmptyString => []
  | String c s' => rune_of c :: bytes_of s'
  end.

Definition byte_string (b : Z) : string :=
  String (ascii_of_nat (Z.to_nat b)) EmptyString.

(** [s[lo:]] for [0 <= lo <= len s]. *)
Definition drop (lo : Z) (s : string) : string :=
  substring (Z.to_nat lo) (String.length s - Z.to_nat lo) s.

(** The slice expression [s[lo:hi]]: Go panics unless
    [0 <= lo <= hi <= len s]. *)
Definition slice (s : string) (lo hi : Z) : result string :=
  if (0 <=? lo) && (lo <=? hi) && (hi <=? len s)
  then Ok (substring (Z.to_nat lo) (Z.to_nat (hi - lo)) s)
  else Panic "slice bounds out of range".

Definition RuneError : rune := 65533.

Definition in_range (lo hi b : Z) : bool := (lo <=? b) && (b <=? hi).

(** [utf8.DecodeRuneInString] of the Go standard library: the first rune
    of a byte sequence and its width.  An empty input gives
    [(RuneError, 0)], an invalid encoding [(RuneError, 1)]. *)
Definition decode_bytes (bs : list Z) : rune * Z :=
  match bs with
  | [] => (RuneError, 0)
  | s0 :: t =>
    if s0 <? 128 then (s0, 1)
    else if in_range 194 223 s0 then
      match t with
      | s1 :: _ =>
        if in_range 128 191 s1
        then (Z.lor (Z.shiftl (Z.land s0 31) 6) (Z.land s1 63), 2)
        else (RuneError, 1)
      | _ => (RuneError, 1)
      end
    else if in_range 224 239 s0 then
      match t with
      | s1 :: s2 :: _ =>
        let lo := if s0 =? 224 then 160 else 128 in
        let hi := if s0 =? 237 then 159 else 191 in
        if in_range lo hi s1 && in_range 128 191 s2
        then (Z.lor (Z.lor (Z.shiftl (Z.land s0 15) 12)
                           (Z.shiftl (Z.land s1 63) 6))
                    (Z.land s2 63), 3)
        else (RuneError, 1)
      | _ => (RuneError, 1)
      end
    else if in_range 240 244 s0 then
      match t with
      | s1 :: s2 :: s3 :: _ =>
        let lo := if s0 =? 240 then 144 else 128 in
        let hi := if s0 =? 244 then 143 else 191 in
        if in_range lo hi s1 && in_range 128 191 s2 && in_range 128 191 s3
        then (Z.lor (Z.lor (Z.lor (Z.shiftl (Z.land s0 7) 18)
                                  (Z.shiftl (Z.land s1 63) 12))
                           (Z.shiftl (Z.land s2 63) 6))
                    (Z.land s3 63), 4)
        else (RuneError, 1)
      | _ => (RuneError, 1)
      end
    else (RuneError, 1)
  end.

Definition DecodeRuneInString (s : string) : rune * Z := decode_bytes (bytes_of s).

(** The conversion [string(r)] of a rune: its UTF-8 encoding, with
    [RuneError] standing in for surrogates and out-of-range values. *)
Definition string_of_rune (r : rune) : string :=
  let cont x := byte_string (Z.lor 128 (Z.land x 63)) in
  let three x := byte_string (Z.lor 224 (Z.shiftr x 12))
                 +++ cont (Z.shiftr x 6) +++ cont x in
  if (0 <=? r) && (r <? 128) then byte_string r
  else if (0 <=? r) && (r <? 2048) then
    byte_string (Z.lor 192 (Z.shiftr r 6)) +++ cont r
  else if (r <? 0) || (1114111 <? r) || in_range 55296 57343 r then three RuneError
  else if r <? 65536 then three r
  else byte_string (Z.lor 240 (Z.shiftr r 18))
       +++ cont (Z.shiftr r 12) +++ cont (Z.shiftr r 6) +++ cont r.

(** The predicates [unicode.IsLetter] and [unicode.IsDigit] belong to the
    Go standard library.  The lexer is parametric in them; all that is
    used of them is that the NUL rune, which the lexer takes for the end
    of input, is neither a letter nor a digit, and that [r], which the
    lexer looks at for raw strings before it reads an identifier, is a
    letter. *)
Class Unicode : Type := {
  IsLetter : rune -> bool;
  IsDigit : rune -> bool;
  IsLetter_nul : IsLetter 0 = false;
  IsDigit_nul : IsDigit 0 = false;
  IsLetter_r : IsLetter 114 = true
}.

(** The tables restricted to Latin-1, where they agree with Go's. *)
Definition latin1_IsLetter (r : rune) : bool :=
  in_range 65 90 r || in_range 97 122 r
  || (r =? 170) || (r =? 181) || (r =? 186)
  || in_range 192 214 r || in_range 216 246 r || in_range 248 255 r.

Definition latin1_IsDigit (r : rune) : bool := in_range 48 57 r.

Definition latin1 : Unicode := {|
  IsLetter := latin1_IsLetter;
  IsDigit := latin1_IsDigit;
  IsLetter_nul := eq_refl;
  IsDigit_nul := eq_refl;
  IsLetter_r := eq_refl
|}.

(** ** Tokens ([token.go]) *)

(** [TokenType] is a string type in Go; its constants are the
    constructors below and [TokenType_string] gives their values.  The
    constants [BITXOR] and [CARET] have the same value and are one
    constructor.  [NOTYPE] is the empty string, the type of a
    zero-valued [Token]. *)
Inductive TokenType : Set :=
| NOTYPE
| ILLEGAL | EOF | COMMENT | NL | INDENT | DEDENT
| IDENT | INT | FLOAT | STRING | RSTRING | HEX | BIN
| ASSIGN | PLUS | MINUS | BANG | ASTERISK | SLASH | PERCENT | POWER
| LT | GT | EQ | NOT_EQ | LTE | GTE | AND | OR | NOT | AMPAMP | PIPEPIPE
| PLUSEQ | MINUSEQ | ASTERISKEQ | SLASHEQ | PERCENTEQ | AMPEQ | PIPEEQ
| CARETEQ | LTLTEQ | GTGTEQ | POWEREQ
| BITAND | BITOR | CARET | BITNOT | LTLT | GTGT
| DOT | COMMA | COLON | SEMICOLON | LPAREN | RPAREN | LBRACE | RBRACE
| LBRACKET | RBRACKET | AT | DOLLAR | ARROW | COLONASSIGN
| FUNC | CLASS | EXTENDS | CLASS_NAME | VAR | CONST | STATIC | ENUM | SIGNAL
| PASS | RETURN | IF | ELIF | ELSE | FOR | WHILE | BREAK | CONTINUE | MATCH
| WHEN | IN | IS | AS | AWAIT | BREAKPOINT | TRUE | FALSE | NULL | SELF
| GET | SET.

Definition BITXOR : TokenType := CARET.

Definition TokenType_string (t : TokenType) : string :=
  match t with
  | NOTYPE => ""
  | ILLEGAL => "ILLEGAL" | EOF => "EOF" | COMMENT => "COMMENT" | NL => "NL"
  | INDENT => "INDENT" | DEDENT => "_DEDENT"
  | IDENT => "IDENT" | INT => "INT" | FLOAT => "FLOAT" | STRING => "STRING"
  | RSTRING => "RSTRING" | HEX => "HEX" | BIN => "BIN"
  | ASSIGN => "=" | PLUS => "+" | MINUS => "-" | BANG => "!"
  | ASTERISK => "*" | SLASH => "/" | PERCENT => "%" | POWER => "**"
  | LT => "<" | GT => ">" | EQ => "==" | NOT_EQ => "!=" | LTE => "<="
  | GTE => ">=" | AND => "and" | OR => "or" | NOT => "not"
  | AMPAMP => "&&" | PIPEPIPE => "||"
  | PLUSEQ => "+=" | MINUSEQ => "-=" | ASTERISKEQ => "*=" | SLASHEQ => "/="
  | PERCENTEQ => "%=" | AMPEQ => "&=" | PIPEEQ => "|=" | CARETEQ => "^="
  | LTLTEQ => "<<=" | GTGTEQ => ">>=" | POWEREQ => "**="
  | BITAND => "&" | BITOR => "|" | CARET => "^" | BITNOT => "~"
  | LTLT => "<<" | GTGT => ">>"
  | DOT => "." | COMMA => "," | COLON => ":" | SEMICOLON => ";"
  | LPAREN => "(" | RPAREN => ")" | LBRACE => "{" | RBRACE => "}"
  | LBRACKET => "[" | RBRACKET => "]" | AT => "@" | DOLLAR => "$"
  | ARROW => "->" | COLONASSIGN => ":="
  | FUNC => "func" | CLASS => "class" | EXTENDS => "extends"
  | CLASS_NAME => "class_name" | VAR => "var" | CONST => "const"
  | STATIC => "static" | ENUM => "enum" | SIGNAL => "signal" | PASS => "pass"
  | RETURN => "return" | IF => "if" | ELIF => "elif" | ELSE => "else"
  | FOR => "for" | WHILE => "while" | BREAK => "break"
  | CONTINUE => "continue" | MATCH => "match" | WHEN => "when" | IN => "in"
  | IS => "is" | AS => "as" | AWAIT => "await" | BREAKPOINT => "breakpoint"
  | TRUE => "true" | FALSE => "false" | NULL => "null" | SELF => "self"
  | GET => "get" | SET => "set"
  end.

(** Comparison of token types, as Go compares the underlying strings. *)
Definition tt_eqb (a b : TokenType) : bool :=
  String.eqb (TokenType_string a) (TokenType_string b).

Record Token : Set := NewToken {
  Type_ : TokenType;
  Literal : string;
  Line : Z;
  Column : Z;
  Offset : Z
}.

(** The zero value of [Token]. *)
Definition zeroToken : Token := NewToken NOTYPE "" 0 0 0.

(** The [keywords] map, in the order of its literal. *)
Definition keywords : list (string * TokenType) :=
  [ ("func", FUNC); ("class", CLASS); ("extends", EXTENDS);
    ("class_name", CLASS_NAME); ("var", VAR); ("const", CONST);
    ("static", STATIC); ("enum", ENUM); ("signal", SIGNAL); ("pass", PASS);
    ("return", RETURN); ("if", IF); ("elif", ELIF); ("else", ELSE);
    ("for", FOR); ("while", WHILE); ("break", BREAK); ("continue", CONTINUE);
    ("match", MATCH); ("when", WHEN); ("in", IN); ("is", IS); ("as", AS);
    ("await", AWAIT); ("breakpoint", BREAKPOINT); ("true", TRUE);
    ("false", FALSE); ("null", NULL); ("self", SELF); ("get", GET);
    ("set", SET); ("and", AND); ("or", OR); ("not", NOT) ].

Fixpoint map_lookup {V : Type} (m : list (string * V)) (k : string) : option V :=
  match m with
  | [] => None
  | (k', v) :: m' => if String.eqb k' k then Some v else map_lookup m' k
  end.

Definition LookupIdent (ident : string) : TokenType :=
  match map_lookup keywords ident with
  | Some tok => tok
  | None => IDENT
  end.

(** ** The lexer *)

Record Lexer : Set := mkLexer {
  input : string;
  position : Z;        (* current position in input (points to current char) *)
  readPosition : Z;    (* current reading position in input (after current char) *)
  ch : rune;           (* current char under examination *)
  line : Z;
  column : Z;
  indentStack : list Z;
  indentLevel : Z;
  tokens : list Token  (* tokens to be returned before continuing lexing *)
}.

Definition set_cursor (l : Lexer) (pos rpos : Z) (c : rune) (ln col : Z) : Lexer :=
  mkLexer (input l) pos rpos c ln col (indentStack l) (indentLevel l) (tokens l).

Definition set_line (l : Lexer) (ln col : Z) : Lexer :=
  set_cursor l (position l) (readPosition l) (ch l) ln col.

Definition set_indent (l : Lexer) (stack : list Z) (toks : list Token) : Lexer :=
  mkLexer (input l) (position l) (readPosition l) (ch l) (line l) (column l)
          stack (indentLevel l) toks.

(** [readChar] reads the next character and advances the position. *)
Definition readChar (l : Lexer) : Lexer :=
  let pos := readPosition l in
  let '(c, rpos) :=
    if len (input l) <=? readPosition l then (0, readPosition l)
    else let '(r, size) := DecodeRuneInString (drop (readPosition l) (input l)) in
         (r, readPosition l + size) in
  if c =? rune_of "010"
  then set_cursor l pos rpos c (line l + 1) 1
  else set_cursor l pos rpos c (line l) (column l + 1).

Definition NewLexer (input : string) : Lexer :=
  readChar (mkLexer input 0 0 0 1 1 [0] 0 []).

(** [peekChar] returns the next character without advancing. *)
Definition peekChar (l : Lexer) : rune :=
  if len (input l) <=? readPosition l then 0
  else fst (DecodeRuneInString (drop (readPosition l) (input l))).

Definition newToken (l : Lexer) (tokenType : TokenType) (literal : string) : Token :=
  NewToken tokenType literal (line l) (column l) (position l).

(** The fuel handed to a scanning loop: one more than the number of bytes
    from the current character to the end of the input. *)
Definition scanFuel (l : Lexer) : nat := S (Z.to_nat (len (input l) - position l)).

(** [for cond(l.ch) { l.readChar() }] *)
Fixpoint readWhile (cond : rune -> bool) (fuel : nat) (l : Lexer) : result Lexer :=
  if cond (ch l) then
    match fuel with
    | O => OutOfFuel
    | S fuel' => readWhile cond fuel' (readChar l)
    end
  else Ok l.

Definition isBinDigit (c : rune) : bool := (c =? rune_of "0") || (c =? rune_of "1").

Definition isUnderscore (c : rune) : bool := c =? rune_of "_".

Definition isBlank (c : rune) : bool :=
  (c =? rune_of " ") || (c =? rune_of "009") || (c =? rune_of "013").

Definition isIndentChar (c : rune) : bool :=
  (c =? rune_of " ") || (c =? rune_of "009").

(** [skipWhitespace] skips blanks, tabs and carriage returns (newlines
    are significant). *)
Definition skipWhitespace (l : Lexer) : result Lexer :=
  readWhile isBlank (scanFuel l) l.

(** [readComment] reads up to the end of the line. *)
Definition readComment (l : Lexer) : result (string * Lexer) :=
  let start := position l in
  l <- readWhile (fun c => negb (c =? rune_of "010") && negb (c =? 0)) (scanFuel l) l ;;
  s <- slice (input l) start (position l) ;;
  Ok (s, l).

(** The last element of a slice, [s[len(s)-1]]. *)
Definition top (s : list Z) : option Z :=
  match rev s with
  | [] => None
  | x :: _ => Some x
  end.

(** The loop of [handleIndentation] that pops the stack:
    [for len(stack) > 0 && indent < stack[len-1] { pop; emit DEDENT }].
    Every turn removes an entry, so the length of the stack is fuel
    enough. *)
Fixpoint dedentLoop (fuel : nat) (indent : Z) (l : Lexer) : Lexer :=
  match fuel with
  | O => l
  | S fuel' =>
    match top (indentStack l) with
    | Some t =>
      if indent <? t
      then dedentLoop fuel' indent
             (set_indent l (removelast (indentStack l))
                         (tokens l ++ [newToken l DEDENT ""]))
      else l
    | None => l
    end
  end.

(** [handleIndentation] handles indentation changes and generates
    INDENT/DEDENT tokens. *)
Definition handleIndentation (l : Lexer) (indent : Z) : result Lexer :=
  match top (indentStack l) with
  | None => Panic "index out of range"
  | Some currentIndent =>
    if currentIndent <? indent then
      Ok (set_indent l (indentStack l ++ [indent])
                     (tokens l ++ [newToken l INDENT ""]))
    else if indent <? currentIndent then
      let l := dedentLoop (List.length (indentStack l)) indent l in
      match top (indentStack l) with
      | Some t =>
        if negb (indent =? t)
        then Ok (set_indent l (indentStack l)
                            (tokens l ++ [newToken l ILLEGAL "invalid indentation"]))
        else Ok l
      | None =>
        Ok (set_indent l (indentStack l)
                       (tokens l ++ [newToken l ILLEGAL "invalid indentation"]))
      end
    else Ok l
  end.

(** The loop of [NextToken] that measures the indentation after a
    newline: a blank counts 1, a tab 4. *)
Fixpoint countIndent (fuel : nat) (indent : Z) (l : Lexer) : result (Z * Lexer) :=
  if isIndentChar (ch l) then
    match fuel with
    | O => OutOfFuel
    | S fuel' =>
      let indent :=
        if ch l =? rune_of " " then indent + 1
        else if ch l =? rune_of "009" then indent + 4
        else indent in
      countIndent fuel' indent (readChar l)
    end
  else Ok (indent, l).

(** The loop of [readString]. *)
Fixpoint readStringLoop (quote : rune) (fuel : nat) (l : Lexer) : result Lexer :=
  if ch l =? rune_of "\" then
    match fuel with
    | O => OutOfFuel
    | S fuel' => readStringLoop quote fuel' (readChar (readChar l))
    end
  else if (ch l =? quote) || (ch l =? 0) then Ok l
  else
    match fuel with
    | O => OutOfFuel
    | S fuel' =>
      let l := if ch l =? rune_of "010" then set_line l (line l + 1) 1 else l in
      readStringLoop quote fuel' (readChar l)
    end.

(** [readString] reads a string literal. *)
Definition readString (l : Lexer) (quote : rune) : result (string * Lexer) :=
  let start := position l in
  let l := readChar l in
  l <- readStringLoop quote (scanFuel l) l ;;
  let l := if ch l =? quote then readChar l else l in
  s <- slice (input l) start (position l) ;;
  Ok (s, l).

(** The loop of [readRawString]. *)
Fixpoint readRawStringLoop (quote : rune) (fuel : nat) (l : Lexer) : result Lexer :=
  if (ch l =? quote) || (ch l =? 0) then Ok l
  else
    match fuel with
    | O => OutOfFuel
    | S fuel' =>
      let l := if ch l =? rune_of "010" then set_line l (line l + 1) 1 else l in
      readRawStringLoop quote fuel' (readChar l)
    end.

(** [readRawString] reads a raw string literal; its result is the slice
    [l.input[position : l.position-1]]. *)
Definition readRawString (l : Lexer) (quote : rune) : result (string * Lexer) :=
  let start := position l in
  l <- readRawStringLoop quote (scanFuel l) l ;;
  let l := if ch l =? quote then readChar l else l in
  s <- slice (input l) start (position l - 1) ;;
  Ok (s, l).

Section WithUnicode.

Context {U : Unicode}.

Definition isLetter (c : rune) : bool := IsLetter c.

Definition isDigit (c : rune) : bool := IsDigit c.

Definition isHexDigit (c : rune) : bool :=
  isDigit c || in_range (rune_of "a") (rune_of "f") c
  || in_range (rune_of "A") (rune_of "F") c.

Definition isIdentChar (c : rune) : bool := isLetter c || isDigit c || isUnderscore c.

Definition isNumberChar (c : rune) : bool := isDigit c || isUnderscore c.

(** [readIdentifier] reads an identifier. *)
Definition readIdentifier (l : Lexer) : result (string * Lexer) :=
  let start := position l in
  l <- readWhile isIdentChar (scanFuel l) l ;;
  s <- slice (input l) start (position l) ;;
  Ok (s, l).

(** [readNumber] reads a number: hexadecimal, binary, integer or float. *)
Definition readNumber (l : Lexer) : result (Token * Lexer) :=
  let start := position l in
  if (ch l =? rune_of "0") && ((peekChar l =? rune_of "x") || (peekChar l =? rune_of "X")) then
    let l := readChar (readChar l) in
    l <- readWhile (fun c => isHexDigit c || isUnderscore c) (scanFuel l) l ;;
    s <- slice (input l) start (position l) ;;
    Ok (newToken l HEX s, l)
  else if (ch l =? rune_of "0") && ((peekChar l =? rune_of "b") || (peekChar l =? rune_of "B")) then
    let l := readChar (readChar l) in
    l <- readWhile (fun c => isBinDigit c || isUnderscore c) (scanFuel l) l ;;
    s <- slice (input l) start (position l) ;;
    Ok (newToken l BIN s, l)
  else
    l <- readWhile isNumberChar (scanFuel l) l ;;
    '(isFloat, l) <-
      (if (ch l =? rune_of ".") && isDigit (peekChar l) then
         let l := readChar l in
         l <- readWhile isNumberChar (scanFuel l) l ;;
         Ok (true, l)
       else Ok (false, l)) ;;
    '(isFloat, l) <-
      (if ((ch l =? rune_of "e") || (ch l =? rune_of "E"))
          && (isDigit (peekChar l) || (peekChar l =? rune_of "+")
              || (peekChar l =? rune_of "-")) then
         let l := readChar l in
         let l := if (ch l =? rune_of "+") || (ch l =? rune_of "-")
                  then readChar l else l in
         l <- readWhile isNumberChar (scanFuel l) l ;;
         Ok (true, l)
       else Ok (isFloat, l)) ;;
    s <- slice (input l) start (position l) ;;
    if isFloat : bool then Ok (newToken l FLOAT s, l) else Ok (newToken l INT s, l).

(** Helpers for the operator cases of [NextToken]: [lit] is the literal
    built from the characters read, the token takes its position from
    the lexer at the moment [newToken] is called, and the character
    under the cursor is consumed last. *)
Definition emit (l : Lexer) (t : TokenType) (lit : string) : result (Token * Lexer) :=
  Ok (newToken l t lit, readChar l).

Definition peekIs (l : Lexer) (c : ascii) : bool := peekChar l =? rune_of c.

Definition chIs (l : Lexer) (c : ascii) : bool := ch l =? rune_of c.

(** [NextToken] returns the next token. *)
Definition NextToken (l : Lexer) : result (Token * Lexer) :=
  match tokens l with
  | tok :: rest =>
    (* queued tokens (INDENT/DEDENT) are returned first *)
    Ok (tok, set_indent l (indentStack l) rest)
  | [] =>
    l <- skipWhitespace l ;;
    let c := string_of_rune (ch l) in
    if chIs l "+" then
      if peekIs l "=" then emit (readChar l) PLUSEQ (c +++ "=")
      else emit l PLUS c
    else if chIs l "-" then
      if peekIs l "=" then emit (readChar l) MINUSEQ (c +++ "=")
      else if peekIs l ">" then emit (readChar l) ARROW (c +++ ">")
      else emit l MINUS c
    else if chIs l "*" then
      if peekIs l "*" then
        let l := readChar l in
        if peekIs l "=" then emit (readChar l) POWEREQ (c +++ "*=")
        else emit l POWER (c +++ "*")
      else if peekIs l "=" then emit (readChar l) ASTERISKEQ (c +++ "=")
      else emit l ASTERISK c
    else if chIs l "/" then
      if peekIs l "=" then emit (readChar l) SLASHEQ (c +++ "=")
      else emit l SLASH c
    else if chIs l "%" then
      if peekIs l "=" then emit (readChar l) PERCENTEQ (c +++ "=")
      else emit l PERCENT c
    else if chIs l "&" then
      if peekIs l "&" then emit (readChar l) AMPAMP (c +++ "&")
      else if peekIs l "=" then emit (readChar l) AMPEQ (c +++ "=")
      else emit l BITAND c
    else if chIs l "|" then
      if peekIs l "|" then emit (readChar l) PIPEPIPE (c +++ "|")
      else if peekIs l "=" then emit (readChar l) PIPEEQ (c +++ "=")
      else emit l BITOR c
    else if chIs l "^" then
      if peekIs l "=" then emit (readChar l) CARETEQ (c +++ "=")
      else emit l CARET c
    else if chIs l "~" then emit l BITNOT c
    else if chIs l "<" then
      if peekIs l "=" then emit (readChar l) LTE (c +++ "=")
      else if peekIs l "<" then
        let l := readChar l in
        if peekIs l "=" then emit (readChar l) LTLTEQ (c +++ "<=")
        else emit l LTLT (c +++ "<")
      else emit l LT c
    else if chIs l ">" then
      if peekIs l "=" then emit (readChar l) GTE (c +++ "=")
      else if peekIs l ">" then
        let l := readChar l in
        if peekIs l "=" then emit (readChar l) GTGTEQ (c +++ ">=")
        else emit l GTGT (c +++ ">")
      else emit l GT c
    else if chIs l "=" then
      if peekIs l "=" then emit (readChar l) EQ (c +++ "=")
      else emit l ASSIGN c
    else if chIs l "!" then
      if peekIs l "=" then emit (readChar l) NOT_EQ (c +++ "=")
      else emit l BANG c
    else if chIs l "." then emit l DOT c
    else if chIs l "," then emit l COMMA c
    else if chIs l ":" then
      if peekIs l "=" then emit (readChar l) COLONASSIGN (c +++ "=")
      else emit l COLON c
    else if chIs l ";" then emit l SEMICOLON c
    else if chIs l "(" then emit l LPAREN c
    else if chIs l ")" then emit l RPAREN c
    else if chIs l "{" then emit l LBRACE c
    else if chIs l "}" then emit l RBRACE c
    else if chIs l "[" then emit l LBRACKET c
    else if chIs l "]" then emit l RBRACKET c
    else if chIs l "@" then emit l AT c
    else if chIs l "$" then emit l DOLLAR c
    else if chIs l "#" then
      '(lit, l') <- readComment l ;;
      Ok (NewToken COMMENT lit (line l) (column l) (position l), l')
    else if chIs l "034" || chIs l "'" then
      '(lit, l') <- readString l (ch l) ;;
      Ok (NewToken STRING lit (line l) (column l) (position l), l')
    else if chIs l "r" then
      if peekIs l "034" || peekIs l "'" then
        let startCol := column l in
        let startPos := position l in
        let l := readChar l in            (* consume 'r' *)
        let quote := ch l in
        let l := readChar l in            (* consume quote *)
        '(str, l) <- readRawString l quote ;;
        Ok (NewToken RSTRING
                     ("r" +++ string_of_rune quote +++ str +++ string_of_rune quote)
                     (line l) startCol startPos, l)
      else
        (* not a raw string: an identifier *)
        '(lit, l') <- readIdentifier l ;;
        Ok (NewToken (LookupIdent lit) lit (line l) (column l) (position l), l')
    else if chIs l "010" then
      (* NL token, then the indentation of the next line *)
      let tok := newToken l NL (String "010" EmptyString) in
      let l := readChar l in
      '(indent, l) <- countIndent (scanFuel l) 0 l ;;
      l <- handleIndentation l indent ;;
      Ok (tok, l)
    else if ch l =? 0 then
      Ok (NewToken EOF "" (line l) (column l) (position l), l)
    else if isLetter (ch l) || isUnderscore (ch l) then
      '(lit, l') <- readIdentifier l ;;
      Ok (NewToken (LookupIdent lit) lit (line l) (column l) (position l), l')
    else if isDigit (ch l) then readNumber l
    else emit l ILLEGAL c
  end.

(** The tokens a lexer returns up to and including the first [EOF]; at
    most [fuel] calls of [NextToken] are made. *)
Fixpoint lexAll (fuel : nat) (l : Lexer) : result (list Token * Lexer) :=
  match fuel with
  | O => OutOfFuel
  | S fuel' =>
    '(tok, l) <- NextToken l ;;
    match Type_ tok with
    | EOF => Ok ([tok], l)
    | _ => '(toks, l) <- lexAll fuel' l ;; Ok (tok :: toks, l)
    end
  end.

End WithUnicode.

(** ** The syntax tree (package [ast]) *)

Module ast.

Record Position : Set := mkPosition { Line : Z; Column : Z; Offset : Z }.

(** A value of the interface type [Expression]: [NilExpression] is the
    nil interface, every other constructor a pointer to the node struct
    of that name.  The [float64] field [Value] of [NumberLiteral] is
    never assigned by the parser and is left out. *)
#[warnings="-register-all"]
Inductive Expression : Set :=
| NilExpression
| Identifier (Pos : Position) (Value : string)
| StringLiteral (Pos : Position) (Value : string)
| NumberLiteral (Pos : Position) (IsInt : bool) (Original : string)
| NullLiteral (Pos : Position)
| BooleanLiteral (Pos : Position) (Value : bool)
| ArrayLiteral (Pos : Position) (Elements : list Expression)
| DictionaryLiteral (Pos : Position) (Pairs : list (Expression * Expression))
| PrefixExpression (Pos : Position) (Operator : string) (Right : Expression)
| InfixExpression (Pos : Position) (Left : Expression) (Operator : string)
                  (Right : Expression)
| CallExpression (Pos : Position) (Function : Expression)
                 (Arguments : list Expression)
| IndexExpression (Pos : Position) (Left : Expression) (Index : Expression)
| DotExpression (Pos : Position) (Left : Expression) (Property : string)
| AssignmentExpression (Pos : Position) (Left : Expression) (Operator : string)
                       (Right : Expression)
| ConditionalExpression (Pos : Position) (Condition : Expression)
                        (ValueIfTrue : Expression) (ValueIfFalse : Expression).

(** The method [Position] of an expression; on the nil interface the
    call is a nil dereference. *)
Definition Expression_Position (e : Expression) : result Position :=
  match e with
  | NilExpression => Panic "nil pointer dereference"
  | Identifier pos _ | StringLiteral pos _ | NumberLiteral pos _ _
  | NullLiteral pos | BooleanLiteral pos _ | ArrayLiteral pos _
  | DictionaryLiteral pos _ | PrefixExpression pos _ _
  | InfixExpression pos _ _ _ | CallExpression pos _ _
  | IndexExpression pos _ _ | DotExpression pos _ _
  | AssignmentExpression pos _ _ _ | ConditionalExpression pos _ _ _ => Ok pos
  end.

Definition isNil (e : Expression) : bool :=
  match e with NilExpression => true | _ => false end.

Record Annotation : Set := mkAnnotation {
  Annotation_Pos : Position;
  Annotation_Name : string;
  Annotation_Args : list Expression
}.

(** The struct [Parameter] of [function.go]. *)
Record Param : Set := mkParam {
  Param_Pos : Position;
  Param_Name : string;
  Param_TypeHint : string;
  Param_Default : Expression
}.

(** *** [statement.go] *)

Record BaseStatement : Set := mkBase {
  Pos : Position;
  Kind : string;
  Annotations : list Annotation
}.

Definition setKind (b : BaseStatement) (kind : string) : BaseStatement :=
  mkBase (Pos b) kind (Annotations b).

Record PassStatement : Set := mkPass { Pass_Base : BaseStatement }.

Definition NewPassStatement (pos : Position) : PassStatement :=
  mkPass (mkBase pos "pass_stmt" []).

Record ReturnStatement : Set := mkReturn {
  Return_Base : BaseStatement;
  Return_Value : Expression
}.

Definition NewReturnStatement (pos : Position) (value : Expression) : ReturnStatement :=
  mkReturn (mkBase pos "return_stmt" []) value.

Record BreakStatement : Set := mkBreak { Break_Base : BaseStatement }.

Definition NewBreakStatement (pos : Position) : BreakStatement :=
  mkBreak (mkBase pos "break_stmt" []).

Record ContinueStatement : Set := mkContinue { Continue_Base : BaseStatement }.

Definition NewContinueStatement (pos : Position) : ContinueStatement :=
  mkContinue (mkBase pos "continue_stmt" []).

Record ExpressionStatement : Set := mkExpressionStatement {
  ExprStmt_Base : BaseStatement;
  ExprStmt_Expression : Expression
}.

Definition NewExpressionStatement (pos : Position) (expr : Expression)
  : ExpressionStatement :=
  mkExpressionStatement (mkBase pos "expr_stmt" []) expr.

Record VarStatement : Set := mkVar {
  Var_Base : BaseStatement;
  Var_Name : string;
  Var_TypeHint : string;
  Var_Value : Expression;
  Var_IsTyped : bool;
  Var_IsConst : bool;
  Var_IsInferred : bool
}.

Definition NewVarStatement (pos : Position) (name : string) (isTyped : bool)
  : VarStatement :=
  let kind := if isTyped then "func_var_typed" else "func_var_stmt" in
  mkVar (mkBase pos kind []) name "" NilExpression isTyped false false.

Definition Var_setKind (v : VarStatement) (kind : string) : VarStatement :=
  mkVar (setKind (Var_Base v) kind) (Var_Name v) (Var_TypeHint v) (Var_Value v)
        (Var_IsTyped v) (Var_IsConst v) (Var_IsInferred v).

(** [SetValue] sets the value of the variable. *)
Definition SetValue (v : VarStatement) (value : Expression) : VarStatement :=
  let v := mkVar (Var_Base v) (Var_Name v) (Var_TypeHint v) value
                 (Var_IsTyped v) (Var_IsConst v) (Var_IsInferred v) in
  if Var_IsConst v then
    if Var_IsTyped v then Var_setKind v "const_typed_assgnd"
    else Var_setKind v "const_assigned"
  else
    if Var_IsTyped v then Var_setKind v "func_var_typed_assgnd"
    else Var_setKind v "func_var_assigned".

(** [SetTypeHint] sets the type hint of the variable. *)
Definition SetTypeHint (v : VarStatement) (typeHint : string) : VarStatement :=
  let v := mkVar (Var_Base v) (Var_Name v) typeHint (Var_Value v)
                 true (Var_IsConst v) (Var_IsInferred v) in
  if negb (isNil (Var_Value v)) then
    if Var_IsConst v then Var_setKind v "const_typed_assgnd"
    else Var_setKind v "func_var_typed_assgnd"
  else
    if Var_IsConst v then Var_setKind v "const_typed"
    else Var_setKind v "func_var_typed".

(** [SetConst] marks the variable as a constant. *)
Definition SetConst (v : VarStatement) : VarStatement :=
  let v := mkVar (Var_Base v) (Var_Name v) (Var_TypeHint v) (Var_Value v)
                 (Var_IsTyped v) true (Var_IsInferred v) in
  if Var_IsTyped v then
    if negb (isNil (Var_Value v)) then Var_setKind v "const_typed_assgnd"
    else Var_setKind v "const_typed"
  else
    if negb (isNil (Var_Value v)) then Var_setKind v "const_assigned"
    else Var_setKind v "const_stmt".

(** [SetInferred] marks the variable as type-inferred ([:=]). *)
Definition SetInferred (v : VarStatement) : VarStatement :=
  let v := mkVar (Var_Base v) (Var_Name v) (Var_TypeHint v) (Var_Value v)
                 true (Var_IsConst v) true in
  if Var_IsConst v then Var_setKind v "const_typed_assgnd"
  else Var_setKind v "func_var_assigned".

(** *** [control_flow.go], [function.go], [class.go] *)

(** A value of the interface type [Statement]: the nil interface
    [NilStatement], or a pointer to a node of one of the statement
    types.  The pointer may itself be nil ([None]); Go does not equate
    such a boxed nil pointer with the nil interface. *)
#[warnings="-register-all"]
Inductive Statement : Set :=
| NilStatement
| StmtPass (s : option PassStatement)
| StmtReturn (s : option ReturnStatement)
| StmtBreak (s : option BreakStatement)
| StmtContinue (s : option ContinueStatement)
| StmtExpression (s : option ExpressionStatement)
| StmtVar (s : option VarStatement)
| StmtIf (s : option IfStatement)
| StmtFor (s : option ForStatement)
| StmtWhile (s : option WhileStatement)
| StmtMatch (s : option MatchStatement)
| StmtFunction (f : option Function)
| StmtClass (c : option Class)
with IfStatement : Set :=
| mkIf (Base : BaseStatement) (Condition : Expression)
       (Consequence : list Statement) (ElseCondition : list Expression)
       (ElseBranches : list (list Statement)) (Alternative : list Statement)
with ForStatement : Set :=
| mkFor (Base : BaseStatement) (Iterator : string) (IteratorPos : Position)
        (Collection : Expression) (Body : list Statement) (TypeHint : string)
        (IsTyped : bool)
with WhileStatement : Set :=
| mkWhile (Base : BaseStatement) (Condition : Expression) (Body : list Statement)
with MatchStatement : Set :=
| mkMatch (Base : BaseStatement) (Value : Expression) (Branches : list MatchBranch)
with MatchBranch : Set :=
| mkMatchBranch (Pos : Position) (Pattern : Expression) (Guard : Expression)
                (Body : list Statement) (IsGuarded : bool)
with Function : Set :=
| mkFunction (Pos : Position) (Name : string) (Parameters : list Param)
             (ReturnType : string) (Statements : list Statement)
             (SubStatements : list Statement) (Annotations : list Annotation)
             (IsStatic : bool)
with Class : Set :=
| mkClass (Pos : Position) (Name : string) (Extends : string)
          (SubClasses : list (option Class))
          (Functions : list (option Function))
          (Statements : list Statement) (Annotations : list Annotation).

Definition NewIfStatement (pos : Position) (condition : Expression) : IfStatement :=
  mkIf (mkBase pos "if_stmt" []) condition [] [] [] [].

Definition AddConsequenceStatement (i : IfStatement) (statement : Statement)
  : IfStatement :=
  match i with
  | mkIf b c cs ec eb alt => mkIf b c (cs ++ [statement]) ec eb alt
  end.

Definition AddElseIfBranch (i : IfStatement) (condition : Expression)
           (statements : list Statement) : IfStatement :=
  match i with
  | mkIf b c cs ec eb alt =>
    mkIf b c cs (ec ++ [condition]) (eb ++ [statements]) alt
  end.

Definition SetAlternative (i : IfStatement) (statements : list Statement)
  : IfStatement :=
  match i with
  | mkIf b c cs ec eb _ => mkIf b c cs ec eb statements
  end.

Definition NewForStatement (pos : Position) (iterator : string)
           (iteratorPos : Position) (collection : Expression) (isTyped : bool)
  : ForStatement :=
  let kind := if isTyped then "for_stmt_typed" else "for_stmt" in
  mkFor (mkBase pos kind []) iterator iteratorPos collection [] "" isTyped.

Definition For_AddBodyStatement (f : ForStatement) (statement : Statement)
  : ForStatement :=
  match f with
  | mkFor b it ip col body th ty => mkFor b it ip col (body ++ [statement]) th ty
  end.

Definition For_SetTypeHint (f : ForStatement) (typeHint : string) : ForStatement :=
  match f with
  | mkFor b it ip col body _ _ =>
    mkFor (setKind b "for_stmt_typed") it ip col body typeHint true
  end.

Definition NewWhileStatement (pos : Position) (condition : Expression)
  : WhileStatement :=
  mkWhile (mkBase pos "while_stmt" []) condition [].

Definition While_AddBodyStatement (w : WhileStatement) (statement : Statement)
  : WhileStatement :=
  match w with
  | mkWhile b c body => mkWhile b c (body ++ [statement])
  end.

Definition NewMatchStatement (pos : Position) (value : Expression)
  : MatchStatement :=
  mkMatch (mkBase pos "match_stmt" []) value [].

Definition AddBranch (m : MatchStatement) (branch : MatchBranch) : MatchStatement :=
  match m with
  | mkMatch b v branches => mkMatch b v (branches ++ [branch])
  end.

Definition NewMatchBranch (pos : Position) (pattern : Expression) : MatchBranch :=
  mkMatchBranch pos pattern NilExpression [] false.

Definition SetGuard (m : MatchBranch) (guard : Expression) : MatchBranch :=
  match m with
  | mkMatchBranch pos pat _ body _ => mkMatchBranch pos pat guard body true
  end.

Definition Branch_AddBodyStatement (m : MatchBranch) (statement : Statement)
  : MatchBranch :=
  match m with
  | mkMatchBranch pos pat g body ig =>
    mkMatchBranch pos pat g (body ++ [statement]) ig
  end.

Definition NewFunction (name : string) (pos : Position) : Function :=
  mkFunction pos name [] "" [] [] [] false.

Definition Function_Name (f : Function) : string :=
  match f with mkFunction _ name _ _ _ _ _ _ => name end.

Definition Function_Parameters (f : Function) : list Param :=
  match f with mkFunction _ _ ps _ _ _ _ _ => ps end.

Definition Function_Statements (f : Function) : list Statement :=
  match f with mkFunction _ _ _ _ sts _ _ _ => sts end.

Definition Function_SubStatements (f : Function) : list Statement :=
  match f with mkFunction _ _ _ _ _ subs _ _ => subs end.

Definition AddParameter (f : Function) (param : Param) : Function :=
  match f with
  | mkFunction pos name ps rt sts subs anns st =>
    mkFunction pos name (ps ++ [param]) rt sts subs anns st
  end.

(** [AddStatement] adds a statement to the function. *)
Definition Function_AddStatement (f : Function) (statement : Statement) : Function :=
  match f with
  | mkFunction pos name ps rt sts subs anns st =>
    mkFunction pos name ps rt (sts ++ [statement]) (subs ++ [statement]) anns st
  end.

(** [AddSubStatement] adds a sub-statement to the function. *)
Definition AddSubStatement (f : Function) (statement : Statement) : Function :=
  match f with
  | mkFunction pos name ps rt sts subs anns st =>
    mkFunction pos name ps rt sts (subs ++ [statement]) anns st
  end.

Definition setIsStatic (f : Function) (b : bool) : Function :=
  match f with
  | mkFunction pos name ps rt sts subs anns _ =>
    mkFunction pos name ps rt sts subs anns b
  end.

Definition setReturnType (f : Function) (rt : string) : Function :=
  match f with
  | mkFunction pos name ps _ sts subs anns st =>
    mkFunction pos name ps rt sts subs anns st
  end.

Definition NewClass (name : string) (pos : Position) : Class :=
  mkClass pos name "" [] [] [] [].

Definition Class_Name (c : Class) : string :=
  match c with mkClass _ name _ _ _ _ _ => name end.

Definition Class_SubClasses (c : Class) : list (option Class) :=
  match c with mkClass _ _ _ subs _ _ _ => subs end.

Definition Class_Functions (c : Class) : list (option Function) :=
  match c with mkClass _ _ _ _ fs _ _ => fs end.

Definition Class_Statements (c : Class) : list Statement :=
  match c with mkClass _ _ _ _ _ sts _ => sts end.

Definition AddSubClass (c : Class) (class : option Class) : Class :=
  match c with
  | mkClass pos name ext subs fs sts anns =>
    mkClass pos name ext (subs ++ [class]) fs sts anns
  end.

Definition AddFunction (c : Class) (function : option Function) : Class :=
  match c with
  | mkClass pos name ext subs fs sts anns =>
    mkClass pos name ext subs (fs ++ [function]) sts anns
  end.

Definition Class_AddStatement (c : Class) (statement : Statement) : Class :=
  match c with
  | mkClass pos name ext subs fs sts anns =>
    mkClass pos name ext subs fs (sts ++ [statement]) anns
  end.

Definition setExtends (c : Class) (ext : string) : Class :=
  match c with
  | mkClass pos name _ subs fs sts anns => mkClass pos name ext subs fs sts anns
  end.

Definition setName (c : Class) (name : string) : Class :=
  match c with
  | mkClass pos _ ext subs fs sts anns => mkClass pos name ext subs fs sts anns
  end.

(** *** [ast.go] *)

Record AbstractSyntaxTree : Set := mkAST {
  AST_Pos : Position;
  RootClass : option Class;
  Classes : list (option Class);
  AST_Functions : list (option Function)
}.

Definition NewAST : AbstractSyntaxTree :=
  mkAST (mkPosition 1 1 0) None [] [].

End ast.

(** ** The parser ([parser.go]) *)

(** [Error] represents a parser error. *)
Record Error : Set := mkError {
  Error_Line : Z;
  Error_Column : Z;
  Message : string
}.

(** [ErrorMode] is an [int]; its constants are numbered by [iota]. *)
Definition ErrorMode : Set := Z.

(** [ErrorModeStrict] stops parsing at the first error. *)
Definition ErrorModeStrict : ErrorMode := 0.

(** [ErrorModePanic] uses panic mode recovery to continue parsing after
    errors. *)
Definition ErrorModePanic : ErrorMode := 1.

Record Parser : Set := mkParser {
  lexer : Lexer;
  currentToken : Token;
  peekToken : Token;
  errors : list Error;
  errorMode : ErrorMode
}.

Definition curType (p : Parser) : TokenType := Type_ (currentToken p).

Definition peekType (p : Parser) : TokenType := Type_ (peekToken p).

(** The position of the current token, as an [ast.Position]. *)
Definition curPos (p : Parser) : ast.Position :=
  ast.mkPosition (Line (currentToken p)) (Column (currentToken p))
                 (Offset (currentToken p)).

(** [p.errors = append(p.errors, Error{...})] at the current token. *)
Definition curError (p : Parser) (msg : string) : Parser :=
  mkParser (lexer p) (currentToken p) (peekToken p)
           (errors p ++ [mkError (Line (currentToken p)) (Column (currentToken p)) msg])
           (errorMode p).

(** The same at the peek token. *)
Definition peekErrorMsg (p : Parser) (msg : string) : Parser :=
  mkParser (lexer p) (currentToken p) (peekToken p)
           (errors p ++ [mkError (Line (peekToken p)) (Column (peekToken p)) msg])
           (errorMode p).

(** [peekError] adds an error for an unexpected token. *)
Definition peekError (p : Parser) (t : TokenType) : Parser :=
  peekErrorMsg p ("expected next token to be " +++ TokenType_string t
                  +++ ", got " +++ TokenType_string (peekType p) +++ " instead").

Definition setErrorMode (p : Parser) (m : ErrorMode) : Parser :=
  mkParser (lexer p) (currentToken p) (peekToken p) (errors p) m.

Section ParserWithUnicode.

Context {U : Unicode}.

(** [nextToken] advances to the next token. *)
Definition nextToken (p : Parser) : result Parser :=
  '(tok, l) <- NextToken (lexer p) ;;
  Ok (mkParser l (peekToken p) tok (errors p) (errorMode p)).

(** [NewParser] creates a new parser; the field [errorMode] is not
    assigned and keeps the zero value of its type. *)
Definition NewParser (input : string) : result Parser :=
  let p := mkParser (NewLexer input) zeroToken zeroToken [] 0 in
  p <- nextToken p ;;
  nextToken p.

(** [NewParserWithOptions] creates a new parser with the given options. *)
Definition NewParserWithOptions (input : string) (errorMode : ErrorMode)
  : result Parser :=
  parser <- NewParser input ;;
  Ok (setErrorMode parser errorMode).

(** [skipNewlines] advances past any newline and indentation tokens. *)
Fixpoint skipNewlines (fuel : nat) (p : Parser) : result Parser :=
  if tt_eqb (curType p) NL || tt_eqb (curType p) INDENT then
    match fuel with
    | O => OutOfFuel
    | S fuel' => p <- nextToken p ;; skipNewlines fuel' p
    end
  else Ok p.

(** Whether the loop of [synchronize] stops at a token of this type:
    the end of input, a statement boundary, or the beginning of a
    statement. *)
Definition isSyncPoint (t : TokenType) : bool :=
  match t with
  | EOF => true
  | SEMICOLON | NL => true
  | CLASS | FUNC | VAR | CONST | IF | FOR | WHILE | MATCH | RETURN => true
  | _ => false
  end.

(** The loop of [synchronize]. *)
Fixpoint synchronizeLoop (fuel : nat) (p : Parser) : result Parser :=
  if isSyncPoint (curType p) then Ok p
  else
    match fuel with
    | O => OutOfFuel
    | S fuel' => p <- nextToken p ;; synchronizeLoop fuel' p
    end.

(** [synchronize] attempts to recover from a parse error by advancing to
    a synchronization point. *)
Definition synchronize (fuel : nat) (p : Parser) : result Parser :=
  p <- nextToken p ;;
  synchronizeLoop fuel p.

(** [if p.errorMode == ErrorModePanic { p.synchronize() }] *)
Definition recover (fuel : nat) (p : Parser) : result Parser :=
  if errorMode p =? ErrorModePanic then synchronize fuel p else Ok p.

(** [expectPeek] checks if the next token is of the expected type. *)
Definition expectPeek (fuel : nat) (t : TokenType) (p : Parser)
  : result (bool * Parser) :=
  if tt_eqb (peekType p) t then
    p <- nextToken p ;;
    Ok (true, p)
  else
    let p := peekError p t in
    p <- recover fuel p ;;
    Ok (false, p).

(** Precedence levels for operators. *)
Definition PREC_LOWEST : Z := 0.
Definition PREC_ASSIGN : Z := 1.
Definition PREC_LOGICAL : Z := 2.
Definition PREC_COMPARISON : Z := 3.
Definition PREC_BITWISE : Z := 4.
Definition PREC_SUM : Z := 5.
Definition PREC_PRODUCT : Z := 6.
Definition PREC_PREFIX : Z := 7.
Definition PREC_CALL : Z := 8.
Definition PREC_INDEX : Z := 9.
Definition PREC_DOT : Z := 10.

(** The operator precedence map. *)
Definition precedences (t : TokenType) : option Z :=
  match t with
  | ASSIGN | PLUSEQ | MINUSEQ | ASTERISKEQ | SLASHEQ | PERCENTEQ | AMPEQ
  | PIPEEQ | CARETEQ | LTLTEQ | GTGTEQ | POWEREQ => Some PREC_ASSIGN
  | OR | AND | PIPEPIPE | AMPAMP => Some PREC_LOGICAL
  | EQ | NOT_EQ | LT | GT | LTE | GTE => Some PREC_COMPARISON
  | BITAND | BITOR | CARET | LTLT | GTGT => Some PREC_BITWISE
  | PLUS | MINUS => Some PREC_SUM
  | ASTERISK | SLASH | PERCENT | POWER => Some PREC_PRODUCT
  | LPAREN => Some PREC_CALL
  | LBRACKET => Some PREC_INDEX
  | DOT => Some PREC_DOT
  | _ => None
  end.

(** [peekPrecedence] returns the precedence of the peek token. *)
Definition peekPrecedence (p : Parser) : Z :=
  match precedences (peekType p) with
  | Some prec => prec
  | None => PREC_LOWEST
  end.

(** [curPrecedence] returns the precedence of the current token. *)
Definition curPrecedence (p : Parser) : Z :=
  match precedences (curType p) with
  | Some prec => prec
  | None => PREC_LOWEST
  end.

Definition parseIdentifier (p : Parser) : ast.Expression :=
  ast.Identifier (curPos p) (Literal (currentToken p)).

Definition parseIntegerLiteral (p : Parser) : ast.Expression :=
  ast.NumberLiteral (curPos p) true (Literal (currentToken p)).

Definition parseFloatLiteral (p : Parser) : ast.Expression :=
  ast.NumberLiteral (curPos p) false (Literal (currentToken p)).

Definition parseStringLiteral (p : Parser) : ast.Expression :=
  ast.StringLiteral (curPos p) (Literal (currentToken p)).

Definition parseBooleanLiteral (p : Parser) : ast.Expression :=
  ast.BooleanLiteral (curPos p) (tt_eqb (curType p) TRUE).

Definition parseNullLiteral (p : Parser) : ast.Expression :=
  ast.NullLiteral (curPos p).

Definition parsePassStatement (p : Parser) : ast.PassStatement :=
  ast.NewPassStatement (curPos p).

Definition parseBreakStatement (p : Parser) : ast.BreakStatement :=
  ast.NewBreakStatement (curPos p).

Definition parseContinueStatement (p : Parser) : ast.ContinueStatement :=
  ast.NewContinueStatement (curPos p).

(** The tokens at which the infix loop of [parseExpression] stops. *)
Definition endsExpression (t : TokenType) : bool :=
  match t with
  | SEMICOLON | NL | EOF | COLON | RPAREN | COMMA | RBRACE | RBRACKET => true
  | _ => false
  end.

(** The inner switch of [parseExpression]: the valid infix operators. *)
Definition isInfixOp (t : TokenType) : bool :=
  match t with
  | PLUS | MINUS | ASTERISK | SLASH | PERCENT | POWER => true
  | EQ | NOT_EQ | LT | GT | LTE | GTE => true
  | AND | OR => true
  | ASSIGN | PLUSEQ | MINUSEQ | ASTERISKEQ | SLASHEQ => true
  | LPAREN => true
  | LBRACKET => true
  | DOT => true
  | _ => false
  end.

(** [for p.peekToken.Type == NL { p.nextToken() }]; with [indent] also
    INDENT tokens are skipped, as in [parseFunctionDefinition]. *)
Fixpoint skipPeekNewlines (fuel : nat) (indent : bool) (p : Parser) : result Parser :=
  if tt_eqb (peekType p) NL || (indent && tt_eqb (peekType p) INDENT) then
    match fuel with
    | O => OutOfFuel
    | S fuel' => p <- nextToken p ;; skipPeekNewlines fuel' indent p
    end
  else Ok p.

(** [for p.currentToken.Type != NL && p.currentToken.Type != EOF
    { p.nextToken() }] of [parseMatchStatement]. *)
Fixpoint skipToNextLine (fuel : nat) (p : Parser) : result Parser :=
  if tt_eqb (curType p) NL || tt_eqb (curType p) EOF then Ok p
  else
    match fuel with
    | O => OutOfFuel
    | S fuel' => p <- nextToken p ;; skipToNextLine fuel' p
    end.

(** Which tokens a statement loop passes over before it parses a
    statement. *)
Inductive Skip : Set := SkipNone | SkipNL | SkipNLIndent.

Definition skips (k : Skip) (t : TokenType) : bool :=
  match k, t with
  | SkipNL, NL => true
  | SkipNLIndent, NL | SkipNLIndent, INDENT => true
  | _, _ => false
  end.

Definition isNilStatement (s : ast.Statement) : bool :=
  match s with ast.NilStatement => true | _ => false end.

(** [Error{..., Message: fmt.Sprintf(format, p.currentToken.Type)}],
    followed by [synchronize] in panic mode: the common shape of the
    error exits that end in [return nil]. *)
Definition curErrorf (p : Parser) (before : string) : Parser :=
  curError p (before +++ TokenType_string (curType p)).

Definition peekErrorf (p : Parser) (before : string) : Parser :=
  peekErrorMsg p (before +++ TokenType_string (peekType p)).

(** The block test shared by the compound statements: an INDENT token is
    consumed, one of the listed statement tokens is accepted as it is,
    and anything else is an error ([false]). *)
Definition expectBlock (accepted : TokenType -> bool) (p : Parser)
  : result (bool * Parser) :=
  if tt_eqb (peekType p) INDENT then
    p <- nextToken p ;; Ok (true, p)
  else if accepted (peekType p) then Ok (true, p)
  else Ok (false, peekErrorf p "expected indentation or statement, got ").

Definition startsSimpleBody (t : TokenType) : bool :=
  match t with
  | VAR | RETURN | PASS | IF | FOR | WHILE => true
  | _ => false
  end.

Definition startsFunctionBody (t : TokenType) : bool :=
  match t with
  | VAR | RETURN | PASS => true
  | _ => false
  end.

Definition startsClassBody (t : TokenType) : bool :=
  match t with
  | VAR | FUNC | PASS | CLASS => true
  | _ => false
  end.

Definition startsElseBody (t : TokenType) : bool :=
  match t with
  | VAR | RETURN | PASS | IF | FOR | WHILE | IDENT => true
  | _ => false
  end.

(** The recursive descent.  The functions of [parser.go] that call
    [parseExpression] form one mutual definition, those that call
    [parseStatement] a second one; a loop of such a function is a member
    of its own, named after the function. *)
Fixpoint parseExpression (fuel : nat) (precedence : Z) (p : Parser) {struct fuel}
  : result (ast.Expression * Parser) :=
  match fuel with
  | O => OutOfFuel
  | S fuel =>
    (* prefix expressions *)
    '(leftExp, p) <-
      match curType p with
      | IDENT => Ok (parseIdentifier p, p)
      | INT => Ok (parseIntegerLiteral p, p)
      | FLOAT => Ok (parseFloatLiteral p, p)
      | STRING => Ok (parseStringLiteral p, p)
      | TRUE | FALSE => Ok (parseBooleanLiteral p, p)
      | NULL => Ok (parseNullLiteral p, p)
      | LPAREN => parseGroupedExpression fuel p
      | MINUS | BANG => parsePrefixExpression fuel p
      | _ => Ok (ast.NilExpression, p)
      end ;;
    if ast.isNil leftExp then Ok (ast.NilExpression, p)
    else parseExpressionLoop fuel precedence leftExp p
  end

(** the infix loop of [parseExpression] *)
with parseExpressionLoop (fuel : nat) (precedence : Z) (leftExp : ast.Expression)
                         (p : Parser) {struct fuel}
  : result (ast.Expression * Parser) :=
  match fuel with
  | O => OutOfFuel
  | S fuel =>
    if endsExpression (peekType p) then Ok (leftExp, p)
    else if tt_eqb (peekType p) IF then
      (* special case: conditional expression (ternary operator) *)
      '(leftExp, p) <- parseConditionalExpression fuel leftExp p ;;
      parseExpressionLoop fuel precedence leftExp p
    else
      let peekPrec := peekPrecedence p in
      if peekPrec <=? precedence then Ok (leftExp, p)
      else if negb (isInfixOp (peekType p)) then Ok (leftExp, p)
      else
        p <- nextToken p ;;
        '(leftExp, p) <- parseInfixExpression fuel leftExp p ;;
        parseExpressionLoop fuel precedence leftExp p
  end

with parseCallExpression (fuel : nat) (fn : ast.Expression) (p : Parser) {struct fuel}
  : result (ast.Expression * Parser) :=
  match fuel with
  | O => OutOfFuel
  | S fuel =>
    let pos := curPos p in
    '(args, p) <- parseCallArguments fuel p ;;
    Ok (ast.CallExpression pos fn args, p)
  end

with parseCallArguments (fuel : nat) (p : Parser) {struct fuel}
  : result (list ast.Expression * Parser) :=
  match fuel with
  | O => OutOfFuel
  | S fuel =>
    if tt_eqb (peekType p) RPAREN then
      p <- nextToken p ;; Ok ([], p)
    else
      p <- nextToken p ;;
      '(arg, p) <- parseExpression fuel PREC_LOWEST p ;;
      '(args, p) <- parseCallArgumentsLoop fuel [arg] p ;;
      '(ok, p) <- expectPeek fuel RPAREN p ;;
      if negb ok then Ok ([], p) else Ok (args, p)
  end

with parseCallArgumentsLoop (fuel : nat) (args : list ast.Expression) (p : Parser)
                            {struct fuel}
  : result (list ast.Expression * Parser) :=
  match fuel with
  | O => OutOfFuel
  | S fuel =>
    if tt_eqb (peekType p) COMMA then
      p <- nextToken p ;;
      p <- nextToken p ;;
      '(arg, p) <- parseExpression fuel PREC_LOWEST p ;;
      parseCallArgumentsLoop fuel (args ++ [arg]) p
    else Ok (args, p)
  end

with parseGroupedExpression (fuel : nat) (p : Parser) {struct fuel}
  : result (ast.Expression * Parser) :=
  match fuel with
  | O => OutOfFuel
  | S fuel =>
    p <- nextToken p ;;                      (* consume '(' *)
    '(exp, p) <- parseExpression fuel PREC_LOWEST p ;;
    if ast.isNil exp then Ok (ast.NilExpression, p)
    else
      '(ok, p) <- expectPeek fuel RPAREN p ;;
      if negb ok then Ok (ast.NilExpression, p) else Ok (exp, p)
  end

with parsePrefixExpression (fuel : nat) (p : Parser) {struct fuel}
  : result (ast.Expression * Parser) :=
  match fuel with
  | O => OutOfFuel
  | S fuel =>
    let pos := curPos p in
    let operator := Literal (currentToken p) in
    p <- nextToken p ;;
    '(rightExp, p) <- parseExpression fuel PREC_PREFIX p ;;
    Ok (ast.PrefixExpression pos operator rightExp, p)
  end

with parseInfixExpression (fuel : nat) (left : ast.Expression) (p : Parser)
                          {struct fuel}
  : result (ast.Expression * Parser) :=
  match fuel with
  | O => OutOfFuel
  | S fuel =>
    if tt_eqb (curType p) LPAREN then parseCallExpression fuel left p
    else
      let pos := curPos p in
      let operator := Literal (currentToken p) in
      let precedence := curPrecedence p in
      p <- nextToken p ;;
      '(rightExp, p) <- parseExpression fuel precedence p ;;
      Ok (ast.InfixExpression pos left operator rightExp, p)
  end

(** [parseConditionalExpression] parses a conditional expression,
    [value_if_true if condition else value_if_false]. *)
with parseConditionalExpression (fuel : nat) (valueIfTrue : ast.Expression)
                                (p : Parser) {struct fuel}
  : result (ast.Expression * Parser) :=
  match fuel with
  | O => OutOfFuel
  | S fuel =>
    p <- nextToken p ;;                      (* consume 'if' *)
    '(condition, p) <- parseExpression fuel PREC_LOWEST p ;;
    if ast.isNil condition then
      Ok (ast.NilExpression,
          curError p "expected condition expression in conditional expression")
    else
      '(ok, p) <- expectPeek fuel ELSE p ;;
      if negb ok then Ok (ast.NilExpression, p)
      else
        p <- nextToken p ;;                  (* consume 'else' *)
        '(valueIfFalse, p) <- parseExpression fuel PREC_LOWEST p ;;
        if ast.isNil valueIfFalse then
          Ok (ast.NilExpression,
              curError p "expected expression after 'else' in conditional expression")
        else
          pos <- ast.Expression_Position valueIfTrue ;;
          Ok (ast.ConditionalExpression pos condition valueIfTrue valueIfFalse, p)
  end.

Definition parseReturnStatement (fuel : nat) (p : Parser)
  : result (ast.ReturnStatement * Parser) :=
  let stmt := ast.NewReturnStatement (curPos p) ast.NilExpression in
  p <- nextToken p ;;
  (* a return value unless a semicolon or newline follows *)
  if tt_eqb (curType p) SEMICOLON || tt_eqb (curType p) NL then Ok (stmt, p)
  else
    '(value, p) <- parseExpression fuel PREC_LOWEST p ;;
    Ok (ast.mkReturn (ast.Return_Base stmt) value, p).

Definition parseExpressionStatement (fuel : nat) (p : Parser)
  : result (ast.ExpressionStatement * Parser) :=
  let pos := curPos p in
  '(exp, p) <- parseExpression fuel PREC_LOWEST p ;;
  let stmt := ast.NewExpressionStatement pos exp in
  if tt_eqb (peekType p) SEMICOLON then
    p <- nextToken p ;; Ok (stmt, p)
  else Ok (stmt, p).

Definition parseVarStatement (fuel : nat) (p : Parser)
  : result (option ast.VarStatement * Parser) :=
  let pos := curPos p in
  p <- nextToken p ;;                      (* skip 'var' *)
  p <- skipNewlines fuel p ;;
  if negb (tt_eqb (curType p) IDENT) then
    p <- recover fuel (curErrorf p "expected identifier, got ") ;;
    Ok (None, p)
  else
    let stmt := ast.NewVarStatement pos (Literal (currentToken p)) false in
    p <- nextToken p ;;                    (* move past the identifier *)
    let assignment (stmt : ast.VarStatement) (p : Parser) :=
      if tt_eqb (curType p) ASSIGN then
        p <- nextToken p ;;                (* skip equals sign *)
        '(value, p) <- parseExpression fuel PREC_LOWEST p ;;
        p <- nextToken p ;;                (* advance past the expression *)
        Ok (Some (ast.SetValue stmt value), p)
      else Ok (Some stmt, p) in
    if tt_eqb (curType p) COLON then
      p <- nextToken p ;;                  (* skip colon *)
      if negb (tt_eqb (curType p) IDENT) then
        p <- recover fuel (curErrorf p "expected type identifier, got ") ;;
        Ok (None, p)
      else
        let stmt := ast.SetTypeHint stmt (Literal (currentToken p)) in
        p <- nextToken p ;;                (* skip type identifier *)
        assignment stmt p
    else if tt_eqb (curType p) COLONASSIGN then
      let stmt := ast.SetInferred stmt in
      p <- nextToken p ;;                  (* skip := *)
      '(value, p) <- parseExpression fuel PREC_LOWEST p ;;
      Ok (Some (ast.SetValue stmt value), p)
    else assignment stmt p.

Definition parseConstStatement (fuel : nat) (p : Parser)
  : result (option ast.VarStatement * Parser) :=
  let pos := curPos p in
  p <- nextToken p ;;                      (* skip 'const' *)
  p <- skipNewlines fuel p ;;
  if negb (tt_eqb (curType p) IDENT) then
    p <- recover fuel (curErrorf p "expected identifier, got ") ;;
    Ok (None, p)
  else
    let stmt := ast.SetConst (ast.NewVarStatement pos (Literal (currentToken p)) false) in
    p <- nextToken p ;;                    (* move past the identifier *)
    let assignment (stmt : ast.VarStatement) (p : Parser) :=
      (* constants must have an assignment *)
      if negb (tt_eqb (curType p) ASSIGN) then
        p <- recover fuel (curError p "constants must be assigned a value") ;;
        Ok (None, p)
      else
        p <- nextToken p ;;                (* skip equals sign *)
        '(value, p) <- parseExpression fuel PREC_LOWEST p ;;
        p <- nextToken p ;;                (* advance past the expression *)
        Ok (Some (ast.SetValue stmt value), p) in
    if tt_eqb (curType p) COLON then
      p <- nextToken p ;;                  (* skip colon *)
      if negb (tt_eqb (curType p) IDENT) then
        p <- recover fuel (curErrorf p "expected type identifier, got ") ;;
        Ok (None, p)
      else
        let stmt := ast.SetTypeHint stmt (Literal (currentToken p)) in
        p <- nextToken p ;;                (* skip type identifier *)
        assignment stmt p
    else assignment stmt p.

Definition parseParameter (fuel : nat) (p : Parser)
  : result (option ast.Param * Parser) :=
  if negb (tt_eqb (curType p) IDENT) then
    Ok (None, curErrorf p "expected parameter name, got ")
  else
    let pos := curPos p in
    let name := Literal (currentToken p) in
    p <- nextToken p ;;                    (* skip parameter name *)
    let default (typeHint : string) (p : Parser) :=
      if tt_eqb (curType p) ASSIGN then
        p <- nextToken p ;;                (* skip '=' *)
        '(value, p) <- parseExpression fuel PREC_LOWEST p ;;
        if ast.isNil value then
          Ok (None, curError p "invalid default value expression")
        else
          p <- nextToken p ;;              (* advance past the expression *)
          Ok (Some (ast.mkParam pos name typeHint value), p)
      else Ok (Some (ast.mkParam pos name typeHint ast.NilExpression), p) in
    if tt_eqb (curType p) COLON then
      p <- nextToken p ;;                  (* skip ':' *)
      if negb (tt_eqb (curType p) IDENT) then
        Ok (None, curErrorf p "expected type name after ':', got ")
      else
        let typeHint := Literal (currentToken p) in
        p <- nextToken p ;;                (* skip type name *)
        default typeHint p
    else default "" p.

(** the loop over the additional parameters; the flag is [false] when a
    parameter failed and [parseParameterList] returns at once *)
Fixpoint parseParameterListLoop (fuel : nat) (function : ast.Function) (p : Parser)
                            {struct fuel}
  : result (ast.Function * bool * Parser) :=
  match fuel with
  | O => OutOfFuel
  | S fuel =>
    if tt_eqb (curType p) COMMA then
      p <- nextToken p ;;                    (* skip ',' *)
      if tt_eqb (curType p) RPAREN then Ok (function, true, p)   (* trailing comma *)
      else
        '(param, p) <- parseParameter fuel p ;;
        match param with
        | None => Ok (function, false, p)
        | Some param =>
          parseParameterListLoop fuel (ast.AddParameter function param) p
        end
    else Ok (function, true, p)
  end.

(** [parseParameterList] parses the parameter list of a function; the
    function is updated in place. *)
Definition parseParameterList (fuel : nat) (function : ast.Function) (p : Parser)
                       
  : result (ast.Function * Parser) :=
  p <- nextToken p ;;                      (* skip '(' *)
  if tt_eqb (curType p) RPAREN then
    p <- nextToken p ;; Ok (function, p)   (* empty parameter list *)
  else
    '(param, p) <- parseParameter fuel p ;;
    match param with
    | None => Ok (function, p)
    | Some param =>
      '(res, p) <- parseParameterListLoop fuel (ast.AddParameter function param) p ;;
      let '(function, finished) := res in
      if negb finished then Ok (function, p)
      else if negb (tt_eqb (curType p) RPAREN) then
        Ok (function, curError p "expected ')' at end of parameter list")
      else
        p <- nextToken p ;; Ok (function, p)
    end.

(** [parseStatement] parses a statement; the result of the routine it
    dispatches to is converted to the interface type. *)
Fixpoint parseStatement (fuel : nat) (p : Parser) {struct fuel}
  : result (ast.Statement * Parser) :=
  match fuel with
  | O => OutOfFuel
  | S fuel =>
    match curType p with
    | PASS => Ok (ast.StmtPass (Some (parsePassStatement p)), p)
    | RETURN => '(s, p) <- parseReturnStatement fuel p ;; Ok (ast.StmtReturn (Some s), p)
    | VAR => '(s, p) <- parseVarStatement fuel p ;; Ok (ast.StmtVar s, p)
    | CONST => '(s, p) <- parseConstStatement fuel p ;; Ok (ast.StmtVar s, p)
    | FUNC => '(s, p) <- parseFunctionDefinition fuel p ;; Ok (ast.StmtFunction s, p)
    | CLASS => '(s, p) <- parseClassDefinition fuel p ;; Ok (ast.StmtClass s, p)
    | IF => '(s, p) <- parseIfStatement fuel p ;; Ok (ast.StmtIf s, p)
    | WHILE => '(s, p) <- parseWhileStatement fuel p ;; Ok (ast.StmtWhile s, p)
    | FOR => '(s, p) <- parseForStatement fuel p ;; Ok (ast.StmtFor s, p)
    | MATCH => '(s, p) <- parseMatchStatement fuel p ;; Ok (ast.StmtMatch s, p)
    | BREAK => Ok (ast.StmtBreak (Some (parseBreakStatement p)), p)
    | CONTINUE => Ok (ast.StmtContinue (Some (parseContinueStatement p)), p)
    | IDENT | INT | FLOAT | STRING | RSTRING | TRUE | FALSE | NULL | SELF | LPAREN =>
      '(s, p) <- parseExpressionStatement fuel p ;; Ok (ast.StmtExpression (Some s), p)
    | _ => Ok (ast.NilStatement, p)
    end
  end

(** a statement loop: [for cur != DEDENT && cur != EOF { ...;
    stmt := p.parseStatement(); if stmt != nil { node.Add(stmt) };
    p.nextToken() }], where the loop first passes over the tokens
    selected by [skip] *)
with parseBlock (fuel : nat) (A : Type) (skip : Skip)
                (add : A -> ast.Statement -> A) (node : A) (p : Parser)
                {struct fuel}
  : result (A * Parser) :=
  match fuel with
  | O => OutOfFuel
  | S fuel =>
    if tt_eqb (curType p) DEDENT || tt_eqb (curType p) EOF then Ok (node, p)
    else if skips skip (curType p) then
      p <- nextToken p ;;
      parseBlock fuel A skip add node p
    else
      '(stmt, p) <- parseStatement fuel p ;;
      let node := if isNilStatement stmt then node else add node stmt in
      p <- nextToken p ;;
      parseBlock fuel A skip add node p
  end

with parseFunctionDefinition (fuel : nat) (p : Parser) {struct fuel}
  : result (option ast.Function * Parser) :=
  match fuel with
  | O => OutOfFuel
  | S fuel =>
    let startPos := curPos p in
    let afterStatic (isStatic : bool) (p : Parser) :=
      p <- nextToken p ;;                    (* skip 'func' *)
      if negb (tt_eqb (curType p) IDENT) then
        Ok (None, curErrorf p "expected function name, got ")
      else
        let function := ast.NewFunction (Literal (currentToken p)) startPos in
        let function := ast.setIsStatic function isStatic in
        p <- nextToken p ;;                  (* move past the function name *)
        if negb (tt_eqb (curType p) LPAREN) then
          Ok (None, curErrorf p "expected '(' after function name, got ")
        else
          '(function, p) <- parseParameterList fuel function p ;;
          let body (function : ast.Function) (p : Parser) :=
            '(ok, p) <- (if negb (tt_eqb (curType p) COLON)
                         then expectPeek fuel COLON p else Ok (true, p)) ;;
            if negb ok then Ok (None, p)
            else
              p <- skipPeekNewlines fuel true p ;;
              let statements (p : Parser) :=
                '(function, p) <- parseBlock fuel ast.Function SkipNL
                                             ast.Function_AddStatement function p ;;
                Ok (Some function, p) in
              if tt_eqb (peekType p) INDENT then
                p <- nextToken p ;;          (* consume INDENT *)
                statements p
              else if startsFunctionBody (peekType p) then statements p
              else if tt_eqb (peekType p) EOF then
                Ok (Some function, p)        (* no body to parse *)
              else
                Ok (None, peekErrorf p "expected indentation or statement, got ") in
          if tt_eqb (curType p) ARROW then
            p <- nextToken p ;;              (* skip arrow *)
            if negb (tt_eqb (curType p) IDENT) then
              p <- recover fuel (curErrorf p "expected return type, got ") ;;
              Ok (None, p)
            else
              let function := ast.setReturnType function (Literal (currentToken p)) in
              p <- nextToken p ;;            (* skip return type *)
              body function p
          else body function p in
    if tt_eqb (curType p) STATIC then
      p <- nextToken p ;;                    (* skip 'static' *)
      if negb (tt_eqb (curType p) FUNC) then
        Ok (None, curErrorf p "expected 'func' after 'static', got ")
      else afterStatic true p
    else afterStatic false p
  end

with parseClassDefinition (fuel : nat) (p : Parser) {struct fuel}
  : result (option ast.Class * Parser) :=
  match fuel with
  | O => OutOfFuel
  | S fuel =>
    let pos := curPos p in
    p <- nextToken p ;;                      (* skip 'class' *)
    p <- skipNewlines fuel p ;;
    if negb (tt_eqb (curType p) IDENT) then
      p <- recover fuel (curErrorf p "expected class name, got ") ;;
      Ok (None, p)
    else
      let class := ast.NewClass (Literal (currentToken p)) pos in
      p <- nextToken p ;;                    (* move past the class name *)
      let body (class : ast.Class) (p : Parser) :=
        '(ok, p) <- (if negb (tt_eqb (curType p) COLON)
                     then expectPeek fuel COLON p else Ok (true, p)) ;;
        if negb ok then Ok (None, p)
        else
          p <- skipPeekNewlines fuel false p ;;
          '(ok, p) <- expectBlock startsClassBody p ;;
          if negb ok then Ok (None, p)
          else
            '(class, p) <- parseClassBody fuel class p ;;
            Ok (Some class, p) in
      if tt_eqb (curType p) EXTENDS then
        p <- nextToken p ;;                  (* skip extends keyword *)
        if negb (tt_eqb (curType p) IDENT) then
          p <- recover fuel (curErrorf p "expected parent class name, got ") ;;
          Ok (None, p)
        else
          let class := ast.setExtends class (Literal (currentToken p)) in
          p <- nextToken p ;;                (* skip parent class name *)
          body class p
      else body class p
  end

(** the loop over the class body *)
with parseClassBody (fuel : nat) (class : ast.Class) (p : Parser) {struct fuel}
  : result (ast.Class * Parser) :=
  match fuel with
  | O => OutOfFuel
  | S fuel =>
    if tt_eqb (curType p) DEDENT || tt_eqb (curType p) EOF then Ok (class, p)
    else if tt_eqb (curType p) NL || tt_eqb (curType p) INDENT then
      p <- nextToken p ;;
      parseClassBody fuel class p
    else if tt_eqb (curType p) FUNC then
      '(function, p) <- parseFunctionDefinition fuel p ;;
      let class := match function with
                   | Some _ => ast.AddFunction class function
                   | None => class
                   end in
      p <- nextToken p ;;
      parseClassBody fuel class p
    else if tt_eqb (curType p) CLASS then
      '(subClass, p) <- parseClassDefinition fuel p ;;
      let class := match subClass with
                   | Some _ => ast.AddSubClass class subClass
                   | None => class
                   end in
      p <- nextToken p ;;
      parseClassBody fuel class p
    else
      '(stmt, p) <- parseStatement fuel p ;;
      let class := if isNilStatement stmt then class
                   else ast.Class_AddStatement class stmt in
      p <- nextToken p ;;
      parseClassBody fuel class p
  end

with parseIfStatement (fuel : nat) (p : Parser) {struct fuel}
  : result (option ast.IfStatement * Parser) :=
  match fuel with
  | O => OutOfFuel
  | S fuel =>
    let pos := curPos p in
    p <- nextToken p ;;                      (* skip 'if' *)
    '(condition, p) <- parseExpression fuel PREC_LOWEST p ;;
    if ast.isNil condition then
      p <- recover fuel (curError p "expected condition expression after 'if'") ;;
      Ok (None, p)
    else
      let stmt := ast.NewIfStatement pos condition in
      '(ok, p) <- expectPeek fuel COLON p ;;
      if negb ok then Ok (None, p)
      else
        p <- skipPeekNewlines fuel false p ;;
        '(ok, p) <- expectBlock startsSimpleBody p ;;
        if negb ok then Ok (None, p)
        else
          '(stmt, p) <- parseBlock fuel ast.IfStatement SkipNLIndent
                                   ast.AddConsequenceStatement stmt p ;;
          (* past the DEDENT, to look for elif/else at the level of 'if' *)
          p <- (if tt_eqb (curType p) DEDENT then nextToken p else Ok p) ;;
          '(res, p) <- parseElifBranches fuel stmt p ;;
          match res with
          | None => Ok (None, p)
          | Some stmt =>
            if tt_eqb (curType p) ELSE then
              p <- nextToken p ;;            (* skip 'else' *)
              '(ok, p) <-
                (if tt_eqb (curType p) COLON then Ok (true, p)
                 else if tt_eqb (peekType p) COLON then expectPeek fuel COLON p
                 else Ok (false, curErrorf p "expected ':' after 'else', got ")) ;;
              if negb ok then Ok (None, p)
              else
                p <- skipPeekNewlines fuel false p ;;
                '(ok, p) <-
                  (if tt_eqb (peekType p) INDENT then
                     p <- nextToken p ;; Ok (true, p)
                   else if startsElseBody (peekType p) then Ok (true, p)
                   else Ok (false, peekErrorf p
                              "expected indentation or statement after else, got ")) ;;
                if negb ok then Ok (None, p)
                else
                  '(elseBody, p) <- parseBlock fuel (list ast.Statement) SkipNLIndent
                                               (fun body s => body ++ [s]) [] p ;;
                  Ok (Some (ast.SetAlternative stmt elseBody), p)
            else Ok (Some stmt, p)
          end
  end

(** the loop over the [elif] branches; [None] when the statement is
    abandoned *)
with parseElifBranches (fuel : nat) (stmt : ast.IfStatement) (p : Parser)
                       {struct fuel}
  : result (option ast.IfStatement * Parser) :=
  match fuel with
  | O => OutOfFuel
  | S fuel =>
    if tt_eqb (curType p) ELIF then
      p <- nextToken p ;;                    (* skip 'elif' *)
      '(elifCondition, p) <- parseExpression fuel PREC_LOWEST p ;;
      if ast.isNil elifCondition then
        p <- recover fuel (curError p "expected condition expression after 'elif'") ;;
        Ok (None, p)
      else
        '(ok, p) <- expectPeek fuel COLON p ;;
        if negb ok then Ok (None, p)
        else
          p <- skipPeekNewlines fuel false p ;;
          p <- (if tt_eqb (peekType p) INDENT then nextToken p else Ok p) ;;
          '(elifBody, p) <- parseBlock fuel (list ast.Statement) SkipNLIndent
                                       (fun body s => body ++ [s]) [] p ;;
          let stmt := ast.AddElseIfBranch stmt elifCondition elifBody in
          p <- (if tt_eqb (curType p) DEDENT then nextToken p else Ok p) ;;
          parseElifBranches fuel stmt p
    else Ok (Some stmt, p)
  end

with parseForStatement (fuel : nat) (p : Parser) {struct fuel}
  : result (option ast.ForStatement * Parser) :=
  match fuel with
  | O => OutOfFuel
  | S fuel =>
    let pos := curPos p in
    p <- nextToken p ;;                      (* skip 'for' *)
    if negb (tt_eqb (curType p) IDENT) then
      p <- recover fuel (curErrorf p "expected iterator variable name, got ") ;;
      Ok (None, p)
    else
      let iteratorName := Literal (currentToken p) in
      let iteratorPos := curPos p in
      p <- nextToken p ;;                    (* move past iterator name *)
      let rest (isTyped : bool) (typeHint : string) (p : Parser) :=
        if negb (tt_eqb (curType p) IN) then
          p <- recover fuel (curErrorf p "expected 'in' keyword, got ") ;;
          Ok (None, p)
        else
          p <- nextToken p ;;                (* skip 'in' keyword *)
          '(collection, p) <- parseExpression fuel PREC_LOWEST p ;;
          if ast.isNil collection then
            p <- recover fuel (curError p "expected collection expression after 'in'") ;;
            Ok (None, p)
          else
            let stmt := ast.NewForStatement pos iteratorName iteratorPos collection isTyped in
            let stmt := if isTyped then ast.For_SetTypeHint stmt typeHint else stmt in
            '(ok, p) <- expectPeek fuel COLON p ;;
            if negb ok then Ok (None, p)
            else
              p <- skipPeekNewlines fuel false p ;;
              '(ok, p) <- expectBlock startsSimpleBody p ;;
              if negb ok then Ok (None, p)
              else
                '(stmt, p) <- parseBlock fuel ast.ForStatement SkipNLIndent
                                         ast.For_AddBodyStatement stmt p ;;
                Ok (Some stmt, p) in
      if tt_eqb (curType p) COLON then
        p <- nextToken p ;;                  (* skip colon *)
        if negb (tt_eqb (curType p) IDENT) then
          p <- recover fuel (curErrorf p "expected type identifier, got ") ;;
          Ok (None, p)
        else
          let typeHint := Literal (currentToken p) in
          p <- nextToken p ;;                (* skip type identifier *)
          rest true typeHint p
      else rest false "" p
  end

with parseWhileStatement (fuel : nat) (p : Parser) {struct fuel}
  : result (option ast.WhileStatement * Parser) :=
  match fuel with
  | O => OutOfFuel
  | S fuel =>
    let pos := curPos p in
    p <- nextToken p ;;                      (* skip 'while' *)
    '(condition, p) <- parseExpression fuel PREC_LOWEST p ;;
    if ast.isNil condition then
      p <- recover fuel (curError p "expected condition expression after 'while'") ;;
      Ok (None, p)
    else
      let stmt := ast.NewWhileStatement pos condition in
      '(ok, p) <- expectPeek fuel COLON p ;;
      if negb ok then Ok (None, p)
      else
        p <- skipPeekNewlines fuel false p ;;
        '(ok, p) <- expectBlock startsSimpleBody p ;;
        if negb ok then Ok (None, p)
        else
          '(stmt, p) <- parseBlock fuel ast.WhileStatement SkipNLIndent
                                   ast.While_AddBodyStatement stmt p ;;
          Ok (Some stmt, p)
  end

with parseMatchStatement (fuel : nat) (p : Parser) {struct fuel}
  : result (option ast.MatchStatement * Parser) :=
  match fuel with
  | O => OutOfFuel
  | S fuel =>
    let pos := curPos p in
    p <- nextToken p ;;                      (* skip 'match' *)
    '(value, p) <- parseExpression fuel PREC_LOWEST p ;;
    if ast.isNil value then
      p <- recover fuel (curError p "expected expression after 'match'") ;;
      Ok (None, p)
    else
      let stmt := ast.NewMatchStatement pos value in
      '(ok, p) <- expectPeek fuel COLON p ;;
      if negb ok then Ok (None, p)
      else
        p <- skipPeekNewlines fuel false p ;;
        (* an INDENT is consumed; otherwise move to the first pattern *)
        p <- nextToken p ;;
        '(stmt, p) <- parseMatchBranches fuel stmt p ;;
        Ok (Some stmt, p)
  end

(** the loop over the branches of a [match]; every [break] of the Go
    loop returns the statement as it stands *)
with parseMatchBranches (fuel : nat) (stmt : ast.MatchStatement) (p : Parser)
                        {struct fuel}
  : result (ast.MatchStatement * Parser) :=
  match fuel with
  | O => OutOfFuel
  | S fuel =>
    if tt_eqb (curType p) DEDENT || tt_eqb (curType p) EOF then Ok (stmt, p)
    else
      '(pattern, p) <- parseExpression fuel PREC_LOWEST p ;;
      if ast.isNil pattern then
        p <- recover fuel (curError p "expected pattern expression in match branch") ;;
        Ok (stmt, p)
      else
        let branch := ast.NewMatchBranch (curPos p) pattern in
        '(guarded, p) <-
          (if tt_eqb (peekType p) WHEN then
             p <- nextToken p ;;             (* move to 'when' *)
             p <- nextToken p ;;             (* skip 'when' *)
             '(guard, p) <- parseExpression fuel PREC_LOWEST p ;;
             if ast.isNil guard then
               p <- recover fuel (curError p "expected guard expression after 'when'") ;;
               Ok (None, p)
             else Ok (Some (ast.SetGuard branch guard), p)
           else Ok (Some branch, p)) ;;
        match guarded with
        | None => Ok (stmt, p)
        | Some branch =>
          '(ok, p) <- expectPeek fuel COLON p ;;
          if negb ok then Ok (stmt, p)
          else if tt_eqb (peekType p) NL then
            (* multi-line branch body *)
            p <- nextToken p ;;              (* skip newline *)
            '(ok, p) <- expectPeek fuel INDENT p ;;
            if negb ok then Ok (stmt, p)
            else
              '(branch, p) <- parseBlock fuel ast.MatchBranch SkipNone
                                         ast.Branch_AddBodyStatement branch p ;;
              parseMatchBranches fuel (ast.AddBranch stmt branch) p
          else
            (* single-line branch body *)
            p <- nextToken p ;;              (* move past colon *)
            '(bodyStmt, p) <- parseStatement fuel p ;;
            let branch := if isNilStatement bodyStmt then branch
                          else ast.Branch_AddBodyStatement branch bodyStmt in
            p <- skipToNextLine fuel p ;;
            p <- (if tt_eqb (curType p) NL then nextToken p else Ok p) ;;
            parseMatchBranches fuel (ast.AddBranch stmt branch) p
        end
  end.

(** the loop of [parseGlobalScope] *)
Fixpoint parseGlobalScopeLoop (fuel : nat) (class : ast.Class) (p : Parser)
  : result (ast.Class * Parser) :=
  match fuel with
  | O => OutOfFuel
  | S fuel =>
    if tt_eqb (curType p) EOF then Ok (class, p)
    else
      '(stmt, p) <- parseStatement fuel p ;;
      let class :=
        match stmt with
        | ast.NilStatement => class
        | ast.StmtFunction function => ast.AddFunction class function
        | ast.StmtClass classStmt => ast.AddSubClass class classStmt
        | _ => ast.Class_AddStatement class stmt
        end in
      p <- nextToken p ;;
      parseGlobalScopeLoop fuel class p
  end.

(** [parseGlobalScope] parses the global scope as a class. *)
Definition parseGlobalScope (fuel : nat) (p : Parser) : result (option ast.Class * Parser) :=
  let class := ast.NewClass "global scope" (ast.mkPosition 1 1 0) in
  '(class, p) <- parseGlobalScopeLoop fuel class p ;;
  Ok (Some class, p).

(** [Parse] parses the input and returns an AST. *)
Definition Parse (fuel : nat) (p : Parser) : result (ast.AbstractSyntaxTree * Parser) :=
  let tree := ast.NewAST in
  '(class, p) <- parseGlobalScope fuel p ;;
  match class with
  | Some c =>
    Ok (ast.mkAST (ast.AST_Pos tree) class
                  ((ast.Classes tree ++ [class]) ++ ast.Class_SubClasses c)
                  (ast.AST_Functions tree), p)
  | None => Ok (tree, p)
  end.

(** [Errors] returns the parser errors. *)
Definition Errors (p : Parser) : list Error := errors p.

(** [ParseFile] parses a GDScript file with panic mode recovery;
    [baseName] is [filepath.Base(filePath)].  The root class is the
    first entry of [Classes] as well, so the new name shows there too. *)
Definition ParseFile (fuel : nat) (baseName : string) (content : string)
  : result (ast.AbstractSyntaxTree * list Error) :=
  parser <- NewParserWithOptions content ErrorModePanic ;;
  '(tree, parser) <- Parse fuel parser ;;
  let tree :=
    match ast.RootClass tree with
    | Some c =>
      let c := ast.setName c baseName in
      ast.mkAST (ast.AST_Pos tree) (Some c) (Some c :: tl (ast.Classes tree))
                (ast.AST_Functions tree)
    | None => tree
    end in
  Ok (tree, Errors parser).

(** The one-argument entry: a parser made from the source text alone,
    then run. *)
Definition parseSource (fuel : nat) (input : string)
  : result (ast.AbstractSyntaxTree * list Error) :=
  p <- NewParser input ;;
  '(tree, p) <- Parse fuel p ;;
  Ok (tree, Errors p).

End ParserWithUnicode.

(** ** Notions used in the statements *)

(** All token types, in the order of their declaration. *)
Definition allTokenTypes : list TokenType :=
  [ NOTYPE; ILLEGAL; EOF; COMMENT; NL; INDENT; DEDENT;
    IDENT; INT; FLOAT; STRING; RSTRING; HEX; BIN;
    ASSIGN; PLUS; MINUS; BANG; ASTERISK; SLASH; PERCENT; POWER;
    LT; GT; EQ; NOT_EQ; LTE; GTE; AND; OR; NOT; AMPAMP; PIPEPIPE;
    PLUSEQ; MINUSEQ; ASTERISKEQ; SLASHEQ; PERCENTEQ; AMPEQ; PIPEEQ;
    CARETEQ; LTLTEQ; GTGTEQ; POWEREQ;
    BITAND; BITOR; CARET; BITNOT; LTLT; GTGT;
    DOT; COMMA; COLON; SEMICOLON; LPAREN; RPAREN; LBRACE; RBRACE;
    LBRACKET; RBRACKET; AT; DOLLAR; ARROW; COLONASSIGN;
    FUNC; CLASS; EXTENDS; CLASS_NAME; VAR; CONST; STATIC; ENUM; SIGNAL;
    PASS; RETURN; IF; ELIF; ELSE; FOR; WHILE; BREAK; CONTINUE; MATCH;
    WHEN; IN; IS; AS; AWAIT; BREAKPOINT; TRUE; FALSE; NULL; SELF;
    GET; SET ].

(** The token type with a given string value, if there is one. *)
Definition TokenType_of_string (s : string) : option TokenType :=
  find (fun t => String.eqb (TokenType_string t) s) allTokenTypes.

(** The number of tokens of a type in a token sequence. *)
Definition countType (t : TokenType) (toks : list Token) : nat :=
  List.length (filter (fun tok => tt_eqb (Type_ tok) t) toks).

(** The positions of a lexer are consistent: the cursor lies inside the
    input, and a character other than NUL under the cursor occupies at
    least one byte. *)
Definition LexerInv (l : Lexer) : Prop :=
  0 <= position l /\ position l <= readPosition l
  /\ readPosition l <= len (input l)
  /\ (ch l <> 0 -> position l < readPosition l).

(** The indentation stack starts with the seed width 0 (its bottom is
    the head of the list). *)
Definition seeded (stack : list Z) : Prop :=
  exists rest, stack = 0 :: rest.

(** Whether [parseStatement] has a routine for a token type. *)
Definition hasDispatch (t : TokenType) : bool :=
  match t with
  | PASS | RETURN | VAR | CONST | FUNC | CLASS | IF | WHILE | FOR | MATCH
  | BREAK | CONTINUE => true
  | IDENT | INT | FLOAT | STRING | RSTRING | TRUE | FALSE | NULL | SELF
  | LPAREN => true
  | _ => false
  end.

(** [n] applications of a state transformer that may fail. *)
Fixpoint iterate {A : Type} (f : A -> result A) (n : nat) (a : A) : result A :=
  match n with
  | O => Ok a
  | S n' => a' <- f a ;; iterate f n' a'
  end.

(** The token queued for an ambiguous dedent: present unless the top of
    the remaining stack is exactly the new width. *)
Definition ambiguousDedent (l : Lexer) (kept : list Z) (indent : Z) : list Token :=
  match top kept with
  | Some t => if indent =? t then [] else [newToken l ILLEGAL "invalid indentation"]
  | None => [newToken l ILLEGAL "invalid indentation"]
  end.

(** The scanning of characters leaves the input, the indentation stack
    and the token queue of a lexer alone. *)
Definition frame (l l' : Lexer) : Prop :=
  input l' = input l /\ indentStack l' = indentStack l /\ tokens l' = tokens l.

(** The tokens that [handleIndentation] queues. *)
Definition isStructural (tok : Token) : bool :=
  match Type_ tok with
  | INDENT | DEDENT | ILLEGAL => true
  | _ => false
  end.

(** The balance of INDENT and DEDENT tokens at a point of a lexer run,
    [out] being the tokens returned so far: counting also the tokens
    still queued, there is one INDENT more than DEDENT for every entry
    of the indentation stack above the seed. *)
Definition balanced (out : list Token) (l : Lexer) : Prop :=
  (countType INDENT (out ++ tokens l) + 1
   = countType DEDENT (out ++ tokens l) + List.length (indentStack l))%nat.

(** Scanning from [l] to [l']: the frame is kept, and consistent
    positions stay consistent and do not move backwards; with [strict]
    the cursor has moved forwards. *)
Definition advance (strict : bool) (l l' : Lexer) : Prop :=
  frame l l'
  /\ (LexerInv l ->
      LexerInv l'
      /\ if strict then position l < position l' else position l <= position l').

(** A bound on the number of tokens a lexer has yet to return before the
    end of input. *)
Definition remaining (l : Lexer) : nat :=
  (3 * Z.to_nat (len (input l) - position l)
   + List.length (tokens l) + List.length (indentStack l))%nat.

(** A GDScript source with an indented second line: [a], newline, tab,
    [b]. *)
Definition indentedSource : string :=
  "a" +++ String "010" (String "009" "b").

(** What a call of [NextToken] on a consistent lexer guarantees: it does
    not run out of fuel, and a token it returns leaves the lexer
    consistent and closer to the end of input, strictly so unless the
    token is EOF. *)
Definition lexPost (l : Lexer) (r : result (Token * Lexer)) : Prop :=
  match r with
  | Ok (tok, l') =>
    LexerInv l' /\ input l' = input l
    /\ (remaining l' <= remaining l)%nat
    /\ (Type_ tok <> EOF -> (remaining l' < remaining l)%nat)
  | Panic _ => True
  | OutOfFuel => False
  end.

(** What a reading routine of the lexer guarantees for its result. *)
Definition scanPost {A : Type} (strict : bool) (l : Lexer) (r : result (A * Lexer))
  : Prop :=
  match r with
  | Ok (_, l') => advance strict l l'
  | Panic _ => True
  | OutOfFuel => False
  end.

(** Fuel that lets [lexAll] run a lexer to the end of its input. *)
Definition lexFuel (l : Lexer) : nat := S (remaining l).


(** The sources of the examples. *)
Definition ternarySource : string := "1 + 2 if true else 3".

Definition rawStringSource : string := "a b r'".

Definition illegalSource : string := "?".

Definition recoverySource : string := "var 1 var y = 2".

Definition missingColonSource : string := "x" +++ String "010" "y".

(** The statements of the root class of a parse result. *)
Definition rootStatements (r : result (ast.AbstractSyntaxTree * list Error))
  : list ast.Statement :=
  match r with
  | Ok (tree, _) =>
    match ast.RootClass tree with
    | Some c => ast.Class_Statements c
    | None => []
    end
  | _ => []
  end.

(** The diagnostics of a parse result. *)
Definition diagnostics (r : result (ast.AbstractSyntaxTree * list Error))
  : list Error :=
  match r with
  | Ok (_, errs) => errs
  | _ => []
  end.

(** The two lists of statements of a function are the same. *)
Definition inSync (f : ast.Function) : Prop :=
  ast.Function_Statements f = ast.Function_SubStatements f.

(** An expression statement at a position. *)
Definition exprStmt (line col off : Z) (e : ast.Expression) : ast.Statement :=
  ast.StmtExpression
    (Some (ast.NewExpressionStatement (ast.mkPosition line col off) e)).

(** A bound on the number of tokens a parser has yet to consume: the
    current and the peek token count unless they are EOF, and the lexer
    counts with what remains of its input. *)
Definition tokensLeft (p : Parser) : nat :=
  ((if tt_eqb (curType p) EOF then 0 else 1)
   + (if tt_eqb (peekType p) EOF then 0 else 2)
   + 3 * remaining (lexer p))%nat.

(** What a call of [nextToken] guarantees on a parser whose lexer is
    consistent. *)
Definition nextPost (p : Parser) (r : result Parser) : Prop :=
  match r with
  | Ok p' =>
    LexerInv (lexer p')
    /\ currentToken p' = peekToken p
    /\ errors p' = errors p /\ errorMode p' = errorMode p
    /\ (tokensLeft p' <= tokensLeft p)%nat
    /\ (curType p <> EOF \/ peekType p <> EOF -> (tokensLeft p' < tokensLeft p)%nat)
  | Panic _ => True
  | OutOfFuel => False
  end.

(** The parser of a successful construction (an empty parser
    otherwise). *)
Definition parserOf (r : result Parser) : Parser :=
  match r with
  | Ok p => p
  | _ => mkParser (NewLexer "") zeroToken zeroToken [] 0
  end.

(** The dynamic type of a statement value, with a mark for a nil
    pointer. *)
Definition dynamicType (s : ast.Statement) : string :=
  let ptr {A : Type} (name : string) (o : option A) : string :=
    match o with Some _ => name | None => name +++ "(nil)" end in
  match s with
  | ast.NilStatement => "nil"
  | ast.StmtPass o => ptr "*PassStatement" o
  | ast.StmtReturn o => ptr "*ReturnStatement" o
  | ast.StmtBreak o => ptr "*BreakStatement" o
  | ast.StmtContinue o => ptr "*ContinueStatement" o
  | ast.StmtExpression o => ptr "*ExpressionStatement" o
  | ast.StmtVar o => ptr "*VarStatement" o
  | ast.StmtIf o => ptr "*IfStatement" o
  | ast.StmtFor o => ptr "*ForStatement" o
  | ast.StmtWhile o => ptr "*WhileStatement" o
  | ast.StmtMatch o => ptr "*MatchStatement" o
  | ast.StmtFunction o => ptr "*Function" o
  | ast.StmtClass o => ptr "*Class" o
  end.

(** A function with one statement: [func f():], newline, tab,
    [return 1]. *)
Definition functionSource : string :=
  "func f():" +++ String "010" (String "009" "return 1").

(** The error that [peekError] records. *)
Definition peekErrorOf (p : Parser) (t : TokenType) : Error :=
  mkError (Line (peekToken p)) (Column (peekToken p))
          ("expected next token to be " +++ TokenType_string t
           +++ ", got " +++ TokenType_string (peekType p) +++ " instead").

(** A run that got more fuel: the run with less fuel either ran out of
    it or ended in the same way. *)
Definition le_res {A : Type} (r r' : result A) : Prop :=
  r = OutOfFuel \/ r = r'.

Section FuelOrder.

Context {U : Unicode}.

(** The functions of the first mutual definition, at two amounts of
    fuel. *)
Definition expressions_mono (n m : nat) : Prop :=
  (forall prec p, le_res (parseExpression n prec p) (parseExpression m prec p))
  /\ (forall prec e p,
        le_res (parseExpressionLoop n prec e p) (parseExpressionLoop m prec e p))
  /\ (forall e p, le_res (parseCallExpression n e p) (parseCallExpression m e p))
  /\ (forall p, le_res (parseCallArguments n p) (parseCallArguments m p))
  /\ (forall args p,
        le_res (parseCallArgumentsLoop n args p) (parseCallArgumentsLoop m args p))
  /\ (forall p, le_res (parseGroupedExpression n p) (parseGroupedExpression m p))
  /\ (forall p, le_res (parsePrefixExpression n p) (parsePrefixExpression m p))
  /\ (forall e p, le_res (parseInfixExpression n e p) (parseInfixExpression m e p))
  /\ (forall e p,
        le_res (parseConditionalExpression n e p) (parseConditionalExpression m e p)).

(** The functions of the second mutual definition, at two amounts of
    fuel. *)
Definition statements_mono (n m : nat) : Prop :=
  (forall p, le_res (parseStatement n p) (parseStatement m p))
  /\ (forall A skip add (node : A) p,
        le_res (parseBlock n A skip add node p) (parseBlock m A skip add node p))
  /\ (forall p, le_res (parseFunctionDefinition n p) (parseFunctionDefinition m p))
  /\ (forall p, le_res (parseClassDefinition n p) (parseClassDefinition m p))
  /\ (forall c p, le_res (parseClassBody n c p) (parseClassBody m c p))
  /\ (forall p, le_res (parseIfStatement n p) (parseIfStatement m p))
  /\ (forall s p, le_res (parseElifBranches n s p) (parseElifBranches m s p))
  /\ (forall p, le_res (parseForStatement n p) (parseForStatement m p))
  /\ (forall p, le_res (parseWhileStatement n p) (parseWhileStatement m p))
  /\ (forall p, le_res (parseMatchStatement n p) (parseMatchStatement m p))
  /\ (forall s p, le_res (parseMatchBranches n s p) (parseMatchBranches m s p)).

End FuelOrder.

Create HintDb mono.

(** What holds of a run that has fuel enough: it does not run out of
    fuel, and a value it returns satisfies [Q]. *)
Definition wp {A : Type} (r : result A) (Q : A -> Prop) : Prop :=
  match r with
  | Ok a => Q a
  | Panic _ => True
  | OutOfFuel => False
  end.

(** Fuel for a routine that is [d] calls above the routines that consume
    a token before they call anything. *)
Definition fuelFor (d : nat) (p : Parser) : nat := (16 * tokensLeft p + d)%nat.

(** The parser [p'] of a later moment: its lexer is consistent and it
    has no more tokens left than [p]. *)
Definition afterP (p p' : Parser) : Prop :=
  LexerInv (lexer p') /\ (tokensLeft p' <= tokensLeft p)%nat.

Definition after {A : Type} (p : Parser) (x : A * Parser) : Prop :=
  afterP p (snd x).

Section Totality.

Context {U : Unicode}.

(** The functions of the first mutual definition end, given fuel in
    proportion to the tokens left; those that start by advancing are
    entered at a token. *)
Definition expressions_total (fuel : nat) : Prop :=
  (forall prec p,
      LexerInv (lexer p) -> (fuelFor 7 p <= fuel)%nat ->
      wp (parseExpression fuel prec p) (after p))
  /\ (forall prec e p,
        LexerInv (lexer p) -> (fuelFor 6 p <= fuel)%nat ->
        wp (parseExpressionLoop fuel prec e p) (after p))
  /\ (forall e p,
        LexerInv (lexer p) -> curType p <> EOF -> (fuelFor 4 p <= fuel)%nat ->
        wp (parseCallExpression fuel e p) (after p))
  /\ (forall p,
        LexerInv (lexer p) -> curType p <> EOF -> (fuelFor 3 p <= fuel)%nat ->
        wp (parseCallArguments fuel p) (after p))
  /\ (forall args p,
        LexerInv (lexer p) -> (fuelFor 2 p <= fuel)%nat ->
        wp (parseCallArgumentsLoop fuel args p) (after p))
  /\ (forall p,
        LexerInv (lexer p) -> curType p <> EOF -> (fuelFor 2 p <= fuel)%nat ->
        wp (parseGroupedExpression fuel p) (after p))
  /\ (forall p,
        LexerInv (lexer p) -> curType p <> EOF -> (fuelFor 2 p <= fuel)%nat ->
        wp (parsePrefixExpression fuel p) (after p))
  /\ (forall e p,
        LexerInv (lexer p) -> curType p <> EOF -> (fuelFor 5 p <= fuel)%nat ->
        wp (parseInfixExpression fuel e p) (after p))
  /\ (forall e p,
        LexerInv (lexer p) -> curType p <> EOF \/ peekType p <> EOF ->
        (fuelFor 2 p <= fuel)%nat ->
        wp (parseConditionalExpression fuel e p)
           (fun x => after p x /\ (tokensLeft (snd x) < tokensLeft p)%nat)).

End Totality.

(** The fuel of a statement loop: in proportion to the tokens left, or
    any at all at the end of input, where the loop is left at once. *)
Definition loopFuel (d fuel : nat) (p : Parser) : Prop :=
  (fuelFor d p <= fuel)%nat \/ (curType p = EOF /\ (1 <= fuel)%nat).

Section TotalityOfStatements.

Context {U : Unicode}.

(** The functions of the second mutual definition end. *)
Definition statements_total (fuel : nat) : Prop :=
  (forall p,
      LexerInv (lexer p) -> (fuelFor 8 p <= fuel)%nat ->
      wp (parseStatement fuel p) (after p))
  /\ (forall A skip add (node : A) p,
        LexerInv (lexer p) -> loopFuel 9 fuel p ->
        wp (parseBlock fuel A skip add node p) (after p))
  /\ (forall p,
        LexerInv (lexer p) -> curType p <> EOF -> (fuelFor 2 p <= fuel)%nat ->
        wp (parseFunctionDefinition fuel p) (after p))
  /\ (forall p,
        LexerInv (lexer p) -> curType p <> EOF -> (fuelFor 2 p <= fuel)%nat ->
        wp (parseClassDefinition fuel p) (after p))
  /\ (forall c p,
        LexerInv (lexer p) -> loopFuel 9 fuel p ->
        wp (parseClassBody fuel c p) (after p))
  /\ (forall p,
        LexerInv (lexer p) -> curType p <> EOF -> (fuelFor 2 p <= fuel)%nat ->
        wp (parseIfStatement fuel p) (after p))
  /\ (forall s p,
        LexerInv (lexer p) -> (fuelFor 2 p <= fuel)%nat ->
        wp (parseElifBranches fuel s p) (after p))
  /\ (forall p,
        LexerInv (lexer p) -> curType p <> EOF -> (fuelFor 2 p <= fuel)%nat ->
        wp (parseForStatement fuel p) (after p))
  /\ (forall p,
        LexerInv (lexer p) -> curType p <> EOF -> (fuelFor 2 p <= fuel)%nat ->
        wp (parseWhileStatement fuel p) (after p))
  /\ (forall p,
        LexerInv (lexer p) -> curType p <> EOF -> (fuelFor 2 p <= fuel)%nat ->
        wp (parseMatchStatement fuel p) (after p))
  /\ (forall s p,
        LexerInv (lexer p) -> (fuelFor 8 p <= fuel)%nat ->
        wp (parseMatchBranches fuel s p) (after p)).

End TotalityOfStatements.

(** Fuel that lets the parser of a source text run to its end. *)
Definition parseFuel (input : string) : nat :=
  (16 * (9 * String.length input + 6) + 10)%nat.

(** The tree that [Parse] returns: the root class is there, carries the
    name of the global scope, and heads the list of classes, followed by
    its subclasses. *)
Definition rooted (tree : ast.AbstractSyntaxTree) : Prop :=
  exists c,
    ast.RootClass tree = Some c
    /\ ast.Class_Name c = "global scope"
    /\ ast.Classes tree = Some c :: ast.Class_SubClasses c.

(** The Function nodes of a statement, the node itself included when the
    statement is a function, in the order of a walk through the tree. *)
Fixpoint stmtFunctions (s : ast.Statement) : list ast.Function :=
  match s with
  | ast.StmtIf (Some i) => ifFunctions i
  | ast.StmtFor (Some f) => forFunctions f
  | ast.StmtWhile (Some w) => whileFunctions w
  | ast.StmtMatch (Some m) => matchFunctions m
  | ast.StmtFunction (Some f) => functionFunctions f
  | ast.StmtClass (Some c) => classFunctions c
  | _ => []
  end
with ifFunctions (i : ast.IfStatement) : list ast.Function :=
  match i with
  | ast.mkIf _ _ cs _ eb alt =>
    flat_map stmtFunctions cs ++ flat_map (flat_map stmtFunctions) eb
    ++ flat_map stmtFunctions alt
  end
with forFunctions (f : ast.ForStatement) : list ast.Function :=
  match f with
  | ast.mkFor _ _ _ _ body _ _ => flat_map stmtFunctions body
  end
with whileFunctions (w : ast.WhileStatement) : list ast.Function :=
  match w with
  | ast.mkWhile _ _ body => flat_map stmtFunctions body
  end
with matchFunctions (m : ast.MatchStatement) : list ast.Function :=
  match m with
  | ast.mkMatch _ _ branches => flat_map branchFunctions branches
  end
with branchFunctions (b : ast.MatchBranch) : list ast.Function :=
  match b with
  | ast.mkMatchBranch _ _ _ body _ => flat_map stmtFunctions body
  end
with functionFunctions (f : ast.Function) : list ast.Function :=
  match f with
  | ast.mkFunction _ _ _ _ sts subs _ _ =>
    f :: flat_map stmtFunctions sts ++ flat_map stmtFunctions subs
  end
with classFunctions (c : ast.Class) : list ast.Function :=
  match c with
  | ast.mkClass _ _ _ subs fs sts _ =>
    flat_map (fun o => match o with Some c => classFunctions c | None => [] end) subs
    ++ flat_map (fun o => match o with Some f => functionFunctions f | None => [] end) fs
    ++ flat_map stmtFunctions sts
  end.

(** Every Function node of the statement has the same statements in its
    raw list and in its flat list. *)
Definition syncS (s : ast.Statement) : Prop := Forall inSync (stmtFunctions s).

Definition syncL (l : list ast.Statement) : Prop :=
  Forall inSync (flat_map stmtFunctions l).

(** The Function nodes of a syntax tree: those of the root class, of the
    listed classes and of the listed functions. *)
Definition treeFunctions (tree : ast.AbstractSyntaxTree) : list ast.Function :=
  stmtFunctions (ast.StmtClass (ast.RootClass tree))
  ++ flat_map (fun c => stmtFunctions (ast.StmtClass c)) (ast.Classes tree)
  ++ flat_map (fun f => stmtFunctions (ast.StmtFunction f)) (ast.AST_Functions tree).

(** What holds of the value of a run that returns. *)
Definition wpp {A : Type} (r : result A) (Q : A -> Prop) : Prop :=
  match r with
  | Ok a => Q a
  | _ => True
  end.

Section InSync.

Context {U : Unicode}.

(** The functions of the second mutual definition return nodes whose
    Function nodes are all in sync, given nodes that are. *)
Definition statements_sync (fuel : nat) : Prop :=
  (forall p, wpp (parseStatement fuel p) (fun x => syncS (fst x)))
  /\ (forall A (P : A -> Prop) skip add node p,
        (forall a s, P a -> syncS s -> P (add a s)) -> P node ->
        wpp (parseBlock fuel A skip add node p) (fun x => P (fst x)))
  /\ (forall p,
        wpp (parseFunctionDefinition fuel p)
            (fun x => syncS (ast.StmtFunction (fst x))))
  /\ (forall p,
        wpp (parseClassDefinition fuel p)
            (fun x => syncS (ast.StmtClass (fst x))))
  /\ (forall c p,
        syncS (ast.StmtClass (Some c)) ->
        wpp (parseClassBody fuel c p)
            (fun x => syncS (ast.StmtClass (Some (fst x)))))
  /\ (forall p,
        wpp (parseIfStatement fuel p) (fun x => syncS (ast.StmtIf (fst x))))
  /\ (forall s p,
        syncS (ast.StmtIf (Some s)) ->
        wpp (parseElifBranches fuel s p) (fun x => syncS (ast.StmtIf (fst x))))
  /\ (forall p,
        wpp (parseForStatement fuel p) (fun x => syncS (ast.StmtFor (fst x))))
  /\ (forall p,
        wpp (parseWhileStatement fuel p) (fun x => syncS (ast.StmtWhile (fst x))))
  /\ (forall p,
        wpp (parseMatchStatement fuel p) (fun x => syncS (ast.StmtMatch (fst x))))
  /\ (forall s p,
        syncS (ast.StmtMatch (Some s)) ->
        wpp (parseMatchBranches fuel s p)
            (fun x => syncS (ast.StmtMatch (Some (fst x))))).

End InSync.

(** A class with a method: [class A:], [func f():] one level in, and
    [return 1] two levels in. *)
Definition classSource : string :=
  "class A:" +++ String "010" (String "009" "func f():")
  +++ String "010" (String "009" (String "009" "return 1")).

(** The parser of a later moment is in the same error mode. *)
Definition sameMode {A : Type} (p : Parser) (x : A * Parser) : Prop :=
  errorMode (snd x) = errorMode p.

Section ModeKept.

Context {U : Unicode}.

(** The functions of the two mutual definitions leave the error mode as
    it is. *)
Definition expressions_mode (fuel : nat) : Prop :=
  (forall prec p, wpp (parseExpression fuel prec p) (sameMode p))
  /\ (forall prec e p, wpp (parseExpressionLoop fuel prec e p) (sameMode p))
  /\ (forall e p, wpp (parseCallExpression fuel e p) (sameMode p))
  /\ (forall p, wpp (parseCallArguments fuel p) (sameMode p))
  /\ (forall args p, wpp (parseCallArgumentsLoop fuel args p) (sameMode p))
  /\ (forall p, wpp (parseGroupedExpression fuel p) (sameMode p))
  /\ (forall p, wpp (parsePrefixExpression fuel p) (sameMode p))
  /\ (forall e p, wpp (parseInfixExpression fuel e p) (sameMode p))
  /\ (forall e p, wpp (parseConditionalExpression fuel e p) (sameMode p)).

Definition statements_mode (fuel : nat) : Prop :=
  (forall p, wpp (parseStatement fuel p) (sameMode p))
  /\ (forall A skip add (node : A) p,
        wpp (parseBlock fuel A skip add node p) (sameMode p))
  /\ (forall p, wpp (parseFunctionDefinition fuel p) (sameMode p))
  /\ (forall p, wpp (parseClassDefinition fuel p) (sameMode p))
  /\ (forall c p, wpp (parseClassBody fuel c p) (sameMode p))
  /\ (forall p, wpp (parseIfStatement fuel p) (sameMode p))
  /\ (forall s p, wpp (parseElifBranches fuel s p) (sameMode p))
  /\ (forall p, wpp (parseForStatement fuel p) (sameMode p))
  /\ (forall p, wpp (parseWhileStatement fuel p) (sameMode p))
  /\ (forall p, wpp (parseMatchStatement fuel p) (sameMode p))
  /\ (forall s p, wpp (parseMatchBranches fuel s p) (sameMode p)).

End ModeKept.

(** * The linter

    The Go sources embedded here are
    - package [problem] (the problems a rule reports),
    - [internal/core/linter/linter.go] ([Rule], [Linter], [Lint],
      [LintAST], [LintASTWithSource], [LintFile]),
    - [internal/core/linter/directives.go] ([RuleContext]),
    - package [linter], [Config.IsRuleEnabled],
    - of package [rules]: [isPublicFunction] and the visitor of
      [MaxPublicMethods] at a class, and [expressionsEqual]. *)

(** A Go [int] is 64 bits wide and a [rune] 32: sums and conversions
    wrap around. *)
Definition int64 (z : Z) : Z := (z + 2 ^ 63) mod 2 ^ 64 - 2 ^ 63.

Definition int32 (z : Z) : Z := (z + 2 ^ 31) mod 2 ^ 32 - 2 ^ 31.

(** A Go map with keys of a type with the equality [eqb], as the list of
    its entries: no key occurs twice. *)
Section GoMap.

Context {K V : Type} (eqb : K -> K -> bool).

(** [v, ok := m[k]] *)
Fixpoint map_get (m : list (K * V)) (k : K) : option V :=
  match m with
  | [] => None
  | (k', v) :: m' => if eqb k' k then Some v else map_get m' k
  end.

(** [delete(m, k)] *)
Definition map_delete (m : list (K * V)) (k : K) : list (K * V) :=
  filter (fun kv => negb (eqb (fst kv) k)) m.

(** [m[k] = v] *)
Definition map_set (m : list (K * V)) (k : K) (v : V) : list (K * V) :=
  (k, v) :: map_delete m k.

End GoMap.

(** ** Package [problem] *)

Module problem.

Definition Severity : Set := string.

Definition Error : Severity := "error".
Definition Warning : Severity := "warning".
Definition Info : Severity := "info".

Record Problem : Set := mkProblem {
  Position : ast.Position;
  Message : string;
  RuleName : string;
  Severity_ : Severity
}.

Definition NewProblem (pos : ast.Position) (message ruleName : string)
           (severity : Severity) : Problem :=
  mkProblem pos message ruleName severity.

Definition NewError (pos : ast.Position) (message ruleName : string) : Problem :=
  NewProblem pos message ruleName Error.

Definition NewWarning (pos : ast.Position) (message ruleName : string) : Problem :=
  NewProblem pos message ruleName Warning.

Definition NewInfo (pos : ast.Position) (message ruleName : string) : Problem :=
  NewProblem pos message ruleName Info.

End problem.

(** ** Package [linter] *)

Module linter.

(** [Config]; its field [RuleSettings] plays no part in what is embedded
    here and is left out. *)
Record Config : Set := mkConfig {
  DisabledRules : list string
}.

(** [IsRuleEnabled] returns whether a rule is enabled. *)
Definition Config_IsRuleEnabled (c : Config) (ruleName : string) : bool :=
  negb (existsb (fun disabled => String.eqb disabled ruleName) (DisabledRules c)).

(** A value of the interface type [Rule]: the name and the description
    that its methods return, and its method [Check], which may panic.
    [Check] reads the tree it is given and leaves it as it is, as the
    rules of the repository do. *)
Record Rule : Type := mkRule {
  Check : ast.AbstractSyntaxTree -> Config -> result (list problem.Problem);
  Name : string;
  Description : string
}.

Record Linter : Type := mkLinter {
  rules : list Rule;
  config : Config
}.

Definition NewLinter (rules : list Rule) (config : Config) : Linter :=
  mkLinter rules config.

Definition RegisterRule (l : Linter) (rule : Rule) : Linter :=
  mkLinter (rules l ++ [rule]) (config l).

(** *** [directives.go] *)

(** [DirectiveType] is an [int]; its constants are numbered by [iota]. *)
Definition DirectiveType : Set := Z.

Definition DirectiveIgnore : DirectiveType := 0.
Definition DirectiveDisable : DirectiveType := 1.
Definition DirectiveEnable : DirectiveType := 2.

Record RuleDirective : Set := mkRuleDirective {
  Type_ : DirectiveType;
  Rules : list string;
  Line : Z
}.

(** [RuleContext] tracks which rules are enabled or disabled at
    different positions. *)
Record RuleContext : Set := mkRuleContext {
  globallyDisabled : list (string * bool);
  ignoredAtLine : list (Z * list (string * bool))
}.

Definition NewRuleContext : RuleContext := mkRuleContext [] [].

(** [for _, rule := range rules { m[rule] = true }] *)
Definition setAll (m : list (string * bool)) (rules : list string)
  : list (string * bool) :=
  fold_left (fun m rule => map_set String.eqb m rule true) rules m.

(** [for _, rule := range rules { delete(m, rule) }] *)
Definition deleteAll (m : list (string * bool)) (rules : list string)
  : list (string * bool) :=
  fold_left (fun m rule => map_delete String.eqb m rule) rules m.

(** The body of the loop of [ProcessDirectives]. *)
Definition processDirective (rc : RuleContext) (directive : RuleDirective)
  : RuleContext :=
  if Type_ directive =? DirectiveIgnore then
    (* mark rules as ignored for the next line *)
    let nextLine := int64 (Line directive + 1) in
    let ignored :=
      match map_get Z.eqb (ignoredAtLine rc) nextLine with
      | Some m => m
      | None => []
      end in
    mkRuleContext (globallyDisabled rc)
                  (map_set Z.eqb (ignoredAtLine rc) nextLine
                           (setAll ignored (Rules directive)))
  else if Type_ directive =? DirectiveDisable then
    mkRuleContext (setAll (globallyDisabled rc) (Rules directive))
                  (ignoredAtLine rc)
  else if Type_ directive =? DirectiveEnable then
    mkRuleContext (deleteAll (globallyDisabled rc) (Rules directive))
                  (ignoredAtLine rc)
  else rc.

(** [ProcessDirectives] processes all directives and updates the rule
    context. *)
Definition ProcessDirectives (rc : RuleContext) (directives : list RuleDirective)
  : RuleContext :=
  fold_left processDirective directives rc.

(** The value [m[k]] of a [map[string]bool]: false when [k] is not a
    key. *)
Definition flag (m : list (string * bool)) (k : string) : bool :=
  match map_get String.eqb m k with
  | Some b => b
  | None => false
  end.

(** [IsRuleEnabled] checks if a rule is enabled at a specific
    position. *)
Definition IsRuleEnabled (rc : RuleContext) (ruleName : string) (pos : ast.Position)
  : bool :=
  if flag (globallyDisabled rc) ruleName then false
  else
    match map_get Z.eqb (ignoredAtLine rc) (ast.Line pos) with
    | Some ignoredRules => if flag ignoredRules ruleName then false else true
    | None => true
    end.

(** *** [linter.go] *)

Section WithDirectives.

(** [ParseDirectives] finds the directives in the comments of a source
    text with regular expressions of Go's [regexp] package; the linter
    is parametric in it. *)
Variable ParseDirectives : string -> list RuleDirective.

(** The loop of [LintASTWithSource] over the rules. *)
Fixpoint lintRules (config : Config) (ruleContext : option RuleContext)
         (tree : ast.AbstractSyntaxTree) (rules : list Rule)
         (problems : list problem.Problem) : result (list problem.Problem) :=
  match rules with
  | [] => Ok problems
  | rule :: rules =>
    if Config_IsRuleEnabled config (Name rule) then
      ruleProblems <- Check rule tree config ;;
      match ruleContext with
      | Some rc =>
        (* filter problems based on directives *)
        let filteredProblems :=
          filter (fun prob =>
                    IsRuleEnabled rc (problem.RuleName prob) (problem.Position prob))
                 ruleProblems in
        lintRules config ruleContext tree rules (problems ++ filteredProblems)
      | None =>
        lintRules config ruleContext tree rules (problems ++ ruleProblems)
      end
    else lintRules config ruleContext tree rules problems
  end.

(** [LintASTWithSource] lints the given AST with source code for
    directive processing. *)
Definition LintASTWithSource (l : Linter) (tree : ast.AbstractSyntaxTree)
           (source : string) : result (list problem.Problem) :=
  let ruleContext :=
    if negb (String.eqb source "") then
      Some (ProcessDirectives NewRuleContext (ParseDirectives source))
    else None in
  lintRules (config l) ruleContext tree (rules l) [].

(** [LintAST] lints the given AST. *)
Definition LintAST (l : Linter) (tree : ast.AbstractSyntaxTree)
  : result (list problem.Problem) :=
  LintASTWithSource l tree "".

(** What [Lint] and [LintFile] return: the problems found, or the error
    made from the diagnostics of the parser. *)
Inductive Outcome : Type :=
| Problems (problems : list problem.Problem)
| ParsingErrors (errors : list Error).

Context {U : Unicode}.

(** [Lint] lints the given code; [filepath.Base("")] is ["."]. *)
Definition Lint (fuel : nat) (l : Linter) (code : string) : result Outcome :=
  '(tree, errors) <- ParseFile fuel "." code ;;
  if 0 <? Z.of_nat (List.length errors) then Ok (ParsingErrors errors)
  else
    problems <- LintASTWithSource l tree code ;;
    Ok (Problems problems).

(** [LintFile] lints the given file; [baseName] is
    [filepath.Base(filePath)].  The content handed to the parser is the
    empty string. *)
Definition LintFile (fuel : nat) (l : Linter) (baseName : string) : result Outcome :=
  '(tree, errors) <- ParseFile fuel baseName "" ;;
  if 0 <? Z.of_nat (List.length errors) then Ok (ParsingErrors errors)
  else
    problems <- LintAST l tree ;;
    Ok (Problems problems).

End WithDirectives.

End linter.

(** ** Package [rules] *)

Module rules.

(** [isPublicFunction] checks if a function name indicates it's
    public. *)
Definition isPublicFunction (name : string) : bool :=
  match name with
  | EmptyString => false
  | String c _ => negb (Ascii.eqb c "_")
  end.

(** The loop of the visitor of [MaxPublicMethods] over the statements of
    a class; the name of a function that is a nil pointer cannot be
    read. *)
Fixpoint countPublicMethods (statements : list ast.Statement) (publicMethods : Z)
  : result Z :=
  match statements with
  | [] => Ok publicMethods
  | ast.StmtFunction (Some function) :: statements =>
    countPublicMethods statements
      (if isPublicFunction (ast.Function_Name function)
       then int64 (publicMethods + 1) else publicMethods)
  | ast.StmtFunction None :: _ => Panic "nil pointer dereference"
  | _ :: statements => countPublicMethods statements publicMethods
  end.

(** The method [Position] of a class. *)
Definition Class_Position (c : ast.Class) : ast.Position :=
  match c with ast.mkClass pos _ _ _ _ _ _ => pos end.

(** [Visit] of [maxPublicMethodsVisitor] at a node that is a class: the
    problems of the visitor after the visit. *)
Definition maxPublicMethods_Visit (threshold : Z) (problems : list problem.Problem)
           (class : ast.Class) : result (list problem.Problem) :=
  publicMethods <- countPublicMethods (ast.Class_Statements class) 0 ;;
  if threshold <? publicMethods then
    let className :=
      if negb (String.eqb (ast.Class_Name class) "")
      then "Class " +++ ast.Class_Name class
      else "Global scope class" in
    Ok (problems
        ++ [problem.NewWarning
              (Class_Position class)
              (className +++ " has more than "
               +++ string_of_rune (int32 (int64 (threshold + 48)))
               +++ " public methods (functions)")
              "max-public-methods"])
  else Ok problems.

(** [expressionsEqual] checks if two expressions are structurally
    equal. *)
Fixpoint expressionsEqual (l r : ast.Expression) : bool :=
  match l with
  | ast.Identifier _ lv =>
    match r with
    | ast.Identifier _ rv => String.eqb lv rv
    | _ => false
    end
  | ast.NumberLiteral _ _ lo =>
    match r with
    | ast.NumberLiteral _ _ ro => String.eqb lo ro
    | _ => false
    end
  | ast.StringLiteral _ lv =>
    match r with
    | ast.StringLiteral _ rv => String.eqb lv rv
    | _ => false
    end
  | ast.InfixExpression _ ll lop lr =>
    match r with
    | ast.InfixExpression _ rl rop rr =>
      String.eqb lop rop && expressionsEqual ll rl && expressionsEqual lr rr
    | _ => false
    end
  | _ => false
  end.

(** [Visit] of [expressionNotAssignedVisitor] at a node that is an
    expression statement: the problems of the visitor after the visit.
    The expression of a statement that is a nil pointer cannot be
    read. *)
Definition expressionNotAssigned_Visit (problems : list problem.Problem)
           (exprStmt : option ast.ExpressionStatement)
  : result (list problem.Problem) :=
  match exprStmt with
  | None => Panic "nil pointer dereference"
  | Some exprStmt =>
    match ast.ExprStmt_Expression exprStmt with
    | ast.CallExpression _ _ _ => Ok problems          (* allowed *)
    | ast.AssignmentExpression _ _ _ _ => Ok problems  (* allowed *)
    | ast.StringLiteral _ _ => Ok problems             (* docstring, allowed *)
    | ast.InfixExpression _ _ _ _ | ast.NumberLiteral _ _ _
    | ast.BooleanLiteral _ _ | ast.Identifier _ _ =>
      Ok (problems
          ++ [problem.NewWarning
                (ast.Pos (ast.ExprStmt_Base exprStmt))
                "Expression is not assigned to a variable or used"
                "expression-not-assigned"])
    | _ => Ok problems
    end
  end.

(** The loop of [Visit] of [unnecessaryPassVisitor] over the statements
    of a function or of a class: the values of [hasStmt], [hasPass] and
    [passStmt] after it. *)
Fixpoint unnecessaryPass_loop (statements : list ast.Statement)
         (hasStmt hasPass : bool) (passStmt : option ast.PassStatement)
  : bool * bool * option ast.PassStatement :=
  match statements with
  | [] => (hasStmt, hasPass, passStmt)
  | ast.StmtPass stmt :: statements => unnecessaryPass_loop statements hasStmt true stmt
  | _ :: statements => unnecessaryPass_loop statements true hasPass passStmt
  end.

(** What the visitor does with a list of statements, the same for a
    function and for a class: if the list has both a pass and another
    statement, the pass is reported. *)
Definition unnecessaryPass_check (problems : list problem.Problem)
           (statements : list ast.Statement) : list problem.Problem :=
  let '(hasStmt, hasPass, passStmt) :=
    unnecessaryPass_loop statements false false None in
  match passStmt with
  | Some stmt =>
    if hasPass && hasStmt then
      problems ++ [problem.NewWarning (ast.Pos (ast.Pass_Base stmt))
                                      "Unnecessary pass statement"
                                      "unnecessary-pass"]
    else problems
  | None => problems
  end.

(** [Visit] of [unnecessaryPassVisitor] at a function and at a class:
    the problems of the visitor after the visit. *)
Definition unnecessaryPass_Visit_Function (problems : list problem.Problem)
           (n : ast.Function) : list problem.Problem :=
  unnecessaryPass_check problems (ast.Function_Statements n).

Definition unnecessaryPass_Visit_Class (problems : list problem.Problem)
           (n : ast.Class) : list problem.Problem :=
  unnecessaryPass_check problems (ast.Class_Statements n).

End rules.
(** ** Further notions: the lexer *)

(** Whether the lexer, its queue empty, stands past the blanks at the
    [r] and the quote that open a raw string, with nothing after the
    quote: the end of the input, or a NUL character. *)
Definition rawStringCutShort (l : Lexer) : bool :=
  match tokens l with
  | [] =>
    match skipWhitespace l with
    | Ok l1 =>
      chIs l1 "r" && (peekIs l1 "034" || peekIs l1 "'")
      && (ch (readChar (readChar l1)) =? 0)
    | _ => false
    end
  | _ :: _ => false
  end.

(** The token types of the first two groups of [token.go], the special
    tokens and the identifiers and literals (with the type of the zero
    token); the other types are the operators, the delimiters and the
    keywords. *)
Definition isSpecialOrLiteral (t : TokenType) : bool :=
  match t with
  | NOTYPE | ILLEGAL | EOF | COMMENT | NL | INDENT | DEDENT
  | IDENT | INT | FLOAT | STRING | RSTRING | HEX | BIN => true
  | _ => false
  end.

(** The types of the tokens whose literal [NextToken] cuts out of the
    input: comments, strings, numbers, identifiers and keywords. *)
Definition isSliced (t : TokenType) : bool :=
  match t with
  | COMMENT | STRING | INT | FLOAT | HEX | BIN | IDENT => true
  | _ => existsb (fun kv => tt_eqb (snd kv) t) keywords
  end.

(** An indentation stack above an entry [lo]: every entry is wider than
    the one below it. *)
Fixpoint increasingFrom (lo : Z) (stack : list Z) : Prop :=
  match stack with
  | [] => True
  | w :: rest => lo < w /\ increasingFrom w rest
  end.

(** The indentation stack has the seed width 0 at its bottom and grows
    strictly from there. *)
Definition wellStacked (stack : list Z) : Prop :=
  exists rest, stack = 0 :: rest /\ increasingFrom 0 rest.

(** The types of the number tokens. *)
Definition isNumberType (t : TokenType) : bool :=
  match t with
  | INT | FLOAT | HEX | BIN => true
  | _ => false
  end.

(** The lexer of a source text after [n] calls of [NextToken]. *)
Definition lexerAfter {U : Unicode} (n : nat) (input0 : string) : result Lexer :=
  iterate (fun l => '(_, l') <- NextToken l ;; Ok l') n (NewLexer input0).

(** The token types that the [keywords] map holds. *)
Definition isKeywordType (t : TokenType) : bool :=
  existsb (fun kv => tt_eqb (snd kv) t) keywords.

(** ** Further notions: the parser *)

(** A statement value, and everything below it, holds no nil pointer in
    the place of a node: no statement that is a nil pointer boxed in the
    interface (what [parseStatement] makes of the nil result of a
    parsing routine), and no nil entry in a list of functions or of
    classes.  The nil interface itself holds no pointer. *)
Fixpoint noNilNode (s : ast.Statement) : bool :=
  let present {A : Type} (o : option A) : bool :=
    match o with Some _ => true | None => false end in
  match s with
  | ast.NilStatement => true
  | ast.StmtPass o => present o
  | ast.StmtReturn o => present o
  | ast.StmtBreak o => present o
  | ast.StmtContinue o => present o
  | ast.StmtExpression o => present o
  | ast.StmtVar o => present o
  | ast.StmtIf (Some i) => noNilIf i
  | ast.StmtFor (Some f) => noNilFor f
  | ast.StmtWhile (Some w) => noNilWhile w
  | ast.StmtMatch (Some m) => noNilMatch m
  | ast.StmtFunction (Some f) => noNilFunction f
  | ast.StmtClass (Some c) => noNilClass c
  | _ => false
  end
with noNilIf (i : ast.IfStatement) : bool :=
  match i with
  | ast.mkIf _ _ cs _ eb alt =>
    forallb noNilNode cs && forallb (forallb noNilNode) eb && forallb noNilNode alt
  end
with noNilFor (f : ast.ForStatement) : bool :=
  match f with
  | ast.mkFor _ _ _ _ body _ _ => forallb noNilNode body
  end
with noNilWhile (w : ast.WhileStatement) : bool :=
  match w with
  | ast.mkWhile _ _ body => forallb noNilNode body
  end
with noNilMatch (m : ast.MatchStatement) : bool :=
  match m with
  | ast.mkMatch _ _ branches => forallb noNilBranch branches
  end
with noNilBranch (b : ast.MatchBranch) : bool :=
  match b with
  | ast.mkMatchBranch _ _ _ body _ => forallb noNilNode body
  end
with noNilFunction (f : ast.Function) : bool :=
  match f with
  | ast.mkFunction _ _ _ _ sts subs _ _ =>
    forallb noNilNode sts && forallb noNilNode subs
  end
with noNilClass (c : ast.Class) : bool :=
  match c with
  | ast.mkClass _ _ _ subs fs sts _ =>
    forallb (fun o => match o with Some c => noNilClass c | None => false end) subs
    && forallb (fun o => match o with Some f => noNilFunction f | None => false end) fs
    && forallb noNilNode sts
  end.

(** The same of a syntax tree: of its root class, of the classes it
    lists and of the functions it lists. *)
Definition noNilTree (tree : ast.AbstractSyntaxTree) : bool :=
  noNilNode (ast.StmtClass (ast.RootClass tree))
  && forallb (fun c => noNilNode (ast.StmtClass c)) (ast.Classes tree)
  && forallb (fun f => noNilNode (ast.StmtFunction f)) (ast.AST_Functions tree).

Definition clean (s : ast.Statement) : Prop := noNilNode s = true.

Definition cleanL (l : list ast.Statement) : Prop := forallb noNilNode l = true.

(** The list [b] is the list [a] with entries appended. *)
Definition extends {A : Type} (a b : list A) : Prop := exists new, b = a ++ new.

(** What a parsing routine guarantees about the diagnostics: it only
    appends to them, and when there are none after it, its value
    satisfies [C]. *)
Definition quiet {A : Type} (C : A -> Prop) (p : Parser) (x : A * Parser) : Prop :=
  extends (errors p) (errors (snd x)) /\ (errors (snd x) = [] -> C (fst x)).

Section Quiet.

Context {U : Unicode}.

Definition expressions_quiet (fuel : nat) : Prop :=
  (forall prec p, wpp (parseExpression fuel prec p) (quiet (fun _ => True) p))
  /\ (forall prec e p,
        wpp (parseExpressionLoop fuel prec e p) (quiet (fun _ => True) p))
  /\ (forall e p, wpp (parseCallExpression fuel e p) (quiet (fun _ => True) p))
  /\ (forall p, wpp (parseCallArguments fuel p) (quiet (fun _ => True) p))
  /\ (forall args p,
        wpp (parseCallArgumentsLoop fuel args p) (quiet (fun _ => True) p))
  /\ (forall p, wpp (parseGroupedExpression fuel p) (quiet (fun _ => True) p))
  /\ (forall p, wpp (parsePrefixExpression fuel p) (quiet (fun _ => True) p))
  /\ (forall e p, wpp (parseInfixExpression fuel e p) (quiet (fun _ => True) p))
  /\ (forall e p,
        wpp (parseConditionalExpression fuel e p) (quiet (fun _ => True) p)).

Definition statements_quiet (fuel : nat) : Prop :=
  (forall p, wpp (parseStatement fuel p) (quiet clean p))
  /\ (forall A (P : A -> Prop) skip add node p,
        (forall a s, P a -> clean s -> P (add a s)) ->
        (errors p = [] -> P node) ->
        wpp (parseBlock fuel A skip add node p) (quiet P p))
  /\ (forall p,
        wpp (parseFunctionDefinition fuel p)
            (quiet (fun o => clean (ast.StmtFunction o)) p))
  /\ (forall p,
        wpp (parseClassDefinition fuel p)
            (quiet (fun o => clean (ast.StmtClass o)) p))
  /\ (forall c p,
        (errors p = [] -> clean (ast.StmtClass (Some c))) ->
        wpp (parseClassBody fuel c p)
            (quiet (fun c => clean (ast.StmtClass (Some c))) p))
  /\ (forall p,
        wpp (parseIfStatement fuel p) (quiet (fun o => clean (ast.StmtIf o)) p))
  /\ (forall s p,
        (errors p = [] -> clean (ast.StmtIf (Some s))) ->
        wpp (parseElifBranches fuel s p)
            (quiet (fun o => clean (ast.StmtIf o)) p))
  /\ (forall p,
        wpp (parseForStatement fuel p) (quiet (fun o => clean (ast.StmtFor o)) p))
  /\ (forall p,
        wpp (parseWhileStatement fuel p)
            (quiet (fun o => clean (ast.StmtWhile o)) p))
  /\ (forall p,
        wpp (parseMatchStatement fuel p)
            (quiet (fun o => clean (ast.StmtMatch o)) p))
  /\ (forall s p,
        (errors p = [] -> clean (ast.StmtMatch (Some s))) ->
        wpp (parseMatchBranches fuel s p)
            (quiet (fun m => clean (ast.StmtMatch (Some m))) p)).

End Quiet.

(** ** Further notions: the syntax tree *)

(** The kind of a variable statement as its three facts determine it:
    whether it is a constant, whether it is typed, whether it has a
    value. *)
Definition varKind (isConst isTyped assigned : bool) : string :=
  match isConst, isTyped, assigned with
  | false, false, false => "func_var_stmt"
  | false, true, false => "func_var_typed"
  | false, false, true => "func_var_assigned"
  | false, true, true => "func_var_typed_assgnd"
  | true, false, false => "const_stmt"
  | true, true, false => "const_typed"
  | true, false, true => "const_assigned"
  | true, true, true => "const_typed_assgnd"
  end.

(** The kind of a variable statement agrees with its fields. *)
Definition kindAgrees (v : ast.VarStatement) : Prop :=
  ast.Kind (ast.Var_Base v)
  = varKind (ast.Var_IsConst v) (ast.Var_IsTyped v)
            (negb (ast.isNil (ast.Var_Value v))).

(** The fields of an [IfStatement]. *)
Definition If_Condition (i : ast.IfStatement) : ast.Expression :=
  match i with ast.mkIf _ c _ _ _ _ => c end.

Definition If_Consequence (i : ast.IfStatement) : list ast.Statement :=
  match i with ast.mkIf _ _ cs _ _ _ => cs end.

Definition If_ElseCondition (i : ast.IfStatement) : list ast.Expression :=
  match i with ast.mkIf _ _ _ ec _ _ => ec end.

Definition If_ElseBranches (i : ast.IfStatement) : list (list ast.Statement) :=
  match i with ast.mkIf _ _ _ _ eb _ => eb end.

Definition If_Alternative (i : ast.IfStatement) : list ast.Statement :=
  match i with ast.mkIf _ _ _ _ _ alt => alt end.

(** An [if] statement is well formed: its condition is there, it has as
    many [elif] conditions as [elif] bodies, and none of the conditions
    is nil. *)
Definition wellFormedIf (i : ast.IfStatement) : Prop :=
  ast.isNil (If_Condition i) = false
  /\ List.length (If_ElseCondition i) = List.length (If_ElseBranches i)
  /\ Forall (fun c => ast.isNil c = false) (If_ElseCondition i).

(** An [if] with an [elif]: [if a:], [pass] one level in, [elif b:],
    [pass] one level in. *)
Definition elifSource : string :=
  "if a:" +++ String "010" (String "009" "pass")
  +++ String "010" "elif b:" +++ String "010" (String "009" "pass").

(** The expressions that the parser builds: identifiers, literals,
    prefix, infix and call expressions over such expressions, a nil
    interface standing where an operand is missing.  The node types
    [ArrayLiteral], [DictionaryLiteral], [IndexExpression],
    [DotExpression], [AssignmentExpression] and [ConditionalExpression]
    are not among them. *)
Fixpoint parserBuilt (e : ast.Expression) : bool :=
  match e with
  | ast.NilExpression | ast.Identifier _ _ | ast.StringLiteral _ _
  | ast.NumberLiteral _ _ _ | ast.NullLiteral _ | ast.BooleanLiteral _ _ => true
  | ast.PrefixExpression _ _ rhs => parserBuilt rhs
  | ast.InfixExpression _ lhs _ rhs => parserBuilt lhs && parserBuilt rhs
  | ast.CallExpression _ function arguments =>
    parserBuilt function && forallb parserBuilt arguments
  | _ => false
  end.

Definition built (e : ast.Expression) : Prop := parserBuilt e = true.

Definition builtL (l : list ast.Expression) : Prop := forallb parserBuilt l = true.

Section Built.

Context {U : Unicode}.

Definition expressions_built (fuel : nat) : Prop :=
  (forall prec p, wpp (parseExpression fuel prec p) (fun x => built (fst x)))
  /\ (forall prec e p,
        built e -> wpp (parseExpressionLoop fuel prec e p) (fun x => built (fst x)))
  /\ (forall e p,
        built e -> wpp (parseCallExpression fuel e p) (fun x => built (fst x)))
  /\ (forall p, wpp (parseCallArguments fuel p) (fun x => builtL (fst x)))
  /\ (forall args p,
        builtL args ->
        wpp (parseCallArgumentsLoop fuel args p) (fun x => builtL (fst x)))
  /\ (forall p, wpp (parseGroupedExpression fuel p) (fun x => built (fst x)))
  /\ (forall p, wpp (parsePrefixExpression fuel p) (fun x => built (fst x)))
  /\ (forall e p,
        built e -> wpp (parseInfixExpression fuel e p) (fun x => built (fst x))).

End Built.

(** A branch of a [match] has its pattern, and is marked guarded
    exactly when it has a guard. *)
Definition wellFormedBranch (b : ast.MatchBranch) : bool :=
  match b with
  | ast.mkMatchBranch _ pattern guard _ isGuarded =>
    negb (ast.isNil pattern) && Bool.eqb isGuarded (negb (ast.isNil guard))
  end.

(** A loop or a [match] has the expression that governs it: the
    collection of a [for] (whose kind says whether its iterator is
    typed), the condition of a [while], the value of a [match] and the
    pattern of each of its branches. *)
Definition governed (s : ast.Statement) : bool :=
  match s with
  | ast.StmtFor (Some (ast.mkFor base _ _ collection _ _ isTyped)) =>
    negb (ast.isNil collection)
    && String.eqb (ast.Kind base) (if isTyped then "for_stmt_typed" else "for_stmt")
  | ast.StmtWhile (Some (ast.mkWhile _ condition _)) => negb (ast.isNil condition)
  | ast.StmtMatch (Some (ast.mkMatch _ value branches)) =>
    negb (ast.isNil value) && forallb wellFormedBranch branches
  | _ => true
  end.

(** A [match] with a guarded branch: [match x:], then [1 when y: pass]
    one level in. *)
Definition matchSource : string :=
  "match x:" +++ String "010" (String "009" "1 when y: pass").

(** ** The rule context of the linter *)

(** [names rules rule]: the rule is on the list of a directive. *)
Definition names (rules : list string) (rule : string) : bool :=
  existsb (fun r => String.eqb r rule) rules.

(** Whether the rule is switched off in a context, and whether it is
    ignored on a line. *)
Definition switchedOff (rc : linter.RuleContext) (rule : string) : bool :=
  linter.flag (linter.globallyDisabled rc) rule.

Definition ignoredOn (rc : linter.RuleContext) (rule : string) (line : Z) : bool :=
  match map_get Z.eqb (linter.ignoredAtLine rc) line with
  | Some m => linter.flag m rule
  | None => false
  end.

(** A rule is switched off by the directives [ds] when one of them
    disables it and none after that one enables it again. *)
Definition disabledBy (ds : list linter.RuleDirective) (rule : string) : Prop :=
  exists before d after,
    ds = before ++ d :: after
    /\ linter.Type_ d = linter.DirectiveDisable
    /\ In rule (linter.Rules d)
    /\ forall d', In d' after -> linter.Type_ d' = linter.DirectiveEnable ->
                  ~ In rule (linter.Rules d').

(** A rule is ignored on a line by the directives [ds] when one of them
    is an ignore directive for it on the line before. *)
Definition ignoredBy (ds : list linter.RuleDirective) (rule : string) (line : Z)
  : Prop :=
  exists d,
    In d ds
    /\ linter.Type_ d = linter.DirectiveIgnore
    /\ In rule (linter.Rules d)
    /\ int64 (linter.Line d + 1) = line.

(** ** The linter *)

(** [reportedBy config context tree rules prob]: one of the [rules], not
    disabled by the configuration, reports the problem for the tree, and
    the rule context, if there is one, leaves the rule that the problem
    names enabled at the position of the problem. *)
Definition reportedBy (config : linter.Config) (context : option linter.RuleContext)
           (tree : ast.AbstractSyntaxTree) (rules : list linter.Rule)
           (prob : problem.Problem) : Prop :=
  exists rule found,
    In rule rules
    /\ linter.Config_IsRuleEnabled config (linter.Name rule) = true
    /\ linter.Check rule tree config = Ok found
    /\ In prob found
    /\ match context with
       | Some rc =>
         linter.IsRuleEnabled rc (problem.RuleName prob) (problem.Position prob)
         = true
       | None => True
       end.

(** The tree that the parser makes of the empty source for a file with
    the base name [baseName]: a root class of that name with nothing in
    it. *)
Definition emptyFileTree (baseName : string) : ast.AbstractSyntaxTree :=
  let c := ast.mkClass (ast.mkPosition 1 1 0) baseName "" [] [] [] [] in
  ast.mkAST (ast.mkPosition 1 1 0) (Some c) [Some c] [].

(** A rule that reports one warning, at the position of the tree, and a
    linter with this rule alone; a directive parser that finds
    nothing. *)
Definition sampleRule : linter.Rule :=
  linter.mkRule
    (fun tree _ => Ok [problem.NewWarning (ast.AST_Pos tree) "found" "sample"])
    "sample" "reports one problem".

Definition sampleLinter : linter.Linter :=
  linter.NewLinter [sampleRule] (linter.mkConfig []).

Definition noDirectives (source : string) : list linter.RuleDirective := [].

(** ** Equal expressions *)

(** The expressions that [expressionsEqual] looks into: identifiers,
    number literals, string literals, and infix expressions of
    these. *)
Fixpoint comparable (e : ast.Expression) : bool :=
  match e with
  | ast.Identifier _ _ | ast.NumberLiteral _ _ _ | ast.StringLiteral _ _ => true
  | ast.InfixExpression _ l _ r => comparable l && comparable r
  | _ => false
  end.

(** ** The classes of a tree *)

(** The Class nodes of a statement, the node itself included when the
    statement is a class, in the order of a walk through the tree. *)
Fixpoint stmtClasses (s : ast.Statement) : list ast.Class :=
  match s with
  | ast.StmtIf (Some i) => ifClasses i
  | ast.StmtFor (Some f) => forClasses f
  | ast.StmtWhile (Some w) => whileClasses w
  | ast.StmtMatch (Some m) => matchClasses m
  | ast.StmtFunction (Some f) => functionClasses f
  | ast.StmtClass (Some c) => classClasses c
  | _ => []
  end
with ifClasses (i : ast.IfStatement) : list ast.Class :=
  match i with
  | ast.mkIf _ _ cs _ eb alt =>
    flat_map stmtClasses cs ++ flat_map (flat_map stmtClasses) eb
    ++ flat_map stmtClasses alt
  end
with forClasses (f : ast.ForStatement) : list ast.Class :=
  match f with
  | ast.mkFor _ _ _ _ body _ _ => flat_map stmtClasses body
  end
with whileClasses (w : ast.WhileStatement) : list ast.Class :=
  match w with
  | ast.mkWhile _ _ body => flat_map stmtClasses body
  end
with matchClasses (m : ast.MatchStatement) : list ast.Class :=
  match m with
  | ast.mkMatch _ _ branches => flat_map branchClasses branches
  end
with branchClasses (b : ast.MatchBranch) : list ast.Class :=
  match b with
  | ast.mkMatchBranch _ _ _ body _ => flat_map stmtClasses body
  end
with functionClasses (f : ast.Function) : list ast.Class :=
  match f with
  | ast.mkFunction _ _ _ _ sts subs _ _ =>
    flat_map stmtClasses sts ++ flat_map stmtClasses subs
  end
with classClasses (c : ast.Class) : list ast.Class :=
  match c with
  | ast.mkClass _ _ _ subs fs sts _ =>
    c :: flat_map (fun o => match o with Some c => classClasses c | None => [] end) subs
    ++ flat_map (fun o => match o with Some f => functionClasses f | None => [] end) fs
    ++ flat_map stmtClasses sts
  end.

(** The Class nodes of a syntax tree: those of the root class, of the
    listed classes and of the listed functions. *)
Definition treeClasses (tree : ast.AbstractSyntaxTree) : list ast.Class :=
  stmtClasses (ast.StmtClass (ast.RootClass tree))
  ++ flat_map (fun c => stmtClasses (ast.StmtClass c)) (ast.Classes tree)
  ++ flat_map (fun f => stmtClasses (ast.StmtFunction f)) (ast.AST_Functions tree).

(** The statement has the dynamic type [*ast.Function]. *)
Definition isFunctionStatement (s : ast.Statement) : bool :=
  match s with ast.StmtFunction _ => true | _ => false end.

(** The list of statements of the class holds no function. *)
Definition holdsNoFunction (c : ast.Class) : Prop :=
  forallb (fun s => negb (isFunctionStatement s)) (ast.Class_Statements c) = true.

Definition tidyS (s : ast.Statement) : Prop := Forall holdsNoFunction (stmtClasses s).

Definition tidyL (l : list ast.Statement) : Prop :=
  Forall holdsNoFunction (flat_map stmtClasses l).

Section Tidy.

Context {U : Unicode}.

(** The functions of the second mutual definition return nodes in which
    no class holds a function among its statements, given nodes of which
    this is true; and only at the token [func] is the statement that
    [parseStatement] returns a function. *)
Definition statements_tidy (fuel : nat) : Prop :=
  (forall p,
      wpp (parseStatement fuel p)
          (fun x => tidyS (fst x)
                    /\ (curType p <> FUNC -> isFunctionStatement (fst x) = false)))
  /\ (forall A (P : A -> Prop) skip add node p,
        (forall a s, P a -> tidyS s -> P (add a s)) -> P node ->
        wpp (parseBlock fuel A skip add node p) (fun x => P (fst x)))
  /\ (forall p,
        wpp (parseFunctionDefinition fuel p)
            (fun x => tidyS (ast.StmtFunction (fst x))))
  /\ (forall p,
        wpp (parseClassDefinition fuel p)
            (fun x => tidyS (ast.StmtClass (fst x))))
  /\ (forall c p,
        tidyS (ast.StmtClass (Some c)) ->
        wpp (parseClassBody fuel c p)
            (fun x => tidyS (ast.StmtClass (Some (fst x)))))
  /\ (forall p,
        wpp (parseIfStatement fuel p) (fun x => tidyS (ast.StmtIf (fst x))))
  /\ (forall s p,
        tidyS (ast.StmtIf (Some s)) ->
        wpp (parseElifBranches fuel s p) (fun x => tidyS (ast.StmtIf (fst x))))
  /\ (forall p,
        wpp (parseForStatement fuel p) (fun x => tidyS (ast.StmtFor (fst x))))
  /\ (forall p,
        wpp (parseWhileStatement fuel p) (fun x => tidyS (ast.StmtWhile (fst x))))
  /\ (forall p,
        wpp (parseMatchStatement fuel p) (fun x => tidyS (ast.StmtMatch (fst x))))
  /\ (forall s p,
        tidyS (ast.StmtMatch (Some s)) ->
        wpp (parseMatchBranches fuel s p)
            (fun x => tidyS (ast.StmtMatch (Some (fst x))))).

End Tidy.

(** A class with a field, two public methods and a class nested in it
    that has a public method of its own. *)
Definition methodsSource : string :=
  "class A:" +++ String "010" (String "009" "var x = 1")
  +++ String "010" (String "009" "func f():")
  +++ String "010" (String "009" (String "009" "return 1"))
  +++ String "010" (String "009" "func g():")
  +++ String "010" (String "009" (String "009" "return 2"))
  +++ String "010" (String "009" "class B:")
  +++ String "010" (String "009" (String "009" "func h():"))
  +++ String "010" (String "009" (String "009" (String "009" "return 3"))).

(** ** Assignments as expression statements *)

(** The assignment operators among the infix operators of the parser. *)
Definition isAssignOp (t : TokenType) : bool :=
  match t with
  | ASSIGN | PLUSEQ | MINUSEQ | ASTERISKEQ | SLASHEQ => true
  | _ => false
  end.

(** The tokens that are an expression by themselves. *)
Definition isAtom (t : TokenType) : bool :=
  match t with
  | IDENT | INT | FLOAT | STRING | TRUE | FALSE | NULL => true
  | _ => false
  end.

(** ** Pass statements *)

(** The statement has the dynamic type [*ast.PassStatement]. *)
Definition isPassStatement (s : ast.Statement) : bool :=
  match s with ast.StmtPass _ => true | _ => false end.

Definition notPassStatement (s : ast.Statement) : bool := negb (isPassStatement s).

(** The warning of the rule [UnnecessaryPass] for a pass statement. *)
Definition passWarning (stmt : ast.PassStatement) : problem.Problem :=
  problem.NewWarning (ast.Pos (ast.Pass_Base stmt)) "Unnecessary pass statement"
                     "unnecessary-pass".
(** * Properties *)
(** ** Token types *)

Lemma TokenType_of_string_string (t : TokenType) :
  TokenType_of_string (TokenType_string t) = Some t.
Proof. destruct t; reflexivity. Qed.

(** Distinct constructors of [TokenType] have distinct string values, so
    comparing the constructors is comparing the Go strings. *)
Lemma TokenType_string_inj (a b : TokenType) :
  TokenType_string a = TokenType_string b -> a = b.
Proof.
  intros H.
  pose proof (TokenType_of_string_string a) as Ha.
  rewrite H, TokenType_of_string_string in Ha.
  now injection Ha.
Qed.

Lemma tt_eqb_eq (a b : TokenType) : tt_eqb a b = true <-> a = b.
Proof.
  unfold tt_eqb. rewrite String.eqb_eq. split.
  - apply TokenType_string_inj.
  - now intros ->.
Qed.

Lemma tt_eqb_refl (a : TokenType) : tt_eqb a a = true.
Proof. now apply tt_eqb_eq. Qed.

Lemma tt_eqb_neq (a b : TokenType) : tt_eqb a b = false <-> a <> b.
Proof.
  rewrite <- tt_eqb_eq. destruct (tt_eqb a b); split; congruence.
Qed.

(** ** The indentation stack *)

Lemma top_app (s : list Z) (x : Z) : top (s ++ [x]) = Some x.
Proof. unfold top. now rewrite rev_unit. Qed.

Lemma top_None (s : list Z) : top s = None -> s = [].
Proof.
  unfold top. destruct (rev s) eqn:E; [|discriminate].
  intros _. apply (f_equal (@rev Z)) in E. now rewrite rev_involutive in E.
Qed.

Lemma top_Some (s : list Z) (x : Z) :
  top s = Some x -> s = removelast s ++ [x].
Proof.
  unfold top. destruct (rev s) as [|y r] eqn:E; [discriminate|].
  intros [= ->]. apply (f_equal (@rev Z)) in E.
  rewrite rev_involutive in E. simpl in E. subst s.
  now rewrite removelast_last.
Qed.

Lemma repeat_snoc {A : Type} (x : A) (n : nat) :
  repeat x n ++ [x] = x :: repeat x n.
Proof. induction n as [|n IH]; simpl; [reflexivity|now rewrite IH]. Qed.

(** What the popping loop of [handleIndentation] computes: the stack is
    split into the entries that stay and those, all wider than [indent],
    that are popped; the top of what stays is not wider than [indent];
    one DEDENT token is queued for every popped entry. *)
Lemma dedentLoop_spec (indent : Z) (fuel : nat) (l : Lexer) :
  (List.length (indentStack l) <= fuel)%nat ->
  exists kept popped,
    indentStack l = kept ++ popped
    /\ Forall (fun w => indent < w) popped
    /\ (forall t, top kept = Some t -> t <= indent)
    /\ dedentLoop fuel indent l
       = set_indent l kept
           (tokens l ++ repeat (newToken l DEDENT "") (List.length popped)).
Proof.
  revert l. induction fuel as [|fuel IH]; intros l Hlen.
  - destruct (indentStack l) eqn:E; [|simpl in Hlen; lia].
    exists [], []. simpl. rewrite app_nil_r. repeat split; auto.
    + discriminate.
    + destruct l; simpl in *; now subst.
  - simpl. destruct (top (indentStack l)) as [t|] eqn:Et.
    + destruct (indent <? t) eqn:Elt.
      * pose proof (top_Some _ _ Et) as Hs.
        set (l1 := set_indent l (removelast (indentStack l))
                              (tokens l ++ [newToken l DEDENT ""])).
        destruct (IH l1) as (kept & popped & H1 & H2 & H3 & H4).
        { subst l1. simpl. rewrite Hs in Hlen.
          rewrite length_app in Hlen. simpl in Hlen. lia. }
        exists kept, (popped ++ [t]). subst l1. simpl in *.
        repeat split.
        -- rewrite Hs, H1. now rewrite app_assoc.
        -- apply Forall_app. split; [assumption|].
           constructor; [|constructor]. now apply Z.ltb_lt.
        -- assumption.
        -- rewrite H4. unfold set_indent, newToken. simpl. f_equal.
           rewrite <- app_assoc. f_equal.
           rewrite length_app. simpl. rewrite Nat.add_1_r. reflexivity.
      * exists (indentStack l), []. rewrite app_nil_r. simpl. rewrite app_nil_r.
        repeat split; auto.
        -- intros t' Ht'. rewrite Et in Ht'. injection Ht' as <-.
           now apply Z.ltb_ge.
        -- now destruct l.
    + apply top_None in Et. exists [], []. rewrite Et. simpl.
      rewrite app_nil_r. repeat split; auto; [discriminate|].
      destruct l; simpl in *; now subst.
Qed.

Lemma set_indent_same (l : Lexer) : set_indent l (indentStack l) (tokens l) = l.
Proof. now destruct l. Qed.

(** C6.  When the measured width [indent] is smaller than the top [cur]
    of the indentation stack, [handleIndentation] pops the entries that
    are wider than [indent] (at least one), queues one DEDENT token for
    each of them and, if the top of what remains is not exactly
    [indent], one ILLEGAL token after them; when [indent] equals the
    top, the lexer is left as it is and no token is queued. *)
Theorem handleIndentation_dedent (l : Lexer) (indent cur : Z) :
  top (indentStack l) = Some cur ->
  indent <= cur ->
  (indent = cur -> handleIndentation l indent = Ok l)
  /\ (indent < cur ->
      exists kept popped,
        indentStack l = kept ++ popped
        /\ popped <> []
        /\ Forall (fun w => indent < w) popped
        /\ (forall t, top kept = Some t -> t <= indent)
        /\ handleIndentation l indent
           = Ok (set_indent l kept
                   (tokens l
                    ++ repeat (newToken l DEDENT "") (List.length popped)
                    ++ ambiguousDedent l kept indent))).
Proof.
  intros Htop Hle. unfold handleIndentation. rewrite Htop. split.
  - intros ->. now rewrite Z.ltb_irrefl.
  - intros Hlt.
    replace (cur <? indent) with false by (symmetry; apply Z.ltb_ge; lia).
    replace (indent <? cur) with true by (symmetry; apply Z.ltb_lt; lia).
    destruct (dedentLoop_spec indent (List.length (indentStack l)) l (le_n _))
      as (kept & popped & Hs & Hall & Hkept & Hloop).
    exists kept, popped. repeat split; try assumption.
    + intros ->. rewrite app_nil_r in Hs. rewrite Hs in Htop.
      specialize (Hkept _ Htop). lia.
    + rewrite Hloop. unfold ambiguousDedent. simpl.
      destruct (top kept) as [t|]; [destruct (indent =? t)|]; simpl;
        unfold set_indent, newToken; simpl;
        rewrite <- ?app_assoc, ?app_nil_r; reflexivity.
Qed.

(** The theorem at the stack [0; 4; 8] and the width 2. *)
Lemma handleIndentation_dedent_witness :
  let l := mkLexer "" 0 0 0 1 1 [0; 4; 8] 0 [] in
  (2 = 8 -> handleIndentation l 2 = Ok l)
  /\ (2 < 8 ->
      exists kept popped,
        indentStack l = kept ++ popped
        /\ popped <> []
        /\ Forall (fun w => 2 < w) popped
        /\ (forall t, top kept = Some t -> t <= 2)
        /\ handleIndentation l 2
           = Ok (set_indent l kept
                   (tokens l
                    ++ repeat (newToken l DEDENT "") (List.length popped)
                    ++ ambiguousDedent l kept 2))).
Proof.
  intros l. apply (handleIndentation_dedent l 2 8); [reflexivity | lia].
Defined.

(** ** The lexer: what scanning leaves unchanged *)

Lemma frame_refl (l : Lexer) : frame l l.
Proof. now repeat split. Qed.

Lemma frame_trans (l1 l2 l3 : Lexer) : frame l1 l2 -> frame l2 l3 -> frame l1 l3.
Proof. unfold frame. intuition congruence. Qed.

Lemma readChar_frame (l : Lexer) : frame l (readChar l).
Proof.
  unfold readChar, frame.
  destruct (len (input l) <=? readPosition l);
    [|destruct (DecodeRuneInString _)];
    match goal with |- context [if ?c then _ else _] => destruct c end;
    simpl; auto.
Qed.

Lemma set_line_frame (l : Lexer) (ln col : Z) : frame l (set_line l ln col).
Proof. now repeat split. Qed.

Lemma readWhile_frame (cond : rune -> bool) (fuel : nat) (l l' : Lexer) :
  readWhile cond fuel l = Ok l' -> frame l l'.
Proof.
  revert l. induction fuel as [|fuel IH]; intros l; simpl;
    destruct (cond (ch l)); try discriminate.
  - intros [= ->]. apply frame_refl.
  - intros H. eapply frame_trans; [apply readChar_frame|now apply IH].
  - intros [= ->]. apply frame_refl.
Qed.

Lemma readStringLoop_frame (quote : rune) (fuel : nat) (l l' : Lexer) :
  readStringLoop quote fuel l = Ok l' -> frame l l'.
Proof.
  revert l. induction fuel as [|fuel IH]; intros l; simpl.
  - destruct (ch l =? rune_of "\"); [discriminate|].
    destruct ((ch l =? quote) || (ch l =? 0)); [|discriminate].
    intros [= ->]. apply frame_refl.
  - destruct (ch l =? rune_of "\").
    + intros H. apply IH in H.
      eapply frame_trans; [apply readChar_frame|].
      eapply frame_trans; [apply readChar_frame|exact H].
    + destruct ((ch l =? quote) || (ch l =? 0)).
      * intros [= ->]. apply frame_refl.
      * intros H. apply IH in H.
        destruct (ch l =? rune_of "010").
        -- eapply frame_trans; [apply set_line_frame|].
           eapply frame_trans; [apply readChar_frame|exact H].
        -- eapply frame_trans; [apply readChar_frame|exact H].
Qed.

Lemma readRawStringLoop_frame (quote : rune) (fuel : nat) (l l' : Lexer) :
  readRawStringLoop quote fuel l = Ok l' -> frame l l'.
Proof.
  revert l. induction fuel as [|fuel IH]; intros l; simpl.
  - destruct ((ch l =? quote) || (ch l =? 0)); [|discriminate].
    intros [= ->]. apply frame_refl.
  - destruct ((ch l =? quote) || (ch l =? 0)).
    + intros [= ->]. apply frame_refl.
    + intros H. apply IH in H.
      destruct (ch l =? rune_of "010").
      * eapply frame_trans; [apply set_line_frame|].
        eapply frame_trans; [apply readChar_frame|exact H].
      * eapply frame_trans; [apply readChar_frame|exact H].
Qed.

Lemma countIndent_spec (fuel : nat) (indent : Z) (l : Lexer) (indent' : Z) (l' : Lexer) :
  countIndent fuel indent l = Ok (indent', l') -> indent <= indent' /\ frame l l'.
Proof.
  revert indent l. induction fuel as [|fuel IH]; intros indent l; simpl;
    destruct (isIndentChar (ch l)); try discriminate.
  - intros [= -> ->]. split; [lia|apply frame_refl].
  - intros H. apply IH in H. destruct H as [H1 H2]. split.
    + destruct (ch l =? rune_of " "); [lia|].
      destruct (ch l =? rune_of "009"); lia.
    + eapply frame_trans; [apply readChar_frame|exact H2].
  - intros [= -> ->]. split; [lia|apply frame_refl].
Qed.

(** Inversion of a successful bind. *)
Lemma rbind_Ok {A B : Type} (m : result A) (k : A -> result B) (b : B) :
  rbind m k = Ok b -> exists a, m = Ok a /\ k a = Ok b.
Proof. destruct m; simpl; try discriminate. eauto. Qed.

Ltac inv_bind H :=
  let a := fresh "a" in
  let Ha := fresh "Ha" in
  apply rbind_Ok in H; destruct H as (a & Ha & H).

Lemma readString_frame (l : Lexer) (quote : rune) (s : string) (l' : Lexer) :
  readString l quote = Ok (s, l') -> frame l l'.
Proof.
  unfold readString. intros H. inv_bind H. inv_bind H. injection H as _ <-.
  apply readStringLoop_frame in Ha.
  eapply frame_trans; [apply readChar_frame|].
  eapply frame_trans; [exact Ha|].
  destruct (ch a =? quote); [apply readChar_frame|apply frame_refl].
Qed.

Lemma readRawString_frame (l : Lexer) (quote : rune) (s : string) (l' : Lexer) :
  readRawString l quote = Ok (s, l') -> frame l l'.
Proof.
  unfold readRawString. intros H. inv_bind H. inv_bind H. injection H as _ <-.
  apply readRawStringLoop_frame in Ha.
  eapply frame_trans; [exact Ha|].
  destruct (ch a =? quote); [apply readChar_frame|apply frame_refl].
Qed.

Lemma readComment_frame (l : Lexer) (s : string) (l' : Lexer) :
  readComment l = Ok (s, l') -> frame l l'.
Proof.
  unfold readComment. intros H. inv_bind H. inv_bind H. injection H as _ <-.
  now apply readWhile_frame in Ha.
Qed.

Lemma skipWhitespace_frame (l l' : Lexer) : skipWhitespace l = Ok l' -> frame l l'.
Proof. apply readWhile_frame. Qed.

Ltac inv_ok :=
  repeat match goal with
  | H : Ok _ = Ok _ |- _ => injection H as H; subst
  | H : (_, _) = (_, _) |- _ => injection H as H; subst
  end.

Section LexerFrames.

Context {U : Unicode}.

Lemma readIdentifier_frame (l : Lexer) (s : string) (l' : Lexer) :
  readIdentifier l = Ok (s, l') -> frame l l'.
Proof.
  unfold readIdentifier. intros H. inv_bind H. inv_bind H. injection H as _ <-.
  now apply readWhile_frame in Ha.
Qed.

Lemma readNumber_frame (l : Lexer) (tok : Token) (l' : Lexer) :
  readNumber l = Ok (tok, l') ->
  frame l l' /\ (Type_ tok = HEX \/ Type_ tok = BIN \/ Type_ tok = INT \/ Type_ tok = FLOAT).
Proof.
  unfold readNumber. intros H.
  destruct ((ch l =? rune_of "0") && _) in H.
  { inv_bind H. inv_bind H. injection H as <- <-. split; [|auto].
    apply readWhile_frame in Ha.
    eapply frame_trans; [apply readChar_frame|].
    eapply frame_trans; [apply readChar_frame|exact Ha]. }
  destruct ((ch l =? rune_of "0") && _) in H.
  { inv_bind H. inv_bind H. injection H as <- <-. split; [|auto].
    apply readWhile_frame in Ha.
    eapply frame_trans; [apply readChar_frame|].
    eapply frame_trans; [apply readChar_frame|exact Ha]. }
  inv_bind H. apply readWhile_frame in Ha.
  inv_bind H. destruct a0 as [isFloat l1].
  inv_bind H. destruct a0 as [isFloat' l2].
  inv_bind H.
  assert (F1 : frame a l1).
  { destruct ((ch a =? rune_of ".") && _) in Ha0.
    - inv_bind Ha0. injection Ha0 as _ <-. apply readWhile_frame in Ha3.
      eapply frame_trans; [apply readChar_frame|exact Ha3].
    - injection Ha0 as _ <-. apply frame_refl. }
  assert (F2 : frame l1 l2).
  { destruct (((ch l1 =? rune_of "e") || _) && _) in Ha1.
    - inv_bind Ha1. injection Ha1 as _ <-. apply readWhile_frame in Ha3.
      eapply frame_trans; [apply readChar_frame|].
      destruct (_ || _) in Ha3;
        [eapply frame_trans; [apply readChar_frame|]|]; exact Ha3.
    - injection Ha1 as _ <-. apply frame_refl. }
  assert (F : frame l l2) by (eapply frame_trans; [exact Ha|];
                              eapply frame_trans; eassumption).
  destruct isFloat'; injection H as <- <-; auto.
Qed.

Lemma LookupIdent_cases (s : string) :
  In (LookupIdent s) (IDENT :: map snd keywords).
Proof.
  unfold LookupIdent.
  assert (G : forall m, (forall k v, In (k, v) m -> In v (map snd keywords)) ->
              In (match map_lookup m s with Some tok => tok | None => IDENT end)
                 (IDENT :: map snd keywords)).
  { induction m as [|[k v] m IH]; intros Hm; simpl.
    - now left.
    - destruct (String.eqb k s).
      + right. apply (Hm k v). now left.
      + apply IH. intros k' v' Hin. apply (Hm k' v'). now right. }
  apply G. intros k v Hin. apply (in_map snd) in Hin. exact Hin.
Qed.

Lemma LookupIdent_not_structural (s : string) :
  LookupIdent s <> INDENT /\ LookupIdent s <> DEDENT
  /\ LookupIdent s <> ILLEGAL /\ LookupIdent s <> EOF /\ LookupIdent s <> NL.
Proof.
  pose proof (LookupIdent_cases s) as H.
  assert (G : forall t, In t (IDENT :: map snd keywords) ->
              t <> INDENT /\ t <> DEDENT /\ t <> ILLEGAL /\ t <> EOF /\ t <> NL).
  { intros t Ht. simpl in Ht.
    repeat (destruct Ht as [<-|Ht]; [repeat split; discriminate|]).
    destruct Ht. }
  now apply G.
Qed.

End LexerFrames.

Ltac solve_frame :=
  lazymatch goal with
  | H : frame ?l ?a |- frame ?l ?a => exact H
  | |- frame ?l ?l => apply frame_refl
  | |- frame ?l (readChar ?x) =>
    eapply frame_trans; [|apply readChar_frame]; solve_frame
  end.

Section LexerSteps.

Context {U : Unicode}.

(** The three ways in which [NextToken] produces a token: from the
    queue; by scanning, which leaves stack and queue alone and never
    yields a structural token; or at a newline, where the indentation of
    the next line is measured and handed to [handleIndentation]. *)
Lemma NextToken_cases (l : Lexer) (tok : Token) (l' : Lexer) :
  NextToken l = Ok (tok, l') ->
  (exists rest, tokens l = tok :: rest /\ l' = set_indent l (indentStack l) rest)
  \/ (tokens l = [] /\ frame l l'
      /\ Type_ tok <> INDENT /\ Type_ tok <> DEDENT /\ Type_ tok <> NL)
  \/ (tokens l = [] /\ Type_ tok = NL
      /\ exists l1 indent,
           frame l l1 /\ 0 <= indent /\ handleIndentation l1 indent = Ok l').
Proof.
  unfold NextToken. destruct (tokens l) as [|t rest] eqn:Eq.
  2:{ intros [= -> <-]. left. eauto. }
  intros H. right. inv_bind H. rename a into a0.
  pose proof (skipWhitespace_frame _ _ Ha) as Hf. clear Ha.
  unfold chIs, peekIs in H. cbv zeta in H.
  repeat match type of H with
  | (if ?c then _ else _) = _ => destruct c
  | emit _ _ _ = Ok _ =>
    unfold emit in H; injection H as <- <-; left;
    split; [reflexivity|split; [solve_frame|simpl; repeat split; discriminate]]
  end.
  - (* comment *)
    inv_bind H. destruct a as [lit l1]. injection H as <- <-. left.
    apply readComment_frame in Ha.
    split; [reflexivity|split; [eapply frame_trans; eassumption|]].
    simpl; repeat split; discriminate.
  - (* string *)
    inv_bind H. destruct a as [lit l1]. injection H as <- <-. left.
    apply readString_frame in Ha.
    split; [reflexivity|split; [eapply frame_trans; eassumption|]].
    simpl; repeat split; discriminate.
  - (* raw string *)
    inv_bind H. destruct a as [lit l1]. injection H as <- <-. left.
    apply readRawString_frame in Ha.
    split; [reflexivity|split; [|simpl; repeat split; discriminate]].
    eapply frame_trans; [|exact Ha]. solve_frame.
  - (* identifier starting with r *)
    inv_bind H. destruct a as [lit l1]. injection H as <- <-. left.
    apply readIdentifier_frame in Ha.
    split; [reflexivity|split; [eapply frame_trans; eassumption|]].
    simpl. pose proof (LookupIdent_not_structural lit). tauto.
  - (* newline *)
    inv_bind H. destruct a as [indent l1]. inv_bind H. injection H as <- <-.
    right. split; [reflexivity|split; [reflexivity|]].
    apply countIndent_spec in Ha. destruct Ha as [Hi Hf1].
    exists l1, indent. split; [|split; [exact Hi|exact Ha0]].
    eapply frame_trans; [|exact Hf1]. solve_frame.
  - (* end of input *)
    injection H as <- <-. left.
    split; [reflexivity|split; [exact Hf|simpl; repeat split; discriminate]].
  - (* identifier *)
    inv_bind H. destruct a as [lit l1]. injection H as <- <-. left.
    apply readIdentifier_frame in Ha.
    split; [reflexivity|split; [eapply frame_trans; eassumption|]].
    simpl. pose proof (LookupIdent_not_structural lit). tauto.
  - (* number *)
    apply readNumber_frame in H. destruct H as [Hn Ht]. left.
    split; [reflexivity|split; [eapply frame_trans; eassumption|]].
    repeat split; intros E; rewrite E in Ht;
      destruct Ht as [Ht|[Ht|[Ht|Ht]]]; discriminate.
Qed.

End LexerSteps.

(** ** The balance of INDENT and DEDENT tokens *)

Lemma countType_app (t : TokenType) (a b : list Token) :
  countType t (a ++ b) = (countType t a + countType t b)%nat.
Proof. unfold countType. now rewrite filter_app, length_app. Qed.

Lemma countType_cons (t : TokenType) (tok : Token) (a : list Token) :
  countType t (tok :: a)
  = ((if tt_eqb (Type_ tok) t then 1 else 0) + countType t a)%nat.
Proof. unfold countType. simpl. now destruct (tt_eqb (Type_ tok) t). Qed.

Lemma countType_repeat (t : TokenType) (tok : Token) (n : nat) :
  countType t (repeat tok n)
  = (if tt_eqb (Type_ tok) t then n else 0)%nat.
Proof.
  induction n as [|n IH]; simpl repeat.
  - now destruct (tt_eqb (Type_ tok) t).
  - rewrite countType_cons, IH. now destruct (tt_eqb (Type_ tok) t).
Qed.

Lemma countType_other (t : TokenType) (tok : Token) :
  Type_ tok <> t -> countType t [tok] = 0%nat.
Proof.
  intros H. rewrite countType_cons.
  now replace (tt_eqb (Type_ tok) t) with false by (symmetry; now apply tt_eqb_neq).
Qed.

(** What [handleIndentation] does to the stack and the queue, for a
    width that is not negative. *)
Lemma handleIndentation_effect (l : Lexer) (indent : Z) (l' : Lexer) :
  handleIndentation l indent = Ok l' ->
  0 <= indent ->
  seeded (indentStack l) ->
  input l' = input l
  /\ seeded (indentStack l')
  /\ exists new,
       tokens l' = tokens l ++ new
       /\ forallb isStructural new = true
       /\ (countType INDENT new + List.length (indentStack l)
           = countType DEDENT new + List.length (indentStack l'))%nat.
Proof.
  intros H Hind [rest Hseed]. unfold handleIndentation in H.
  destruct (top (indentStack l)) as [cur|] eqn:Etop; [|discriminate].
  destruct (cur <? indent).
  { injection H as <-. simpl. split; [reflexivity|split].
    - exists (rest ++ [indent]). now rewrite Hseed.
    - exists [newToken l INDENT ""]. split; [reflexivity|split; [reflexivity|]].
      rewrite length_app. simpl. lia. }
  destruct (indent <? cur).
  2:{ injection H as <-. split; [reflexivity|split; [now exists rest|]].
      exists []. rewrite app_nil_r. repeat split. }
  destruct (dedentLoop_spec indent (List.length (indentStack l)) l (le_n _))
    as (kept & popped & Hs & Hall & Hkept & Hloop).
  rewrite Hloop in H. simpl in H.
  assert (Hk : seeded kept).
  { destruct kept as [|k kept'].
    - simpl in Hs. rewrite Hseed in Hs. subst popped.
      apply Forall_inv in Hall. lia.
    - rewrite Hseed in Hs. injection Hs as <- _. now exists kept'. }
  assert (Hlen : List.length (indentStack l)
                 = (List.length kept + List.length popped)%nat)
    by (now rewrite Hs, length_app).
  set (ded := repeat (newToken l DEDENT "") (List.length popped)) in *.
  assert (Hd1 : countType INDENT ded = 0%nat)
    by (unfold ded; now rewrite countType_repeat).
  assert (Hd2 : countType DEDENT ded = List.length popped)
    by (unfold ded; now rewrite countType_repeat).
  assert (Hd3 : forallb isStructural ded = true).
  { unfold ded. apply forallb_forall. intros x Hx.
    apply repeat_spec in Hx. now subst x. }
  destruct (top kept) as [t|] eqn:Ek.
  - destruct (negb (indent =? t)); injection H as <-; simpl;
      (split; [reflexivity|split; [exact Hk|]]).
    + exists (ded ++ [NewToken ILLEGAL "invalid indentation" (line l) (column l) (position l)]).
      unfold newToken. simpl. rewrite <- app_assoc.
      split; [reflexivity|split].
      * rewrite forallb_app, Hd3. reflexivity.
      * rewrite !countType_app, Hd1, Hd2, Hlen, !countType_other by discriminate. lia.
    + exists ded. split; [reflexivity|split; [exact Hd3|]].
      rewrite Hd1, Hd2, Hlen. lia.
  - apply top_None in Ek. destruct Hk as [? Hk]. rewrite Ek in Hk. discriminate.
Qed.

Lemma forallb_isStructural_not (new : list Token) (t : TokenType) :
  forallb isStructural new = true ->
  t <> INDENT -> t <> DEDENT -> t <> ILLEGAL ->
  Forall (fun tok => Type_ tok <> t) new.
Proof.
  intros H H1 H2 H3. apply Forall_forall. intros x Hx E.
  rewrite forallb_forall in H. specialize (H x Hx).
  unfold isStructural in H. rewrite E in H. destruct t; congruence.
Qed.

Section LexerBalance.

Context {U : Unicode}.

(** One call of [NextToken] keeps the balance, the seed of the stack and
    the kind of the queued tokens. *)
Lemma NextToken_balanced (out : list Token) (l : Lexer) (tok : Token) (l' : Lexer) :
  NextToken l = Ok (tok, l') ->
  balanced out l -> seeded (indentStack l) -> forallb isStructural (tokens l) = true ->
  balanced (out ++ [tok]) l' /\ seeded (indentStack l')
  /\ forallb isStructural (tokens l') = true
  /\ input l' = input l
  /\ (Type_ tok = EOF -> tokens l' = []).
Proof.
  intros H Hb Hs Hq. unfold balanced in *.
  destruct (NextToken_cases _ _ _ H) as
    [(rest & Eq & ->)|[(Eq & (Hi & Hst & Htk) & N1 & N2 & N3)
                      |(Eq & Et & l1 & indent & (Hi & Hst & Htk) & Hind & Hh)]].
  - simpl. rewrite Eq in Hb, Hq. simpl in Hq.
    apply andb_prop in Hq. destruct Hq as [Hq1 Hq2].
    rewrite <- app_assoc. simpl. repeat split; auto.
    intros E. unfold isStructural in Hq1. rewrite E in Hq1. discriminate.
  - rewrite Htk, Hst, Eq. rewrite Eq, app_nil_r in Hb.
    rewrite app_nil_r, !countType_app, !countType_other by assumption.
    repeat split; auto. lia.
  - rewrite <- Hst in Hs.
    destruct (handleIndentation_effect _ _ _ Hh Hind Hs)
      as (Hi' & Hs' & new & Hn & Hnq & Hc).
    rewrite Hn, Htk, Eq. simpl. rewrite Eq, app_nil_r in Hb. rewrite Hst in Hc.
    rewrite !countType_app, !countType_other by (rewrite Et; discriminate).
    repeat split; auto; try congruence; try lia.
Qed.

(** The tokens of a run up to the first EOF: the balance holds over
    them, and the queue is empty when EOF is returned. *)
Lemma lexAll_balanced (fuel : nat) (out : list Token) (l : Lexer)
      (toks : list Token) (l' : Lexer) :
  lexAll fuel l = Ok (toks, l') ->
  balanced out l -> seeded (indentStack l) -> forallb isStructural (tokens l) = true ->
  balanced (out ++ toks) l' /\ seeded (indentStack l') /\ tokens l' = []
  /\ input l' = input l.
Proof.
  revert out l toks l'. induction fuel as [|fuel IH]; intros out l toks l' H Hb Hs Hq.
  - discriminate.
  - simpl in H. inv_bind H. destruct a as [tok l1].
    destruct (NextToken_balanced out _ _ _ Ha Hb Hs Hq) as (Hb1 & Hs1 & Hq1 & Hi1 & He).
    destruct (Type_ tok) eqn:Et;
      try (inv_bind H; destruct a as [toks1 l2]; injection H as <- <-;
           destruct (IH _ _ _ _ Ha0 Hb1 Hs1 Hq1) as (? & ? & ? & ?);
           rewrite <- app_assoc in *; simpl in *; repeat split; auto; congruence).
    injection H as <- <-. repeat split; auto.
Qed.

Lemma NewLexer_start (input0 : string) :
  balanced [] (NewLexer input0) /\ indentStack (NewLexer input0) = [0]
  /\ tokens (NewLexer input0) = [] /\ input (NewLexer input0) = input0.
Proof.
  unfold NewLexer.
  destruct (readChar_frame (mkLexer input0 0 0 0 1 1 [0] 0 [])) as (H1 & H2 & H3).
  unfold balanced. rewrite H1, H2, H3. simpl. repeat split.
Qed.

End LexerBalance.

(** ** The lexer: positions and progress *)

Lemma decode_bytes_size (bs : list Z) :
  bs <> [] ->
  1 <= snd (decode_bytes bs) <= Z.of_nat (List.length bs).
Proof.
  intros Hne. unfold decode_bytes.
  destruct bs as [|s0 [|s1 [|s2 [|s3 t]]]]; [congruence| | | |];
    repeat match goal with
    | |- context [if ?c then _ else _] => destruct c
    end;
    cbn [snd List.length]; lia.
Qed.

Lemma length_bytes_of (s : string) : List.length (bytes_of s) = String.length s.
Proof. induction s as [|c s IH]; simpl; congruence. Qed.

Lemma length_substring (n m : nat) (s : string) :
  (n + m <= String.length s)%nat -> String.length (substring n m s) = m.
Proof.
  revert n m. induction s as [|c s IH]; intros n m H; simpl in *.
  - destruct n, m; simpl; lia.
  - destruct n as [|n].
    + destruct m as [|m]; simpl; [reflexivity|]. rewrite (IH 0%nat m); lia.
    + apply IH. lia.
Qed.

Lemma len_drop (k : Z) (s : string) :
  0 <= k <= len s -> len (drop k s) = len s - k.
Proof.
  intros H. unfold len, drop in *. rewrite length_substring; lia.
Qed.

Lemma DecodeRuneInString_size (s : string) :
  0 < len s -> 1 <= snd (DecodeRuneInString s) <= len s.
Proof.
  intros H. unfold DecodeRuneInString, len in *.
  rewrite <- length_bytes_of. apply decode_bytes_size.
  intros E. apply (f_equal (@List.length Z)) in E.
  rewrite length_bytes_of in E. simpl in E. lia.
Qed.

Lemma readChar_position (l : Lexer) : position (readChar l) = readPosition l.
Proof.
  unfold readChar.
  destruct (len (input l) <=? readPosition l);
    [|destruct (DecodeRuneInString _)];
    match goal with |- context [if ?c then _ else _] => destruct c end;
    reflexivity.
Qed.

Lemma readChar_inv (l : Lexer) : LexerInv l -> LexerInv (readChar l).
Proof.
  intros (H1 & H2 & H3 & H4). unfold LexerInv.
  rewrite readChar_position.
  destruct (readChar_frame l) as (Hi & _). rewrite Hi.
  unfold readChar.
  destruct (len (input l) <=? readPosition l) eqn:E.
  - simpl. repeat split; try lia; congruence.
  - apply Z.leb_gt in E.
    pose proof (DecodeRuneInString_size (drop (readPosition l) (input l))) as Hd.
    rewrite len_drop in Hd by lia.
    destruct (DecodeRuneInString _) as [r size]. simpl in Hd.
    destruct (r =? rune_of "010"); simpl; repeat split; lia.
Qed.

Lemma readChar_advance (l : Lexer) : advance false l (readChar l).
Proof.
  split; [apply readChar_frame|]. intros H. split; [now apply readChar_inv|].
  rewrite readChar_position. unfold LexerInv in H. lia.
Qed.

Lemma readChar_advance_strict (l : Lexer) : ch l <> 0 -> advance true l (readChar l).
Proof.
  intros Hc. split; [apply readChar_frame|]. intros H. split; [now apply readChar_inv|].
  rewrite readChar_position. unfold LexerInv in H. tauto.
Qed.

Lemma advance_refl (l : Lexer) : advance false l l.
Proof. split; [apply frame_refl|]. intros H. split; [assumption|lia]. Qed.

Lemma advance_weaken (b : bool) (l l' : Lexer) : advance b l l' -> advance false l l'.
Proof.
  intros [Hf H]. split; [assumption|]. intros Hi. destruct (H Hi) as [H1 H2].
  split; [assumption|]. destruct b; lia.
Qed.

Lemma advance_trans (b1 b2 : bool) (l1 l2 l3 : Lexer) :
  advance b1 l1 l2 -> advance b2 l2 l3 -> advance (b1 || b2) l1 l3.
Proof.
  intros [Hf1 H1] [Hf2 H2]. split; [eapply frame_trans; eassumption|].
  intros Hi. destruct (H1 Hi) as [Hi2 Hp1]. destruct (H2 Hi2) as [Hi3 Hp2].
  split; [assumption|]. destruct b1, b2; simpl; lia.
Qed.

Lemma set_line_advance (l : Lexer) (ln col : Z) : advance false l (set_line l ln col).
Proof.
  split; [apply set_line_frame|]. intros H. split; [exact H|simpl; lia].
Qed.

(** A scanning loop ends when its fuel exceeds the number of bytes left:
    the loop reads on only at characters other than NUL. *)
Lemma readWhile_total (cond : rune -> bool) (fuel : nat) (l : Lexer) :
  cond 0 = false ->
  LexerInv l ->
  (Z.to_nat (len (input l) - position l) < fuel)%nat ->
  exists l', readWhile cond fuel l = Ok l'
             /\ advance (cond (ch l)) l l' /\ cond (ch l') = false.
Proof.
  intros Hc. revert l. induction fuel as [|fuel IH]; intros l Hi Hf; [lia|].
  simpl. destruct (cond (ch l)) eqn:E.
  - assert (Hne : ch l <> 0) by (intros E0; rewrite E0 in E; congruence).
    destruct (readChar_advance_strict l Hne) as [Hfr Ha].
    destruct (Ha Hi) as [Hi' Hp].
    destruct (IH (readChar l) Hi') as (l' & Hr & Hadv & Hend).
    { destruct Hfr as (Hin & _). rewrite Hin. unfold LexerInv in *. lia. }
    exists l'. split; [exact Hr|split; [|exact Hend]].
    apply (advance_trans true _ _ _ _ (conj Hfr Ha) Hadv).
  - exists l. split; [reflexivity|split; [apply advance_refl|exact E]].
Qed.

Lemma scanFuel_enough (l : Lexer) :
  (Z.to_nat (len (input l) - position l) < scanFuel l)%nat.
Proof. unfold scanFuel. lia. Qed.

Lemma slice_Ok (s : string) (lo hi : Z) :
  0 <= lo -> lo <= hi -> hi <= len s ->
  slice s lo hi = Ok (substring (Z.to_nat lo) (Z.to_nat (hi - lo)) s).
Proof.
  intros H1 H2 H3. unfold slice.
  replace (0 <=? lo) with true by (symmetry; now apply Z.leb_le).
  replace (lo <=? hi) with true by (symmetry; now apply Z.leb_le).
  replace (hi <=? len s) with true by (symmetry; now apply Z.leb_le).
  reflexivity.
Qed.

Lemma rune_eqb_ne0 (c : rune) (a : ascii) :
  (c =? rune_of a) = true -> rune_of a <> 0 -> c <> 0.
Proof. intros H Hn. apply Z.eqb_eq in H. congruence. Qed.

Lemma readStringLoop_total (quote : rune) (fuel : nat) (l : Lexer) :
  LexerInv l ->
  (Z.to_nat (len (input l) - position l) < fuel)%nat ->
  exists l', readStringLoop quote fuel l = Ok l' /\ advance false l l'.
Proof.
  revert l. induction fuel as [|fuel IH]; intros l Hi Hf; [lia|].
  simpl. destruct (ch l =? rune_of "\") eqn:E1.
  - assert (Hne : ch l <> 0) by (eapply rune_eqb_ne0; [exact E1|discriminate]).
    pose proof (readChar_advance_strict l Hne) as A1.
    pose proof (readChar_advance (readChar l)) as A2.
    pose proof (advance_trans _ _ _ _ _ A1 A2) as A. simpl in A.
    destruct A as [Hfr Ha]. destruct (Ha Hi) as [Hi' Hp].
    destruct (IH (readChar (readChar l)) Hi') as (l' & Hr & Hadv).
    { destruct Hfr as (Hin & _). rewrite Hin. unfold LexerInv in *. lia. }
    exists l'. split; [exact Hr|].
    apply (advance_trans true false _ _ _ (conj Hfr Ha)) in Hadv.
    now apply advance_weaken in Hadv.
  - destruct ((ch l =? quote) || (ch l =? 0)) eqn:E2.
    + exists l. split; [reflexivity|apply advance_refl].
    + apply orb_false_elim in E2. destruct E2 as [_ E0]. apply Z.eqb_neq in E0.
      set (l1 := if ch l =? rune_of "010" then set_line l (line l + 1) 1 else l).
      assert (A0 : advance false l l1 /\ ch l1 = ch l).
      { subst l1. destruct (ch l =? rune_of "010");
          [split; [apply set_line_advance|reflexivity]
          |split; [apply advance_refl|reflexivity]]. }
      destruct A0 as [A0 Hch].
      assert (A1 : advance true l1 (readChar l1))
        by (apply readChar_advance_strict; congruence).
      pose proof (advance_trans _ _ _ _ _ A0 A1) as A. simpl in A.
      destruct A as [Hfr Ha]. destruct (Ha Hi) as [Hi' Hp].
      destruct (IH (readChar l1) Hi') as (l' & Hr & Hadv).
      { destruct Hfr as (Hin & _). rewrite Hin. unfold LexerInv in *. lia. }
      exists l'. split; [exact Hr|].
      apply (advance_trans true false _ _ _ (conj Hfr Ha)) in Hadv.
      now apply advance_weaken in Hadv.
Qed.

Lemma readRawStringLoop_total (quote : rune) (fuel : nat) (l : Lexer) :
  LexerInv l ->
  (Z.to_nat (len (input l) - position l) < fuel)%nat ->
  exists l', readRawStringLoop quote fuel l = Ok l' /\ advance false l l'.
Proof.
  revert l. induction fuel as [|fuel IH]; intros l Hi Hf; [lia|].
  simpl. destruct ((ch l =? quote) || (ch l =? 0)) eqn:E2.
  - exists l. split; [reflexivity|apply advance_refl].
  - apply orb_false_elim in E2. destruct E2 as [_ E0]. apply Z.eqb_neq in E0.
    set (l1 := if ch l =? rune_of "010" then set_line l (line l + 1) 1 else l).
    assert (A0 : advance false l l1 /\ ch l1 = ch l).
    { subst l1. destruct (ch l =? rune_of "010");
        [split; [apply set_line_advance|reflexivity]
        |split; [apply advance_refl|reflexivity]]. }
    destruct A0 as [A0 Hch].
    assert (A1 : advance true l1 (readChar l1))
      by (apply readChar_advance_strict; congruence).
    pose proof (advance_trans _ _ _ _ _ A0 A1) as A. simpl in A.
    destruct A as [Hfr Ha]. destruct (Ha Hi) as [Hi' Hp].
    destruct (IH (readChar l1) Hi') as (l' & Hr & Hadv).
    { destruct Hfr as (Hin & _). rewrite Hin. unfold LexerInv in *. lia. }
    exists l'. split; [exact Hr|].
    apply (advance_trans true false _ _ _ (conj Hfr Ha)) in Hadv.
    now apply advance_weaken in Hadv.
Qed.

Lemma isIndentChar_ne0 (c : rune) : isIndentChar c = true -> c <> 0.
Proof.
  unfold isIndentChar. intros H E. subst c. discriminate.
Qed.

Lemma countIndent_total (fuel : nat) (indent : Z) (l : Lexer) :
  LexerInv l ->
  (Z.to_nat (len (input l) - position l) < fuel)%nat ->
  exists indent' l', countIndent fuel indent l = Ok (indent', l')
                     /\ advance false l l' /\ indent <= indent'.
Proof.
  revert indent l. induction fuel as [|fuel IH]; intros indent l Hi Hf; [lia|].
  simpl. destruct (isIndentChar (ch l)) eqn:E.
  - pose proof (readChar_advance_strict l (isIndentChar_ne0 _ E)) as [Hfr Ha].
    destruct (Ha Hi) as [Hi' Hp]. simpl in Hp.
    match goal with |- context [countIndent fuel ?i _] => set (i1 := i) end.
    destruct (IH i1 (readChar l) Hi') as (i' & l' & Hr & Hadv & Hle).
    { destruct Hfr as (Hin & _). rewrite Hin. unfold LexerInv in *.
      rewrite Hin in Hi'. lia. }
    exists i', l'. split; [exact Hr|split].
    + apply (advance_trans true false _ _ _ (conj Hfr Ha)) in Hadv.
      now apply advance_weaken in Hadv.
    + subst i1. destruct (ch l =? rune_of " "); [lia|].
      destruct (ch l =? rune_of "009"); lia.
  - exists indent, l. split; [reflexivity|split; [apply advance_refl|lia]].
Qed.

Lemma advance_input (b : bool) (l l' : Lexer) : advance b l l' -> input l' = input l.
Proof. intros [[H _] _]. exact H. Qed.

Lemma advance_bounds (b : bool) (l l' : Lexer) :
  advance b l l' -> LexerInv l ->
  0 <= position l /\ position l <= position l' /\ position l' <= len (input l').
Proof.
  intros [Hf H] Hi. destruct (H Hi) as [Hi' Hp].
  unfold LexerInv in *. destruct b; lia.
Qed.

Lemma advance_remaining (b : bool) (l l' : Lexer) :
  advance b l l' -> LexerInv l ->
  (remaining l' <= remaining l)%nat
  /\ (b = true -> (remaining l' < remaining l)%nat).
Proof.
  intros [(Hin & Hst & Htk) H] Hi. destruct (H Hi) as [Hi' Hp].
  unfold remaining. rewrite Hin, Hst, Htk. unfold LexerInv in *.
  rewrite Hin in Hi'. split; [destruct b; lia|]. intros ->. lia.
Qed.

Lemma slice_advance (b : bool) (l l' : Lexer) :
  advance b l l' -> LexerInv l ->
  slice (input l') (position l) (position l')
  = Ok (substring (Z.to_nat (position l))
                  (Z.to_nat (position l' - position l)) (input l')).
Proof.
  intros A Hi. destruct (advance_bounds _ _ _ A Hi) as (H1 & H2 & H3).
  now apply slice_Ok.
Qed.

Lemma readComment_post (l : Lexer) :
  LexerInv l -> ch l = rune_of "#" -> scanPost true l (readComment l).
Proof.
  intros Hi Hc. unfold readComment.
  set (cond := fun c : rune => negb (c =? rune_of "010") && negb (c =? 0)).
  destruct (readWhile_total cond (scanFuel l) l eq_refl Hi (scanFuel_enough l))
    as (l' & Hr & Hadv & _).
  rewrite Hr. cbn [rbind].
  replace (cond (ch l)) with true in Hadv by (now rewrite Hc).
  rewrite (slice_advance _ _ _ Hadv Hi). exact Hadv.
Qed.

Lemma readString_post (l : Lexer) (quote : rune) :
  LexerInv l -> ch l <> 0 -> scanPost true l (readString l quote).
Proof.
  intros Hi Hc. unfold readString.
  pose proof (readChar_advance_strict l Hc) as A1.
  destruct A1 as [F1 A1']. destruct (A1' Hi) as [Hi1 Hp1].
  pose proof (conj F1 A1' : advance true l (readChar l)) as A1.
  destruct (readStringLoop_total quote (scanFuel (readChar l)) (readChar l) Hi1
                                 (scanFuel_enough _)) as (l2 & Hr & A2).
  rewrite Hr. cbn [rbind].
  pose proof (advance_trans _ _ _ _ _ A1 A2) as A12. simpl in A12.
  set (l3 := if ch l2 =? quote then readChar l2 else l2).
  assert (A3 : advance true l l3).
  { subst l3. destruct (ch l2 =? quote); [|exact A12].
    apply (advance_trans true false _ _ _ A12 (readChar_advance l2)). }
  rewrite (slice_advance _ _ _ A3 Hi). exact A3.
Qed.

Lemma readRawString_post (l : Lexer) (quote : rune) :
  LexerInv l -> scanPost false l (readRawString l quote).
Proof.
  intros Hi. unfold readRawString.
  destruct (readRawStringLoop_total quote (scanFuel l) l Hi (scanFuel_enough _))
    as (l2 & Hr & A2).
  rewrite Hr. cbn [rbind].
  set (l3 := if ch l2 =? quote then readChar l2 else l2).
  assert (A3 : advance false l l3).
  { subst l3. destruct (ch l2 =? quote); [|exact A2].
    apply (advance_trans false false _ _ _ A2 (readChar_advance l2)). }
  unfold slice. destruct (_ && _); cbn [rbind scanPost]; [exact A3|exact I].
Qed.

Section LexerTotal.

Context {U : Unicode}.

Lemma isIdentChar_nul : isIdentChar 0 = false.
Proof.
  unfold isIdentChar, isLetter, isDigit. now rewrite IsLetter_nul, IsDigit_nul.
Qed.

Lemma isNumberChar_nul : isNumberChar 0 = false.
Proof. unfold isNumberChar, isDigit. now rewrite IsDigit_nul. Qed.

Lemma isDigit_ne0 (c : rune) : isDigit c = true -> c <> 0.
Proof.
  intros H E. subst c. unfold isDigit in H. rewrite IsDigit_nul in H. discriminate.
Qed.

Lemma readIdentifier_post (l : Lexer) :
  LexerInv l -> scanPost (isIdentChar (ch l)) l (readIdentifier l).
Proof.
  intros Hi. unfold readIdentifier.
  destruct (readWhile_total isIdentChar (scanFuel l) l isIdentChar_nul Hi
                            (scanFuel_enough l)) as (l' & Hr & Hadv & _).
  rewrite Hr. cbn [rbind].
  rewrite (slice_advance _ _ _ Hadv Hi). exact Hadv.
Qed.

Lemma readNumber_post (l : Lexer) :
  LexerInv l -> isDigit (ch l) = true -> scanPost true l (readNumber l).
Proof.
  intros Hi Hd. unfold readNumber.
  pose proof (isDigit_ne0 _ Hd) as Hne.
  assert (A2 : advance true l (readChar (readChar l))).
  { apply (advance_trans true false _ _ _ (readChar_advance_strict l Hne)
                         (readChar_advance _)). }
  assert (Hi2 : LexerInv (readChar (readChar l))) by (now apply A2).
  destruct (_ && _).
  { set (cond := fun c => isHexDigit c || isUnderscore c).
    assert (Hc : cond 0 = false).
    { unfold cond, isHexDigit, isDigit. now rewrite IsDigit_nul. }
    destruct (readWhile_total cond _ _ Hc Hi2 (scanFuel_enough _))
      as (l' & Hr & Hadv & _).
    rewrite Hr. cbn [rbind].
    pose proof (advance_trans _ _ _ _ _ A2 Hadv) as A. simpl in A.
    rewrite (slice_advance _ _ _ A Hi). exact A. }
  destruct (_ && _).
  { set (cond := fun c => isBinDigit c || isUnderscore c).
    destruct (readWhile_total cond _ _ eq_refl Hi2 (scanFuel_enough _))
      as (l' & Hr & Hadv & _).
    rewrite Hr. cbn [rbind].
    pose proof (advance_trans _ _ _ _ _ A2 Hadv) as A. simpl in A.
    rewrite (slice_advance _ _ _ A Hi). exact A. }
  destruct (readWhile_total isNumberChar _ _ isNumberChar_nul Hi (scanFuel_enough l))
    as (l1 & Hr1 & A1 & _).
  rewrite Hr1. cbn [rbind].
  replace (isNumberChar (ch l)) with true in A1
    by (unfold isNumberChar; now rewrite Hd).
  assert (Hi1 : LexerInv l1) by (now apply A1).
  (* the fraction *)
  match goal with
  | |- context [rbind ?m _] =>
    assert (B1 : exists f l2, m = Ok (f, l2) /\ advance true l l2)
  end.
  { destruct (_ && _).
    - pose proof (readChar_advance l1) as R.
      assert (Hir : LexerInv (readChar l1)) by (now apply R).
      destruct (readWhile_total isNumberChar _ _ isNumberChar_nul Hir
                                (scanFuel_enough _)) as (l2 & Hr2 & A2' & _).
      rewrite Hr2. cbn [rbind]. exists true, l2. split; [reflexivity|].
      pose proof (advance_trans _ _ _ _ _ A1 (advance_trans _ _ _ _ _ R A2')) as A.
      exact A.
    - exists false, l1. split; [reflexivity|exact A1]. }
  destruct B1 as (f & l2 & -> & B1). cbn [rbind].
  assert (Hi2' : LexerInv l2) by (now apply B1).
  (* the exponent *)
  match goal with
  | |- context [rbind ?m _] =>
    assert (B2 : exists f' l3, m = Ok (f', l3) /\ advance true l l3)
  end.
  { destruct (_ && _).
    - pose proof (readChar_advance l2) as R.
      set (l2' := if (ch (readChar l2) =? rune_of "+") || (ch (readChar l2) =? rune_of "-")
                  then readChar (readChar l2) else readChar l2).
      assert (R' : advance false l2 l2').
      { subst l2'. destruct (_ || _); [|exact R].
        apply (advance_trans false false _ _ _ R (readChar_advance _)). }
      assert (Hir : LexerInv l2') by (now apply R').
      destruct (readWhile_total isNumberChar _ _ isNumberChar_nul Hir
                                (scanFuel_enough _)) as (l3 & Hr3 & A3 & _).
      fold l2'. rewrite Hr3. cbn [rbind]. exists true, l3. split; [reflexivity|].
      pose proof (advance_trans _ _ _ _ _ B1 (advance_trans _ _ _ _ _ R' A3)) as A.
      exact A.
    - exists f, l2. split; [reflexivity|exact B1]. }
  destruct B2 as (f' & l3 & -> & B2). cbn [rbind].
  rewrite (slice_advance _ _ _ B2 Hi). cbn [rbind].
  destruct f'; exact B2.
Qed.

End LexerTotal.

Lemma handleIndentation_size (l : Lexer) (indent : Z) :
  match handleIndentation l indent with
  | Ok l' =>
    input l' = input l /\ position l' = position l
    /\ readPosition l' = readPosition l /\ ch l' = ch l
    /\ (List.length (tokens l') + List.length (indentStack l')
        <= List.length (tokens l) + List.length (indentStack l) + 2)%nat
  | Panic _ => True
  | OutOfFuel => False
  end.
Proof.
  unfold handleIndentation.
  destruct (top (indentStack l)) as [cur|]; [|exact I].
  destruct (cur <? indent).
  { simpl. rewrite !length_app. simpl. repeat split; lia. }
  destruct (indent <? cur).
  2:{ repeat split; lia. }
  destruct (dedentLoop_spec indent (List.length (indentStack l)) l (le_n _))
    as (kept & popped & Hs & _ & _ & Hloop).
  rewrite Hloop. simpl.
  assert (Hlen : List.length (indentStack l)
                 = (List.length kept + List.length popped)%nat)
    by (now rewrite Hs, length_app).
  destruct (top kept) as [t|]; [destruct (negb (indent =? t))|]; simpl;
    rewrite ?length_app, ?repeat_length; simpl; repeat split; lia.
Qed.

Lemma lexPost_strict (l l' : Lexer) (tok : Token) :
  LexerInv l -> advance true l l' -> lexPost l (Ok (tok, l')).
Proof.
  intros Hi A. destruct (advance_remaining _ _ _ A Hi) as [H1 H2].
  simpl. split; [now apply A|]. split; [now apply A|].
  split; [exact H1|]. intros _. now apply H2.
Qed.

Lemma lexPost_eof (l l' : Lexer) (tok : Token) :
  LexerInv l -> advance false l l' -> Type_ tok = EOF -> lexPost l (Ok (tok, l')).
Proof.
  intros Hi A Ht. destruct (advance_remaining _ _ _ A Hi) as [H1 _].
  simpl. split; [now apply A|]. split; [now apply A|].
  split; [exact H1|]. intros Hn. contradiction.
Qed.

Ltac solve_adv Hne :=
  lazymatch goal with
  | |- advance true ?a (readChar ?a) => apply readChar_advance_strict; exact Hne
  | |- advance true ?a (readChar ?y) =>
    apply (advance_trans true false a y (readChar y));
    [solve_adv Hne | apply readChar_advance]
  end.

Section LexerNextToken.

Context {U : Unicode}.

(** [NextToken] on a consistent lexer: it returns (or panics) and makes
    progress towards the end of input. *)
Lemma NextToken_post (l : Lexer) : LexerInv l -> lexPost l (NextToken l).
Proof.
  intros Hi. unfold NextToken. destruct (tokens l) as [|t rest] eqn:Eq.
  2:{ simpl. unfold remaining. simpl. rewrite Eq. simpl.
      destruct Hi as (H1 & H2 & H3 & H4). repeat split; auto; lia. }
  unfold skipWhitespace.
  destruct (readWhile_total isBlank (scanFuel l) l eq_refl Hi (scanFuel_enough l))
    as (a & Hr & A0 & _).
  apply advance_weaken in A0. rewrite Hr. cbn [rbind].
  assert (Hia : LexerInv a) by (now apply A0).
  destruct (ch a =? 0) eqn:E0.
  { apply Z.eqb_eq in E0. unfold chIs. rewrite E0. cbn -[lexPost].
    now apply lexPost_eof. }
  apply Z.eqb_neq in E0.
  assert (Strict : forall tok l', advance true a l' -> lexPost l (Ok (tok, l'))).
  { intros tok l' A. apply lexPost_strict; [exact Hi|].
    exact (advance_trans false true _ _ _ A0 A). }
  cbv zeta.
  repeat match goal with
  | |- lexPost _ (if ?c then _ else _) => destruct c eqn:?
  | |- lexPost _ (emit _ _ _) => unfold emit; apply Strict; solve_adv E0
  end.
  - (* comment *)
    match goal with H : chIs a "#" = true |- _ => apply Z.eqb_eq in H; rename H into Hc end.
    pose proof (readComment_post a Hia Hc) as P.
    destruct (readComment a) as [[lit l1]| |]; cbn [rbind]; [|exact I|exact P].
    now apply Strict.
  - (* string *)
    pose proof (readString_post a (ch a) Hia E0) as P.
    destruct (readString a (ch a)) as [[lit l1]| |]; cbn [rbind]; [|exact I|exact P].
    now apply Strict.
  - (* raw string *)
    assert (A2 : advance true a (readChar (readChar a))) by solve_adv E0.
    assert (Hi2 : LexerInv (readChar (readChar a))) by (now apply A2).
    pose proof (readRawString_post _ (ch (readChar a)) Hi2) as P.
    destruct (readRawString _ _) as [[lit l1]| |]; cbn [rbind]; [|exact I|exact P].
    apply Strict. exact (advance_trans true false _ _ _ A2 P).
  - (* identifier starting with r *)
    match goal with H : chIs a "r" = true |- _ => apply Z.eqb_eq in H; rename H into Hc end.
    pose proof (readIdentifier_post a Hia) as P.
    replace (isIdentChar (ch a)) with true in P
      by (unfold isIdentChar, isLetter; rewrite Hc;
          change (rune_of "r") with 114; now rewrite IsLetter_r).
    destruct (readIdentifier a) as [[lit l1]| |]; cbn [rbind]; [|exact I|exact P].
    now apply Strict.
  - (* newline *)
    assert (A1 : advance true a (readChar a)) by solve_adv E0.
    assert (Hi1 : LexerInv (readChar a)) by (now apply A1).
    destruct (countIndent_total (scanFuel (readChar a)) 0 (readChar a) Hi1
                                (scanFuel_enough _)) as (indent & l2 & -> & A2 & _).
    cbn [rbind].
    pose proof (advance_trans _ _ _ _ _ A0 (advance_trans _ _ _ _ _ A1 A2)) as A.
    simpl in A. destruct A as [(F1 & F2 & F3) A]. destruct (A Hi) as [Hi2 Hp].
    pose proof (handleIndentation_size l2 indent) as P.
    destruct (handleIndentation l2 indent) as [l3| |]; cbn [rbind]; [|exact I|exact P].
    destruct P as (P1 & P2 & P3 & P4 & P5).
    unfold lexPost, remaining, LexerInv in *.
    rewrite P1, P2, P3, P4, F1. rewrite F1 in Hi2. rewrite F2, F3 in P5.
    repeat split; try tauto; lia.
  - (* identifier *)
    pose proof (readIdentifier_post a Hia) as P.
    replace (isIdentChar (ch a)) with true in P.
    2:{ unfold isIdentChar.
        match goal with H : _ || _ = true |- _ => apply orb_prop in H; destruct H as [H|H]; rewrite H end;
          [reflexivity|now rewrite orb_true_r]. }
    destruct (readIdentifier a) as [[lit l1]| |]; cbn [rbind]; [|exact I|exact P].
    now apply Strict.
  - (* number *)
    match goal with H : isDigit (ch a) = true |- _ => rename H into Hd end.
    pose proof (readNumber_post a Hia Hd) as P.
    destruct (readNumber a) as [[tok l1]| |]; [|exact I|exact P].
    now apply Strict.
Qed.

End LexerNextToken.

Lemma NewLexer_inv (input0 : string) : LexerInv (NewLexer input0).
Proof.
  unfold NewLexer. apply readChar_inv. unfold LexerInv, len. simpl.
  repeat split; try lia; congruence.
Qed.


Section LexerRuns.

Context {U : Unicode}.

(** A run of the lexer ends: with fuel beyond [remaining], [lexAll]
    reaches EOF or a panic. *)
Lemma lexAll_total (fuel : nat) (l : Lexer) :
  LexerInv l -> (remaining l < fuel)%nat -> lexAll fuel l <> OutOfFuel.
Proof.
  revert l. induction fuel as [|fuel IH]; intros l Hi Hf; [lia|].
  simpl. pose proof (NextToken_post l Hi) as P.
  destruct (NextToken l) as [[tok l']| |]; cbn [rbind];
    [|discriminate|contradiction].
  destruct P as (Hi' & _ & _ & Hlt).
  destruct (Type_ tok) eqn:Et; try discriminate;
    (assert (Hn : lexAll fuel l' <> OutOfFuel)
       by (apply IH; [exact Hi'|assert (EOF <> EOF -> False) by congruence;
                                 specialize (Hlt ltac:(discriminate)); lia]);
     destruct (lexAll fuel l') as [[toks l2]| |]; cbn [rbind];
     [discriminate|discriminate|contradiction]).
Qed.


End LexerRuns.

(** C2 (as amended).  With fuel beyond [remaining] the lexer reaches
    EOF or panics; and when it first returns EOF, the INDENT tokens it
    has returned outnumber the DEDENT tokens by the number of entries of
    the indentation stack above the seed, the queue is empty, and the
    two counts agree exactly when the stack is back to [[0]]. *)
Theorem lexAll_indent_balance {U : Unicode} (input0 : string) (fuel : nat) :
  (lexFuel (NewLexer input0) <= fuel)%nat ->
  lexAll fuel (NewLexer input0) <> OutOfFuel
  /\ forall toks l',
      lexAll fuel (NewLexer input0) = Ok (toks, l') ->
      (countType INDENT toks + 1
       = countType DEDENT toks + List.length (indentStack l'))%nat
      /\ tokens l' = []
      /\ (countType INDENT toks = countType DEDENT toks <-> indentStack l' = [0]).
Proof.
  intros Hf. split.
  { apply lexAll_total; [apply NewLexer_inv|unfold lexFuel in Hf; lia]. }
  intros toks l' H. destruct (NewLexer_start input0) as (Hb & Hs & Hq & _).
  destruct (lexAll_balanced fuel [] _ _ _ H Hb) as (Hb' & [rest Hs'] & Hq' & _).
  - rewrite Hs. now exists [].
  - now rewrite Hq.
  - unfold balanced in Hb'. rewrite Hq', app_nil_r in Hb'. simpl in Hb'.
    repeat split; auto.
    + intros E. rewrite Hs' in *. destruct rest; [reflexivity|simpl in Hb'; lia].
    + intros E. rewrite E in Hb'. simpl in Hb'. lia.
Qed.

(** The theorem at the source [a], newline, tab, [b]. *)
Lemma lexAll_indent_balance_witness :
  lexAll (U:=latin1) 20 (NewLexer indentedSource) <> OutOfFuel
  /\ forall toks l',
      lexAll (U:=latin1) 20 (NewLexer indentedSource) = Ok (toks, l') ->
      (countType INDENT toks + 1
       = countType DEDENT toks + List.length (indentStack l'))%nat
      /\ tokens l' = []
      /\ (countType INDENT toks = countType DEDENT toks <-> indentStack l' = [0]).
Proof.
  apply (lexAll_indent_balance (U:=latin1) indentedSource 20).
  apply Nat.leb_le. vm_compute. reflexivity.
Defined.

(** C2 (as stated) fails: for the source [a], newline, tab, [b] the
    lexer returns one INDENT token and no DEDENT token before EOF, and
    its stack is [[0; 4]] at that point. *)
Lemma lexAll_indent_unbalanced :
  exists toks l',
    lexAll (U:=latin1) 10 (NewLexer indentedSource) = Ok (toks, l')
    /\ map Type_ toks = [IDENT; NL; INDENT; IDENT; EOF]
    /\ countType INDENT toks = 1%nat
    /\ countType DEDENT toks = 0%nat
    /\ indentStack l' = [0; 4].
Proof.
  eexists. eexists. split; [vm_compute; reflexivity|].
  repeat split.
Qed.




(** ** The parser *)

Section ParserFacts.

Context {U : Unicode}.

Lemma nextToken_current (p p1 : Parser) :
  nextToken p = Ok p1 ->
  currentToken p1 = peekToken p /\ errors p1 = errors p
  /\ errorMode p1 = errorMode p.
Proof.
  unfold nextToken. intros H. inv_bind H. destruct a as [tok l].
  injection H as <-. simpl. auto.
Qed.

(** The conditional expression is never built: [parseConditionalExpression]
    is entered with [if] as the peek token, advances once, and asks
    [parseExpression] for a condition while [if] is the current token,
    which has no prefix routine. *)
Lemma parseConditionalExpression_fails (fuel : nat) (valueIfTrue : ast.Expression)
      (p p1 : Parser) :
  peekType p = IF ->
  nextToken p = Ok p1 ->
  parseConditionalExpression (S (S fuel)) valueIfTrue p
  = Ok (ast.NilExpression,
        curError p1 "expected condition expression in conditional expression").
Proof.
  intros Hpeek Hnext.
  destruct (nextToken_current _ _ Hnext) as (Hc & _).
  assert (Hcur : curType p1 = IF) by (unfold curType; rewrite Hc; exact Hpeek).
  simpl. rewrite Hnext. cbn [rbind]. rewrite Hcur. reflexivity.
Qed.

(** C10.  When the current token has no statement routine (and is not
    EOF), [parseStatement] returns the nil statement and leaves the
    parser, its error list included, as it is; the loop of
    [parseGlobalScope] then advances past the token; and when the end of
    input follows, [Parse] returns the empty global scope with the error
    list unchanged. *)
Theorem no_dispatch_token_skipped (fuel : nat) (class : ast.Class) (p : Parser) :
  hasDispatch (curType p) = false ->
  curType p <> EOF ->
  parseStatement (S fuel) p = Ok (ast.NilStatement, p)
  /\ parseGlobalScopeLoop (S (S fuel)) class p
     = (p' <- nextToken p ;; parseGlobalScopeLoop (S fuel) class p')
  /\ (forall p', nextToken p = Ok p' -> curType p' = EOF ->
        exists tree,
          Parse (S (S fuel)) p = Ok (tree, p')
          /\ ast.RootClass tree
             = Some (ast.NewClass "global scope" (ast.mkPosition 1 1 0))
          /\ Errors p' = Errors p).
Proof.
  intros Hd He.
  assert (H1 : forall n, parseStatement (S n) p = Ok (ast.NilStatement, p)).
  { intros n. simpl. destruct (curType p); try discriminate Hd; reflexivity. }
  assert (H2 : forall n c, parseGlobalScopeLoop (S (S n)) c p
                           = (p' <- nextToken p ;; parseGlobalScopeLoop (S n) c p')).
  { intros n c. cbn [parseGlobalScopeLoop].
    replace (tt_eqb (curType p) EOF) with false
      by (symmetry; now apply tt_eqb_neq).
    rewrite H1. reflexivity. }
  split; [apply H1|split; [apply H2|]].
  intros p' Hn Hp'. unfold Parse, parseGlobalScope. rewrite H2, Hn. cbn [rbind].
  cbn [parseGlobalScopeLoop]. rewrite Hp'. cbn [rbind tt_eqb]. simpl String.eqb.
  cbn [rbind].
  eexists. split; [reflexivity|split; [reflexivity|]].
  unfold Errors. now destruct (nextToken_current _ _ Hn) as (_ & -> & _).
Qed.

(** ** Functions keep their two statement lists in step *)

Lemma NewFunction_inSync (name : string) (pos : ast.Position) :
  inSync (ast.NewFunction name pos).
Proof. reflexivity. Qed.

Lemma AddStatement_inSync (f : ast.Function) (s : ast.Statement) :
  inSync f -> inSync (ast.Function_AddStatement f s).
Proof. destruct f. unfold inSync. simpl. now intros ->. Qed.

Lemma AddParameter_inSync (f : ast.Function) (param : ast.Param) :
  inSync f -> inSync (ast.AddParameter f param).
Proof. now destruct f. Qed.

Lemma setIsStatic_inSync (f : ast.Function) (b : bool) :
  inSync f -> inSync (ast.setIsStatic f b).
Proof. now destruct f. Qed.

Lemma setReturnType_inSync (f : ast.Function) (rt : string) :
  inSync f -> inSync (ast.setReturnType f rt).
Proof. now destruct f. Qed.

(** A statement loop keeps every property of its node that the adding
    method keeps. *)
Lemma parseBlock_preserves {A : Type} (P : A -> Prop) (add : A -> ast.Statement -> A) :
  (forall a s, P a -> P (add a s)) ->
  forall fuel skip node p node' p',
    parseBlock fuel A skip add node p = Ok (node', p') -> P node -> P node'.
Proof.
  intros Hadd. induction fuel as [|fuel IH]; intros skip node p node' p' H HP.
  - discriminate.
  - cbn [parseBlock] in H.
    destruct (_ || _); [injection H as <- <-; exact HP|].
    destruct (skips skip (curType p)).
    + inv_bind H. eapply IH; eassumption.
    + inv_bind H. destruct a as [stmt p0]. inv_bind H.
      eapply IH; [eassumption|]. destruct (isNilStatement stmt); auto.
Qed.

Lemma parseParameterListLoop_inSync (fuel : nat) (f : ast.Function) (p : Parser)
      (f' : ast.Function) (b : bool) (p' : Parser) :
  parseParameterListLoop fuel f p = Ok (f', b, p') -> inSync f -> inSync f'.
Proof.
  revert f p. induction fuel as [|fuel IH]; intros f p H Hs; [discriminate|].
  cbn [parseParameterListLoop] in H.
  destruct (tt_eqb (curType p) COMMA); [|injection H as <- _ _; exact Hs].
  inv_bind H. destruct (tt_eqb (curType a) RPAREN); [injection H as <- _ _; exact Hs|].
  inv_bind H. destruct a0 as [[param|] p1]; [|injection H as <- _ _; exact Hs].
  eapply IH; [exact H|]. now apply AddParameter_inSync.
Qed.

Lemma parseParameterList_inSync (fuel : nat) (f : ast.Function) (p : Parser)
      (f' : ast.Function) (p' : Parser) :
  parseParameterList fuel f p = Ok (f', p') -> inSync f -> inSync f'.
Proof.
  unfold parseParameterList. intros H Hs. inv_bind H.
  destruct (tt_eqb (curType a) RPAREN).
  { inv_bind H. injection H as <- _. exact Hs. }
  inv_bind H. destruct a0 as [[param|] p1]; [|injection H as <- _; exact Hs].
  inv_bind H. destruct a0 as [[f1 fin] p2].
  apply parseParameterListLoop_inSync in Ha1; [|now apply AddParameter_inSync].
  destruct (negb fin); [injection H as <- _; exact Ha1|].
  destruct (negb _); [injection H as <- _; exact Ha1|].
  inv_bind H. injection H as <- _. exact Ha1.
Qed.

End ParserFacts.

(** One step of the inversion of a successful monadic computation. *)
Ltac step H :=
  lazymatch type of H with
  | Ok _ = Ok _ => injection H as H
  | (if ?c then _ else _) = Ok _ => destruct c eqn:?
  | rbind ?m _ = Ok _ =>
    let a := fresh "a" in
    let Ha := fresh "Ha" in
    apply rbind_Ok in H; destruct H as (a & Ha & H)
  | (let (_, _) := ?x in _) = Ok _ => destruct x
  | (match ?x with _ => _ end) = Ok _ => destruct x eqn:?
  end.

Section FunctionsInSync.

Context {U : Unicode}.

Lemma parseBlock_inSync (fuel : nat) (skip : Skip) (f : ast.Function) (p : Parser)
      (f' : ast.Function) (p' : Parser) :
  parseBlock fuel ast.Function skip ast.Function_AddStatement f p = Ok (f', p') ->
  inSync f -> inSync f'.
Proof.
  apply (parseBlock_preserves inSync). apply AddStatement_inSync.
Qed.

(** A function node that [parseFunctionDefinition] returns has the
    same statements, in the same order, in its flat list and in its raw
    list: the node starts with both lists empty and statements reach it
    through [AddStatement] alone, which appends to both. *)
Theorem parseFunctionDefinition_inSync (fuel : nat) (p : Parser)
        (f : ast.Function) (p' : Parser) :
  parseFunctionDefinition fuel p = Ok (Some f, p') ->
  ast.Function_Statements f = ast.Function_SubStatements f.
Proof.
  destruct fuel as [|fuel]; [discriminate|].
  intros H. cbn [parseFunctionDefinition] in H. cbv zeta in H.
  change (inSync f).
  repeat (step H; try discriminate H);
    try (injection H as <-); subst;
    eauto 10 using parseBlock_inSync, parseParameterList_inSync,
                   setReturnType_inSync, setIsStatic_inSync, NewFunction_inSync.
Qed.

End FunctionsInSync.

(** ** Advancing and synchronizing *)

Section Synchronize.

Context {U : Unicode}.

Lemma nextToken_post (p : Parser) : LexerInv (lexer p) -> nextPost p (nextToken p).
Proof.
  intros Hi. unfold nextToken. pose proof (NextToken_post _ Hi) as P.
  destruct (NextToken (lexer p)) as [[tok l]| |]; cbn [rbind]; [|exact I|exact P].
  destruct P as (Hi' & _ & Hle & Hlt). unfold nextPost, tokensLeft, curType, peekType.
  cbn [lexer currentToken peekToken errors errorMode].
  split; [exact Hi'|]. split; [reflexivity|]. split; [reflexivity|].
  split; [reflexivity|].
  destruct (tt_eqb (Type_ tok) EOF) eqn:Et.
  - split.
    + destruct (tt_eqb (Type_ (currentToken p)) EOF),
               (tt_eqb (Type_ (peekToken p)) EOF); lia.
    + intros [Hc|Hp].
      * apply tt_eqb_neq in Hc. rewrite Hc.
        destruct (tt_eqb (Type_ (peekToken p)) EOF); lia.
      * apply tt_eqb_neq in Hp. rewrite Hp.
        destruct (tt_eqb (Type_ (currentToken p)) EOF); lia.
  - apply tt_eqb_neq in Et. specialize (Hlt Et).
    destruct (tt_eqb (Type_ (currentToken p)) EOF),
             (tt_eqb (Type_ (peekToken p)) EOF); split; intros; lia.
Qed.

Lemma isSyncPoint_EOF (t : TokenType) : isSyncPoint t = false -> t <> EOF.
Proof. intros H ->. discriminate. Qed.

(** The loop of [synchronize] discards tokens up to the first
    synchronization point. *)
Lemma synchronizeLoop_Ok (fuel : nat) (p p' : Parser) :
  synchronizeLoop fuel p = Ok p' ->
  exists n,
    iterate nextToken n p = Ok p'
    /\ isSyncPoint (curType p') = true
    /\ forall k q, (k < n)%nat -> iterate nextToken k p = Ok q ->
                   isSyncPoint (curType q) = false.
Proof.
  revert p. induction fuel as [|fuel IH]; intros p H; simpl in H;
    destruct (isSyncPoint (curType p)) eqn:Es; try discriminate.
  - injection H as <-. exists 0%nat. split; [reflexivity|split; [exact Es|]].
    intros k q Hk. lia.
  - injection H as <-. exists 0%nat. split; [reflexivity|split; [exact Es|]].
    intros k q Hk. lia.
  - inv_bind H. destruct (IH _ H) as (n & Hn & Hs & Hk).
    exists (S n). split; [simpl; rewrite Ha; exact Hn|split; [exact Hs|]].
    intros k q Hlt Hq. destruct k as [|k].
    + injection Hq as <-. exact Es.
    + simpl in Hq. rewrite Ha in Hq. cbn [rbind] in Hq.
      apply (Hk k q); [lia|exact Hq].
Qed.

Lemma iterate_nextToken_errors (n : nat) (p p' : Parser) :
  iterate nextToken n p = Ok p' ->
  errors p' = errors p /\ errorMode p' = errorMode p.
Proof.
  revert p. induction n as [|n IH]; intros p H; simpl in H.
  - injection H as <-. auto.
  - inv_bind H. destruct (IH _ H) as [-> ->].
    now destruct (nextToken_current _ _ Ha) as (_ & -> & ->).
Qed.

Lemma synchronizeLoop_total (fuel : nat) (p : Parser) :
  LexerInv (lexer p) -> (tokensLeft p < fuel)%nat ->
  match synchronizeLoop fuel p with
  | Ok p' => LexerInv (lexer p') /\ (tokensLeft p' <= tokensLeft p)%nat
  | Panic _ => True
  | OutOfFuel => False
  end.
Proof.
  revert p. induction fuel as [|fuel IH]; intros p Hi Hf; [lia|].
  simpl. destruct (isSyncPoint (curType p)) eqn:Es; [split; [exact Hi|lia]|].
  pose proof (nextToken_post p Hi) as P.
  destruct (nextToken p) as [p1| |]; cbn [rbind]; [|exact I|exact P].
  destruct P as (Hi1 & _ & _ & _ & Hle & Hlt).
  specialize (Hlt (or_introl (isSyncPoint_EOF _ Es))).
  specialize (IH p1 Hi1 ltac:(lia)).
  destruct (synchronizeLoop fuel p1); [|exact I|exact IH].
  destruct IH as [H1 H2]. split; [exact H1|lia].
Qed.

(** [synchronize] on a consistent parser and with fuel beyond
    [tokensLeft]: it ends, and when it returns, the parser has advanced
    once and then up to the first token that is a synchronization point;
    every token it passed over on the way is none; the error list and the
    mode are as before. *)
Lemma synchronize_spec (fuel : nat) (p : Parser) :
  LexerInv (lexer p) -> (tokensLeft p < fuel)%nat ->
  match synchronize fuel p with
  | Ok p' =>
    exists n,
      iterate nextToken (S n) p = Ok p'
      /\ isSyncPoint (curType p') = true
      /\ (forall k q, (k < n)%nat -> iterate nextToken (S k) p = Ok q ->
                      isSyncPoint (curType q) = false)
      /\ errors p' = errors p /\ errorMode p' = errorMode p
      /\ LexerInv (lexer p') /\ (tokensLeft p' <= tokensLeft p)%nat
  | Panic _ => True
  | OutOfFuel => False
  end.
Proof.
  intros Hi Hf. unfold synchronize.
  pose proof (nextToken_post p Hi) as P.
  destruct (nextToken p) as [p1| |] eqn:En; cbn [rbind]; [|exact I|exact P].
  destruct P as (Hi1 & _ & _ & _ & Hle & _).
  pose proof (synchronizeLoop_total fuel p1 Hi1 ltac:(lia)) as T.
  destruct (synchronizeLoop fuel p1) as [p'| |] eqn:El; [|exact I|exact T].
  destruct (synchronizeLoop_Ok _ _ _ El) as (n & Hn & Hs & Hk).
  exists n. cbn [iterate]. rewrite En. cbn [rbind].
  split; [exact Hn|split; [exact Hs|split; [exact Hk|]]].
  assert (Hit : iterate nextToken (S n) p = Ok p')
    by (cbn [iterate]; rewrite En; exact Hn).
  destruct (iterate_nextToken_errors _ _ _ Hit) as [-> ->].
  destruct T as [T1 T2].
  split; [reflexivity|split; [reflexivity|split; [exact T1|lia]]].
Qed.

End Synchronize.

Section Recovery.

Context {U : Unicode}.

(** C5 (as amended).  [synchronize] advances the parser once, and then
    on to the first token that is a newline, a semicolon, one of
    [class], [func], [var], [const], [if], [for], [while], [match],
    [return], or the end of input; the tokens it passes over after the
    first advance are none of these; it returns with that token as the
    current token and leaves the error list as it is.  The first advance
    makes the peek token the current one, so when the peek token is
    itself such a token, [synchronize] stops at it.  That is the case of
    [expectPeek] in panic mode, where the offending token is the peek
    token: the error is recorded, [synchronize] runs, and the result is
    [false].  With fuel beyond [tokensLeft] the recovery ends. *)
Theorem synchronize_recovers (fuel : nat) (p : Parser) :
  LexerInv (lexer p) ->
  (tokensLeft p < fuel)%nat ->
  match synchronize fuel p with
  | Ok p' =>
    (exists n,
        iterate nextToken (S n) p = Ok p'
        /\ isSyncPoint (curType p') = true
        /\ forall k q, (k < n)%nat ->
                       iterate nextToken (S k) p = Ok q ->
                       isSyncPoint (curType q) = false)
    /\ errors p' = errors p
    /\ (isSyncPoint (peekType p) = true -> currentToken p' = peekToken p)
  | Panic _ => True
  | OutOfFuel => False
  end
  /\ forall t,
      errorMode p = ErrorModePanic ->
      tt_eqb (peekType p) t = false ->
      match expectPeek fuel t p with
      | Ok (ok, p') =>
        ok = false
        /\ synchronize fuel (peekError p t) = Ok p'
        /\ errors p' = errors p ++ [peekErrorOf p t]
        /\ (isSyncPoint (peekType p) = true -> currentToken p' = peekToken p)
      | Panic _ => True
      | OutOfFuel => False
      end.
Proof.
  intros Hi Hf.
  assert (G : forall q : Parser,
             LexerInv (lexer q) -> (tokensLeft q < fuel)%nat ->
             match synchronize fuel q with
             | Ok p' =>
               (exists n,
                   iterate nextToken (S n) q = Ok p'
                   /\ isSyncPoint (curType p') = true
                   /\ forall k q', (k < n)%nat ->
                                   iterate nextToken (S k) q = Ok q' ->
                                   isSyncPoint (curType q') = false)
               /\ errors p' = errors q
               /\ (isSyncPoint (peekType q) = true ->
                   currentToken p' = peekToken q)
             | Panic _ => True
             | OutOfFuel => False
             end).
  { intros q Hq Hfq. pose proof (synchronize_spec fuel q Hq Hfq) as S.
    destruct (synchronize fuel q) as [p'| |]; [|exact I|exact S].
    destruct S as (n & Hn & Hs & Hk & He & _).
    split; [exists n; auto|split; [exact He|]].
    intros Hsync. cbn [iterate] in Hn.
    destruct (nextToken q) as [q1| |] eqn:Eq; try discriminate.
    cbn [rbind] in Hn. destruct (nextToken_current _ _ Eq) as (Hq1 & _).
    destruct n as [|n].
    - injection Hn as <-. exact Hq1.
    - specialize (Hk 0%nat q1 ltac:(lia)). cbn [iterate] in Hk.
      rewrite Eq in Hk. specialize (Hk eq_refl). unfold curType in Hk.
      rewrite Hq1 in Hk. unfold peekType in Hsync. congruence. }
  split; [exact (G p Hi Hf)|].
  intros t Hm Ht. unfold expectPeek, recover. rewrite Ht.
  assert (Hm' : (errorMode (peekError p t) =? ErrorModePanic) = true)
    by (cbn [peekError peekErrorMsg errorMode]; rewrite Hm; reflexivity).
  rewrite Hm'. pose proof (G (peekError p t) Hi Hf) as S.
  destruct (synchronize fuel (peekError p t)) as [p'| |]; cbn [rbind];
    [|exact I|exact S].
  destruct S as (_ & He & Hc).
  split; [reflexivity|split; [reflexivity|split; [exact He|exact Hc]]].
Qed.

End Recovery.

(** ** The examples *)

Section Examples.

Local Existing Instance latin1.

Lemma LexerInv_dec (l : Lexer) :
  ((0 <=? position l) && (position l <=? readPosition l)
   && (readPosition l <=? len (input l))
   && ((ch l =? 0) || (position l <? readPosition l)) = true) ->
  LexerInv l.
Proof.
  intros H. repeat (apply andb_prop in H; destruct H as [H ?]).
  unfold LexerInv. repeat split; lia.
Qed.

(** The theorem of C5 at the source [x], newline, [y], where the colon
    expected after [x] is missing. *)
Lemma synchronize_recovers_witness :
  let p := parserOf (NewParserWithOptions missingColonSource ErrorModePanic) in
  match synchronize 20 p with
  | Ok p' =>
    (exists n,
        iterate nextToken (S n) p = Ok p'
        /\ isSyncPoint (curType p') = true
        /\ forall k q, (k < n)%nat ->
                       iterate nextToken (S k) p = Ok q ->
                       isSyncPoint (curType q) = false)
    /\ errors p' = errors p
    /\ (isSyncPoint (peekType p) = true -> currentToken p' = peekToken p)
  | Panic _ => True
  | OutOfFuel => False
  end
  /\ forall t,
      errorMode p = ErrorModePanic ->
      tt_eqb (peekType p) t = false ->
      match expectPeek 20 t p with
      | Ok (ok, p') =>
        ok = false
        /\ synchronize 20 (peekError p t) = Ok p'
        /\ errors p' = errors p ++ [peekErrorOf p t]
        /\ (isSyncPoint (peekType p) = true -> currentToken p' = peekToken p)
      | Panic _ => True
      | OutOfFuel => False
      end.
Proof.
  intros p. apply (synchronize_recovers 20 p).
  - apply LexerInv_dec. vm_compute. reflexivity.
  - vm_compute. lia.
Defined.

(** C5 (as stated) fails.  At [x], newline, [y] the colon that
    [expectPeek] wants is missing and the offending token is the
    newline; recovery does not advance past it but stops with it as the
    current token.  And in [var 1 var y = 2] recovery from the first
    error stops at the second [var], yet what is parsed next is the
    expression statement [y = 2], not a variable declaration. *)
Lemma recovery_keeps_offending_token :
  let p := parserOf (NewParserWithOptions missingColonSource ErrorModePanic) in
  (exists p',
     expectPeek 20 COLON p = Ok (false, p')
     /\ peekType p = NL
     /\ errors p' = [mkError 2 1 "expected next token to be :, got NL instead"]
     /\ currentToken p' = peekToken p)
  /\ map dynamicType (rootStatements (ParseFile 20 "f.gd" recoverySource))
     = ["*VarStatement(nil)"; "*ExpressionStatement"].
Proof.
  split; [eexists; split; [vm_compute; reflexivity|repeat split]
         |vm_compute; reflexivity].
Qed.

(** The theorem of C10 at the source [?]. *)
Lemma no_dispatch_token_skipped_witness :
  let p := parserOf (NewParser illegalSource) in
  let class := ast.NewClass "global scope" (ast.mkPosition 1 1 0) in
  parseStatement 1 p = Ok (ast.NilStatement, p)
  /\ parseGlobalScopeLoop 2 class p
     = (p' <- nextToken p ;; parseGlobalScopeLoop 1 class p')
  /\ (forall p', nextToken p = Ok p' -> curType p' = EOF ->
        exists tree,
          Parse 2 p = Ok (tree, p')
          /\ ast.RootClass tree
             = Some (ast.NewClass "global scope" (ast.mkPosition 1 1 0))
          /\ Errors p' = Errors p).
Proof.
  intros p class. apply (no_dispatch_token_skipped 0 class p).
  - vm_compute. reflexivity.
  - vm_compute. discriminate.
Defined.

(** The source [?] is parsed into the empty global scope, with no
    diagnostics. *)
Lemma illegal_character_no_diagnostics :
  parseSource 2 illegalSource
  = Ok (ast.mkAST (ast.mkPosition 1 1 0)
          (Some (ast.NewClass "global scope" (ast.mkPosition 1 1 0)))
          [Some (ast.NewClass "global scope" (ast.mkPosition 1 1 0))] [],
        []).
Proof. vm_compute. reflexivity. Qed.

(** The function of [func f(): return 1], as [parseFunctionDefinition]
    returns it. *)
Lemma parseFunctionDefinition_inSync_example :
  exists f p',
    parseFunctionDefinition 20 (parserOf (NewParser functionSource)) = Ok (Some f, p')
    /\ List.length (ast.Function_Statements f) = 1%nat
    /\ ast.Function_Statements f = ast.Function_SubStatements f.
Proof.
  eexists. eexists. split; [vm_compute; reflexivity|].
  split; [vm_compute; reflexivity|].
  eapply (parseFunctionDefinition_inSync 20 (parserOf (NewParser functionSource))).
  vm_compute. reflexivity.
Defined.

End Examples.

(** ** More fuel does not change a result *)

Lemma le_res_refl {A : Type} (r : result A) : le_res r r.
Proof. right. reflexivity. Qed.

Lemma le_res_out {A : Type} (r : result A) : le_res OutOfFuel r.
Proof. left. reflexivity. Qed.

Lemma le_res_bind {A B : Type} (m m' : result A) (k k' : A -> result B) :
  le_res m m' -> (forall a, le_res (k a) (k' a)) ->
  le_res (rbind m k) (rbind m' k').
Proof.
  intros [->| ->] Hk; [left; reflexivity|].
  destruct m' as [a| |]; cbn [rbind]; [apply Hk|right|left]; reflexivity.
Qed.

Lemma le_res_Ok {A : Type} (r r' : result A) (a : A) :
  le_res r r' -> r = Ok a -> r' = Ok a.
Proof. intros [->| ->] H; [discriminate|exact H]. Qed.

Lemma le_res_eq {A : Type} (r r1 r2 : result A) :
  le_res r1 r -> le_res r2 r -> r1 <> OutOfFuel -> r2 <> OutOfFuel -> r1 = r2.
Proof. intros [->| ->] [->| ->] H1 H2; congruence. Qed.

(** The congruence steps of a proof that a run is monotone in its
    fuel. *)
Ltac mono_step :=
  lazymatch goal with
  | |- le_res OutOfFuel _ => apply le_res_out
  | |- le_res ?x ?x => apply le_res_refl
  | |- le_res (rbind _ _) (rbind _ _) => apply le_res_bind; [|intros ?]
  | |- le_res (if ?b then _ else _) (if ?b then _ else _) => destruct b
  | |- le_res (let (_, _) := ?x in _) (let (_, _) := ?x in _) => destruct x
  | |- le_res (match ?x with _ => _ end) (match ?x with _ => _ end) => destruct x
  end.

Ltac mono := repeat (first [mono_step | solve [auto with mono]]).

Section FuelLoops.

Context {U : Unicode}.

Lemma skipNewlines_mono (n m : nat) (p : Parser) :
  (n <= m)%nat -> le_res (skipNewlines n p) (skipNewlines m p).
Proof.
  revert m p. induction n as [|n IH]; intros [|m] p Hle;
    cbn [skipNewlines]; try lia; mono.
  apply IH. lia.
Qed.

Lemma synchronizeLoop_mono (n m : nat) (p : Parser) :
  (n <= m)%nat -> le_res (synchronizeLoop n p) (synchronizeLoop m p).
Proof.
  revert m p. induction n as [|n IH]; intros [|m] p Hle;
    cbn [synchronizeLoop]; try lia; mono.
  apply IH. lia.
Qed.

Lemma synchronize_mono (n m : nat) (p : Parser) :
  (n <= m)%nat -> le_res (synchronize n p) (synchronize m p).
Proof. intros Hle. unfold synchronize. mono. apply synchronizeLoop_mono, Hle. Qed.

Lemma recover_mono (n m : nat) (p : Parser) :
  (n <= m)%nat -> le_res (recover n p) (recover m p).
Proof. intros Hle. unfold recover. mono. apply synchronize_mono, Hle. Qed.

Lemma expectPeek_mono (n m : nat) (t : TokenType) (p : Parser) :
  (n <= m)%nat -> le_res (expectPeek n t p) (expectPeek m t p).
Proof. intros Hle. unfold expectPeek. mono. apply recover_mono, Hle. Qed.

Lemma skipPeekNewlines_mono (n m : nat) (indent : bool) (p : Parser) :
  (n <= m)%nat -> le_res (skipPeekNewlines n indent p) (skipPeekNewlines m indent p).
Proof.
  revert m p. induction n as [|n IH]; intros [|m] p Hle;
    cbn [skipPeekNewlines]; try lia; mono.
  apply IH. lia.
Qed.

Lemma skipToNextLine_mono (n m : nat) (p : Parser) :
  (n <= m)%nat -> le_res (skipToNextLine n p) (skipToNextLine m p).
Proof.
  revert m p. induction n as [|n IH]; intros [|m] p Hle;
    cbn [skipToNextLine]; try lia; mono.
  apply IH. lia.
Qed.

End FuelLoops.

#[export] Hint Resolve skipNewlines_mono synchronizeLoop_mono synchronize_mono
  recover_mono expectPeek_mono skipPeekNewlines_mono skipToNextLine_mono : mono.

Section FuelExpressions.

Context {U : Unicode}.

Lemma expressions_mono_all (n : nat) :
  forall m, (n <= m)%nat -> expressions_mono n m.
Proof.
  induction n as [|n IH]; intros m Hle.
  - repeat split; intros; apply le_res_out.
  - destruct m as [|m]; [lia|].
    assert (Hle' : (n <= m)%nat) by lia.
    destruct (IH m Hle') as (H1 & H2 & H3 & H4 & H5 & H6 & H7 & H8 & H9).
    repeat split; intros.
    + cbn [parseExpression]. mono.
    + cbn [parseExpressionLoop]. cbv zeta. mono.
    + cbn [parseCallExpression]. cbv zeta. mono.
    + cbn [parseCallArguments]. mono.
    + cbn [parseCallArgumentsLoop]. mono.
    + cbn [parseGroupedExpression]. mono.
    + cbn [parsePrefixExpression]. cbv zeta. mono.
    + cbn [parseInfixExpression]. cbv zeta. mono.
    + cbn [parseConditionalExpression]. mono.
Qed.

End FuelExpressions.

Section FuelStatements.

Context {U : Unicode}.

Lemma parseExpression_mono (n m : nat) (prec : Z) (p : Parser) :
  (n <= m)%nat -> le_res (parseExpression n prec p) (parseExpression m prec p).
Proof. intros Hle. apply (expressions_mono_all n m Hle). Qed.

Hint Resolve parseExpression_mono : mono.

Lemma parseReturnStatement_mono (n m : nat) (p : Parser) :
  (n <= m)%nat -> le_res (parseReturnStatement n p) (parseReturnStatement m p).
Proof. intros Hle. unfold parseReturnStatement. cbv zeta. mono. Qed.

Lemma parseExpressionStatement_mono (n m : nat) (p : Parser) :
  (n <= m)%nat -> le_res (parseExpressionStatement n p) (parseExpressionStatement m p).
Proof. intros Hle. unfold parseExpressionStatement. cbv zeta. mono. Qed.

Lemma parseVarStatement_mono (n m : nat) (p : Parser) :
  (n <= m)%nat -> le_res (parseVarStatement n p) (parseVarStatement m p).
Proof. intros Hle. unfold parseVarStatement. cbv zeta. mono. Qed.

Lemma parseConstStatement_mono (n m : nat) (p : Parser) :
  (n <= m)%nat -> le_res (parseConstStatement n p) (parseConstStatement m p).
Proof. intros Hle. unfold parseConstStatement. cbv zeta. mono. Qed.

Lemma parseParameter_mono (n m : nat) (p : Parser) :
  (n <= m)%nat -> le_res (parseParameter n p) (parseParameter m p).
Proof. intros Hle. unfold parseParameter. cbv zeta. mono. Qed.

Hint Resolve parseParameter_mono : mono.

Lemma parseParameterListLoop_mono (n m : nat) (f : ast.Function) (p : Parser) :
  (n <= m)%nat -> le_res (parseParameterListLoop n f p) (parseParameterListLoop m f p).
Proof.
  revert m f p. induction n as [|n IH]; intros [|m] f p Hle;
    cbn [parseParameterListLoop]; try lia; try apply le_res_out.
  assert (Hle' : (n <= m)%nat) by lia. mono.
Qed.

Hint Resolve parseParameterListLoop_mono : mono.

Lemma parseParameterList_mono (n m : nat) (f : ast.Function) (p : Parser) :
  (n <= m)%nat -> le_res (parseParameterList n f p) (parseParameterList m f p).
Proof. intros Hle. unfold parseParameterList. mono. Qed.

Hint Resolve parseReturnStatement_mono parseExpressionStatement_mono
  parseVarStatement_mono parseConstStatement_mono parseParameterList_mono : mono.

Lemma statements_mono_all (n : nat) :
  forall m, (n <= m)%nat -> statements_mono n m.
Proof.
  induction n as [|n IH]; intros m Hle.
  - repeat split; intros; apply le_res_out.
  - destruct m as [|m]; [lia|].
    assert (Hle' : (n <= m)%nat) by lia.
    destruct (IH m Hle')
      as (H1 & H2 & H3 & H4 & H5 & H6 & H7 & H8 & H9 & H10 & H11).
    repeat split; intros.
    + cbn [parseStatement]. mono.
    + cbn [parseBlock]. cbv zeta. mono.
    + cbn [parseFunctionDefinition]. cbv zeta. mono.
    + cbn [parseClassDefinition]. cbv zeta. mono.
    + cbn [parseClassBody]. cbv zeta. mono.
    + cbn [parseIfStatement]. cbv zeta. mono.
    + cbn [parseElifBranches]. cbv zeta. mono.
    + cbn [parseForStatement]. cbv zeta. mono.
    + cbn [parseWhileStatement]. cbv zeta. mono.
    + cbn [parseMatchStatement]. cbv zeta. mono.
    + cbn [parseMatchBranches]. cbv zeta. mono.
Qed.

Lemma parseStatement_mono (n m : nat) (p : Parser) :
  (n <= m)%nat -> le_res (parseStatement n p) (parseStatement m p).
Proof. intros Hle. apply (statements_mono_all n m Hle). Qed.

Hint Resolve parseStatement_mono : mono.

Lemma parseGlobalScopeLoop_mono (n m : nat) (c : ast.Class) (p : Parser) :
  (n <= m)%nat -> le_res (parseGlobalScopeLoop n c p) (parseGlobalScopeLoop m c p).
Proof.
  revert m c p. induction n as [|n IH]; intros [|m] c p Hle;
    cbn [parseGlobalScopeLoop]; try lia; try apply le_res_out.
  assert (Hle' : (n <= m)%nat) by lia. cbv zeta. mono.
Qed.

Hint Resolve parseGlobalScopeLoop_mono : mono.

Lemma Parse_mono (n m : nat) (p : Parser) :
  (n <= m)%nat -> le_res (Parse n p) (Parse m p).
Proof. intros Hle. unfold Parse, parseGlobalScope. cbv zeta. mono. Qed.

Hint Resolve Parse_mono : mono.

Lemma parseSource_mono (n m : nat) (input : string) :
  (n <= m)%nat -> le_res (parseSource n input) (parseSource m input).
Proof. intros Hle. unfold parseSource. mono. Qed.

Lemma ParseFile_mono (n m : nat) (baseName content : string) :
  (n <= m)%nat -> le_res (ParseFile n baseName content) (ParseFile m baseName content).
Proof. intros Hle. unfold ParseFile. mono. Qed.

End FuelStatements.

(** ** The parser ends *)

Lemma wp_bind {A B : Type} (m : result A) (k : A -> result B) (Q : B -> Prop) :
  wp m (fun a => wp (k a) Q) -> wp (rbind m k) Q.
Proof. destruct m; exact (fun H => H). Qed.

Lemma wp_mono {A : Type} (m : result A) (Q Q' : A -> Prop) :
  wp m Q -> (forall a, Q a -> Q' a) -> wp m Q'.
Proof. destruct m; simpl; auto. Qed.

Lemma wp_Ok {A : Type} (m : result A) (Q : A -> Prop) (a : A) :
  wp m Q -> m = Ok a -> Q a.
Proof. intros H E. rewrite E in H. exact H. Qed.

Lemma wp_not_out {A : Type} (m : result A) (Q : A -> Prop) :
  wp m Q -> m <> OutOfFuel.
Proof. intros H E. rewrite E in H. exact H. Qed.

Lemma tokensLeft_curError (p : Parser) (msg : string) :
  tokensLeft (curError p msg) = tokensLeft p.
Proof. reflexivity. Qed.

Lemma tokensLeft_peekErrorMsg (p : Parser) (msg : string) :
  tokensLeft (peekErrorMsg p msg) = tokensLeft p.
Proof. reflexivity. Qed.

Lemma tokensLeft_curErrorf (p : Parser) (msg : string) :
  tokensLeft (curErrorf p msg) = tokensLeft p.
Proof. reflexivity. Qed.

Lemma tokensLeft_peekErrorf (p : Parser) (msg : string) :
  tokensLeft (peekErrorf p msg) = tokensLeft p.
Proof. reflexivity. Qed.

Lemma tokensLeft_peekError (p : Parser) (t : TokenType) :
  tokensLeft (peekError p t) = tokensLeft p.
Proof. reflexivity. Qed.

Lemma tokensLeft_EOF (p : Parser) :
  curType p <> EOF -> (0 < tokensLeft p)%nat.
Proof.
  intros H. unfold tokensLeft. apply tt_eqb_neq in H. rewrite H. lia.
Qed.

Section ParserEnds.

Context {U : Unicode}.

(** [nextToken] in the form used below. *)
Lemma nextToken_wp (p : Parser) :
  LexerInv (lexer p) ->
  wp (nextToken p)
     (fun p' => afterP p p' /\ curType p' = peekType p
                /\ (curType p <> EOF \/ peekType p <> EOF ->
                    (tokensLeft p' < tokensLeft p)%nat)).
Proof.
  intros Hi. pose proof (nextToken_post p Hi) as P. unfold nextPost in P.
  destruct (nextToken p) as [p'| |]; simpl; auto.
  destruct P as (H1 & H2 & _ & _ & H3 & H4).
  unfold afterP, curType, peekType. rewrite H2. auto.
Qed.

End ParserEnds.

Lemma wp_ret {A : Type} (a : A) (Q : A -> Prop) : Q a -> wp (Ok a) Q.
Proof. exact (fun H => H). Qed.

Lemma skips_EOF (k : Skip) (t : TokenType) : skips k t = true -> t <> EOF.
Proof. intros H ->. destruct k; discriminate. Qed.

(** A token that passed a test for another type is not the end of
    input. *)
Ltac not_eof :=
  first
    [ assumption
    | discriminate
    | eapply skips_EOF; eassumption
    | let E := fresh "E" in
      intro E;
      repeat match goal with
             | H : curType ?q = peekType _ |- _ => rewrite H in E
             end;
      first
        [ contradiction
        | match goal with
          | H : _ = _ |- _ =>
            lazymatch H with
            | E => fail
            | _ =>
              rewrite E in H; vm_compute in H;
              repeat match type of H with
                     | context [if ?b then _ else _] => destruct b
                     end;
              discriminate H
            end
          end ] ].

Lemma strict_or_EOF (p : Parser) (P : Prop) :
  (curType p <> EOF \/ peekType p <> EOF -> P) ->
  P \/ (curType p = EOF /\ peekType p = EOF).
Proof.
  intros H. destruct (tt_eqb (curType p) EOF) eqn:Ec.
  - destruct (tt_eqb (peekType p) EOF) eqn:Ep.
    + right. split; apply tt_eqb_eq; assumption.
    + left. apply H. right. apply tt_eqb_neq. exact Ep.
  - left. apply H. left. apply tt_eqb_neq. exact Ec.
Qed.

(** After a step of [nextToken]: the step was strict when the token
    passed over is known not to be the end of input. *)
Ltac strict :=
  repeat match goal with
         | H : curType ?p <> EOF \/ peekType ?p <> EOF -> _ |- _ =>
           first
             [ let N := fresh "N" in
               assert (N : curType p <> EOF \/ peekType p <> EOF) by assumption;
               specialize (H N); clear N
             | let N := fresh "N" in
               assert (N : curType p <> EOF) by not_eof;
               specialize (H (or_introl N)); clear N
             | let N := fresh "N" in
               assert (N : peekType p <> EOF) by not_eof;
               specialize (H (or_intror N)); clear N
             | apply strict_or_EOF in H ]
         | H : true = true -> _ |- _ => specialize (H eq_refl)
         | H : false = true -> _ |- _ => clear H
         end.

Ltac frame_rw :=
  rewrite ?tokensLeft_curError, ?tokensLeft_peekErrorMsg, ?tokensLeft_curErrorf,
    ?tokensLeft_peekErrorf, ?tokensLeft_peekError in *.

Ltac enough_fuel := unfold fuelFor in *; frame_rw; lia.

(** The fuel of a loop that is entered after [nextToken]: the step was
    strict, or the loop is at the end of input. *)
Ltac loop_fuel :=
  unfold loopFuel;
  first
    [ left; enough_fuel
    | match goal with
      | H : _ \/ (curType ?p = EOF /\ peekType ?p = EOF),
        H0 : curType ?a = peekType ?p |- _ \/ (curType ?a = EOF /\ _) =>
        destruct H as [H|[_ H]];
        [left; enough_fuel|right; split; [congruence|enough_fuel]]
      end ].

Create HintDb total.

#[export] Hint Extern 1 (_ <= _)%nat => solve [enough_fuel] : total.
#[export] Hint Extern 1 (_ <> EOF) => solve [not_eof] : total.
#[export] Hint Extern 1 (LexerInv _) => assumption : total.
#[export] Hint Extern 2 (_ <> EOF \/ _ <> EOF) =>
  solve [left; not_eof | right; not_eof] : total.
#[export] Hint Extern 2 (loopFuel _ _ _) => solve [loop_fuel] : total.

Ltac wp_intro :=
  let a := fresh "a" in
  let Ha := fresh "Ha" in
  intros a Ha;
  repeat match goal with x : (_ * _)%type |- _ => destruct x end;
  unfold after, afterP in Ha; cbn [fst snd] in Ha;
  repeat match goal with H : _ /\ _ |- _ => destruct H end;
  cbv beta iota; frame_rw; strict.

Ltac wp_fin :=
  lazymatch goal with
  | |- LexerInv _ => assumption
  | |- _ /\ _ => split; wp_fin
  | |- _ -> _ => intros; wp_fin
  | |- _ => first [lia | discriminate | congruence]
  end.

Ltac wp_final := unfold after, afterP; cbn [fst snd]; frame_rw; wp_fin.

Ltac wp_walk :=
  lazymatch goal with
  | |- wp (rbind _ _) _ => apply wp_bind; wp_walk
  | |- wp (if negb ?c then _ else _) _ =>
    destruct c eqn:?; cbn [negb]; strict; wp_walk
  | |- wp (if ?c then _ else _) _ => destruct c eqn:?; strict; wp_walk
  | |- wp (match ?x with _ => _ end) _ => destruct x eqn:?; wp_walk
  | |- wp (Ok _) _ => apply wp_ret; cbv beta iota; cbn [negb]; wp_walk
  | |- wp _ _ =>
    eapply wp_mono; [solve [eauto 6 with total nocore]|wp_intro; wp_walk]
  | |- _ => wp_final
  end.

Section ParserLoopsEnd.

Context {U : Unicode}.

Hint Resolve nextToken_wp : total.

Lemma skipNewlines_wp (fuel : nat) (p : Parser) :
  LexerInv (lexer p) -> (fuelFor 1 p <= fuel)%nat ->
  wp (skipNewlines fuel p) (afterP p).
Proof.
  revert p. induction fuel as [|fuel IH]; intros p Hi Hf;
    [unfold fuelFor in Hf; lia|].
  cbn [skipNewlines]. wp_walk.
Qed.

Lemma synchronize_wp (fuel : nat) (p : Parser) :
  LexerInv (lexer p) -> (fuelFor 1 p <= fuel)%nat ->
  wp (synchronize fuel p) (afterP p).
Proof.
  intros Hi Hf. assert (Hlt : (tokensLeft p < fuel)%nat) by enough_fuel.
  pose proof (synchronize_spec fuel p Hi Hlt) as S.
  destruct (synchronize fuel p); simpl; auto.
  destruct S as (_ & _ & _ & _ & _ & _ & H1 & H2). split; assumption.
Qed.

Hint Resolve synchronize_wp : total.

Lemma recover_wp (fuel : nat) (p : Parser) :
  LexerInv (lexer p) -> (fuelFor 1 p <= fuel)%nat ->
  wp (recover fuel p) (afterP p).
Proof. intros Hi Hf. unfold recover. wp_walk. Qed.

Hint Resolve recover_wp : total.

Lemma expectPeek_wp (fuel : nat) (t : TokenType) (p : Parser) :
  LexerInv (lexer p) -> (fuelFor 1 p <= fuel)%nat -> t <> EOF ->
  wp (expectPeek fuel t p)
     (fun x => after p x
               /\ (fst x = true -> (tokensLeft (snd x) < tokensLeft p)%nat)).
Proof.
  intros Hi Hf Ht. unfold expectPeek.
  destruct (tt_eqb (peekType p) t) eqn:Ep.
  - apply tt_eqb_eq in Ep. assert (Hp : peekType p <> EOF) by congruence.
    wp_walk.
  - cbv zeta. wp_walk.
Qed.

Lemma skipPeekNewlines_wp (fuel : nat) (indent : bool) (p : Parser) :
  LexerInv (lexer p) -> (fuelFor 1 p <= fuel)%nat ->
  wp (skipPeekNewlines fuel indent p) (afterP p).
Proof.
  revert p. induction fuel as [|fuel IH]; intros p Hi Hf;
    [unfold fuelFor in Hf; lia|].
  cbn [skipPeekNewlines]. wp_walk.
Qed.

Lemma skipToNextLine_wp (fuel : nat) (p : Parser) :
  LexerInv (lexer p) -> (fuelFor 1 p <= fuel)%nat ->
  wp (skipToNextLine fuel p) (afterP p).
Proof.
  revert p. induction fuel as [|fuel IH]; intros p Hi Hf;
    [unfold fuelFor in Hf; lia|].
  cbn [skipToNextLine]. wp_walk.
Qed.

Lemma expectBlock_wp (accepted : TokenType -> bool) (p : Parser) :
  LexerInv (lexer p) ->
  wp (expectBlock accepted p) (after p).
Proof. intros Hi. unfold expectBlock. wp_walk. Qed.

End ParserLoopsEnd.

#[export] Hint Resolve nextToken_wp skipNewlines_wp synchronize_wp recover_wp
  expectPeek_wp skipPeekNewlines_wp skipToNextLine_wp expectBlock_wp : total.

Lemma Expression_Position_wp (e : ast.Expression) :
  wp (ast.Expression_Position e) (fun _ => True).
Proof. destruct e; exact I. Qed.

#[export] Hint Resolve Expression_Position_wp : total.

Section ExpressionsEnd.

Context {U : Unicode}.

Lemma expressions_total_all (fuel : nat) : expressions_total fuel.
Proof.
  induction fuel as [|fuel IH].
  - repeat split; intros; unfold fuelFor in *; lia.
  - destruct IH as (H1 & H2 & H3 & H4 & H5 & H6 & H7 & H8 & H9).
    repeat split; intros.
    + cbn [parseExpression]. wp_walk.
    + cbn [parseExpressionLoop]. cbv zeta. wp_walk.
    + cbn [parseCallExpression]. cbv zeta. wp_walk.
    + cbn [parseCallArguments]. wp_walk.
    + cbn [parseCallArgumentsLoop]. wp_walk.
    + cbn [parseGroupedExpression]. wp_walk.
    + cbn [parsePrefixExpression]. cbv zeta. wp_walk.
    + cbn [parseInfixExpression]. cbv zeta. wp_walk.
    + cbn [parseConditionalExpression]. wp_walk.
Qed.

End ExpressionsEnd.

Section StatementsEnd.

Context {U : Unicode}.

Lemma parseExpression_wp (fuel : nat) (prec : Z) (p : Parser) :
  LexerInv (lexer p) -> (fuelFor 7 p <= fuel)%nat ->
  wp (parseExpression fuel prec p) (after p).
Proof. apply (expressions_total_all fuel). Qed.

Hint Resolve parseExpression_wp : total.

Lemma parseReturnStatement_wp (fuel : nat) (p : Parser) :
  LexerInv (lexer p) -> (fuelFor 7 p <= fuel)%nat ->
  wp (parseReturnStatement fuel p) (after p).
Proof. intros Hi Hf. unfold parseReturnStatement. cbv zeta. wp_walk. Qed.

Lemma parseExpressionStatement_wp (fuel : nat) (p : Parser) :
  LexerInv (lexer p) -> (fuelFor 7 p <= fuel)%nat ->
  wp (parseExpressionStatement fuel p) (after p).
Proof. intros Hi Hf. unfold parseExpressionStatement. cbv zeta. wp_walk. Qed.

Lemma parseVarStatement_wp (fuel : nat) (p : Parser) :
  LexerInv (lexer p) -> (fuelFor 7 p <= fuel)%nat ->
  wp (parseVarStatement fuel p) (after p).
Proof. intros Hi Hf. unfold parseVarStatement. cbv zeta. wp_walk. Qed.

Lemma parseConstStatement_wp (fuel : nat) (p : Parser) :
  LexerInv (lexer p) -> (fuelFor 7 p <= fuel)%nat ->
  wp (parseConstStatement fuel p) (after p).
Proof. intros Hi Hf. unfold parseConstStatement. cbv zeta. wp_walk. Qed.

Lemma parseParameter_wp (fuel : nat) (p : Parser) :
  LexerInv (lexer p) -> (fuelFor 7 p <= fuel)%nat ->
  wp (parseParameter fuel p) (after p).
Proof. intros Hi Hf. unfold parseParameter. cbv zeta. wp_walk. Qed.

Hint Resolve parseParameter_wp : total.

Lemma parseParameterListLoop_wp (fuel : nat) (f : ast.Function) (p : Parser) :
  LexerInv (lexer p) -> (fuelFor 8 p <= fuel)%nat ->
  wp (parseParameterListLoop fuel f p) (after p).
Proof.
  revert f p. induction fuel as [|fuel IH]; intros f p Hi Hf;
    [unfold fuelFor in Hf; lia|].
  cbn [parseParameterListLoop]. wp_walk.
Qed.

Hint Resolve parseParameterListLoop_wp : total.

Lemma parseParameterList_wp (fuel : nat) (f : ast.Function) (p : Parser) :
  LexerInv (lexer p) -> (fuelFor 8 p <= fuel)%nat ->
  wp (parseParameterList fuel f p) (after p).
Proof. intros Hi Hf. unfold parseParameterList. wp_walk. Qed.

End StatementsEnd.

#[export] Hint Resolve parseExpression_wp parseReturnStatement_wp
  parseExpressionStatement_wp parseVarStatement_wp parseConstStatement_wp
  parseParameter_wp parseParameterListLoop_wp parseParameterList_wp : total.

(** A statement loop at the end of input is left at once. *)
Ltac loop_at_EOF Hf :=
  destruct Hf as [Hf|[Hc _]];
  [|unfold curType in Hc |- *; rewrite Hc; apply wp_ret; split;
    [assumption|apply Nat.le_refl]].

Section BlocksEnd.

Context {U : Unicode}.

Lemma statements_total_all (fuel : nat) : statements_total fuel.
Proof.
  induction fuel as [|fuel IH].
  - repeat split; intros; unfold loopFuel, fuelFor in *; lia.
  - destruct IH as (H1 & H2 & H3 & H4 & H5 & H6 & H7 & H8 & H9 & H10 & H11).
    repeat split; intros.
    + cbn [parseStatement]. wp_walk.
    + cbn [parseBlock]. cbv zeta. loop_at_EOF H0. wp_walk.
    + cbn [parseFunctionDefinition]. cbv zeta. wp_walk.
    + cbn [parseClassDefinition]. cbv zeta. wp_walk.
    + cbn [parseClassBody]. cbv zeta. loop_at_EOF H0. wp_walk.
    + cbn [parseIfStatement]. cbv zeta. wp_walk.
    + cbn [parseElifBranches]. cbv zeta. wp_walk.
    + cbn [parseForStatement]. cbv zeta. wp_walk.
    + cbn [parseWhileStatement]. cbv zeta. wp_walk.
    + cbn [parseMatchStatement]. cbv zeta. wp_walk.
    + cbn [parseMatchBranches]. cbv zeta. wp_walk.
Qed.

End BlocksEnd.

#[export] Hint Resolve parseExpression_wp parseReturnStatement_wp : total.

Section ParseEnds.

Context {U : Unicode}.

Lemma parseStatement_wp (fuel : nat) (p : Parser) :
  LexerInv (lexer p) -> (fuelFor 8 p <= fuel)%nat ->
  wp (parseStatement fuel p) (after p).
Proof. apply (statements_total_all fuel). Qed.

Hint Resolve parseStatement_wp : total.

Lemma parseGlobalScopeLoop_wp (fuel : nat) (c : ast.Class) (p : Parser) :
  LexerInv (lexer p) -> loopFuel 9 fuel p ->
  wp (parseGlobalScopeLoop fuel c p) (after p).
Proof.
  revert c p. induction fuel as [|fuel IH]; intros c p Hi Hf;
    [unfold loopFuel, fuelFor in Hf; lia|].
  cbn [parseGlobalScopeLoop]. cbv zeta.
  destruct Hf as [Hf|[Hc _]].
  - destruct (tt_eqb (curType p) EOF) eqn:E; [wp_walk|].
    apply wp_bind. eapply wp_mono; [solve [eauto 6 with total nocore]|].
    wp_intro. apply wp_bind.
    eapply wp_mono; [solve [eauto 6 with total nocore]|].
    wp_intro. eapply wp_mono; [apply IH; [assumption|loop_fuel]|].
    wp_intro. wp_final.
  - rewrite Hc. apply wp_ret. split; [assumption|apply Nat.le_refl].
Qed.

Lemma parseGlobalScopeLoop_Name (fuel : nat) (c : ast.Class) (p : Parser)
      (c' : ast.Class) (p' : Parser) :
  parseGlobalScopeLoop fuel c p = Ok (c', p') ->
  ast.Class_Name c' = ast.Class_Name c.
Proof.
  revert c p. induction fuel as [|fuel IH]; intros c p H; [discriminate|].
  cbn [parseGlobalScopeLoop] in H.
  destruct (tt_eqb (curType p) EOF); [injection H as <- _; reflexivity|].
  inv_bind H. destruct a as [stmt p1]. inv_bind H.
  rewrite (IH _ _ H). destruct c. destruct stmt; reflexivity.
Qed.

(** [Parse] ends, given fuel in proportion to the tokens left, and a
    tree it returns has the global scope as its root. *)
Lemma Parse_wp (fuel : nat) (p : Parser) :
  LexerInv (lexer p) -> (fuelFor 9 p <= fuel)%nat ->
  wp (Parse fuel p) (fun x => after p x /\ rooted (fst x)).
Proof.
  intros Hi Hf. unfold Parse, parseGlobalScope. cbv zeta.
  pose proof (parseGlobalScopeLoop_wp fuel
                (ast.NewClass "global scope" (ast.mkPosition 1 1 0)) p Hi
                (or_introl Hf)) as W.
  pose proof (parseGlobalScopeLoop_Name fuel
                (ast.NewClass "global scope" (ast.mkPosition 1 1 0)) p) as N.
  destruct (parseGlobalScopeLoop fuel _ p) as [[c p']| |]; cbn [rbind wp];
    [|exact I|exact W].
  split; [exact W|]. exists c. cbn [fst ast.RootClass ast.Classes].
  split; [reflexivity|split; [exact (N c p' eq_refl)|reflexivity]].
Qed.

Lemma remaining_NewLexer (input0 : string) :
  remaining (NewLexer input0) = (3 * String.length input0 + 1)%nat.
Proof.
  destruct (NewLexer_start input0) as (_ & Hs & Ht & Hin).
  unfold remaining. rewrite Hs, Ht, Hin. unfold NewLexer.
  rewrite readChar_position. cbn [readPosition List.length]. unfold len.
  rewrite Z.sub_0_r, Nat2Z.id. lia.
Qed.

(** [NewParser] does not run out of fuel, and the parser it makes has a
    number of tokens left that is linear in the length of the text. *)
Lemma NewParser_wp (input0 : string) :
  wp (NewParser input0)
     (fun p => LexerInv (lexer p)
               /\ (fuelFor 10 p <= parseFuel input0)%nat).
Proof.
  unfold NewParser. cbv zeta.
  set (p0 := mkParser (NewLexer input0) zeroToken zeroToken [] 0).
  assert (Hi : LexerInv (lexer p0)) by apply NewLexer_inv.
  assert (Ht : tokensLeft p0 = (9 * String.length input0 + 6)%nat).
  { unfold tokensLeft, p0. cbn [lexer]. rewrite remaining_NewLexer.
    change (tt_eqb (curType _) EOF) with false.
    change (tt_eqb (peekType _) EOF) with false. cbv iota. lia. }
  apply wp_bind. eapply wp_mono; [apply nextToken_wp, Hi|].
  intros p1 ((Hi1 & Hle1) & _). eapply wp_mono; [apply nextToken_wp, Hi1|].
  intros p2 ((Hi2 & Hle2) & _). split; [exact Hi2|].
  unfold fuelFor, parseFuel. lia.
Qed.

End ParseEnds.

Section ParseTermination.

Context {U : Unicode}.

(** [Parse] on the parser of a source text ends, given the fuel
    [parseFuel] of the text or more: it returns a tree with the global
    scope as its root, or it panics. *)
Theorem Parse_ends (input0 : string) (fuel : nat) (p : Parser) :
  NewParser input0 = Ok p ->
  (parseFuel input0 <= fuel)%nat ->
  Parse fuel p <> OutOfFuel
  /\ forall tree p', Parse fuel p = Ok (tree, p') -> rooted tree.
Proof.
  intros Hp Hf. pose proof (NewParser_wp input0) as W. rewrite Hp in W.
  destruct W as (Hi & Hb).
  assert (W : wp (Parse fuel p) (fun x => after p x /\ rooted (fst x))).
  { apply Parse_wp; [exact Hi|]. unfold fuelFor in *. lia. }
  split; [exact (wp_not_out _ _ W)|].
  intros tree p' E. exact (proj2 (wp_Ok _ _ _ W E)).
Qed.

(** [parseSource] ends as well. *)
Lemma parseSource_ends (input0 : string) (fuel : nat) :
  (parseFuel input0 <= fuel)%nat -> parseSource fuel input0 <> OutOfFuel.
Proof.
  intros Hf. unfold parseSource. pose proof (NewParser_wp input0) as W.
  destruct (NewParser input0) as [p| |] eqn:Ep; cbn [rbind]; try discriminate;
    [|destruct W].
  destruct (Parse_ends input0 fuel p Ep Hf) as (Hn & _).
  destruct (Parse fuel p) as [[tree p']| |]; cbn [rbind]; congruence.
Qed.

(** X28.  In strict mode, too, the parser ends on every text: on the
    parser that [NewParser] makes of a text, [Parse] returns or panics,
    given the fuel [parseFuel] of the text or more, and the amount of
    fuel makes no difference to what it returns. *)
Theorem Parse_fuel_independent (input0 : string) (fuel : nat) (p : Parser) :
  NewParser input0 = Ok p ->
  (parseFuel input0 <= fuel)%nat ->
  Parse fuel p <> OutOfFuel
  /\ Parse fuel p = Parse (parseFuel input0) p.
Proof.
  intros Hp Hf.
  destruct (Parse_ends input0 fuel p Hp Hf) as (N1 & _).
  destruct (Parse_ends input0 (parseFuel input0) p Hp (Nat.le_refl _)) as (N2 & _).
  split; [exact N1|].
  apply (le_res_eq (Parse (Nat.max fuel (parseFuel input0)) p));
    [apply Parse_mono; lia|apply Parse_mono; lia|exact N1|exact N2].
Qed.

End ParseTermination.

(** The theorem at the source [var 1 var y = 2]. *)
Lemma Parse_fuel_independent_witness :
  let p := parserOf (NewParser (U:=latin1) recoverySource) in
  Parse (U:=latin1) 3000 p <> OutOfFuel
  /\ Parse (U:=latin1) 3000 p = Parse (U:=latin1) (parseFuel recoverySource) p.
Proof.
  intros p.
  apply (Parse_fuel_independent (U:=latin1) recoverySource 3000 p).
  - vm_compute. reflexivity.
  - apply Nat.leb_le. vm_compute. reflexivity.
Defined.

(** ** Every function node is in sync *)

Lemma wpp_bind {A B : Type} (m : result A) (k : A -> result B) (Q : B -> Prop) :
  wpp m (fun a => wpp (k a) Q) -> wpp (rbind m k) Q.
Proof. destruct m; exact (fun H => H). Qed.

Lemma wpp_mono {A : Type} (m : result A) (Q Q' : A -> Prop) :
  wpp m Q -> (forall a, Q a -> Q' a) -> wpp m Q'.
Proof. destruct m; simpl; auto. Qed.

Lemma wpp_True {A : Type} (m : result A) : wpp m (fun _ => True).
Proof. destruct m; exact I. Qed.

Lemma wpp_ret {A : Type} (a : A) (Q : A -> Prop) : Q a -> wpp (Ok a) Q.
Proof. exact (fun H => H). Qed.

Lemma wpp_Ok {A : Type} (m : result A) (Q : A -> Prop) (a : A) :
  wpp m Q -> m = Ok a -> Q a.
Proof. intros H E. rewrite E in H. exact H. Qed.

Ltac sync_simpl :=
  unfold syncS, syncL in *;
  cbn [stmtFunctions ifFunctions forFunctions whileFunctions matchFunctions
       branchFunctions functionFunctions classFunctions flat_map
       ast.AddConsequenceStatement ast.AddElseIfBranch ast.SetAlternative
       ast.NewIfStatement ast.NewForStatement ast.For_AddBodyStatement
       ast.For_SetTypeHint ast.NewWhileStatement ast.While_AddBodyStatement
       ast.NewMatchStatement ast.AddBranch ast.NewMatchBranch ast.SetGuard
       ast.Branch_AddBodyStatement ast.NewFunction ast.AddParameter
       ast.Function_AddStatement ast.setIsStatic ast.setReturnType ast.NewClass
       ast.AddSubClass ast.AddFunction ast.Class_AddStatement ast.setExtends
       ast.setName] in *;
  rewrite ?flat_map_app in *; cbn [flat_map] in *;
  rewrite ?app_nil_r in *;
  rewrite ?Forall_cons_iff, ?Forall_app, ?Forall_cons_iff, ?Forall_app in *.

Lemma sync_AddConsequenceStatement (i : ast.IfStatement) (s : ast.Statement) :
  syncS (ast.StmtIf (Some i)) -> syncS s ->
  syncS (ast.StmtIf (Some (ast.AddConsequenceStatement i s))).
Proof. destruct i. intros. sync_simpl. tauto. Qed.

Lemma sync_AddElseIfBranch (i : ast.IfStatement) (c : ast.Expression)
      (body : list ast.Statement) :
  syncS (ast.StmtIf (Some i)) -> syncL body ->
  syncS (ast.StmtIf (Some (ast.AddElseIfBranch i c body))).
Proof. destruct i. intros. sync_simpl. tauto. Qed.

Lemma sync_SetAlternative (i : ast.IfStatement) (body : list ast.Statement) :
  syncS (ast.StmtIf (Some i)) -> syncL body ->
  syncS (ast.StmtIf (Some (ast.SetAlternative i body))).
Proof. destruct i. intros. sync_simpl. tauto. Qed.

Lemma sync_append (body : list ast.Statement) (s : ast.Statement) :
  syncL body -> syncS s -> syncL (body ++ [s]).
Proof. intros. sync_simpl. tauto. Qed.

Lemma sync_For_AddBodyStatement (f : ast.ForStatement) (s : ast.Statement) :
  syncS (ast.StmtFor (Some f)) -> syncS s ->
  syncS (ast.StmtFor (Some (ast.For_AddBodyStatement f s))).
Proof. destruct f. intros. sync_simpl. tauto. Qed.

Lemma sync_For_SetTypeHint (f : ast.ForStatement) (t : string) :
  syncS (ast.StmtFor (Some f)) ->
  syncS (ast.StmtFor (Some (ast.For_SetTypeHint f t))).
Proof. destruct f. intros. sync_simpl. tauto. Qed.

Lemma sync_While_AddBodyStatement (w : ast.WhileStatement) (s : ast.Statement) :
  syncS (ast.StmtWhile (Some w)) -> syncS s ->
  syncS (ast.StmtWhile (Some (ast.While_AddBodyStatement w s))).
Proof. destruct w. intros. sync_simpl. tauto. Qed.

Lemma sync_AddBranch (m : ast.MatchStatement) (b : ast.MatchBranch) :
  syncS (ast.StmtMatch (Some m)) -> Forall inSync (branchFunctions b) ->
  syncS (ast.StmtMatch (Some (ast.AddBranch m b))).
Proof. destruct m. intros. sync_simpl. tauto. Qed.

Lemma sync_SetGuard (b : ast.MatchBranch) (g : ast.Expression) :
  Forall inSync (branchFunctions b) ->
  Forall inSync (branchFunctions (ast.SetGuard b g)).
Proof. destruct b. intros. sync_simpl. tauto. Qed.

Lemma sync_Branch_AddBodyStatement (b : ast.MatchBranch) (s : ast.Statement) :
  Forall inSync (branchFunctions b) -> syncS s ->
  Forall inSync (branchFunctions (ast.Branch_AddBodyStatement b s)).
Proof. destruct b. intros. sync_simpl. tauto. Qed.

Lemma sync_NewFunction (name : string) (pos : ast.Position) :
  syncS (ast.StmtFunction (Some (ast.NewFunction name pos))).
Proof. sync_simpl. split; [reflexivity|constructor]. Qed.

Lemma sync_setIsStatic (f : ast.Function) (b : bool) :
  syncS (ast.StmtFunction (Some f)) ->
  syncS (ast.StmtFunction (Some (ast.setIsStatic f b))).
Proof. destruct f. intros. sync_simpl. tauto. Qed.

Lemma sync_setReturnType (f : ast.Function) (t : string) :
  syncS (ast.StmtFunction (Some f)) ->
  syncS (ast.StmtFunction (Some (ast.setReturnType f t))).
Proof. destruct f. intros. sync_simpl. tauto. Qed.

Lemma sync_AddParameter (f : ast.Function) (param : ast.Param) :
  syncS (ast.StmtFunction (Some f)) ->
  syncS (ast.StmtFunction (Some (ast.AddParameter f param))).
Proof. destruct f. intros. sync_simpl. tauto. Qed.

Lemma sync_Function_AddStatement (f : ast.Function) (s : ast.Statement) :
  syncS (ast.StmtFunction (Some f)) -> syncS s ->
  syncS (ast.StmtFunction (Some (ast.Function_AddStatement f s))).
Proof.
  destruct f. intros. sync_simpl. unfold inSync in *.
  cbn [ast.Function_Statements ast.Function_SubStatements] in *.
  intuition congruence.
Qed.

Lemma sync_AddSubClass (c : ast.Class) (sub : option ast.Class) :
  syncS (ast.StmtClass (Some c)) -> syncS (ast.StmtClass sub) ->
  syncS (ast.StmtClass (Some (ast.AddSubClass c sub))).
Proof. destruct c, sub; intros; sync_simpl; tauto. Qed.

Lemma sync_AddFunction (c : ast.Class) (f : option ast.Function) :
  syncS (ast.StmtClass (Some c)) -> syncS (ast.StmtFunction f) ->
  syncS (ast.StmtClass (Some (ast.AddFunction c f))).
Proof. destruct c, f; intros; sync_simpl; tauto. Qed.

Lemma sync_Class_AddStatement (c : ast.Class) (s : ast.Statement) :
  syncS (ast.StmtClass (Some c)) -> syncS s ->
  syncS (ast.StmtClass (Some (ast.Class_AddStatement c s))).
Proof. destruct c. intros. sync_simpl. tauto. Qed.

Lemma sync_setExtends (c : ast.Class) (e : string) :
  syncS (ast.StmtClass (Some c)) ->
  syncS (ast.StmtClass (Some (ast.setExtends c e))).
Proof. destruct c. intros. sync_simpl. tauto. Qed.

Lemma sync_setName (c : ast.Class) (e : string) :
  syncS (ast.StmtClass (Some c)) ->
  syncS (ast.StmtClass (Some (ast.setName c e))).
Proof. destruct c. intros. sync_simpl. tauto. Qed.

Create HintDb sync.

#[export] Hint Resolve sync_AddConsequenceStatement sync_AddElseIfBranch
  sync_SetAlternative sync_append sync_For_AddBodyStatement sync_For_SetTypeHint
  sync_While_AddBodyStatement sync_AddBranch sync_SetGuard
  sync_Branch_AddBodyStatement sync_NewFunction sync_setIsStatic
  sync_setReturnType sync_AddParameter sync_Function_AddStatement
  sync_AddSubClass sync_AddFunction sync_Class_AddStatement sync_setExtends : sync.

#[export] Hint Extern 1 (syncS _) => solve [apply Forall_nil] : sync.
#[export] Hint Extern 1 (syncL _) => solve [apply Forall_nil] : sync.
#[export] Hint Extern 1 (Forall inSync _) => solve [apply Forall_nil] : sync.
#[export] Hint Extern 1 => assumption : sync.
#[export] Hint Extern 4 =>
  match goal with
  | |- context [if ?c then _ else _] => destruct c
  | |- context [match ?x with Some _ => _ | None => _ end] => destruct x
  end : sync.

Ltac sync_intro :=
  let a := fresh "a" in
  let Ha := fresh "Ha" in
  intros a Ha;
  repeat match goal with x : (_ * _)%type |- _ => destruct x end;
  cbn [fst snd] in *; cbv beta iota.

Ltac sync_walk :=
  lazymatch goal with
  | |- wpp (rbind _ _) _ => apply wpp_bind; sync_walk
  | |- wpp (if negb ?c then _ else _) _ => destruct c; cbn [negb]; sync_walk
  | |- wpp (if ?c then _ else _) _ => destruct c; sync_walk
  | |- wpp (match ?x with _ => _ end) _ => destruct x; sync_walk
  | |- wpp (Ok _) _ => apply wpp_ret; cbv beta iota; cbn [negb]; sync_walk
  | |- wpp _ _ =>
    eapply wpp_mono;
    [first [solve [eauto 8 with sync nocore]|apply wpp_True]
    |sync_intro; sync_walk]
  | |- _ => cbn [fst snd]; solve [eauto 8 with sync nocore]
  end.

Section EveryFunctionInSync.

Context {U : Unicode}.

Lemma parseParameterListLoop_sync (fuel : nat) (f : ast.Function) (p : Parser) :
  syncS (ast.StmtFunction (Some f)) ->
  wpp (parseParameterListLoop fuel f p)
      (fun x => syncS (ast.StmtFunction (Some (fst (fst x))))).
Proof.
  revert f p. induction fuel as [|fuel IH]; intros f p Hs; [exact I|].
  cbn [parseParameterListLoop]. sync_walk.
Qed.

Hint Resolve parseParameterListLoop_sync : sync.

Lemma parseParameterList_sync (fuel : nat) (f : ast.Function) (p : Parser) :
  syncS (ast.StmtFunction (Some f)) ->
  wpp (parseParameterList fuel f p)
      (fun x => syncS (ast.StmtFunction (Some (fst x)))).
Proof. intros Hs. unfold parseParameterList. sync_walk. Qed.

Hint Resolve parseParameterList_sync : sync.

Lemma statements_sync_all (fuel : nat) : statements_sync fuel.
Proof.
  induction fuel as [|fuel IH].
  - repeat split; intros; exact I.
  - destruct IH as (H1 & H2 & H3 & H4 & H5 & H6 & H7 & H8 & H9 & H10 & H11).
    pose proof (fun skip node p => H2 _ (fun f => syncS (ast.StmtFunction (Some f)))
                  skip _ node p sync_Function_AddStatement) as B1.
    pose proof (fun skip node p => H2 _ (fun i => syncS (ast.StmtIf (Some i)))
                  skip _ node p sync_AddConsequenceStatement) as B2.
    pose proof (fun skip node p => H2 _ (fun f => syncS (ast.StmtFor (Some f)))
                  skip _ node p sync_For_AddBodyStatement) as B3.
    pose proof (fun skip node p => H2 _ (fun w => syncS (ast.StmtWhile (Some w)))
                  skip _ node p sync_While_AddBodyStatement) as B4.
    pose proof (fun skip node p => H2 _ (fun b => Forall inSync (branchFunctions b))
                  skip _ node p sync_Branch_AddBodyStatement) as B5.
    pose proof (fun skip node p => H2 _ syncL
                  skip _ node p sync_append) as B6.
    cbv beta in B1, B2, B3, B4, B5, B6.
    repeat split; intros.
    + cbn [parseStatement]. sync_walk.
    + cbn [parseBlock]. cbv zeta. sync_walk.
    + cbn [parseFunctionDefinition]. cbv zeta. sync_walk.
    + cbn [parseClassDefinition]. cbv zeta. sync_walk.
    + cbn [parseClassBody]. cbv zeta. sync_walk.
    + cbn [parseIfStatement]. cbv zeta. sync_walk.
    + cbn [parseElifBranches]. cbv zeta. sync_walk.
    + cbn [parseForStatement]. cbv zeta. sync_walk.
    + cbn [parseWhileStatement]. cbv zeta. sync_walk.
    + cbn [parseMatchStatement]. cbv zeta. sync_walk.
    + cbn [parseMatchBranches]. cbv zeta. sync_walk.
Qed.

End EveryFunctionInSync.

Section TreeInSync.

Context {U : Unicode}.

Lemma parseStatement_sync (fuel : nat) (p : Parser) :
  wpp (parseStatement fuel p) (fun x => syncS (fst x)).
Proof. apply (statements_sync_all fuel). Qed.

Lemma parseGlobalScopeLoop_sync (fuel : nat) (c : ast.Class) (p : Parser) :
  syncS (ast.StmtClass (Some c)) ->
  wpp (parseGlobalScopeLoop fuel c p)
      (fun x => syncS (ast.StmtClass (Some (fst x)))).
Proof.
  revert c p. induction fuel as [|fuel IH]; intros c p Hs; [exact I|].
  cbn [parseGlobalScopeLoop]. cbv zeta.
  destruct (tt_eqb (curType p) EOF); [exact Hs|].
  apply wpp_bind. eapply wpp_mono; [apply parseStatement_sync|].
  intros [stmt p1] H1. cbn [fst] in H1. cbv beta iota.
  apply wpp_bind. eapply wpp_mono; [apply wpp_True|]. intros p2 _.
  apply IH. destruct stmt; auto with sync.
Qed.

Lemma sync_SubClasses (c : ast.Class) :
  syncS (ast.StmtClass (Some c)) ->
  Forall inSync
    (flat_map (fun c => stmtFunctions (ast.StmtClass c)) (ast.Class_SubClasses c)).
Proof.
  destruct c. unfold syncS. cbn [stmtFunctions classFunctions ast.Class_SubClasses].
  rewrite !Forall_app. intros (H & _). exact H.
Qed.

(** C8.  In a tree that [Parse] returns, every Function node, at
    whatever depth (a function of the global scope, a method of a class
    or of a nested class, a function in the body of a statement), has
    the same statements, in the same order, in its raw list and in its
    flat list. *)
Theorem Parse_functions_inSync (fuel : nat) (p : Parser)
        (tree : ast.AbstractSyntaxTree) (p' : Parser) (f : ast.Function) :
  Parse fuel p = Ok (tree, p') ->
  In f (treeFunctions tree) ->
  ast.Function_Statements f = ast.Function_SubStatements f.
Proof.
  intros HP. revert f.
  change (forall f, In f (treeFunctions tree) -> inSync f). apply Forall_forall.
  unfold Parse, parseGlobalScope in HP. cbv zeta in HP.
  pose proof (parseGlobalScopeLoop_sync fuel
                (ast.NewClass "global scope" (ast.mkPosition 1 1 0)) p
                (Forall_nil _)) as W.
  destruct (parseGlobalScopeLoop fuel _ p) as [[c p1]| |]; try discriminate.
  cbn [rbind] in HP. injection HP as <- <-. cbn [wpp fst] in W.
  unfold treeFunctions.
  cbn [ast.RootClass ast.Classes ast.AST_Functions ast.NewAST app flat_map].
  rewrite app_nil_r, !Forall_app. split; [exact W|split; [exact W|]].
  apply sync_SubClasses, W.
Qed.

End TreeInSync.

(** The theorem of C8 at the class [A] with the method [f]: the method
    is a Function node of the tree, one level below the root. *)
Lemma Parse_functions_inSync_witness :
  exists tree p' f,
    Parse (U:=latin1) 30 (parserOf (NewParser (U:=latin1) classSource)) = Ok (tree, p')
    /\ In f (treeFunctions tree)
    /\ ast.Function_Name f = "f"
    /\ List.length (ast.Function_Statements f) = 1%nat
    /\ ast.Function_Statements f = ast.Function_SubStatements f.
Proof.
  eexists. eexists. eexists.
  split; [vm_compute; reflexivity|].
  split; [vm_compute; left; reflexivity|].
  split; [reflexivity|]. split; [reflexivity|].
  eapply (Parse_functions_inSync (U:=latin1) 30
            (parserOf (NewParser (U:=latin1) classSource))).
  - vm_compute. reflexivity.
  - vm_compute. left. reflexivity.
Defined.

(** ** The error mode is kept *)

Create HintDb mode.

Ltac mode_intro :=
  let a := fresh "a" in
  let Ha := fresh "Ha" in
  intros a Ha;
  repeat match goal with x : (_ * _)%type |- _ => destruct x end;
  unfold sameMode in Ha; cbn [fst snd] in Ha; cbv beta iota.

Ltac mode_final :=
  unfold sameMode in *;
  cbn [fst snd errorMode curError curErrorf peekErrorMsg peekErrorf peekError] in *;
  congruence.

Ltac mode_walk :=
  lazymatch goal with
  | |- wpp OutOfFuel _ => exact I
  | |- wpp (rbind _ _) _ => apply wpp_bind; mode_walk
  | |- wpp (if negb ?c then _ else _) _ => destruct c; cbn [negb]; mode_walk
  | |- wpp (if ?c then _ else _) _ => destruct c; mode_walk
  | |- wpp (match ?x with _ => _ end) _ => destruct x; mode_walk
  | |- wpp (Ok _) _ => apply wpp_ret; cbv beta iota; cbn [negb]; mode_walk
  | |- wpp _ _ =>
    eapply wpp_mono;
    [first [solve [eauto 3 with mode nocore]|apply wpp_True]
    |mode_intro; mode_walk]
  | |- _ => mode_final
  end.

Section ErrorModeKept.

Context {U : Unicode}.

Lemma nextToken_mode (p : Parser) :
  wpp (nextToken p) (fun p' => errorMode p' = errorMode p).
Proof.
  destruct (nextToken p) as [p'| |] eqn:E; simpl; auto.
  apply (nextToken_current _ _ E).
Qed.

Hint Resolve nextToken_mode : mode.

Lemma skipNewlines_mode (fuel : nat) (p : Parser) :
  wpp (skipNewlines fuel p) (fun p' => errorMode p' = errorMode p).
Proof.
  revert p. induction fuel as [|fuel IH]; intros p; cbn [skipNewlines];
    mode_walk.
Qed.

Lemma synchronizeLoop_mode (fuel : nat) (p : Parser) :
  wpp (synchronizeLoop fuel p) (fun p' => errorMode p' = errorMode p).
Proof.
  revert p. induction fuel as [|fuel IH]; intros p; cbn [synchronizeLoop];
    mode_walk.
Qed.

Hint Resolve synchronizeLoop_mode : mode.

Lemma recover_mode (fuel : nat) (p : Parser) :
  wpp (recover fuel p) (fun p' => errorMode p' = errorMode p).
Proof. unfold recover, synchronize. mode_walk. Qed.

Hint Resolve recover_mode : mode.

Lemma expectPeek_mode (fuel : nat) (t : TokenType) (p : Parser) :
  wpp (expectPeek fuel t p) (sameMode p).
Proof. unfold expectPeek. cbv zeta. mode_walk. Qed.

Lemma skipPeekNewlines_mode (fuel : nat) (indent : bool) (p : Parser) :
  wpp (skipPeekNewlines fuel indent p) (fun p' => errorMode p' = errorMode p).
Proof.
  revert p. induction fuel as [|fuel IH]; intros p; cbn [skipPeekNewlines];
    mode_walk.
Qed.

Lemma skipToNextLine_mode (fuel : nat) (p : Parser) :
  wpp (skipToNextLine fuel p) (fun p' => errorMode p' = errorMode p).
Proof.
  revert p. induction fuel as [|fuel IH]; intros p; cbn [skipToNextLine];
    mode_walk.
Qed.

Lemma expectBlock_mode (accepted : TokenType -> bool) (p : Parser) :
  wpp (expectBlock accepted p) (sameMode p).
Proof. unfold expectBlock. mode_walk. Qed.

Hint Resolve skipNewlines_mode expectPeek_mode skipPeekNewlines_mode
  skipToNextLine_mode expectBlock_mode : mode.

Lemma expressions_mode_all (fuel : nat) : expressions_mode fuel.
Proof.
  induction fuel as [|fuel IH].
  - repeat split; intros; exact I.
  - destruct IH as (H1 & H2 & H3 & H4 & H5 & H6 & H7 & H8 & H9).
    repeat split; intros.
    + cbn [parseExpression]. mode_walk.
    + cbn [parseExpressionLoop]. cbv zeta. mode_walk.
    + cbn [parseCallExpression]. cbv zeta. mode_walk.
    + cbn [parseCallArguments]. mode_walk.
    + cbn [parseCallArgumentsLoop]. mode_walk.
    + cbn [parseGroupedExpression]. mode_walk.
    + cbn [parsePrefixExpression]. cbv zeta. mode_walk.
    + cbn [parseInfixExpression]. cbv zeta. mode_walk.
    + cbn [parseConditionalExpression]. mode_walk.
Qed.

Lemma parseExpression_mode (fuel : nat) (prec : Z) (p : Parser) :
  wpp (parseExpression fuel prec p) (sameMode p).
Proof. apply (expressions_mode_all fuel). Qed.

Hint Resolve parseExpression_mode : mode.

Lemma parseReturnStatement_mode (fuel : nat) (p : Parser) :
  wpp (parseReturnStatement fuel p) (sameMode p).
Proof. unfold parseReturnStatement. cbv zeta. mode_walk. Qed.

Lemma parseExpressionStatement_mode (fuel : nat) (p : Parser) :
  wpp (parseExpressionStatement fuel p) (sameMode p).
Proof. unfold parseExpressionStatement. cbv zeta. mode_walk. Qed.

Lemma parseVarStatement_mode (fuel : nat) (p : Parser) :
  wpp (parseVarStatement fuel p) (sameMode p).
Proof. unfold parseVarStatement. cbv zeta. mode_walk. Qed.

Lemma parseConstStatement_mode (fuel : nat) (p : Parser) :
  wpp (parseConstStatement fuel p) (sameMode p).
Proof. unfold parseConstStatement. cbv zeta. mode_walk. Qed.

Lemma parseParameter_mode (fuel : nat) (p : Parser) :
  wpp (parseParameter fuel p) (sameMode p).
Proof. unfold parseParameter. cbv zeta. mode_walk. Qed.

Hint Resolve parseParameter_mode : mode.

Lemma parseParameterListLoop_mode (fuel : nat) (f : ast.Function) (p : Parser) :
  wpp (parseParameterListLoop fuel f p) (sameMode p).
Proof.
  revert f p. induction fuel as [|fuel IH]; intros f p; [exact I|].
  cbn [parseParameterListLoop]. mode_walk.
Qed.

Hint Resolve parseParameterListLoop_mode : mode.

Lemma parseParameterList_mode (fuel : nat) (f : ast.Function) (p : Parser) :
  wpp (parseParameterList fuel f p) (sameMode p).
Proof. unfold parseParameterList. mode_walk. Qed.

Hint Resolve parseReturnStatement_mode parseExpressionStatement_mode
  parseVarStatement_mode parseConstStatement_mode parseParameterList_mode : mode.

Lemma statements_mode_all (fuel : nat) : statements_mode fuel.
Proof.
  induction fuel as [|fuel IH].
  - repeat split; intros; exact I.
  - destruct IH as (H1 & H2 & H3 & H4 & H5 & H6 & H7 & H8 & H9 & H10 & H11).
    repeat split; intros.
    + cbn [parseStatement]. mode_walk.
    + cbn [parseBlock]. cbv zeta. mode_walk.
    + cbn [parseFunctionDefinition]. cbv zeta. mode_walk.
    + cbn [parseClassDefinition]. cbv zeta. mode_walk.
    + cbn [parseClassBody]. cbv zeta. mode_walk.
    + cbn [parseIfStatement]. cbv zeta. mode_walk.
    + cbn [parseElifBranches]. cbv zeta. mode_walk.
    + cbn [parseForStatement]. cbv zeta. mode_walk.
    + cbn [parseWhileStatement]. cbv zeta. mode_walk.
    + cbn [parseMatchStatement]. cbv zeta. mode_walk.
    + cbn [parseMatchBranches]. cbv zeta. mode_walk.
Qed.

Lemma parseStatement_mode (fuel : nat) (p : Parser) :
  wpp (parseStatement fuel p) (sameMode p).
Proof. apply (statements_mode_all fuel). Qed.

Hint Resolve parseStatement_mode : mode.

Lemma parseGlobalScopeLoop_mode (fuel : nat) (c : ast.Class) (p : Parser) :
  wpp (parseGlobalScopeLoop fuel c p) (sameMode p).
Proof.
  revert c p. induction fuel as [|fuel IH]; intros c p; [exact I|].
  cbn [parseGlobalScopeLoop]. cbv zeta. mode_walk.
Qed.

Hint Resolve parseGlobalScopeLoop_mode : mode.

Lemma Parse_mode (fuel : nat) (p : Parser) : wpp (Parse fuel p) (sameMode p).
Proof. unfold Parse, parseGlobalScope. cbv zeta. mode_walk. Qed.

End ErrorModeKept.

(** C7 (as amended).  A parser made by [NewParser] is in strict mode,
    the zero value of [ErrorMode], whatever the input, and stays in it
    to the end of [Parse]; in that mode the recovery step does nothing:
    a failed [expectPeek] records its error and discards no token.
    Panic mode is what [NewParserWithOptions] sets when asked to, as
    [ParseFile] does. *)
Theorem NewParser_strict {U : Unicode} (input0 : string) (p : Parser) :
  NewParser input0 = Ok p ->
  errorMode p = ErrorModeStrict
  /\ (forall fuel q, errorMode q = ErrorModeStrict -> recover fuel q = Ok q)
  /\ (forall fuel t, tt_eqb (peekType p) t = false ->
        expectPeek fuel t p = Ok (false, peekError p t))
  /\ (forall fuel tree p',
        Parse fuel p = Ok (tree, p') -> errorMode p' = ErrorModeStrict)
  /\ NewParserWithOptions input0 ErrorModePanic
     = Ok (setErrorMode p ErrorModePanic).
Proof.
  intros H. unfold NewParserWithOptions. rewrite H. cbn [rbind].
  unfold NewParser in H. inv_bind H.
  destruct (nextToken_current _ _ Ha) as (_ & _ & Hm1).
  destruct (nextToken_current _ _ H) as (_ & _ & Hm2).
  assert (Hm : errorMode p = ErrorModeStrict) by (rewrite Hm2, Hm1; reflexivity).
  assert (Hr : forall fuel q, errorMode q = ErrorModeStrict -> recover fuel q = Ok q)
    by (intros fuel q Hq; unfold recover; rewrite Hq; reflexivity).
  split; [exact Hm|split; [exact Hr|split; [|split; [|reflexivity]]]].
  - intros fuel t Ht. unfold expectPeek. rewrite Ht. cbv zeta.
    rewrite Hr; [reflexivity|exact Hm].
  - intros fuel tree p' E. pose proof (Parse_mode fuel p) as W.
    rewrite E in W. unfold sameMode in W. cbn [wpp snd] in W. congruence.
Qed.

(** The theorem of C7 at the source [var 1 var y = 2]. *)
Lemma NewParser_strict_witness :
  let p := parserOf (NewParser (U:=latin1) recoverySource) in
  errorMode p = ErrorModeStrict
  /\ (forall fuel q, errorMode q = ErrorModeStrict ->
        recover (U:=latin1) fuel q = Ok q)
  /\ (forall fuel t, tt_eqb (peekType p) t = false ->
        expectPeek (U:=latin1) fuel t p = Ok (false, peekError p t))
  /\ (forall fuel tree p',
        Parse (U:=latin1) fuel p = Ok (tree, p') ->
        errorMode p' = ErrorModeStrict)
  /\ NewParserWithOptions (U:=latin1) recoverySource ErrorModePanic
     = Ok (setErrorMode p ErrorModePanic).
Proof.
  intros p. apply (NewParser_strict (U:=latin1) recoverySource p).
  vm_compute. reflexivity.
Defined.

(** C7 (as stated) fails: the parser that [NewParser] makes for
    [var 1 var y = 2] is in strict mode and not in panic mode; run, it
    goes on after the error without discarding tokens and parses the
    declaration of [y], where panic mode, as [ParseFile] selects it,
    yields an expression statement. *)
Lemma NewParser_not_panic_mode :
  (exists p, NewParser (U:=latin1) recoverySource = Ok p
             /\ errorMode p = ErrorModeStrict
             /\ errorMode p <> ErrorModePanic)
  /\ map dynamicType (rootStatements (parseSource (U:=latin1) 20 recoverySource))
     = ["*VarStatement(nil)"; "*VarStatement"]
  /\ map dynamicType
         (rootStatements (ParseFile (U:=latin1) 20 "f.gd" recoverySource))
     = ["*VarStatement(nil)"; "*ExpressionStatement"].
Proof.
  split; [eexists; split; [vm_compute; reflexivity
                          |split; [reflexivity|discriminate]]|].
  split; vm_compute; reflexivity.
Qed.

(** ** The two failures *)

Lemma le_res_from {A : Type} (r r' : result A) :
  le_res r r' -> r <> OutOfFuel -> r' = r.
Proof. intros [->| ->] H; congruence. Qed.

(** C1 fails on the code: with fuel enough to finish (20 will do, and
    more changes nothing), [1 + 2 if true else 3] is parsed into three
    expression statements, [1 + <nil>], [true] and [3], with one error;
    no conditional expression is built. *)
Theorem ternary_not_parsed (n : nat) :
  rootStatements (parseSource (U:=latin1) (20 + n) ternarySource)
  = [ exprStmt 1 3 1
        (ast.InfixExpression (ast.mkPosition 1 4 2)
           (ast.NumberLiteral (ast.mkPosition 1 3 1) true "1") "+"
           ast.NilExpression);
      exprStmt 1 11 9 (ast.BooleanLiteral (ast.mkPosition 1 11 9) true);
      exprStmt 1 22 20 (ast.NumberLiteral (ast.mkPosition 1 22 20) true "3") ]
  /\ diagnostics (parseSource (U:=latin1) (20 + n) ternarySource)
     = [ mkError 1 8 "expected condition expression in conditional expression" ]
  /\ exists tree errs,
      parseSource (U:=latin1) (20 + n) ternarySource = Ok (tree, errs).
Proof.
  assert (E : parseSource (U:=latin1) (20 + n) ternarySource
              = parseSource (U:=latin1) 20 ternarySource).
  { apply le_res_from; [apply parseSource_mono; lia|].
    vm_compute. discriminate. }
  rewrite E.
  split; [vm_compute; reflexivity|split; [vm_compute; reflexivity|]].
  eexists. eexists. vm_compute. reflexivity.
Qed.

(** C3 fails on the code: for the source [a b r'] the parser is
    constructed, and [Parse], whatever its fuel from 20 on, panics when
    the lexer slices the empty raw string. *)
Theorem Parse_panics (n : nat) :
  exists p,
    NewParser (U:=latin1) rawStringSource = Ok p
    /\ Parse (U:=latin1) (20 + n) p = Panic "slice bounds out of range".
Proof.
  eexists. split; [vm_compute; reflexivity|].
  match goal with
  | |- Parse ?f ?p = _ =>
    rewrite (le_res_from (Parse (U:=latin1) 20 p) (Parse f p))
  end.
  - vm_compute. reflexivity.
  - apply Parse_mono. lia.
  - vm_compute. discriminate.
Qed.
(** ** The lexer: which calls fail, and what a token carries *)

Lemma readChar_ch (l : Lexer) : ch (readChar l) = peekChar l.
Proof.
  unfold readChar, peekChar.
  destruct (len (input l) <=? readPosition l); [reflexivity|].
  destruct (DecodeRuneInString _) as [r size]. simpl.
  destruct (r =? rune_of "010"); reflexivity.
Qed.

Lemma readRawStringLoop_ends (quote : rune) (fuel : nat) (l : Lexer) :
  LexerInv l ->
  (Z.to_nat (len (input l) - position l) < fuel)%nat ->
  exists l', readRawStringLoop quote fuel l = Ok l'
             /\ advance (negb ((ch l =? quote) || (ch l =? 0))) l l'
             /\ ((ch l' =? quote) || (ch l' =? 0)) = true
             /\ (((ch l =? quote) || (ch l =? 0)) = true -> l' = l).
Proof.
  revert l. induction fuel as [|fuel IH]; intros l Hi Hf; [lia|].
  simpl. destruct ((ch l =? quote) || (ch l =? 0)) eqn:E2.
  - exists l. split; [reflexivity|]. split; [apply advance_refl|].
    split; [exact E2|reflexivity].
  - pose proof E2 as E2'.
    apply orb_false_elim in E2. destruct E2 as [_ E0]. apply Z.eqb_neq in E0.
    set (l1 := if ch l =? rune_of "010" then set_line l (line l + 1) 1 else l).
    assert (A0 : advance false l l1 /\ ch l1 = ch l).
    { subst l1. destruct (ch l =? rune_of "010");
        [split; [apply set_line_advance|reflexivity]
        |split; [apply advance_refl|reflexivity]]. }
    destruct A0 as [A0 Hch].
    assert (A1 : advance true l1 (readChar l1))
      by (apply readChar_advance_strict; congruence).
    pose proof (advance_trans _ _ _ _ _ A0 A1) as A. simpl in A.
    destruct A as [Hfr Ha]. destruct (Ha Hi) as [Hi' Hp].
    destruct (IH (readChar l1) Hi') as (l' & Hr & Hadv & Hend & _).
    { destruct Hfr as (Hin & _). rewrite Hin. unfold LexerInv in *. lia. }
    exists l'. split; [exact Hr|]. split; [|split; [exact Hend|discriminate]].
    apply (advance_trans true _ _ _ _ (conj Hfr Ha)) in Hadv. exact Hadv.
Qed.

(** [readRawString] fails exactly when it is entered at a NUL: the
    slice then ends before it begins. *)
Lemma readRawString_result (l : Lexer) (quote : rune) :
  LexerInv l -> quote <> 0 ->
  if ch l =? 0 then readRawString l quote = Panic "slice bounds out of range"
  else exists s l', readRawString l quote = Ok (s, l') /\ advance true l l'.
Proof.
  intros Hi Hq. unfold readRawString.
  destruct (readRawStringLoop_ends quote (scanFuel l) l Hi (scanFuel_enough _))
    as (l2 & Hr & A2 & Hend & Hsame).
  rewrite Hr. cbn [rbind].
  destruct (ch l =? 0) eqn:E0.
  - rewrite orb_true_r in Hsame. rewrite (Hsame eq_refl).
    apply Z.eqb_eq in E0.
    replace (ch l =? quote) with false by (symmetry; apply Z.eqb_neq; congruence).
    unfold slice.
    replace (position l <=? position l - 1) with false
      by (symmetry; apply Z.leb_gt; lia).
    now rewrite andb_false_r.
  - apply Z.eqb_neq in E0.
    destruct (ch l2 =? quote) eqn:Eq2.
    + (* closed: the cursor moves past the quote *)
      assert (Hne2 : ch l2 <> 0) by (apply Z.eqb_eq in Eq2; congruence).
      pose proof (advance_trans _ _ _ _ _ A2 (readChar_advance_strict l2 Hne2)) as A.
      rewrite orb_true_r in A.
      destruct (advance_bounds _ _ _ A Hi) as (B1 & B2 & B3).
      destruct A as [F A']. destruct (A' Hi) as [Hi3 Hp].
      rewrite slice_Ok by lia. cbn [rbind]. eexists. eexists.
      split; [reflexivity|]. split; [exact F|exact A'].
    + (* not closed: the loop has moved on to a NUL *)
      destruct (ch l =? quote) eqn:Eq1.
      { rewrite (Hsame eq_refl) in Eq2. congruence. }
      replace (ch l =? 0) with false in A2 by (symmetry; now apply Z.eqb_neq).
      simpl in A2.
      destruct (advance_bounds _ _ _ A2 Hi) as (B1 & B2 & B3).
      destruct A2 as [F A']. destruct (A' Hi) as [Hi3 Hp].
      rewrite slice_Ok by lia. cbn [rbind]. eexists. eexists.
      split; [reflexivity|]. split; [exact F|exact A'].
Qed.

Lemma handleIndentation_Ok (l : Lexer) (indent : Z) :
  indentStack l <> [] -> exists l', handleIndentation l indent = Ok l'.
Proof.
  intros Hs. unfold handleIndentation.
  destruct (top (indentStack l)) as [cur|] eqn:Et.
  2:{ apply top_None in Et. contradiction. }
  destruct (cur <? indent); [eauto|].
  destruct (indent <? cur); [|eauto].
  destruct (top (indentStack (dedentLoop _ _ _))) as [t|];
    [destruct (negb _)|]; eauto.
Qed.

Lemma readComment_Ok (l : Lexer) :
  LexerInv l -> ch l = rune_of "#" ->
  exists lit l', readComment l = Ok (lit, l') /\ advance true l l'
                 /\ slice (input l) (position l) (position l') = Ok lit.
Proof.
  intros Hi Hc. unfold readComment.
  set (cond := fun c : rune => negb (c =? rune_of "010") && negb (c =? 0)).
  destruct (readWhile_total cond (scanFuel l) l eq_refl Hi (scanFuel_enough l))
    as (l' & Hr & Hadv & _).
  rewrite Hr. cbn [rbind].
  replace (cond (ch l)) with true in Hadv by (now rewrite Hc).
  rewrite (slice_advance _ _ _ Hadv Hi). cbn [rbind].
  eexists. eexists. split; [reflexivity|]. split; [exact Hadv|].
  rewrite <- (advance_input _ _ _ Hadv). now apply slice_advance with (b := true).
Qed.

Lemma readString_Ok (l : Lexer) (quote : rune) :
  LexerInv l -> ch l <> 0 ->
  exists lit l', readString l quote = Ok (lit, l') /\ advance true l l'
                 /\ slice (input l) (position l) (position l') = Ok lit.
Proof.
  intros Hi Hc. unfold readString.
  pose proof (readChar_advance_strict l Hc) as A1.
  assert (Hi1 : LexerInv (readChar l)) by (now apply A1).
  destruct (readStringLoop_total quote (scanFuel (readChar l)) (readChar l) Hi1
                                 (scanFuel_enough _)) as (l2 & Hr & A2).
  rewrite Hr. cbn [rbind].
  pose proof (advance_trans _ _ _ _ _ A1 A2) as A12. simpl in A12.
  set (l3 := if ch l2 =? quote then readChar l2 else l2).
  assert (A3 : advance true l l3).
  { subst l3. destruct (ch l2 =? quote); [|exact A12].
    apply (advance_trans true false _ _ _ A12 (readChar_advance l2)). }
  rewrite (slice_advance _ _ _ A3 Hi). cbn [rbind].
  eexists. eexists. split; [reflexivity|]. split; [exact A3|].
  rewrite <- (advance_input _ _ _ A3). now apply slice_advance with (b := true).
Qed.

Section LexerResults.

Context {U : Unicode}.

Lemma readIdentifier_Ok (l : Lexer) :
  LexerInv l -> isIdentChar (ch l) = true ->
  exists lit l', readIdentifier l = Ok (lit, l') /\ advance true l l'
                 /\ slice (input l) (position l) (position l') = Ok lit.
Proof.
  intros Hi Hc. unfold readIdentifier.
  destruct (readWhile_total isIdentChar (scanFuel l) l isIdentChar_nul Hi
                            (scanFuel_enough l)) as (l' & Hr & Hadv & _).
  rewrite Hr. cbn [rbind]. rewrite Hc in Hadv.
  rewrite (slice_advance _ _ _ Hadv Hi). cbn [rbind].
  eexists. eexists. split; [reflexivity|]. split; [exact Hadv|].
  rewrite <- (advance_input _ _ _ Hadv). now apply slice_advance with (b := true).
Qed.

Lemma readNumber_Ok (l : Lexer) :
  LexerInv l -> isDigit (ch l) = true ->
  exists tok l', readNumber l = Ok (tok, l') /\ advance true l l'
                 /\ slice (input l) (position l) (position l') = Ok (Literal tok)
                 /\ Offset tok = position l'
                 /\ (Type_ tok = HEX \/ Type_ tok = BIN \/ Type_ tok = INT
                     \/ Type_ tok = FLOAT).
Proof.
  intros Hi Hd. unfold readNumber.
  pose proof (isDigit_ne0 _ Hd) as Hne.
  assert (Fin : forall t l', advance true l l' ->
            exists tok l'0,
              (s <- slice (input l') (position l) (position l') ;;
               Ok (newToken l' t s, l')) = Ok (tok, l'0)
              /\ advance true l l'0
              /\ slice (input l) (position l) (position l'0) = Ok (Literal tok)
              /\ Offset tok = position l'0 /\ Type_ tok = t).
  { intros t l' A. rewrite (slice_advance _ _ _ A Hi). cbn [rbind].
    eexists. eexists. split; [reflexivity|]. split; [exact A|].
    split; [|split; reflexivity].
    rewrite <- (advance_input _ _ _ A). cbn [Literal newToken].
    now apply slice_advance with (b := true). }
  assert (A2 : advance true l (readChar (readChar l))).
  { apply (advance_trans true false _ _ _ (readChar_advance_strict l Hne)
                         (readChar_advance _)). }
  assert (Hi2 : LexerInv (readChar (readChar l))) by (now apply A2).
  destruct (_ && _).
  { set (cond := fun c => isHexDigit c || isUnderscore c).
    assert (Hc : cond 0 = false).
    { unfold cond, isHexDigit, isDigit. now rewrite IsDigit_nul. }
    destruct (readWhile_total cond _ _ Hc Hi2 (scanFuel_enough _))
      as (l' & Hr & Hadv & _).
    rewrite Hr. cbn [rbind].
    pose proof (advance_trans _ _ _ _ _ A2 Hadv) as A. simpl in A.
    destruct (Fin HEX l' A) as (tok & l0 & E & R1 & R2 & R3 & R4).
    exists tok, l0. rewrite E. intuition. }
  destruct (_ && _).
  { set (cond := fun c => isBinDigit c || isUnderscore c).
    destruct (readWhile_total cond _ _ eq_refl Hi2 (scanFuel_enough _))
      as (l' & Hr & Hadv & _).
    rewrite Hr. cbn [rbind].
    pose proof (advance_trans _ _ _ _ _ A2 Hadv) as A. simpl in A.
    destruct (Fin BIN l' A) as (tok & l0 & E & R1 & R2 & R3 & R4).
    exists tok, l0. rewrite E. intuition. }
  destruct (readWhile_total isNumberChar _ _ isNumberChar_nul Hi (scanFuel_enough l))
    as (l1 & Hr1 & A1 & _).
  rewrite Hr1. cbn [rbind].
  replace (isNumberChar (ch l)) with true in A1
    by (unfold isNumberChar; now rewrite Hd).
  assert (Hi1 : LexerInv l1) by (now apply A1).
  (* the fraction *)
  match goal with
  | |- context [rbind ?m _] =>
    assert (B1 : exists f l2, m = Ok (f, l2) /\ advance true l l2)
  end.
  { destruct (_ && _).
    - pose proof (readChar_advance l1) as R.
      assert (Hir : LexerInv (readChar l1)) by (now apply R).
      destruct (readWhile_total isNumberChar _ _ isNumberChar_nul Hir
                                (scanFuel_enough _)) as (l2 & Hr2 & A2' & _).
      rewrite Hr2. cbn [rbind]. exists true, l2. split; [reflexivity|].
      pose proof (advance_trans _ _ _ _ _ A1 (advance_trans _ _ _ _ _ R A2')) as A.
      exact A.
    - exists false, l1. split; [reflexivity|exact A1]. }
  destruct B1 as (f & l2 & -> & B1). cbn [rbind].
  assert (Hi2' : LexerInv l2) by (now apply B1).
  (* the exponent *)
  match goal with
  | |- context [rbind ?m _] =>
    assert (B2 : exists f' l3, m = Ok (f', l3) /\ advance true l l3)
  end.
  { destruct (_ && _).
    - pose proof (readChar_advance l2) as R.
      set (l2' := if (ch (readChar l2) =? rune_of "+") || (ch (readChar l2) =? rune_of "-")
                  then readChar (readChar l2) else readChar l2).
      assert (R' : advance false l2 l2').
      { subst l2'. destruct (_ || _); [|exact R].
        apply (advance_trans false false _ _ _ R (readChar_advance _)). }
      assert (Hir : LexerInv l2') by (now apply R').
      destruct (readWhile_total isNumberChar _ _ isNumberChar_nul Hir
                                (scanFuel_enough _)) as (l3 & Hr3 & A3 & _).
      fold l2'. rewrite Hr3. cbn [rbind]. exists true, l3. split; [reflexivity|].
      pose proof (advance_trans _ _ _ _ _ B1 (advance_trans _ _ _ _ _ R' A3)) as A.
      exact A.
    - exists f, l2. split; [reflexivity|exact B1]. }
  destruct B2 as (f' & l3 & -> & B2). cbn [rbind].
  destruct f'.
  - destruct (Fin FLOAT l3 B2) as (tok & l0 & E & R1 & R2 & R3 & R4).
    exists tok, l0. split; [|intuition].
    rewrite <- E. destruct (slice _ _ _); reflexivity.
  - destruct (Fin INT l3 B2) as (tok & l0 & E & R1 & R2 & R3 & R4).
    exists tok, l0. split; [|intuition].
    rewrite <- E. destruct (slice _ _ _); reflexivity.
Qed.

End LexerResults.
Lemma LookupIdent_string (s : string) :
  LookupIdent s <> IDENT -> TokenType_string (LookupIdent s) = s.
Proof.
  unfold LookupIdent, keywords. cbn [map_lookup].
  repeat match goal with
  | |- context [if String.eqb ?k s then _ else _] =>
    destruct (String.eqb_spec k s) as [<-|_]; [reflexivity|]
  end.
  intros H. now contradiction H.
Qed.

Lemma LookupIdent_not_number (s : string) : isNumberType (LookupIdent s) = false.
Proof.
  pose proof (LookupIdent_cases s) as H. simpl in H.
  repeat (destruct H as [<-|H]; [reflexivity|]). destruct H.
Qed.

Lemma LookupIdent_sliced (s : string) : isSliced (LookupIdent s) = true.
Proof.
  pose proof (LookupIdent_cases s) as H. simpl in H.
  repeat (destruct H as [<-|H]; [reflexivity|]). destruct H.
Qed.

Ltac not_cut a :=
  first
    [ match goal with
      | H : chIs a "r" = false |- _ => rewrite H; reflexivity
      end
    | match goal with
      | H : chIs a _ = true |- _ =>
        unfold chIs in H |- *; apply Z.eqb_eq in H; rewrite H; reflexivity
      end ].

Ltac fixed_literal a :=
  let H := fresh in
  intros H;
  first
    [ discriminate H
    | match goal with
      | E : chIs a _ = true |- _ =>
        unfold chIs in E; apply Z.eqb_eq in E; cbn [Literal newToken Type_];
        rewrite E; reflexivity
      end ].

Section LexerScan.

Context {U : Unicode}.

(** [NextToken] with an empty queue, [a] being the lexer past the
    blanks: when it fails, what its token is at the end of input, how
    far it reads otherwise, and what the literal of its token is. *)
Lemma NextToken_scan (l : Lexer) :
  LexerInv l -> tokens l = [] ->
  exists a,
    skipWhitespace l = Ok a /\ advance false l a /\
    match NextToken l with
    | Ok (tok, l') =>
      rawStringCutShort l = false
      /\ (Type_ tok = EOF ->
          ch a = 0 /\ l' = a
          /\ tok = NewToken EOF "" (line a) (column a) (position a))
      /\ (Type_ tok <> EOF -> ch a <> 0)
      /\ (Type_ tok <> EOF -> Type_ tok <> NL -> advance true a l')
      /\ (isSliced (Type_ tok) = true ->
          slice (input l) (position a) (position l') = Ok (Literal tok)
          /\ Offset tok
             = if isNumberType (Type_ tok) then position l' else position a)
      /\ (isSpecialOrLiteral (Type_ tok) = false ->
          Literal tok = TokenType_string (Type_ tok))
    | Panic msg =>
      (rawStringCutShort l = true /\ msg = "slice bounds out of range")
      \/ (indentStack l = [] /\ msg = "index out of range")
    | OutOfFuel => False
    end.
Proof.
  intros Hi Eq. unfold rawStringCutShort, NextToken. rewrite Eq.
  unfold skipWhitespace.
  destruct (readWhile_total isBlank (scanFuel l) l eq_refl Hi (scanFuel_enough l))
    as (a & Hr & A0 & _).
  apply advance_weaken in A0. rewrite Hr. cbn [rbind].
  exists a. split; [reflexivity|]. split; [exact A0|].
  assert (Hia : LexerInv a) by (now apply A0).
  pose proof (advance_input _ _ _ A0) as Hin.
  destruct (ch a =? 0) eqn:E0.
  { apply Z.eqb_eq in E0. unfold chIs. rewrite E0. cbn.
    split; [reflexivity|]. split; [intros _; auto|].
    split; [intros H; exfalso; now apply H|].
    split; [intros H; exfalso; now apply H|].
    split; intros H; vm_compute in H; discriminate H. }
  apply Z.eqb_neq in E0.
  assert (Emit : forall x t lit,
             advance true a (readChar x) ->
             (isSpecialOrLiteral t = false -> lit = TokenType_string t) ->
             isSliced t = false -> t <> EOF ->
             chIs a "r" && (peekIs a "034" || peekIs a "'")
             && (ch (readChar (readChar a)) =? 0) = false ->
             match emit x t lit with
             | Ok (tok, l') =>
               chIs a "r" && (peekIs a "034" || peekIs a "'")
               && (ch (readChar (readChar a)) =? 0) = false
               /\ (Type_ tok = EOF ->
                   ch a = 0 /\ l' = a
                   /\ tok = NewToken EOF "" (line a) (column a) (position a))
               /\ (Type_ tok <> EOF -> ch a <> 0)
               /\ (Type_ tok <> EOF -> Type_ tok <> NL -> advance true a l')
               /\ (isSliced (Type_ tok) = true ->
                   slice (input l) (position a) (position l') = Ok (Literal tok)
                   /\ Offset tok
                      = if isNumberType (Type_ tok) then position l'
                        else position a)
               /\ (isSpecialOrLiteral (Type_ tok) = false ->
                   Literal tok = TokenType_string (Type_ tok))
             | Panic msg =>
               (chIs a "r" && (peekIs a "034" || peekIs a "'")
                && (ch (readChar (readChar a)) =? 0) = true
                /\ msg = "slice bounds out of range")
               \/ (indentStack l = [] /\ msg = "index out of range")
             | OutOfFuel => False
             end).
  { intros x t lit A Hl Hs Ht Hc. unfold emit. cbn [Type_ Literal newToken].
    split; [exact Hc|]. split; [intros E; contradiction|].
    split; [intros _; exact E0|]. split; [intros _ _; exact A|].
    split; [intros E; congruence|exact Hl]. }
  assert (Scan : forall (c : bool) tok l',
             advance true a l' -> Type_ tok <> EOF ->
             (isSliced (Type_ tok) = true ->
              slice (input a) (position a) (position l') = Ok (Literal tok)
              /\ Offset tok
                 = if isNumberType (Type_ tok) then position l' else position a) ->
             (isSpecialOrLiteral (Type_ tok) = false ->
              Literal tok = TokenType_string (Type_ tok)) ->
             c = false ->
             c = false
             /\ (Type_ tok = EOF ->
                 ch a = 0 /\ l' = a
                 /\ tok = NewToken EOF "" (line a) (column a) (position a))
             /\ (Type_ tok <> EOF -> ch a <> 0)
             /\ (Type_ tok <> EOF -> Type_ tok <> NL -> advance true a l')
             /\ (isSliced (Type_ tok) = true ->
                 slice (input l) (position a) (position l') = Ok (Literal tok)
                 /\ Offset tok
                    = if isNumberType (Type_ tok) then position l'
                      else position a)
             /\ (isSpecialOrLiteral (Type_ tok) = false ->
                 Literal tok = TokenType_string (Type_ tok))).
  { intros c tok l' A Ht Hs Hl Hc. rewrite <- Hin.
    split; [exact Hc|]. split; [intros E; contradiction|].
    split; [intros _; exact E0|]. split; [intros _ _; exact A|].
    split; [exact Hs|exact Hl]. }
  assert (Ident : isIdentChar (ch a) = true ->
             forall c : bool, c = false ->
             match
               x <- readIdentifier a ;;
               (let (lit, l') := x in
                Ok (NewToken (LookupIdent lit) lit (line a) (column a) (position a),
                    l'))
             with
             | Ok (tok, l') =>
               c = false
               /\ (Type_ tok = EOF ->
                   ch a = 0 /\ l' = a
                   /\ tok = NewToken EOF "" (line a) (column a) (position a))
               /\ (Type_ tok <> EOF -> ch a <> 0)
               /\ (Type_ tok <> EOF -> Type_ tok <> NL -> advance true a l')
               /\ (isSliced (Type_ tok) = true ->
                   slice (input l) (position a) (position l') = Ok (Literal tok)
                   /\ Offset tok
                      = if isNumberType (Type_ tok) then position l'
                        else position a)
               /\ (isSpecialOrLiteral (Type_ tok) = false ->
                   Literal tok = TokenType_string (Type_ tok))
             | Panic msg =>
               (c = true /\ msg = "slice bounds out of range")
               \/ (indentStack l = [] /\ msg = "index out of range")
             | OutOfFuel => False
             end).
  { intros Hc c Hcut.
    destruct (readIdentifier_Ok a Hia Hc) as (lit & l1 & -> & A & Hs).
    cbn [rbind]. apply Scan; cbn [Type_ Literal Offset]; auto.
    - pose proof (LookupIdent_not_structural lit). tauto.
    - intros _. now rewrite LookupIdent_not_number.
    - intros H. symmetry. apply LookupIdent_string.
      intros E. rewrite E in H. discriminate H. }
  cbv zeta.
  repeat match goal with
  | |- match (if ?c then _ else _) with _ => _ end => destruct c eqn:?
  | |- match emit _ _ _ with _ => _ end =>
    apply Emit;
    [solve_adv E0 | fixed_literal a | reflexivity | discriminate | not_cut a]
  end.
  - (* comment *)
    match goal with H : chIs a "#" = true |- _ => apply Z.eqb_eq in H; rename H into Hc end.
    destruct (readComment_Ok a Hia Hc) as (lit & l1 & -> & A & Hs).
    cbn [rbind]. apply Scan; cbn [Type_ Literal Offset]; auto; try discriminate.
    unfold chIs. rewrite Hc. reflexivity.
  - (* string *)
    destruct (readString_Ok a (ch a) Hia E0) as (lit & l1 & -> & A & Hs).
    cbn [rbind]. apply Scan; cbn [Type_ Literal Offset]; auto; try discriminate.
    match goal with
    | H : chIs a _ || chIs a _ = true |- _ =>
      unfold chIs in H |- *; apply orb_prop in H;
      destruct H as [H|H]; apply Z.eqb_eq in H; rewrite H; reflexivity
    end.
  - (* raw string *)
    assert (A2 : advance true a (readChar (readChar a))) by solve_adv E0.
    assert (Hi2 : LexerInv (readChar (readChar a))) by (now apply A2).
    assert (Hq : ch (readChar a) <> 0).
    { rewrite readChar_ch.
      match goal with
      | H : peekIs a _ || peekIs a _ = true |- _ =>
        unfold peekIs in H; apply orb_prop in H;
        destruct H as [H|H]; apply Z.eqb_eq in H; rewrite H; discriminate
      end. }
    pose proof (readRawString_result _ (ch (readChar a)) Hi2 Hq) as P.
    destruct (ch (readChar (readChar a)) =? 0).
    + rewrite P. cbn [rbind]. left. split; reflexivity.
    + destruct P as (str & l1 & -> & A). cbn [rbind].
      apply Scan; cbn [Type_ Literal]; try discriminate; try reflexivity.
      exact (advance_trans true true _ _ _ A2 A).
  - (* identifier starting with r *)
    apply Ident; [|reflexivity].
    match goal with H : chIs a "r" = true |- _ => apply Z.eqb_eq in H; rename H into Hc end.
    unfold isIdentChar, isLetter. rewrite Hc.
    change (rune_of "r") with 114. now rewrite IsLetter_r.
  - (* newline *)
    assert (A1 : advance true a (readChar a)) by solve_adv E0.
    assert (Hi1 : LexerInv (readChar a)) by (now apply A1).
    destruct (countIndent_total (scanFuel (readChar a)) 0 (readChar a) Hi1
                                (scanFuel_enough _)) as (indent & l2 & -> & A2 & _).
    cbn [rbind].
    pose proof (advance_trans _ _ _ _ _ A0 (advance_trans _ _ _ _ _ A1 A2)) as A.
    destruct A as [(F1 & F2 & F3) _].
    destruct (indentStack l) as [|w ws] eqn:Es.
    + unfold handleIndentation. rewrite F2. cbn. right. split; reflexivity.
    + destruct (handleIndentation_Ok l2 indent) as (l3 & ->); [rewrite F2; discriminate|].
      cbn.
      split; [reflexivity|]. split; [discriminate|]. split; [intros _; exact E0|].
      split; [intros _ H; exfalso; now apply H|].
      split; intros H; vm_compute in H; discriminate H.
  - (* identifier *)
    apply Ident; [|reflexivity]. unfold isIdentChar.
    match goal with
    | H : _ || _ = true |- _ =>
      apply orb_prop in H; destruct H as [H|H]; rewrite H
    end; [reflexivity|now rewrite orb_true_r].
  - (* number *)
    match goal with H : isDigit (ch a) = true |- _ => rename H into Hd end.
    destruct (readNumber_Ok a Hia Hd) as (tok & l1 & -> & A & Hs & Ho & Ht).
    apply Scan; auto.
    + intros E; rewrite E in Ht; destruct Ht as [Ht|[Ht|[Ht|Ht]]]; discriminate.
    + intros _. split; [exact Hs|].
      destruct Ht as [Ht|[Ht|[Ht|Ht]]]; rewrite Ht; exact Ho.
    + intros H; destruct Ht as [Ht|[Ht|[Ht|Ht]]]; rewrite Ht in H; discriminate.
  - (* any other character *)
    unfold emit. cbn [Type_ Literal newToken].
    split; [reflexivity|]. split; [discriminate|]. split; [intros _; exact E0|].
    split; [intros _ _; solve_adv E0|].
    split; intros H; vm_compute in H; discriminate H.
Qed.

End LexerScan.
Section LexerFailures.

Context {U : Unicode}.

(** X1.  On a lexer whose positions are consistent and whose
    indentation stack is not empty, [NextToken] fails in one situation
    only: the queue is empty and, past the blanks, the lexer stands at
    an [r] followed by a quote after which the input ends (or a NUL
    comes).  There [readRawString] takes the slice
    [input[position : position-1]], which is out of range.  In every
    other situation a token is returned. *)
Theorem NextToken_fails_iff (l : Lexer) :
  LexerInv l -> indentStack l <> [] ->
  if rawStringCutShort l
  then NextToken l = Panic "slice bounds out of range"
  else exists tok l', NextToken l = Ok (tok, l').
Proof.
  intros Hi Hs. destruct (tokens l) as [|t rest] eqn:Eq.
  2:{ unfold rawStringCutShort, NextToken. rewrite Eq. eauto. }
  destruct (NextToken_scan l Hi Eq) as (a & _ & _ & H).
  destruct (NextToken l) as [[tok l']|msg|]; [| |contradiction].
  - destruct H as (-> & _). eauto.
  - destruct H as [(-> & ->)|(E & _)]; [reflexivity|contradiction].
Qed.

(** X2.  The end of input is returned again and again: when
    [NextToken] returns an EOF token (the queue holding nothing but
    INDENT, DEDENT and ILLEGAL tokens, as it does in every run), the
    next call returns the same token and leaves the lexer as it is. *)
Theorem NextToken_EOF_again (l : Lexer) (tok : Token) (l' : Lexer) :
  LexerInv l -> forallb isStructural (tokens l) = true ->
  NextToken l = Ok (tok, l') -> Type_ tok = EOF ->
  NextToken l' = Ok (tok, l').
Proof.
  intros Hi Hq H Et. destruct (tokens l) as [|t rest] eqn:Eq.
  2:{ unfold NextToken in H. rewrite Eq in H. injection H as <- _.
      simpl in Hq. apply andb_prop in Hq. destruct Hq as [Hq _].
      unfold isStructural in Hq. rewrite Et in Hq. discriminate. }
  destruct (NextToken_scan l Hi Eq) as (a & _ & A & P).
  rewrite H in P. destruct P as (_ & P & _).
  destruct (P Et) as (Hc & -> & ->).
  destruct A as [(_ & _ & Htk) _].
  unfold NextToken. rewrite Htk, Eq.
  unfold skipWhitespace, scanFuel. cbn [readWhile].
  rewrite Hc. change (isBlank 0) with false. cbv iota.
  cbn [rbind]. unfold chIs. rewrite Hc. reflexivity.
Qed.

(** X3.  The literal of a comment, string, number, identifier or
    keyword token is cut out of the input: it is the slice from the
    position past the blanks to the position the lexer is left at.  The
    offset recorded in the token is the beginning of that slice, except
    for a number token, whose offset is the end of the slice.  (A raw
    string token is not among these: its literal is put together anew
    from [r], the quote, the text read and the quote again.) *)
Theorem NextToken_literal_sliced (l : Lexer) (tok : Token) (l' : Lexer) :
  LexerInv l -> forallb isStructural (tokens l) = true ->
  NextToken l = Ok (tok, l') -> isSliced (Type_ tok) = true ->
  exists a,
    skipWhitespace l = Ok a
    /\ slice (input l) (position a) (position l') = Ok (Literal tok)
    /\ Offset tok = if isNumberType (Type_ tok) then position l' else position a.
Proof.
  intros Hi Hq H Et. destruct (tokens l) as [|t rest] eqn:Eq.
  2:{ unfold NextToken in H. rewrite Eq in H. injection H as <- _.
      simpl in Hq. apply andb_prop in Hq. destruct Hq as [Hq _].
      unfold isStructural in Hq.
      destruct (Type_ t); try discriminate Hq; discriminate Et. }
  destruct (NextToken_scan l Hi Eq) as (a & Hsk & _ & P).
  rewrite H in P. destruct P as (_ & _ & _ & _ & P & _).
  exists a. split; [exact Hsk|]. exact (P Et).
Qed.

(** X4.  The literal of an operator, delimiter or keyword token is the
    string value of its type: for every token that [NextToken] returns
    and whose type is none of the special tokens and none of the
    identifier and literal types, [Literal] and [Type] are the same
    string. *)
Theorem NextToken_literal_fixed (l : Lexer) (tok : Token) (l' : Lexer) :
  LexerInv l -> forallb isStructural (tokens l) = true ->
  NextToken l = Ok (tok, l') -> isSpecialOrLiteral (Type_ tok) = false ->
  Literal tok = TokenType_string (Type_ tok).
Proof.
  intros Hi Hq H Et. destruct (tokens l) as [|t rest] eqn:Eq.
  2:{ unfold NextToken in H. rewrite Eq in H. injection H as <- _.
      simpl in Hq. apply andb_prop in Hq. destruct Hq as [Hq _].
      unfold isStructural in Hq.
      destruct (Type_ t); try discriminate Hq; discriminate Et. }
  destruct (NextToken_scan l Hi Eq) as (a & _ & _ & P).
  rewrite H in P. destruct P as (_ & _ & _ & _ & _ & P).
  exact (P Et).
Qed.

End LexerFailures.

(** The theorem at the source [r'], a raw string cut short: the call
    fails. *)
Lemma NextToken_fails_iff_witness :
  if rawStringCutShort (NewLexer "r'")
  then NextToken (U:=latin1) (NewLexer "r'") = Panic "slice bounds out of range"
  else exists tok l', NextToken (U:=latin1) (NewLexer "r'") = Ok (tok, l').
Proof.
  apply (NextToken_fails_iff (U:=latin1) (NewLexer "r'")).
  - apply NewLexer_inv.
  - discriminate.
Defined.

(** The theorem at the end of the source [x]. *)
Lemma NextToken_EOF_again_witness :
  let l := readChar (NewLexer "x") in
  let tok := NewToken EOF "" 1 3 1 in
  NextToken (U:=latin1) l = Ok (tok, l).
Proof.
  intros l tok.
  apply (NextToken_EOF_again (U:=latin1) l tok l).
  - apply readChar_inv, NewLexer_inv.
  - reflexivity.
  - vm_compute. reflexivity.
  - reflexivity.
Defined.

(** The theorem at the number of the source [ 12.5]. *)
Lemma NextToken_literal_sliced_witness :
  let l := NewLexer " 12.5" in
  let tok := NewToken FLOAT "12.5" 1 7 5 in
  let l' := mkLexer " 12.5" 5 5 0 1 7 [0] 0 [] in
  exists a,
    skipWhitespace l = Ok a
    /\ slice (input l) (position a) (position l') = Ok (Literal tok)
    /\ Offset tok = if isNumberType (Type_ tok) then position l' else position a.
Proof.
  intros l tok l'.
  apply (NextToken_literal_sliced (U:=latin1) l tok l').
  - apply NewLexer_inv.
  - reflexivity.
  - vm_compute. reflexivity.
  - reflexivity.
Defined.

(** The theorem at the operator of the source [**=]. *)
Lemma NextToken_literal_fixed_witness :
  let tok := NewToken POWEREQ "**=" 1 4 2 in
  Literal tok = TokenType_string (Type_ tok).
Proof.
  intros tok.
  apply (NextToken_literal_fixed (U:=latin1) (NewLexer "**=") tok
           (mkLexer "**=" 3 3 0 1 5 [0] 0 [])).
  - apply NewLexer_inv.
  - reflexivity.
  - vm_compute. reflexivity.
  - reflexivity.
Defined.
(** ** The indentation stack grows strictly *)

Lemma increasingFrom_snoc (lo : Z) (s : list Z) (x : Z) :
  increasingFrom lo s -> (forall t, top (lo :: s) = Some t -> t < x) ->
  increasingFrom lo (s ++ [x]).
Proof.
  revert lo. induction s as [|w s IH]; intros lo Hs Ht; simpl.
  - split; [|exact I]. apply Ht. reflexivity.
  - destruct Hs as [Hw Hs]. split; [exact Hw|]. apply IH; [exact Hs|].
    intros t E. apply Ht. unfold top in *. simpl in *.
    destruct (rev s ++ [w]) as [|y r] eqn:Er.
    + destruct (rev s); discriminate.
    + simpl. exact E.
Qed.

Lemma increasingFrom_app (lo : Z) (a b : list Z) :
  increasingFrom lo (a ++ b) -> increasingFrom lo a.
Proof.
  revert lo. induction a as [|w a IH]; intros lo H; simpl in *; [exact I|].
  destruct H as [Hw H]. split; [exact Hw|now apply IH].
Qed.

(** [handleIndentation] keeps the stack well formed, for a width that
    is not negative. *)
Lemma handleIndentation_wellStacked (l : Lexer) (indent : Z) (l' : Lexer) :
  handleIndentation l indent = Ok l' -> 0 <= indent ->
  wellStacked (indentStack l) -> wellStacked (indentStack l').
Proof.
  intros H Hind (rest & Hs & Hinc). unfold handleIndentation in H.
  destruct (top (indentStack l)) as [cur|] eqn:Etop; [|discriminate].
  destruct (cur <? indent) eqn:E1.
  { injection H as <-. simpl. exists (rest ++ [indent]).
    split; [now rewrite Hs|]. apply increasingFrom_snoc; [exact Hinc|].
    intros t Et. rewrite <- Hs, Etop in Et. injection Et as <-.
    now apply Z.ltb_lt. }
  destruct (indent <? cur).
  2:{ injection H as <-. now exists rest. }
  destruct (dedentLoop_spec indent (List.length (indentStack l)) l (le_n _))
    as (kept & popped & Hk & Hall & _ & Hloop).
  rewrite Hloop in H. simpl in H.
  assert (W : wellStacked kept).
  { destruct kept as [|k kept'].
    - simpl in Hk. rewrite Hs in Hk. subst popped.
      apply Forall_inv in Hall. lia.
    - rewrite Hs in Hk. injection Hk as <- Hk. exists kept'.
      split; [reflexivity|]. rewrite Hk in Hinc.
      now apply increasingFrom_app in Hinc. }
  destruct (top kept) as [t|]; [destruct (negb (indent =? t))|];
    injection H as <-; exact W.
Qed.

Lemma iterate_invariant {A : Type} (f : A -> result A) (P : A -> Prop) :
  (forall a a', P a -> f a = Ok a' -> P a') ->
  forall n a a', P a -> iterate f n a = Ok a' -> P a'.
Proof.
  intros Hf. induction n as [|n IH]; intros a a' Ha H; simpl in H.
  - now injection H as <-.
  - inv_bind H. eapply IH; [|exact H]. eapply Hf; eassumption.
Qed.

Section StackInvariant.

Context {U : Unicode}.

(** X5.  At every point of every run of the lexer the indentation stack
    is well formed: the seed width 0 is at its bottom and every entry is
    wider than the one below it.  So the stack never runs empty (the
    index [len-1] in [handleIndentation] is in range) and no width is
    pushed twice. *)
Theorem lexer_stack_increasing (input0 : string) (n : nat) (l : Lexer) :
  lexerAfter n input0 = Ok l -> wellStacked (indentStack l).
Proof.
  unfold lexerAfter.
  apply (iterate_invariant _ (fun l => wellStacked (indentStack l))).
  - intros a a' W H. inv_bind H. destruct a0 as [tok l1]. injection H as <-.
    rename Ha into H.
    destruct (NextToken_cases _ _ _ H) as
      [(rest & _ & ->)|[(_ & (_ & Hst & _) & _)
                       |(_ & _ & l2 & indent & (_ & Hst & _) & Hind & Hh)]].
    + exact W.
    + now rewrite Hst.
    + rewrite <- Hst in W. exact (handleIndentation_wellStacked _ _ _ Hh Hind W).
  - destruct (NewLexer_start input0) as (_ & -> & _).
    exists []. split; [reflexivity|exact I].
Qed.

End StackInvariant.

(** The theorem after three tokens of the source [a], newline, tab,
    [b]: the stack is [[0; 4]]. *)
Lemma lexer_stack_increasing_witness :
  wellStacked (indentStack (mkLexer indentedSource 3 4 98 2 3 [0; 4] 0 [])).
Proof.
  apply (lexer_stack_increasing (U:=latin1) indentedSource 3).
  vm_compute. reflexivity.
Defined.
Lemma iterate_snoc {A : Type} (f : A -> result A) (n : nat) (a : A) :
  iterate f (S n) a = (a' <- iterate f n a ;; f a').
Proof.
  revert a. induction n as [|n IH]; intros a.
  - simpl. destruct (f a); reflexivity.
  - change (iterate f (S (S n)) a) with (a' <- f a ;; iterate f (S n) a').
    change (iterate f (S n) a) with (a' <- f a ;; iterate f n a').
    destruct (f a) as [a1| |]; cbn [rbind]; [apply IH|reflexivity|reflexivity].
Qed.

Section LexerRunFailures.

Context {U : Unicode}.

(** X6.  A run of the lexer on a source text never loops, and it can
    fail at one place only: at a raw string that is cut short.  After
    [n] calls of [NextToken] either the lexer is in a consistent state,
    or one of the calls was made where an [r] and a quote are followed
    by the end of the input (or a NUL). *)
Theorem lexer_run_fails_only_cut_short (input0 : string) (n : nat) :
  match lexerAfter n input0 with
  | Ok l => LexerInv l /\ input l = input0
  | Panic _ =>
    exists k l,
      (k < n)%nat /\ lexerAfter k input0 = Ok l /\ rawStringCutShort l = true
  | OutOfFuel => False
  end.
Proof.
  assert (G : match lexerAfter n input0 with
              | Ok l => (LexerInv l /\ input l = input0)
                        /\ wellStacked (indentStack l)
              | Panic _ =>
                exists k l,
                  (k < n)%nat /\ lexerAfter k input0 = Ok l
                  /\ rawStringCutShort l = true
              | OutOfFuel => False
              end).
  2:{ destruct (lexerAfter n input0); tauto. }
  induction n as [|n IH].
  - unfold lexerAfter. simpl. split; [split|].
    + apply NewLexer_inv.
    + now destruct (NewLexer_start input0) as (_ & _ & _ & ->).
    + destruct (NewLexer_start input0) as (_ & -> & _).
      exists []. split; [reflexivity|exact I].
  - unfold lexerAfter in *. rewrite iterate_snoc.
    destruct (iterate _ n (NewLexer input0)) as [l|msg|] eqn:En; cbn [rbind];
      [|destruct IH as (k & l & Hk & Hl & Hc); exists k, l; auto|exact IH].
    destruct IH as ((Hi & Hin) & W).
    pose proof (NextToken_post l Hi) as P.
    destruct (NextToken l) as [[tok l']|msg|] eqn:E; cbn [rbind];
      [| |exact P].
    + destruct P as (Hi' & Hin' & _). split; [split; [exact Hi'|congruence]|].
      destruct (NextToken_cases _ _ _ E) as
        [(rest & _ & ->)|[(_ & (_ & Hst & _) & _)
                         |(_ & _ & l2 & indent & (_ & Hst & _) & Hind & Hh)]].
      * exact W.
      * now rewrite Hst.
      * rewrite <- Hst in W.
        exact (handleIndentation_wellStacked _ _ _ Hh Hind W).
    + exists n, l. split; [lia|]. split; [exact En|].
      destruct (tokens l) as [|t rest] eqn:Eq.
      2:{ unfold NextToken in E. rewrite Eq in E. discriminate. }
      destruct (NextToken_scan l Hi Eq) as (a & _ & _ & S).
      rewrite E in S. destruct S as [(S & _)|(S & _)]; [exact S|].
      destruct W as (rest & W & _). congruence.
Qed.

End LexerRunFailures.
(** ** Keywords *)

(** X7.  [LookupIdent] is the inverse of the string value on the
    keyword types: an identifier is looked up to a type [t] other than
    IDENT exactly when [t] is in the [keywords] map and the identifier
    is the string value of [t].  (Everything else is an IDENT.) *)
Theorem LookupIdent_iff (s : string) (t : TokenType) :
  t <> IDENT ->
  (LookupIdent s = t <-> isKeywordType t = true /\ s = TokenType_string t).
Proof.
  intros Ht. split.
  - intros <-. split.
    + pose proof (LookupIdent_cases s) as H. simpl in H.
      destruct H as [H|H]; [now contradiction Ht|].
      repeat (destruct H as [<-|H]; [reflexivity|]). destruct H.
    + symmetry. now apply LookupIdent_string.
  - intros [Hk ->]. destruct t; try discriminate Hk; reflexivity.
Qed.

(** The theorem at the keyword [elif]. *)
Lemma LookupIdent_iff_witness :
  LookupIdent "elif" = ELIF
  <-> isKeywordType ELIF = true /\ "elif" = TokenType_string ELIF.
Proof.
  apply (LookupIdent_iff "elif" ELIF). discriminate.
Defined.
(** ** Diagnostics are appended, and a tree without them has no nil node *)

Lemma extends_refl {A : Type} (a : list A) : extends a a.
Proof. exists []. now rewrite app_nil_r. Qed.

Lemma extends_trans {A : Type} (a b c : list A) :
  extends a b -> extends b c -> extends a c.
Proof. intros [x ->] [y ->]. exists (x ++ y). now rewrite app_assoc. Qed.

Lemma extends_snoc {A : Type} (a b : list A) (x : A) :
  extends a b -> extends a (b ++ [x]).
Proof. intros [y ->]. exists (y ++ [x]). now rewrite app_assoc. Qed.

Lemma extends_nil {A : Type} (a b : list A) : extends a b -> b = [] -> a = [].
Proof. intros [x ->] E. now apply app_eq_nil in E. Qed.

Lemma snoc_not_nil {A : Type} (a : list A) (x : A) : a ++ [x] = [] -> False.
Proof. destruct a; discriminate. Qed.

Ltac clean_simpl :=
  unfold clean, cleanL in *;
  cbn [noNilNode noNilIf noNilFor noNilWhile noNilMatch noNilBranch noNilFunction
       noNilClass forallb
       ast.AddConsequenceStatement ast.AddElseIfBranch ast.SetAlternative
       ast.NewIfStatement ast.NewForStatement ast.For_AddBodyStatement
       ast.For_SetTypeHint ast.NewWhileStatement ast.While_AddBodyStatement
       ast.NewMatchStatement ast.AddBranch ast.NewMatchBranch ast.SetGuard
       ast.Branch_AddBodyStatement ast.NewFunction ast.AddParameter
       ast.Function_AddStatement ast.setIsStatic ast.setReturnType ast.NewClass
       ast.AddSubClass ast.AddFunction ast.Class_AddStatement ast.setExtends
       ast.setName] in *;
  rewrite ?forallb_app in *; cbn [forallb] in *;
  rewrite ?andb_true_r in *;
  rewrite ?andb_true_iff in *.

Lemma clean_AddConsequenceStatement (i : ast.IfStatement) (s : ast.Statement) :
  clean (ast.StmtIf (Some i)) -> clean s ->
  clean (ast.StmtIf (Some (ast.AddConsequenceStatement i s))).
Proof. destruct i. intros. clean_simpl. tauto. Qed.

Lemma clean_AddElseIfBranch (i : ast.IfStatement) (c : ast.Expression)
      (body : list ast.Statement) :
  clean (ast.StmtIf (Some i)) -> cleanL body ->
  clean (ast.StmtIf (Some (ast.AddElseIfBranch i c body))).
Proof. destruct i. intros. clean_simpl. tauto. Qed.

Lemma clean_SetAlternative (i : ast.IfStatement) (body : list ast.Statement) :
  clean (ast.StmtIf (Some i)) -> cleanL body ->
  clean (ast.StmtIf (Some (ast.SetAlternative i body))).
Proof. destruct i. intros. clean_simpl. tauto. Qed.

Lemma clean_append (body : list ast.Statement) (s : ast.Statement) :
  cleanL body -> clean s -> cleanL (body ++ [s]).
Proof. intros. clean_simpl. tauto. Qed.

Lemma clean_For_AddBodyStatement (f : ast.ForStatement) (s : ast.Statement) :
  clean (ast.StmtFor (Some f)) -> clean s ->
  clean (ast.StmtFor (Some (ast.For_AddBodyStatement f s))).
Proof. destruct f. intros. clean_simpl. tauto. Qed.

Lemma clean_For_SetTypeHint (f : ast.ForStatement) (t : string) :
  clean (ast.StmtFor (Some f)) ->
  clean (ast.StmtFor (Some (ast.For_SetTypeHint f t))).
Proof. destruct f. intros. clean_simpl. tauto. Qed.

Lemma clean_While_AddBodyStatement (w : ast.WhileStatement) (s : ast.Statement) :
  clean (ast.StmtWhile (Some w)) -> clean s ->
  clean (ast.StmtWhile (Some (ast.While_AddBodyStatement w s))).
Proof. destruct w. intros. clean_simpl. tauto. Qed.

Lemma clean_AddBranch (m : ast.MatchStatement) (b : ast.MatchBranch) :
  clean (ast.StmtMatch (Some m)) -> noNilBranch b = true ->
  clean (ast.StmtMatch (Some (ast.AddBranch m b))).
Proof. destruct m. intros. clean_simpl. tauto. Qed.

Lemma clean_SetGuard (b : ast.MatchBranch) (g : ast.Expression) :
  noNilBranch b = true -> noNilBranch (ast.SetGuard b g) = true.
Proof. destruct b. intros. clean_simpl. tauto. Qed.

Lemma clean_Branch_AddBodyStatement (b : ast.MatchBranch) (s : ast.Statement) :
  noNilBranch b = true -> clean s ->
  noNilBranch (ast.Branch_AddBodyStatement b s) = true.
Proof. destruct b. intros. clean_simpl. tauto. Qed.

Lemma clean_setIsStatic (f : ast.Function) (b : bool) :
  clean (ast.StmtFunction (Some f)) ->
  clean (ast.StmtFunction (Some (ast.setIsStatic f b))).
Proof. destruct f. intros. clean_simpl. tauto. Qed.

Lemma clean_setReturnType (f : ast.Function) (t : string) :
  clean (ast.StmtFunction (Some f)) ->
  clean (ast.StmtFunction (Some (ast.setReturnType f t))).
Proof. destruct f. intros. clean_simpl. tauto. Qed.

Lemma clean_AddParameter (f : ast.Function) (param : ast.Param) :
  clean (ast.StmtFunction (Some f)) ->
  clean (ast.StmtFunction (Some (ast.AddParameter f param))).
Proof. destruct f. intros. clean_simpl. tauto. Qed.

Lemma clean_Function_AddStatement (f : ast.Function) (s : ast.Statement) :
  clean (ast.StmtFunction (Some f)) -> clean s ->
  clean (ast.StmtFunction (Some (ast.Function_AddStatement f s))).
Proof. destruct f. intros. clean_simpl. tauto. Qed.

Lemma clean_AddSubClass (c : ast.Class) (sub : option ast.Class) :
  clean (ast.StmtClass (Some c)) -> clean (ast.StmtClass sub) ->
  clean (ast.StmtClass (Some (ast.AddSubClass c sub))).
Proof. destruct c, sub; intros; clean_simpl; try tauto; try discriminate. Qed.

Lemma clean_AddFunction (c : ast.Class) (f : option ast.Function) :
  clean (ast.StmtClass (Some c)) -> clean (ast.StmtFunction f) ->
  clean (ast.StmtClass (Some (ast.AddFunction c f))).
Proof. destruct c, f; intros; clean_simpl; try tauto; try discriminate. Qed.

Lemma clean_Class_AddStatement (c : ast.Class) (s : ast.Statement) :
  clean (ast.StmtClass (Some c)) -> clean s ->
  clean (ast.StmtClass (Some (ast.Class_AddStatement c s))).
Proof. destruct c. intros. clean_simpl. tauto. Qed.

Lemma clean_setExtends (c : ast.Class) (e : string) :
  clean (ast.StmtClass (Some c)) ->
  clean (ast.StmtClass (Some (ast.setExtends c e))).
Proof. destruct c. intros. clean_simpl. tauto. Qed.

Lemma clean_setName (c : ast.Class) (e : string) :
  clean (ast.StmtClass (Some c)) ->
  clean (ast.StmtClass (Some (ast.setName c e))).
Proof. destruct c. intros. clean_simpl. tauto. Qed.

Create HintDb quiet.

#[export] Hint Resolve clean_AddConsequenceStatement clean_AddElseIfBranch
  clean_SetAlternative clean_append clean_For_AddBodyStatement clean_For_SetTypeHint
  clean_While_AddBodyStatement clean_AddBranch clean_SetGuard
  clean_Branch_AddBodyStatement clean_setIsStatic
  clean_setReturnType clean_AddParameter clean_Function_AddStatement
  clean_AddSubClass clean_AddFunction clean_Class_AddStatement clean_setExtends
  : quiet.

#[export] Hint Extern 1 (clean _) => solve [reflexivity] : quiet.
#[export] Hint Extern 1 (cleanL _) => solve [reflexivity] : quiet.
#[export] Hint Extern 1 (_ = true) => solve [reflexivity] : quiet.
#[export] Hint Extern 1 True => exact I : quiet.
#[export] Hint Extern 1 => assumption : quiet.
#[export] Hint Extern 4 =>
  match goal with
  | |- context [if ?c then _ else _] => destruct c
  | |- context [match ?x with Some _ => _ | None => _ end] => destruct x
  end : quiet.

(** The diagnostics of a later parser extend those of an earlier one. *)
Ltac ext_solve :=
  cbn [fst snd errors curError curErrorf peekErrorMsg peekErrorf peekError] in *;
  repeat first
    [ assumption
    | apply extends_refl
    | apply extends_snoc
    | match goal with
      | H : extends ?m ?b |- extends ?a ?b =>
        apply (extends_trans a m b); [|exact H]
      end ].

(** From the absence of diagnostics at the end to their absence before,
    and to the facts that hold in their absence. *)
Ltac nil_back :=
  cbn [fst snd errors curError curErrorf peekErrorMsg peekErrorf peekError] in *;
  repeat match goal with
  | E : _ ++ [_] = [] |- _ => exfalso; exact (snoc_not_nil _ _ E)
  | H : false = true |- _ => discriminate H
  | H : ?y = [] -> _, Ey : ?y = [] |- _ => specialize (H Ey)
  | H : extends ?x ?y, Ey : ?y = [] |- _ =>
    lazymatch goal with
    | Ex : x = [] |- _ => fail
    | _ => let Ex := fresh "Ex" in pose proof (extends_nil _ _ H Ey) as Ex
    end
  end.

Ltac quiet_cond :=
  let E := fresh "E" in
  intros E; nil_back; cbn [fst snd]; solve [eauto 8 with quiet nocore].

#[export] Hint Extern 1 (extends _ _) => solve [ext_solve] : quiet.
#[export] Hint Extern 2 =>
  match goal with
  | |- _ = [] -> _ => solve [quiet_cond]
  end : quiet.

Ltac quiet_intro :=
  let a := fresh "a" in
  let Ha := fresh "Ha" in
  intros a Ha;
  repeat match goal with x : (_ * _)%type |- _ => destruct x end;
  unfold quiet in Ha; cbn [fst snd] in Ha;
  lazymatch type of Ha with
  | _ /\ _ => let X := fresh "X" in let Y := fresh "Y" in destruct Ha as [X Y]
  | _ => idtac
  end;
  cbv beta iota.

Ltac quiet_final :=
  unfold quiet; cbn [fst snd];
  first [ solve [ext_solve]
        | split; [solve [ext_solve]|quiet_cond] ].

Ltac quiet_walk :=
  lazymatch goal with
  | |- wpp OutOfFuel _ => exact I
  | |- wpp (Panic _) _ => exact I
  | |- wpp (rbind _ _) _ => apply wpp_bind; quiet_walk
  | |- wpp (if negb ?c then _ else _) _ => destruct c; cbn [negb]; quiet_walk
  | |- wpp (if ?c then _ else _) _ => destruct c; quiet_walk
  | |- wpp (match ?x with _ => _ end) _ => destruct x; quiet_walk
  | |- wpp (Ok _) _ => apply wpp_ret; cbv beta iota; cbn [negb]; quiet_walk
  | |- wpp _ _ =>
    eapply wpp_mono;
    [solve [eauto 4 with quiet nocore]
    |quiet_intro; quiet_walk]
  | |- _ => quiet_final
  end.

Section QuietLoops.

Context {U : Unicode}.

Lemma nextToken_ext (p : Parser) :
  wpp (nextToken p) (fun p' => extends (errors p) (errors p')).
Proof.
  destruct (nextToken p) as [p'| |] eqn:E; simpl; auto.
  destruct (nextToken_current _ _ E) as (_ & -> & _). apply extends_refl.
Qed.

Hint Resolve nextToken_ext : quiet.

Lemma skipNewlines_ext (fuel : nat) (p : Parser) :
  wpp (skipNewlines fuel p) (fun p' => extends (errors p) (errors p')).
Proof.
  revert p. induction fuel as [|fuel IH]; intros p; cbn [skipNewlines];
    quiet_walk.
Qed.

Lemma synchronizeLoop_ext (fuel : nat) (p : Parser) :
  wpp (synchronizeLoop fuel p) (fun p' => extends (errors p) (errors p')).
Proof.
  revert p. induction fuel as [|fuel IH]; intros p; cbn [synchronizeLoop];
    quiet_walk.
Qed.

Hint Resolve synchronizeLoop_ext : quiet.

Lemma recover_ext (fuel : nat) (p : Parser) :
  wpp (recover fuel p) (fun p' => extends (errors p) (errors p')).
Proof. unfold recover, synchronize. quiet_walk. Qed.

Hint Resolve recover_ext : quiet.

Lemma expectPeek_quiet (fuel : nat) (t : TokenType) (p : Parser) :
  wpp (expectPeek fuel t p) (quiet (fun ok => ok = true) p).
Proof. unfold expectPeek. cbv zeta. quiet_walk. Qed.

Lemma skipPeekNewlines_ext (fuel : nat) (indent : bool) (p : Parser) :
  wpp (skipPeekNewlines fuel indent p) (fun p' => extends (errors p) (errors p')).
Proof.
  revert p. induction fuel as [|fuel IH]; intros p; cbn [skipPeekNewlines];
    quiet_walk.
Qed.

Lemma skipToNextLine_ext (fuel : nat) (p : Parser) :
  wpp (skipToNextLine fuel p) (fun p' => extends (errors p) (errors p')).
Proof.
  revert p. induction fuel as [|fuel IH]; intros p; cbn [skipToNextLine];
    quiet_walk.
Qed.

Lemma expectBlock_quiet (accepted : TokenType -> bool) (p : Parser) :
  wpp (expectBlock accepted p) (quiet (fun ok => ok = true) p).
Proof. unfold expectBlock. quiet_walk. Qed.

Hint Resolve skipNewlines_ext expectPeek_quiet skipPeekNewlines_ext
  skipToNextLine_ext expectBlock_quiet : quiet.

Lemma Expression_Position_any (e : ast.Expression) :
  wpp (ast.Expression_Position e) (fun _ => True).
Proof. apply wpp_True. Qed.

Hint Resolve Expression_Position_any : quiet.

Lemma expressions_quiet_all (fuel : nat) : expressions_quiet fuel.
Proof.
  induction fuel as [|fuel IH].
  - repeat split; intros; exact I.
  - destruct IH as (H1 & H2 & H3 & H4 & H5 & H6 & H7 & H8 & H9).
    repeat split; intros.
    + cbn [parseExpression]. quiet_walk.
    + cbn [parseExpressionLoop]. cbv zeta. quiet_walk.
    + cbn [parseCallExpression]. cbv zeta. quiet_walk.
    + cbn [parseCallArguments]. quiet_walk.
    + cbn [parseCallArgumentsLoop]. quiet_walk.
    + cbn [parseGroupedExpression]. quiet_walk.
    + cbn [parsePrefixExpression]. cbv zeta. quiet_walk.
    + cbn [parseInfixExpression]. cbv zeta. quiet_walk.
    + cbn [parseConditionalExpression]. quiet_walk.
Qed.

End QuietLoops.
#[export] Hint Resolve nextToken_ext synchronizeLoop_ext recover_ext
  skipNewlines_ext expectPeek_quiet skipPeekNewlines_ext
  skipToNextLine_ext expectBlock_quiet Expression_Position_any : quiet.

Section QuietStatements.

Context {U : Unicode}.

Lemma parseExpression_quiet (fuel : nat) (prec : Z) (p : Parser) :
  wpp (parseExpression fuel prec p) (quiet (fun _ => True) p).
Proof. apply (expressions_quiet_all fuel). Qed.

Hint Resolve parseExpression_quiet : quiet.

Lemma parseReturnStatement_quiet (fuel : nat) (p : Parser) :
  wpp (parseReturnStatement fuel p) (quiet (fun _ => True) p).
Proof. unfold parseReturnStatement. cbv zeta. quiet_walk. Qed.

Lemma parseExpressionStatement_quiet (fuel : nat) (p : Parser) :
  wpp (parseExpressionStatement fuel p) (quiet (fun _ => True) p).
Proof. unfold parseExpressionStatement. cbv zeta. quiet_walk. Qed.

Lemma parseVarStatement_quiet (fuel : nat) (p : Parser) :
  wpp (parseVarStatement fuel p) (quiet (fun o => clean (ast.StmtVar o)) p).
Proof. unfold parseVarStatement. cbv zeta. quiet_walk. Qed.

Lemma parseConstStatement_quiet (fuel : nat) (p : Parser) :
  wpp (parseConstStatement fuel p) (quiet (fun o => clean (ast.StmtVar o)) p).
Proof. unfold parseConstStatement. cbv zeta. quiet_walk. Qed.

Lemma parseParameter_quiet (fuel : nat) (p : Parser) :
  wpp (parseParameter fuel p) (quiet (fun _ => True) p).
Proof. unfold parseParameter. cbv zeta. quiet_walk. Qed.

Hint Resolve parseParameter_quiet : quiet.

Lemma parseParameterListLoop_quiet (fuel : nat) (f : ast.Function) (p : Parser) :
  (errors p = [] -> clean (ast.StmtFunction (Some f))) ->
  wpp (parseParameterListLoop fuel f p)
      (quiet (fun x => clean (ast.StmtFunction (Some (fst x)))) p).
Proof.
  revert f p. induction fuel as [|fuel IH]; intros f p Hs; [exact I|].
  cbn [parseParameterListLoop]. quiet_walk.
Qed.

Hint Resolve parseParameterListLoop_quiet : quiet.

Lemma parseParameterList_quiet (fuel : nat) (f : ast.Function) (p : Parser) :
  (errors p = [] -> clean (ast.StmtFunction (Some f))) ->
  wpp (parseParameterList fuel f p)
      (quiet (fun f => clean (ast.StmtFunction (Some f))) p).
Proof. intros Hs. unfold parseParameterList. quiet_walk. Qed.

End QuietStatements.
#[export] Hint Resolve parseExpression_quiet parseReturnStatement_quiet
  parseExpressionStatement_quiet parseVarStatement_quiet parseConstStatement_quiet
  parseParameter_quiet parseParameterListLoop_quiet parseParameterList_quiet
  : quiet.

Section QuietBlocks.

Context {U : Unicode}.

Lemma statements_quiet_all (fuel : nat) : statements_quiet fuel.
Proof.
  induction fuel as [|fuel IH].
  - repeat split; intros; exact I.
  - destruct IH as (H1 & H2 & H3 & H4 & H5 & H6 & H7 & H8 & H9 & H10 & H11).
    pose proof (fun skip node p =>
                  H2 _ (fun f => clean (ast.StmtFunction (Some f)))
                     skip _ node p clean_Function_AddStatement) as B1.
    pose proof (fun skip node p =>
                  H2 _ (fun i => clean (ast.StmtIf (Some i)))
                     skip _ node p clean_AddConsequenceStatement) as B2.
    pose proof (fun skip node p =>
                  H2 _ (fun f => clean (ast.StmtFor (Some f)))
                     skip _ node p clean_For_AddBodyStatement) as B3.
    pose proof (fun skip node p =>
                  H2 _ (fun w => clean (ast.StmtWhile (Some w)))
                     skip _ node p clean_While_AddBodyStatement) as B4.
    pose proof (fun skip node p =>
                  H2 _ (fun b => noNilBranch b = true)
                     skip _ node p clean_Branch_AddBodyStatement) as B5.
    pose proof (fun skip node p => H2 _ cleanL skip _ node p clean_append) as B6.
    cbv beta in B1, B2, B3, B4, B5, B6.
    repeat split; intros.
    + cbn [parseStatement]. quiet_walk.
    + cbn [parseBlock]. cbv zeta. quiet_walk.
    + cbn [parseFunctionDefinition]. cbv zeta. quiet_walk.
    + cbn [parseClassDefinition]. cbv zeta. quiet_walk.
    + cbn [parseClassBody]. cbv zeta. quiet_walk.
    + cbn [parseIfStatement]. cbv zeta. quiet_walk.
    + cbn [parseElifBranches]. cbv zeta. quiet_walk.
    + cbn [parseForStatement]. cbv zeta. quiet_walk.
    + cbn [parseWhileStatement]. cbv zeta. quiet_walk.
    + cbn [parseMatchStatement]. cbv zeta. quiet_walk.
    + cbn [parseMatchBranches]. cbv zeta. quiet_walk.
Qed.

End QuietBlocks.
Section QuietParse.

Context {U : Unicode}.

Lemma parseStatement_quiet (fuel : nat) (p : Parser) :
  wpp (parseStatement fuel p) (quiet clean p).
Proof. apply (statements_quiet_all fuel). Qed.

Hint Resolve parseStatement_quiet : quiet.

Lemma parseGlobalScopeLoop_quiet (fuel : nat) (c : ast.Class) (p : Parser) :
  (errors p = [] -> clean (ast.StmtClass (Some c))) ->
  wpp (parseGlobalScopeLoop fuel c p)
      (quiet (fun c => clean (ast.StmtClass (Some c))) p).
Proof.
  revert c p. induction fuel as [|fuel IH]; intros c p Hs; [exact I|].
  cbn [parseGlobalScopeLoop]. cbv zeta.
  destruct (tt_eqb (curType p) EOF); [quiet_walk|].
  apply wpp_bind. eapply wpp_mono; [apply parseStatement_quiet|].
  quiet_intro. apply wpp_bind. eapply wpp_mono; [apply nextToken_ext|].
  quiet_intro. eapply wpp_mono; [apply IH|quiet_intro; quiet_walk].
  intros E. nil_back. destruct s; auto with quiet.
Qed.

Lemma clean_SubClasses (c : ast.Class) :
  clean (ast.StmtClass (Some c)) ->
  forallb (fun c => noNilNode (ast.StmtClass c)) (ast.Class_SubClasses c) = true.
Proof.
  destruct c. unfold clean. cbn [noNilNode noNilClass ast.Class_SubClasses].
  rewrite !andb_true_iff. intros ((H & _) & _). exact H.
Qed.

Lemma Parse_quiet (fuel : nat) (p : Parser) :
  wpp (Parse fuel p) (quiet (fun tree => noNilTree tree = true) p).
Proof.
  unfold Parse, parseGlobalScope. cbv zeta.
  apply wpp_bind. apply wpp_bind.
  eapply wpp_mono; [apply parseGlobalScopeLoop_quiet; intros _; reflexivity|].
  intros [c p1] [X Y]. cbn [fst snd] in *. cbn [wpp]. unfold quiet.
  cbn [fst snd]. split; [exact X|]. intros E. specialize (Y E).
  unfold noNilTree.
  cbn [fst ast.RootClass ast.Classes ast.AST_Functions ast.NewAST app forallb].
  rewrite !andb_true_iff.
  split; [split; [exact Y|split; [exact Y|apply clean_SubClasses, Y]]|reflexivity].
Qed.

(** X8.  The parser only ever appends to its list of diagnostics: what
    was recorded before [Parse] is still there after it, in the same
    order, followed by what [Parse] has added. *)
Theorem Parse_errors_extend (fuel : nat) (p : Parser)
        (tree : ast.AbstractSyntaxTree) (p' : Parser) :
  Parse fuel p = Ok (tree, p') ->
  exists new, Errors p' = Errors p ++ new.
Proof.
  intros H. pose proof (Parse_quiet fuel p) as W. rewrite H in W.
  exact (proj1 W).
Qed.

(** X9.  A tree that [Parse] returns without any diagnostic holds no nil
    node: every statement of every statement list, at whatever depth, is
    a pointer to a node, and so is every entry of the lists of functions
    and of classes.  (A parsing routine that gives up returns a nil
    pointer, which [parseStatement] boxes as a statement; it never does
    so without recording a diagnostic.) *)
Theorem Parse_quiet_no_nil (fuel : nat) (p : Parser)
        (tree : ast.AbstractSyntaxTree) (p' : Parser) :
  Parse fuel p = Ok (tree, p') ->
  Errors p' = [] ->
  noNilTree tree = true.
Proof.
  intros H E. pose proof (Parse_quiet fuel p) as W. rewrite H in W.
  exact (proj2 W E).
Qed.

End QuietParse.

(** The theorem at the source [var 1 var y = 2] and a parser that
    already holds a diagnostic. *)
Lemma Parse_errors_extend_witness :
  let p := curError (parserOf (NewParser (U:=latin1) recoverySource)) "earlier" in
  exists tree p' new,
    Parse (U:=latin1) 30 p = Ok (tree, p')
    /\ Errors p' = Errors p ++ new
    /\ List.length new = 1%nat.
Proof.
  intros p.
  destruct (Parse (U:=latin1) 30 p) as [[tree p']| |] eqn:E;
    [|vm_compute in E; discriminate E|vm_compute in E; discriminate E].
  destruct (Parse_errors_extend (U:=latin1) 30 p tree p' E) as [new Hn].
  exists tree, p', new. split; [reflexivity|]. split; [exact Hn|].
  vm_compute in E. injection E as <- <-. vm_compute in Hn.
  injection Hn as <-. reflexivity.
Defined.

(** The theorem at the class [A] with the method [f]. *)
Lemma Parse_quiet_no_nil_witness :
  exists tree p',
    Parse (U:=latin1) 30 (parserOf (NewParser (U:=latin1) classSource)) = Ok (tree, p')
    /\ noNilTree tree = true.
Proof.
  eexists. eexists. split; [vm_compute; reflexivity|].
  eapply (Parse_quiet_no_nil (U:=latin1) 30
            (parserOf (NewParser (U:=latin1) classSource))).
  - vm_compute. reflexivity.
  - reflexivity.
Defined.
(** ** The entry point [ParseFile] *)

Section ParseFileEnds.

Context {U : Unicode}.

Lemma NewParser_errors (input0 : string) (p : Parser) :
  NewParser input0 = Ok p -> errors p = [] /\ errorMode p = ErrorModeStrict.
Proof.
  unfold NewParser. cbv zeta. intros H. inv_bind H.
  destruct (nextToken_current _ _ Ha) as (_ & E1 & M1).
  destruct (nextToken_current _ _ H) as (_ & E2 & M2).
  cbn [errors errorMode] in E1, M1. unfold ErrorModeStrict.
  split; congruence.
Qed.

Lemma Parse_tree (fuel : nat) (p : Parser) (tree : ast.AbstractSyntaxTree)
      (p' : Parser) :
  Parse fuel p = Ok (tree, p') ->
  ast.AST_Functions tree = [] /\ curType p' = EOF.
Proof.
  unfold Parse, parseGlobalScope. cbv zeta. intros H. inv_bind H.
  destruct a as [o p1]. inv_bind Ha. destruct a as [c p2].
  injection Ha as <- <-. injection H as <- <-. split; [reflexivity|].
  clear - Ha0. revert Ha0.
  generalize (ast.NewClass "global scope" (ast.mkPosition 1 1 0)).
  revert p. induction fuel as [|fuel IH]; intros p c0 H; [discriminate|].
  cbn [parseGlobalScopeLoop] in H.
  destruct (tt_eqb (curType p) EOF) eqn:E.
  - injection H as _ <-. now apply tt_eqb_eq.
  - inv_bind H. destruct a as [stmt p1]. inv_bind H. exact (IH _ _ H).
Qed.

Lemma ParseFile_facts (baseName content : string) (fuel : nat) :
  (parseFuel content <= fuel)%nat ->
  ParseFile fuel baseName content <> OutOfFuel
  /\ ParseFile fuel baseName content = ParseFile (parseFuel content) baseName content
  /\ forall tree errs,
      ParseFile fuel baseName content = Ok (tree, errs) ->
      (exists c,
          ast.RootClass tree = Some c
          /\ ast.Class_Name c = baseName
          /\ ast.Classes tree = Some c :: ast.Class_SubClasses c)
      /\ ast.AST_Functions tree = []
      /\ (errs = [] -> noNilTree tree = true).
Proof.
  intros Hf.
  assert (Ends : forall fuel, (parseFuel content <= fuel)%nat ->
                   ParseFile fuel baseName content <> OutOfFuel).
  { intros n Hn. unfold ParseFile, NewParserWithOptions.
    pose proof (NewParser_wp content) as W.
    destruct (NewParser content) as [p| |]; cbn [rbind]; try discriminate;
      [|destruct W].
    destruct W as (Hi & Hb).
    assert (W : wp (Parse n (setErrorMode p ErrorModePanic))
                   (fun x => after (setErrorMode p ErrorModePanic) x
                             /\ rooted (fst x))).
    { apply Parse_wp; [exact Hi|]. unfold fuelFor in *.
      change (tokensLeft (setErrorMode p ErrorModePanic)) with (tokensLeft p).
      lia. }
    destruct (Parse n _) as [[tree p']| |]; cbn [rbind]; try discriminate.
    destruct W. }
  split; [now apply Ends|]. split.
  { apply (le_res_eq (ParseFile (Nat.max fuel (parseFuel content)) baseName content));
      [apply ParseFile_mono; lia|apply ParseFile_mono; lia
      |now apply Ends|apply Ends, Nat.le_refl]. }
  intros tree errs H. unfold ParseFile, NewParserWithOptions in H.
  inv_bind H. inv_bind Ha. rename a0 into p. injection Ha as <-.
  inv_bind H. destruct a as [tree0 p']. injection H as <- <-.
  pose proof (NewParser_wp content) as W. rewrite Ha0 in W.
  destruct W as (Hi & Hb).
  destruct (NewParser_errors _ _ Ha0) as (He & _).
  assert (W : wp (Parse fuel (setErrorMode p ErrorModePanic))
                 (fun x => after (setErrorMode p ErrorModePanic) x
                           /\ rooted (fst x))).
  { apply Parse_wp; [exact Hi|]. unfold fuelFor in *.
    change (tokensLeft (setErrorMode p ErrorModePanic)) with (tokensLeft p).
    lia. }
  rewrite Ha in W. destruct W as (_ & c & Hr & Hn & Hc). cbn [fst] in *.
  destruct (Parse_tree _ _ _ _ Ha) as (Hfn & _).
  pose proof (Parse_quiet fuel (setErrorMode p ErrorModePanic)) as Q.
  rewrite Ha in Q. destruct Q as (_ & Q). cbn [fst snd] in Q.
  rewrite Hr. cbn [ast.RootClass ast.Classes ast.AST_Functions].
  split; [|split; [exact Hfn|]].
  - exists (ast.setName c baseName). split; [reflexivity|]. split.
    + destruct c; reflexivity.
    + rewrite Hc. destruct c; reflexivity.
  - intros E. specialize (Q E). unfold noNilTree in *.
    rewrite Hr, Hc, Hfn in Q. rewrite Hfn.
    cbn [ast.RootClass ast.Classes ast.AST_Functions forallb tl] in *.
    rewrite !andb_true_iff in *. destruct Q as ((Q1 & _ & Q2) & _).
    pose proof (clean_setName c baseName Q1) as Q3.
    rewrite Hc. cbn [tl].
    split; [split; [exact Q3|split; [exact Q3|exact Q2]]|reflexivity].
Qed.

(** X10.  [ParseFile] ends on every file: given the fuel [parseFuel] of
    the content or more, it returns or panics, and the amount of fuel
    makes no difference to the result.  A tree it returns has a root
    class that carries the base name of the file and heads the list of
    classes, followed by its subclasses; the list of functions of the
    tree is empty (functions are kept in their class); and when no
    diagnostic comes with the tree, the tree holds no nil node. *)
Theorem ParseFile_ends (baseName content : string) (fuel : nat) :
  (parseFuel content <= fuel)%nat ->
  ParseFile fuel baseName content <> OutOfFuel
  /\ ParseFile fuel baseName content = ParseFile (parseFuel content) baseName content
  /\ forall tree errs,
      ParseFile fuel baseName content = Ok (tree, errs) ->
      (exists c,
          ast.RootClass tree = Some c
          /\ ast.Class_Name c = baseName
          /\ ast.Classes tree = Some c :: ast.Class_SubClasses c)
      /\ ast.AST_Functions tree = []
      /\ (errs = [] -> noNilTree tree = true).
Proof. apply ParseFile_facts. Qed.

(** X11.  [Parse] reads to the end: when it returns, the current token
    of the parser is EOF, in strict mode as in panic mode; an error
    never makes it stop early. *)
Theorem Parse_stops_at_EOF (fuel : nat) (p : Parser)
        (tree : ast.AbstractSyntaxTree) (p' : Parser) :
  Parse fuel p = Ok (tree, p') -> curType p' = EOF.
Proof. intros H. exact (proj2 (Parse_tree _ _ _ _ H)). Qed.

End ParseFileEnds.

(** The theorem at the file [a.gd] with the content [var 1 var y = 2]. *)
Lemma ParseFile_ends_witness :
  let run := ParseFile (U:=latin1) 3000 "a.gd" recoverySource in
  run <> OutOfFuel
  /\ run = ParseFile (U:=latin1) (parseFuel recoverySource) "a.gd" recoverySource
  /\ forall tree errs,
      run = Ok (tree, errs) ->
      (exists c,
          ast.RootClass tree = Some c
          /\ ast.Class_Name c = "a.gd"
          /\ ast.Classes tree = Some c :: ast.Class_SubClasses c)
      /\ ast.AST_Functions tree = []
      /\ (errs = [] -> noNilTree tree = true).
Proof.
  intros run.
  apply (ParseFile_ends (U:=latin1) "a.gd" recoverySource 3000).
  apply Nat.leb_le. vm_compute. reflexivity.
Defined.

(** The theorem at the source [var 1 var y = 2], parsed in strict
    mode. *)
Lemma Parse_stops_at_EOF_witness :
  exists tree p',
    Parse (U:=latin1) 30 (parserOf (NewParser (U:=latin1) recoverySource))
    = Ok (tree, p')
    /\ curType p' = EOF.
Proof.
  eexists. eexists. split; [vm_compute; reflexivity|].
  eapply (Parse_stops_at_EOF (U:=latin1) 30
            (parserOf (NewParser (U:=latin1) recoverySource))).
  vm_compute. reflexivity.
Defined.
(** ** Variable statements *)

(** X12.  The kind of a variable statement follows its fields: a new
    statement has the kind that its three facts (constant, typed,
    assigned) determine, and [SetTypeHint], [SetConst] and [SetValue]
    with a value that is not nil each leave a statement whose kind
    agrees with its fields, whatever the statement was before. *)
Theorem VarStatement_kind_agrees (v : ast.VarStatement) (pos : ast.Position)
        (name typeHint : string) (isTyped : bool) (value : ast.Expression) :
  ast.isNil value = false ->
  kindAgrees (ast.NewVarStatement pos name isTyped)
  /\ kindAgrees (ast.SetTypeHint v typeHint)
  /\ kindAgrees (ast.SetConst v)
  /\ kindAgrees (ast.SetValue v value).
Proof.
  intros Hv. unfold kindAgrees. split; [|split; [|split]].
  - destruct isTyped; reflexivity.
  - destruct v as [b n t e ty c i]. unfold ast.SetTypeHint.
    cbn [ast.Var_Value ast.Var_IsConst].
    destruct (ast.isNil e) eqn:E, c; cbn; rewrite E; reflexivity.
  - destruct v as [b n t e ty c i]. unfold ast.SetConst.
    cbn [ast.Var_Value ast.Var_IsTyped].
    destruct (ast.isNil e) eqn:E, ty; cbn; rewrite E; reflexivity.
  - destruct v as [b n t e ty c i]. unfold ast.SetValue.
    cbn [ast.Var_IsConst ast.Var_IsTyped].
    destruct ty, c; cbn; rewrite Hv; reflexivity.
Qed.

(** X13.  The setters of a variable statement commute: marking it
    constant, giving it a type hint and giving it a value that is not
    nil lead to the same statement in whatever order they are applied.
    (With a nil value the order shows: [SetValue] always sets an
    assigned kind, the other two look at the value.) *)
Theorem VarStatement_setters_commute (v : ast.VarStatement) (typeHint : string)
        (value : ast.Expression) :
  ast.isNil value = false ->
  ast.SetConst (ast.SetTypeHint v typeHint) = ast.SetTypeHint (ast.SetConst v) typeHint
  /\ ast.SetValue (ast.SetTypeHint v typeHint) value
     = ast.SetTypeHint (ast.SetValue v value) typeHint
  /\ ast.SetValue (ast.SetConst v) value = ast.SetConst (ast.SetValue v value).
Proof.
  intros Hv. destruct v as [[pos k anns] n t e ty c i].
  unfold ast.SetConst, ast.SetTypeHint, ast.SetValue.
  cbn [ast.Var_Value ast.Var_IsConst ast.Var_IsTyped ast.Var_Base ast.Var_Name
       ast.Var_TypeHint ast.Var_IsInferred].
  split; [|split];
    destruct (ast.isNil e) eqn:E, c, ty; cbn; rewrite ?E, ?Hv; cbn;
    rewrite ?E, ?Hv; reflexivity.
Qed.

(** The theorems at the value [1]. *)
Lemma VarStatement_kind_agrees_witness :
  let one := ast.NumberLiteral (ast.mkPosition 1 9 8) true "1" in
  let v := ast.NewVarStatement (ast.mkPosition 1 1 0) "x" false in
  kindAgrees (ast.NewVarStatement (ast.mkPosition 1 1 0) "x" false)
  /\ kindAgrees (ast.SetTypeHint v "int")
  /\ kindAgrees (ast.SetConst v)
  /\ kindAgrees (ast.SetValue v one).
Proof.
  intros one v.
  apply (VarStatement_kind_agrees v (ast.mkPosition 1 1 0) "x" "int" false one).
  reflexivity.
Defined.

Lemma VarStatement_setters_commute_witness :
  let one := ast.NumberLiteral (ast.mkPosition 1 9 8) true "1" in
  let v := ast.NewVarStatement (ast.mkPosition 1 1 0) "x" false in
  ast.SetConst (ast.SetTypeHint v "int") = ast.SetTypeHint (ast.SetConst v) "int"
  /\ ast.SetValue (ast.SetTypeHint v "int") one
     = ast.SetTypeHint (ast.SetValue v one) "int"
  /\ ast.SetValue (ast.SetConst v) one = ast.SetConst (ast.SetValue v one).
Proof.
  intros one v.
  apply (VarStatement_setters_commute v "int" one). reflexivity.
Defined.
(** ** What the parser makes of declarations and of [if] *)

(** The inversion of a successful run, down to its last equation. *)
Ltac unwind H :=
  repeat (lazymatch type of H with
          | Ok _ = Ok _ => fail
          | _ => step H
          end; try discriminate H);
  injection H; clear H; intros; subst;
  repeat match goal with
  | E : Some _ = Some _ |- _ => injection E; clear E; intros; subst
  | E : None = Some _ |- _ => discriminate E
  | E : Some _ = None |- _ => discriminate E
  end.

Section Declarations.

Context {U : Unicode}.

Lemma parseConstStatement_kind (fuel : nat) (p : Parser) (v : ast.VarStatement)
      (p' : Parser) :
  parseConstStatement fuel p = Ok (Some v, p') ->
  ast.Var_IsConst v = true
  /\ ast.Kind (ast.Var_Base v) = varKind true (ast.Var_IsTyped v) true.
Proof.
  unfold parseConstStatement. cbv zeta. intros H.
  unwind H; split; reflexivity.
Qed.

Lemma parseVarStatement_kind (fuel : nat) (p : Parser) (v : ast.VarStatement)
      (p' : Parser) :
  parseVarStatement fuel p = Ok (Some v, p') ->
  ast.Var_IsConst v = false
  /\ exists assigned,
       ast.Kind (ast.Var_Base v) = varKind false (ast.Var_IsTyped v) assigned.
Proof.
  unfold parseVarStatement. cbv zeta. intros H.
  unwind H; (split; [reflexivity|]);
    first [now exists true|now exists false].
Qed.

(** X14.  A declaration node that [parseStatement] returns carries a
    kind that fits the keyword: after [const] the node is marked
    constant and its kind is an assigned one, [const_assigned] or
    [const_typed_assgnd] according to whether it is typed (a constant
    without [=] is no node at all); after [var] the node is not marked
    constant and its kind is one of the four kinds of a variable that
    fit its being typed or not. *)
Theorem parseStatement_declaration_kind (fuel : nat) (p : Parser)
        (v : ast.VarStatement) (p' : Parser) :
  parseStatement fuel p = Ok (ast.StmtVar (Some v), p') ->
  (curType p = CONST
   /\ ast.Var_IsConst v = true
   /\ ast.Kind (ast.Var_Base v) = varKind true (ast.Var_IsTyped v) true)
  \/ (curType p = VAR
      /\ ast.Var_IsConst v = false
      /\ exists assigned,
           ast.Kind (ast.Var_Base v) = varKind false (ast.Var_IsTyped v) assigned).
Proof.
  destruct fuel as [|fuel]; [discriminate|].
  cbn [parseStatement]. intros H.
  destruct (curType p) eqn:Ec; try discriminate H;
    try (inv_bind H; destruct a as [s p1]; discriminate H).
  - (* var *)
    inv_bind H. destruct a as [s p1]. injection H as -> ->.
    right. split; [reflexivity|]. exact (parseVarStatement_kind _ _ _ _ Ha).
  - (* const *)
    inv_bind H. destruct a as [s p1]. injection H as -> ->.
    left. split; [reflexivity|]. exact (parseConstStatement_kind _ _ _ _ Ha).
Qed.

Lemma wellFormedIf_AddConsequenceStatement (i : ast.IfStatement) (s : ast.Statement) :
  wellFormedIf i -> wellFormedIf (ast.AddConsequenceStatement i s).
Proof. destruct i. exact (fun H => H). Qed.

Lemma parseElifBranches_wellFormed (fuel : nat) (i : ast.IfStatement) (p : Parser)
      (i' : ast.IfStatement) (p' : Parser) :
  parseElifBranches fuel i p = Ok (Some i', p') ->
  wellFormedIf i -> wellFormedIf i'.
Proof.
  revert i p. induction fuel as [|fuel IH]; intros i p H W; [discriminate|].
  cbn [parseElifBranches] in H. cbv zeta in H.
  destruct (tt_eqb (curType p) ELIF); [|injection H as <- _; exact W].
  inv_bind H. inv_bind H. destruct a0 as [cond p1].
  destruct (ast.isNil cond) eqn:En.
  { inv_bind H. discriminate H. }
  inv_bind H. destruct a0 as [ok p2].
  destruct (negb ok); [discriminate H|].
  inv_bind H. inv_bind H. inv_bind H. destruct a2 as [body p5]. inv_bind H.
  apply (IH _ _ H). destruct i as [b c cs ec eb alt].
  destruct W as (W1 & W2 & W3). unfold wellFormedIf in *.
  cbn [ast.AddElseIfBranch If_Condition If_ElseCondition If_ElseBranches] in *.
  split; [exact W1|]. rewrite !length_app, W2. split; [reflexivity|].
  apply Forall_app. split; [exact W3|]. constructor; [exact En|constructor].
Qed.

(** X15.  An [if] node that [parseIfStatement] returns is well formed:
    its condition is not nil, it has exactly one [elif] condition for
    every [elif] body (the visitor indexes the bodies by the
    conditions), and no [elif] condition is nil. *)
Theorem parseIfStatement_wellFormed (fuel : nat) (p : Parser)
        (i : ast.IfStatement) (p' : Parser) :
  parseIfStatement fuel p = Ok (Some i, p') -> wellFormedIf i.
Proof.
  destruct fuel as [|fuel]; [discriminate|].
  cbn [parseIfStatement]. cbv zeta. intros H.
  inv_bind H. inv_bind H. destruct a0 as [cond p1].
  destruct (ast.isNil cond) eqn:En.
  { inv_bind H. discriminate H. }
  inv_bind H. destruct a0 as [ok p2].
  destruct (negb ok); [discriminate H|].
  inv_bind H. inv_bind H. destruct a1 as [ok2 p4].
  destruct (negb ok2); [discriminate H|].
  inv_bind H. destruct a1 as [i1 p5]. inv_bind H. inv_bind H.
  destruct a2 as [[i2|] p7]; [|discriminate H].
  assert (W1 : wellFormedIf i1).
  { eapply (parseBlock_preserves wellFormedIf);
      [apply wellFormedIf_AddConsequenceStatement|exact Ha4|].
    unfold wellFormedIf. cbn. split; [exact En|split; [reflexivity|constructor]]. }
  pose proof (parseElifBranches_wellFormed _ _ _ _ _ Ha6 W1) as W2.
  destruct (tt_eqb (curType p7) ELSE); [|injection H as <- _; exact W2].
  unwind H; destruct i2; exact W2.
Qed.

End Declarations.

(** The theorem at the source [const x = 1]. *)
Lemma parseStatement_declaration_kind_witness :
  let p := parserOf (NewParser (U:=latin1) "const x = 1") in
  let v := ast.mkVar (ast.mkBase (ast.mkPosition 1 2 0) "const_assigned" [])
                     "x" ""
                     (ast.NumberLiteral (ast.mkPosition 1 13 11) true "1")
                     false true false in
  (curType p = CONST
   /\ ast.Var_IsConst v = true
   /\ ast.Kind (ast.Var_Base v) = varKind true (ast.Var_IsTyped v) true)
  \/ (curType p = VAR
      /\ ast.Var_IsConst v = false
      /\ exists assigned,
           ast.Kind (ast.Var_Base v) = varKind false (ast.Var_IsTyped v) assigned).
Proof.
  intros p v.
  eapply (parseStatement_declaration_kind (U:=latin1) 20 p v).
  vm_compute. reflexivity.
Defined.

(** The theorem at an [if] with one [elif]. *)
Lemma parseIfStatement_wellFormed_witness :
  exists i p',
    parseIfStatement (U:=latin1) 40 (parserOf (NewParser (U:=latin1) elifSource))
    = Ok (Some i, p')
    /\ List.length (If_ElseBranches i) = 1%nat
    /\ wellFormedIf i.
Proof.
  eexists. eexists. split; [vm_compute; reflexivity|].
  split; [reflexivity|].
  eapply (parseIfStatement_wellFormed (U:=latin1) 40
            (parserOf (NewParser (U:=latin1) elifSource))).
  vm_compute. reflexivity.
Defined.
(** ** The expressions that are built *)

Ltac built_solve :=
  unfold built, builtL in *;
  cbn [parserBuilt forallb fst snd parseIdentifier parseIntegerLiteral
       parseFloatLiteral parseStringLiteral parseBooleanLiteral parseNullLiteral];
  rewrite ?forallb_app; cbn [forallb];
  repeat match goal with H : _ = true |- _ => rewrite H end;
  reflexivity.

Create HintDb built.

#[export] Hint Extern 1 (built _) => solve [built_solve] : built.
#[export] Hint Extern 1 (builtL _) => solve [built_solve] : built.
#[export] Hint Extern 1 => assumption : built.

Ltac built_walk :=
  lazymatch goal with
  | |- wpp OutOfFuel _ => exact I
  | |- wpp (rbind _ _) _ => apply wpp_bind; built_walk
  | |- wpp (if negb ?c then _ else _) _ => destruct c; cbn [negb]; built_walk
  | |- wpp (if ?c then _ else _) _ => destruct c; built_walk
  | |- wpp (match ?x with _ => _ end) _ => destruct x; built_walk
  | |- wpp (Ok _) _ => apply wpp_ret; cbv beta iota; cbn [negb]; built_walk
  | |- wpp _ _ =>
    eapply wpp_mono;
    [first [solve [eauto 4 with built nocore]|apply wpp_True]
    |sync_intro; built_walk]
  | |- _ => cbn [fst snd]; solve [eauto 4 with built nocore]
  end.

Section ExpressionsBuilt.

Context {U : Unicode}.

(** Entered at the token before an [if], [parseConditionalExpression]
    finds no condition and returns nil. *)
Lemma parseConditionalExpression_nil (fuel : nat) (e : ast.Expression) (p : Parser) :
  peekType p = IF ->
  wpp (parseConditionalExpression fuel e p) (fun x => fst x = ast.NilExpression).
Proof.
  intros Hpeek. destruct fuel as [|fuel]; [exact I|].
  cbn [parseConditionalExpression].
  destruct (nextToken p) as [p1| |] eqn:En; cbn [rbind]; try exact I.
  destruct (nextToken_current _ _ En) as (Hc & _).
  assert (Hcur : curType p1 = IF) by (unfold curType; rewrite Hc; exact Hpeek).
  destruct fuel as [|fuel]; [exact I|].
  cbn [parseExpression]. rewrite Hcur. cbn. reflexivity.
Qed.

Lemma expressions_built_all (fuel : nat) : expressions_built fuel.
Proof.
  induction fuel as [|fuel IH].
  - repeat split; intros; exact I.
  - destruct IH as (H1 & H2 & H3 & H4 & H5 & H6 & H7 & H8).
    repeat split; intros.
    + cbn [parseExpression]. built_walk.
    + cbn [parseExpressionLoop]. cbv zeta.
      destruct (endsExpression (peekType p)); [built_walk|].
      destruct (tt_eqb (peekType p) IF) eqn:Eif; [|built_walk].
      apply tt_eqb_eq in Eif. apply wpp_bind.
      eapply wpp_mono; [apply parseConditionalExpression_nil, Eif|].
      intros [e1 p1] E. cbn [fst] in E. subst e1. apply H2. reflexivity.
    + cbn [parseCallExpression]. cbv zeta. built_walk.
    + cbn [parseCallArguments]. built_walk.
    + cbn [parseCallArgumentsLoop]. built_walk.
    + cbn [parseGroupedExpression]. built_walk.
    + cbn [parsePrefixExpression]. cbv zeta. built_walk.
    + cbn [parseInfixExpression]. cbv zeta. built_walk.
Qed.

(** X16.  What [parseExpression] never builds: an expression it returns
    consists of identifiers, literals, prefix, infix and call
    expressions only (with a nil interface where an operand is missing).
    No [ArrayLiteral], [DictionaryLiteral], [IndexExpression],
    [DotExpression], [AssignmentExpression] or [ConditionalExpression]
    node is ever made: [a.b], [a[i]] and [a = b] are infix expressions
    with the operators [.], [[] and [=]. *)
Theorem parseExpression_node_kinds (fuel : nat) (prec : Z) (p : Parser)
        (e : ast.Expression) (p' : Parser) :
  parseExpression fuel prec p = Ok (e, p') -> parserBuilt e = true.
Proof.
  intros H. pose proof (proj1 (expressions_built_all fuel) prec p) as W.
  rewrite H in W. exact W.
Qed.

End ExpressionsBuilt.

(** The theorem at the source [a.b = c[1]]. *)
Lemma parseExpression_node_kinds_witness :
  exists e p',
    parseExpression (U:=latin1) 20 PREC_LOWEST
                    (parserOf (NewParser (U:=latin1) "a.b = c[1]")) = Ok (e, p')
    /\ (exists pos l r, e = ast.InfixExpression pos l "=" r)
    /\ parserBuilt e = true.
Proof.
  eexists. eexists. split; [vm_compute; reflexivity|].
  split; [eexists; eexists; eexists; reflexivity|].
  eapply (parseExpression_node_kinds (U:=latin1) 20 PREC_LOWEST
            (parserOf (NewParser (U:=latin1) "a.b = c[1]"))).
  vm_compute. reflexivity.
Defined.
(** ** Loops and [match] *)

Section Governed.

Context {U : Unicode}.

Lemma governed_For_AddBodyStatement (f : ast.ForStatement) (s : ast.Statement) :
  governed (ast.StmtFor (Some f)) = true ->
  governed (ast.StmtFor (Some (ast.For_AddBodyStatement f s))) = true.
Proof. destruct f. exact (fun H => H). Qed.

Lemma governed_While_AddBodyStatement (w : ast.WhileStatement) (s : ast.Statement) :
  governed (ast.StmtWhile (Some w)) = true ->
  governed (ast.StmtWhile (Some (ast.While_AddBodyStatement w s))) = true.
Proof. destruct w. exact (fun H => H). Qed.

Lemma wellFormedBranch_AddBodyStatement (b : ast.MatchBranch) (s : ast.Statement) :
  wellFormedBranch b = true ->
  wellFormedBranch (ast.Branch_AddBodyStatement b s) = true.
Proof. destruct b. exact (fun H => H). Qed.

Lemma governed_AddBranch (m : ast.MatchStatement) (b : ast.MatchBranch) :
  governed (ast.StmtMatch (Some m)) = true -> wellFormedBranch b = true ->
  governed (ast.StmtMatch (Some (ast.AddBranch m b))) = true.
Proof.
  destruct m as [base v bs]. cbn [governed ast.AddBranch].
  rewrite !andb_true_iff, forallb_app. cbn [forallb].
  intros [H1 H2] Hb. rewrite H2, Hb. auto.
Qed.

Lemma parseForStatement_governed (fuel : nat) (p : Parser) (f : ast.ForStatement)
      (p' : Parser) :
  parseForStatement fuel p = Ok (Some f, p') ->
  governed (ast.StmtFor (Some f)) = true.
Proof.
  destruct fuel as [|fuel]; [discriminate|].
  cbn [parseForStatement]. cbv zeta. intros H.
  unwind H;
    match goal with
    | B : parseBlock _ _ _ _ _ _ = Ok (f, _) |- _ =>
      apply (parseBlock_preserves
               (fun f => governed (ast.StmtFor (Some f)) = true)
               _ governed_For_AddBodyStatement _ _ _ _ _ _ B)
    end;
    cbn;
    match goal with
    | E : ast.isNil _ = false |- _ => rewrite E; reflexivity
    end.
Qed.

Lemma parseWhileStatement_governed (fuel : nat) (p : Parser)
      (w : ast.WhileStatement) (p' : Parser) :
  parseWhileStatement fuel p = Ok (Some w, p') ->
  governed (ast.StmtWhile (Some w)) = true.
Proof.
  destruct fuel as [|fuel]; [discriminate|].
  cbn [parseWhileStatement]. cbv zeta. intros H.
  unwind H;
    match goal with
    | B : parseBlock _ _ _ _ _ _ = Ok (w, _) |- _ =>
      apply (parseBlock_preserves
               (fun w => governed (ast.StmtWhile (Some w)) = true)
               _ governed_While_AddBodyStatement _ _ _ _ _ _ B)
    end;
    cbn;
    match goal with
    | E : ast.isNil _ = false |- _ => rewrite E; reflexivity
    end.
Qed.

Lemma parseMatchBranches_governed (fuel : nat) (m : ast.MatchStatement) (p : Parser)
      (m' : ast.MatchStatement) (p' : Parser) :
  parseMatchBranches fuel m p = Ok (m', p') ->
  governed (ast.StmtMatch (Some m)) = true ->
  governed (ast.StmtMatch (Some m')) = true.
Proof.
  revert m p. induction fuel as [|fuel IH]; intros m p H G; [discriminate|].
  cbn [parseMatchBranches] in H. cbv zeta in H.
  destruct (_ || _); [injection H as <- _; exact G|].
  inv_bind H. destruct a as [pattern p1].
  destruct (ast.isNil pattern) eqn:En.
  { inv_bind H. injection H as <- _. exact G. }
  inv_bind H. destruct a as [guarded p2].
  assert (Hb : forall b, guarded = Some b -> wellFormedBranch b = true).
  { intros b ->. clear H. unwind Ha0; cbn; rewrite En; cbn.
    - match goal with E : ast.isNil _ = false |- _ => rewrite E end. reflexivity.
    - reflexivity. }
  destruct guarded as [branch|]; [|injection H as <- _; exact G].
  specialize (Hb _ eq_refl).
  inv_bind H. destruct a as [ok p3].
  destruct (negb ok); [injection H as <- _; exact G|].
  destruct (tt_eqb (peekType p3) NL).
  - inv_bind H. inv_bind H. destruct a0 as [ok2 p5].
    destruct (negb ok2); [injection H as <- _; exact G|].
    inv_bind H. destruct a0 as [branch' p6].
    apply (IH _ _ H). apply governed_AddBranch; [exact G|].
    exact (parseBlock_preserves (fun b => wellFormedBranch b = true) _
             wellFormedBranch_AddBodyStatement _ _ _ _ _ _ Ha4 Hb).
  - inv_bind H. inv_bind H. destruct a0 as [bodyStmt p5].
    inv_bind H. inv_bind H.
    apply (IH _ _ H). apply governed_AddBranch; [exact G|].
    destruct (isNilStatement bodyStmt);
      [exact Hb|now apply wellFormedBranch_AddBodyStatement].
Qed.

Lemma parseMatchStatement_governed (fuel : nat) (p : Parser)
      (m : ast.MatchStatement) (p' : Parser) :
  parseMatchStatement fuel p = Ok (Some m, p') ->
  governed (ast.StmtMatch (Some m)) = true.
Proof.
  destruct fuel as [|fuel]; [discriminate|].
  cbn [parseMatchStatement]. cbv zeta. intros H.
  unwind H.
  match goal with
  | B : parseMatchBranches _ _ _ = Ok (m, _) |- _ =>
    apply (parseMatchBranches_governed _ _ _ _ _ B)
  end.
  cbn. match goal with E : ast.isNil _ = false |- _ => rewrite E end. reflexivity.
Qed.

(** X17.  A loop or a [match] that [parseStatement] returns has the
    expression that governs it: the collection of a [for] is not nil
    and its kind says whether the iterator is typed, the condition of a
    [while] is not nil, the value of a [match] is not nil, and every
    branch of a [match] has a pattern that is not nil and is marked
    guarded exactly when its guard is not nil. *)
Theorem parseStatement_governed (fuel : nat) (p : Parser) (s : ast.Statement)
        (p' : Parser) :
  parseStatement fuel p = Ok (s, p') -> governed s = true.
Proof.
  destruct fuel as [|fuel]; [discriminate|].
  cbn [parseStatement]. intros H.
  destruct (curType p); unwind H; try reflexivity;
    match goal with
    | o : option _ |- _ => destruct o; [|reflexivity]
    end;
    eauto using parseForStatement_governed, parseWhileStatement_governed,
                parseMatchStatement_governed.
Qed.

End Governed.

(** The theorem at a [match] with a guarded branch. *)
Lemma parseStatement_governed_witness :
  exists s p',
    parseStatement (U:=latin1) 40 (parserOf (NewParser (U:=latin1) matchSource))
    = Ok (s, p')
    /\ dynamicType s = "*MatchStatement"
    /\ governed s = true.
Proof.
  eexists. eexists. split; [vm_compute; reflexivity|].
  split; [reflexivity|].
  eapply (parseStatement_governed (U:=latin1) 40
            (parserOf (NewParser (U:=latin1) matchSource))).
  vm_compute. reflexivity.
Defined.

(** ** The rule context of the linter *)

Section GoMapFacts.

Context {K V : Type} (eqb : K -> K -> bool).
Hypothesis eqb_spec : forall a b, eqb a b = true <-> a = b.

Lemma map_get_delete (m : list (K * V)) k k' :
  map_get eqb (map_delete eqb m k) k'
  = if eqb k k' then None else map_get eqb m k'.
Proof.
  unfold map_delete.
  induction m as [|[a v] m IH]; cbn [filter map_get fst].
  - now destruct (eqb k k').
  - destruct (eqb a k) eqn:Ea; cbn [negb map_get].
    + apply eqb_spec in Ea. subst a. rewrite IH.
      now destruct (eqb k k').
    + rewrite IH. destruct (eqb a k') eqn:Ea'; [|reflexivity].
      destruct (eqb k k') eqn:Ek; [|reflexivity].
      apply eqb_spec in Ea', Ek. subst a k'.
      assert (eqb k k = true) as Hk by now apply eqb_spec.
      congruence.
Qed.

Lemma map_get_set (m : list (K * V)) k v k' :
  map_get eqb (map_set eqb m k v) k'
  = if eqb k k' then Some v else map_get eqb m k'.
Proof.
  unfold map_set. cbn. rewrite map_get_delete. now destruct (eqb k k').
Qed.

End GoMapFacts.

Lemma String_eqb_spec (a b : string) : String.eqb a b = true <-> a = b.
Proof. apply String.eqb_eq. Qed.

Lemma Z_eqb_spec (a b : Z) : Z.eqb a b = true <-> a = b.
Proof. apply Z.eqb_eq. Qed.

Lemma names_In rules rule : names rules rule = true <-> In rule rules.
Proof.
  unfold names. rewrite existsb_exists. split.
  - intros [r [H E]]. apply String.eqb_eq in E. now subst.
  - intros H. exists rule. split; [exact H | apply String.eqb_refl].
Qed.

Lemma flag_setAll rules m rule :
  linter.flag (linter.setAll m rules) rule
  = names rules rule || linter.flag m rule.
Proof.
  unfold linter.setAll. revert m.
  induction rules as [|r rules IH]; intros m; cbn; [reflexivity|].
  rewrite IH. unfold linter.flag at 1.
  rewrite (map_get_set String.eqb String_eqb_spec).
  destruct (String.eqb r rule); cbn.
  - apply orb_true_r.
  - reflexivity.
Qed.

Lemma flag_deleteAll rules m rule :
  linter.flag (linter.deleteAll m rules) rule
  = negb (names rules rule) && linter.flag m rule.
Proof.
  unfold linter.deleteAll. revert m.
  induction rules as [|r rules IH]; intros m; cbn; [reflexivity|].
  rewrite IH. unfold linter.flag at 1.
  rewrite (map_get_delete String.eqb String_eqb_spec).
  destruct (String.eqb r rule); cbn.
  - apply andb_false_r.
  - reflexivity.
Qed.

Lemma IsRuleEnabled_flags rc rule pos :
  linter.IsRuleEnabled rc rule pos
  = negb (switchedOff rc rule || ignoredOn rc rule (ast.Line pos)).
Proof.
  unfold linter.IsRuleEnabled, switchedOff, ignoredOn.
  destruct (linter.flag (linter.globallyDisabled rc) rule); [reflexivity|].
  destruct (map_get Z.eqb (linter.ignoredAtLine rc) (ast.Line pos)); [|reflexivity].
  now destruct (linter.flag l rule).
Qed.

Lemma directive_cases (d : linter.RuleDirective) :
  linter.Type_ d = linter.DirectiveIgnore
  \/ linter.Type_ d = linter.DirectiveDisable
  \/ linter.Type_ d = linter.DirectiveEnable
  \/ (linter.Type_ d <> linter.DirectiveIgnore
      /\ linter.Type_ d <> linter.DirectiveDisable
      /\ linter.Type_ d <> linter.DirectiveEnable).
Proof. unfold linter.DirectiveIgnore, linter.DirectiveDisable, linter.DirectiveEnable. lia. Qed.

Lemma switchedOff_step rc d rule :
  switchedOff (linter.processDirective rc d) rule
  = if linter.Type_ d =? linter.DirectiveDisable
    then names (linter.Rules d) rule || switchedOff rc rule
    else if linter.Type_ d =? linter.DirectiveEnable
    then negb (names (linter.Rules d) rule) && switchedOff rc rule
    else switchedOff rc rule.
Proof.
  unfold switchedOff, linter.processDirective.
  unfold linter.DirectiveIgnore, linter.DirectiveDisable, linter.DirectiveEnable.
  destruct (linter.Type_ d =? 0) eqn:E0.
  - apply Z.eqb_eq in E0. rewrite E0. reflexivity.
  - destruct (linter.Type_ d =? 1) eqn:E1; cbn.
    + apply flag_setAll.
    + destruct (linter.Type_ d =? 2) eqn:E2; cbn.
      * apply flag_deleteAll.
      * reflexivity.
Qed.

Lemma ignoredOn_step rc d rule line :
  ignoredOn (linter.processDirective rc d) rule line
  = if (linter.Type_ d =? linter.DirectiveIgnore)
       && (int64 (linter.Line d + 1) =? line)
    then names (linter.Rules d) rule || ignoredOn rc rule line
    else ignoredOn rc rule line.
Proof.
  unfold ignoredOn, linter.processDirective.
  unfold linter.DirectiveIgnore, linter.DirectiveDisable, linter.DirectiveEnable.
  destruct (linter.Type_ d =? 0) eqn:E0;
    cbn [linter.ignoredAtLine linter.globallyDisabled].
  - rewrite (map_get_set Z.eqb Z_eqb_spec).
    destruct (int64 (linter.Line d + 1) =? line) eqn:El.
    + apply Z.eqb_eq in El. rewrite flag_setAll. rewrite <- El.
      now destruct (map_get Z.eqb (linter.ignoredAtLine rc)
                            (int64 (linter.Line d + 1))).
    + reflexivity.
  - destruct (linter.Type_ d =? 1); cbn; [reflexivity|].
    destruct (linter.Type_ d =? 2); reflexivity.
Qed.

Lemma ProcessDirectives_snoc rc ds d :
  linter.ProcessDirectives rc (ds ++ [d])
  = linter.processDirective (linter.ProcessDirectives rc ds) d.
Proof. unfold linter.ProcessDirectives. now rewrite fold_left_app. Qed.

Lemma disabledBy_snoc ds d rule :
  disabledBy (ds ++ [d]) rule
  <-> (linter.Type_ d = linter.DirectiveDisable /\ In rule (linter.Rules d))
      \/ (disabledBy ds rule
          /\ ~ (linter.Type_ d = linter.DirectiveEnable /\ In rule (linter.Rules d))).
Proof.
  split.
  - intros (before & d0 & after & E & Ht & Hi & Hn).
    destruct (exists_last (l:=d0 :: after)) as (mid & last & Em); [discriminate|].
    rewrite Em in E. rewrite app_assoc in E.
    apply app_inj_tail in E. destruct E as [E ->].
    destruct mid as [|m mid]; cbn in Em.
    + injection Em as -> ->. now left.
    + injection Em as -> ->. right. split.
      * exists before, m, mid. repeat split; auto.
        intros d' Hin. apply Hn. apply in_or_app. now left.
      * intros [He Hr]. apply (Hn last); auto. apply in_or_app. right. now left.
  - intros [[Ht Hi] | [(before & d0 & after & E & Ht & Hi & Hn) Hd]].
    + exists ds, d, []. repeat split; auto.
    + exists before, d0, (after ++ [d]). subst ds. rewrite <- app_assoc.
      repeat split; auto.
      intros d' Hin He Hr. apply in_app_or in Hin. destruct Hin as [Hin|[<-|[]]].
      * now apply (Hn d').
      * apply Hd. now split.
Qed.

Lemma ignoredBy_snoc ds d rule line :
  ignoredBy (ds ++ [d]) rule line
  <-> (linter.Type_ d = linter.DirectiveIgnore /\ In rule (linter.Rules d)
       /\ int64 (linter.Line d + 1) = line)
      \/ ignoredBy ds rule line.
Proof.
  split.
  - intros (d0 & Hin & H). apply in_app_or in Hin. destruct Hin as [Hin|[<-|[]]].
    + right. now exists d0.
    + now left.
  - intros [H | (d0 & Hin & H)].
    + exists d. split; [apply in_or_app; right; now left | exact H].
    + exists d0. split; [apply in_or_app; now left | exact H].
Qed.

Lemma switchedOff_directives ds rule :
  switchedOff (linter.ProcessDirectives linter.NewRuleContext ds) rule = true
  <-> disabledBy ds rule.
Proof.
  induction ds as [|d ds IH] using rev_ind.
  - cbn. split; [discriminate|].
    intros (before & d & after & E & _). now destruct before.
  - rewrite ProcessDirectives_snoc, switchedOff_step, disabledBy_snoc.
    rewrite <- IH. clear IH.
    set (off := switchedOff _ rule).
    rewrite <- names_In.
    unfold linter.DirectiveDisable, linter.DirectiveEnable.
    destruct (linter.Type_ d =? 1) eqn:E1.
    + apply Z.eqb_eq in E1. rewrite E1, orb_true_iff. intuition (try lia).
    + apply Z.eqb_neq in E1.
      destruct (linter.Type_ d =? 2) eqn:E2.
      * apply Z.eqb_eq in E2. rewrite andb_true_iff, negb_true_iff.
        destruct (names (linter.Rules d) rule); intuition (try lia; try congruence).
      * apply Z.eqb_neq in E2. intuition (try lia).
Qed.

Lemma ignoredOn_directives ds rule line :
  ignoredOn (linter.ProcessDirectives linter.NewRuleContext ds) rule line = true
  <-> ignoredBy ds rule line.
Proof.
  induction ds as [|d ds IH] using rev_ind.
  - cbn. split; [discriminate|]. intros (d & [] & _).
  - rewrite ProcessDirectives_snoc, ignoredOn_step, ignoredBy_snoc.
    rewrite <- IH. clear IH.
    set (ig := ignoredOn _ rule line).
    rewrite <- names_In.
    unfold linter.DirectiveIgnore.
    destruct (linter.Type_ d =? 0) eqn:E0; cbn [andb].
    + apply Z.eqb_eq in E0.
      destruct (int64 (linter.Line d + 1) =? line) eqn:El.
      * apply Z.eqb_eq in El. rewrite orb_true_iff. intuition.
      * apply Z.eqb_neq in El. intuition.
    + apply Z.eqb_neq in E0. intuition.
Qed.

(** X18.  After the directives of a source have been processed into a
    fresh rule context, a rule counts as disabled at a position exactly
    when some disable directive names it and no enable directive after
    that one in the list names it too, or when an ignore directive on the
    line before the position names it.  The line of a disable or enable
    directive plays no part: a rule disabled anywhere in the source is
    off at every position, also above the directive; directives of any
    other type change nothing. *)
Theorem IsRuleEnabled_after_directives
        (ds : list linter.RuleDirective) (rule : string) (pos : ast.Position) :
  linter.IsRuleEnabled (linter.ProcessDirectives linter.NewRuleContext ds) rule pos
  = false
  <-> disabledBy ds rule \/ ignoredBy ds rule (ast.Line pos).
Proof.
  rewrite IsRuleEnabled_flags, negb_false_iff, orb_true_iff.
  now rewrite switchedOff_directives, ignoredOn_directives.
Qed.

(** ** The linter *)

Section LinterFacts.

Variable ParseDirectives : string -> list linter.RuleDirective.

(** What the loop of [LintASTWithSource] keeps of the problems of a
    rule. *)
Lemma lintRules_result config rc tree rules problems :
  match linter.lintRules config rc tree rules problems with
  | Ok result =>
    (forall rule, In rule rules ->
       linter.Config_IsRuleEnabled config (linter.Name rule) = true ->
       exists found, linter.Check rule tree config = Ok found)
    /\ (forall prob, In prob result <->
          In prob problems \/ reportedBy config rc tree rules prob)
  | Panic msg =>
    exists rule, In rule rules
      /\ linter.Config_IsRuleEnabled config (linter.Name rule) = true
      /\ linter.Check rule tree config = Panic msg
  | OutOfFuel =>
    exists rule, In rule rules
      /\ linter.Config_IsRuleEnabled config (linter.Name rule) = true
      /\ linter.Check rule tree config = OutOfFuel
  end.
Proof.
  revert problems.
  induction rules as [|rule rules IH]; intros problems; cbn [linter.lintRules].
  - split; [intros rule []|].
    intros prob. split; [now left|].
    intros [H | (rule & found & [] & _)]. exact H.
  - destruct (linter.Config_IsRuleEnabled config (linter.Name rule)) eqn:En.
    + destruct (linter.Check rule tree config) as [found| msg |] eqn:Ec;
        cbn [rbind].
      * set (kept := match rc with
                     | Some c =>
                       filter (fun prob =>
                                 linter.IsRuleEnabled c (problem.RuleName prob)
                                                      (problem.Position prob)) found
                     | None => found
                     end).
        assert (linter.lintRules config rc tree rules (problems ++ kept)
                = match rc with
                  | Some c =>
                    linter.lintRules config rc tree rules
                      (problems ++ filter (fun prob =>
                                 linter.IsRuleEnabled c (problem.RuleName prob)
                                                      (problem.Position prob)) found)
                  | None => linter.lintRules config rc tree rules (problems ++ found)
                  end) as Hk by (unfold kept; now destruct rc).
        rewrite <- Hk. clear Hk.
        specialize (IH (problems ++ kept)).
        destruct (linter.lintRules config rc tree rules (problems ++ kept))
          as [result | msg |].
        -- destruct IH as [Hall Hin]. split.
           ++ intros r [<- | Hr] He; [now exists found | now apply Hall].
           ++ intros prob. rewrite Hin, in_app_iff. clear Hin.
              assert (In prob kept
                      <-> In prob found
                          /\ match rc with
                             | Some c =>
                               linter.IsRuleEnabled c (problem.RuleName prob)
                                                    (problem.Position prob) = true
                             | None => True
                             end) as Hkept.
              { unfold kept. destruct rc; [apply filter_In | tauto]. }
              rewrite Hkept. unfold reportedBy. split.
              ** intros [[H | [H1 H2]] | (r & f & Hr & He & Hc & Hf & Hp)].
                 --- now left.
                 --- right. exists rule, found. repeat split; auto. now left.
                 --- right. exists r, f. repeat split; auto. now right.
              ** intros [H | (r & f & [<- | Hr] & He & Hc & Hf & Hp)].
                 --- left. now left.
                 --- left. right. rewrite Ec in Hc. injection Hc as <-. now split.
                 --- right. exists r, f. repeat split; auto.
        -- destruct IH as (r & Hr & He & Hc). exists r. repeat split; auto.
           now right.
        -- destruct IH as (r & Hr & He & Hc). exists r. repeat split; auto.
           now right.
      * exists rule. repeat split; auto. now left.
      * exists rule. repeat split; auto. now left.
    + specialize (IH problems).
      destruct (linter.lintRules config rc tree rules problems) as [result | msg |].
      * destruct IH as [Hall Hin]. split.
        -- intros r [<- | Hr] He; [congruence | now apply Hall].
        -- intros prob. rewrite Hin. unfold reportedBy. split.
           ++ intros [H | (r & f & Hr & He & Hc & Hf & Hp)]; [now left|].
              right. exists r, f. repeat split; auto. now right.
           ++ intros [H | (r & f & [<- | Hr] & He & Hc & Hf & Hp)];
                [now left | congruence |].
              right. exists r, f. repeat split; auto.
      * destruct IH as (r & Hr & He & Hc). exists r. repeat split; auto. now right.
      * destruct IH as (r & Hr & He & Hc). exists r. repeat split; auto. now right.
Qed.

(** X19.  [LintASTWithSource] runs every rule of the linter that the
    configuration does not disable, in order, and stops with the panic
    of the first one that panics.  When all of them return, a problem is
    in the result exactly when an enabled rule reported it and, for a
    source that is not empty, the directives of the source leave the rule
    that the problem names enabled at the position of the problem; with
    the empty source, nothing is filtered.  The filter goes by the rule
    name inside the problem, not by the name of the rule that reported
    it. *)
Theorem LintASTWithSource_problems
        (l : linter.Linter) (tree : ast.AbstractSyntaxTree) (source : string) :
  let context :=
    if String.eqb source "" then None
    else Some (linter.ProcessDirectives linter.NewRuleContext
                                        (ParseDirectives source)) in
  match linter.LintASTWithSource ParseDirectives l tree source with
  | Ok result =>
    (forall rule, In rule (linter.rules l) ->
       linter.Config_IsRuleEnabled (linter.config l) (linter.Name rule) = true ->
       exists found, linter.Check rule tree (linter.config l) = Ok found)
    /\ (forall prob, In prob result <->
          reportedBy (linter.config l) context tree (linter.rules l) prob)
  | failure =>
    exists rule, In rule (linter.rules l)
      /\ linter.Config_IsRuleEnabled (linter.config l) (linter.Name rule) = true
      /\ match failure with
         | Ok _ => False
         | Panic msg => linter.Check rule tree (linter.config l) = Panic msg
         | OutOfFuel => linter.Check rule tree (linter.config l) = OutOfFuel
         end
  end.
Proof.
  intros context. unfold linter.LintASTWithSource.
  assert ((if negb (String.eqb source "")
           then Some (linter.ProcessDirectives linter.NewRuleContext
                                               (ParseDirectives source))
           else None) = context) as ->
      by (unfold context; now destruct (String.eqb source "")).
  pose proof (lintRules_result (linter.config l) context tree (linter.rules l) [])
    as H.
  destruct (linter.lintRules (linter.config l) context tree
                             (linter.rules l) []) as [result | msg |].
  - destruct H as [Hall Hin]. split; [exact Hall|].
    intros prob. rewrite Hin. cbn [In]. tauto.
  - destruct H as (r & Hr & He & Hc). exists r. auto.
  - destruct H as (r & Hr & He & Hc). exists r. auto.
Qed.

End LinterFacts.

Section LintFacts.

Context {U : Unicode}.
Variable ParseDirectives : string -> list linter.RuleDirective.

Lemma length_positive {A : Type} (xs : list A) :
  (0 <? Z.of_nat (List.length xs)) = negb (match xs with [] => true | _ => false end).
Proof.
  destruct xs; [reflexivity|]. cbn [List.length negb].
  apply Z.ltb_lt. lia.
Qed.

(** X20.  [Lint] parses the code as a file without a name and, given
    the fuel [parseFuel] of the code or more, gives the same result
    whatever the fuel.  It returns problems only for code that the parser
    takes without a single diagnostic; the rules are then run on a tree
    that holds no nil node and whose root class is named ["."], with the
    code as the source of the directives.  It returns the error made of
    the diagnostics exactly when the parser returns some, and then no
    rule is run. *)
Theorem Lint_rules_see (l : linter.Linter) (code : string) (fuel : nat) :
  (parseFuel code <= fuel)%nat ->
  linter.Lint ParseDirectives fuel l code
  = linter.Lint ParseDirectives (parseFuel code) l code
  /\ (forall problems,
        linter.Lint ParseDirectives fuel l code = Ok (linter.Problems problems) ->
        exists tree c,
          ParseFile fuel "." code = Ok (tree, [])
          /\ noNilTree tree = true
          /\ ast.RootClass tree = Some c
          /\ ast.Class_Name c = "."
          /\ linter.LintASTWithSource ParseDirectives l tree code = Ok problems)
  /\ (forall errs,
        linter.Lint ParseDirectives fuel l code = Ok (linter.ParsingErrors errs)
        <-> errs <> [] /\ exists tree, ParseFile fuel "." code = Ok (tree, errs)).
Proof.
  intros Hf.
  destruct (ParseFile_facts "." code fuel Hf) as (_ & Heq & Hok).
  unfold linter.Lint. split; [now rewrite Heq|].
  destruct (ParseFile fuel "." code) as [[tree errs]| msg |] eqn:E; cbn [rbind].
  - rewrite length_positive.
    destruct (Hok tree errs eq_refl) as ((c & Hr & Hn & _) & _ & Hnil).
    destruct errs as [|e errs]; cbn [negb].
    + split.
      * intros problems H.
        destruct (linter.LintASTWithSource ParseDirectives l tree code)
          as [ps| |] eqn:El; cbn [rbind] in H; try discriminate.
        injection H as <-. exists tree, c. auto.
      * intros errs. split.
        -- intros H.
           destruct (linter.LintASTWithSource ParseDirectives l tree code);
             discriminate.
        -- intros (Hne & t & Ht). injection Ht as _ <-. now destruct Hne.
    + split; [discriminate|].
      intros errs'. split.
      * intros H. injection H as <-. split; [discriminate | now exists tree].
      * intros (_ & t & Ht). injection Ht as _ <-. reflexivity.
  - split; [discriminate|]. intros errs. split; [discriminate|].
    intros (_ & t & Ht). discriminate.
  - split; [discriminate|]. intros errs. split; [discriminate|].
    intros (_ & t & Ht). discriminate.
Qed.

(** X21.  [LintFile] hands the parser the empty string as the content
    of the file, not what the file holds: given any fuel at all, its
    result is that of [LintAST] on the tree of the empty source, a root
    class that carries the base name of the path and has no member.  It
    never returns parsing errors, and the problems it returns can depend
    on the file through its name alone. *)
Theorem LintFile_lints_empty_tree (l : linter.Linter) (baseName : string)
        (fuel : nat) :
  (1 <= fuel)%nat ->
  linter.LintFile ParseDirectives fuel l baseName
  = (problems <- linter.LintAST ParseDirectives l (emptyFileTree baseName) ;;
     Ok (linter.Problems problems)).
Proof.
  intros Hf. destruct fuel as [|fuel]; [lia|].
  unfold linter.LintFile.
  assert (ParseFile (S fuel) baseName "" = Ok (emptyFileTree baseName, [])) as ->
      by (vm_compute; reflexivity).
  reflexivity.
Qed.

End LintFacts.

(** The theorem at the source [var x = 1] and the linter with the sample
    rule. *)
Lemma Lint_rules_see_witness :
  let lint fuel := linter.Lint (U:=latin1) noDirectives fuel sampleLinter "var x = 1" in
  lint 3000%nat = lint (parseFuel "var x = 1")
  /\ (forall problems,
        lint 3000%nat = Ok (linter.Problems problems) ->
        exists tree c,
          ParseFile (U:=latin1) 3000 "." "var x = 1" = Ok (tree, [])
          /\ noNilTree tree = true
          /\ ast.RootClass tree = Some c
          /\ ast.Class_Name c = "."
          /\ linter.LintASTWithSource noDirectives sampleLinter tree "var x = 1"
             = Ok problems)
  /\ (forall errs,
        lint 3000%nat = Ok (linter.ParsingErrors errs)
        <-> errs <> []
            /\ exists tree,
                ParseFile (U:=latin1) 3000 "." "var x = 1" = Ok (tree, errs)).
Proof.
  intros lint.
  apply (Lint_rules_see (U:=latin1) noDirectives sampleLinter "var x = 1" 3000).
  apply Nat.leb_le. vm_compute. reflexivity.
Defined.

(** The theorem at the file [a.gd] and the linter with the sample
    rule. *)
Lemma LintFile_lints_empty_tree_witness :
  linter.LintFile (U:=latin1) noDirectives 1 sampleLinter "a.gd"
  = (problems <- linter.LintAST noDirectives sampleLinter (emptyFileTree "a.gd") ;;
     Ok (linter.Problems problems)).
Proof.
  apply (LintFile_lints_empty_tree (U:=latin1) noDirectives sampleLinter "a.gd" 1).
  apply Nat.le_refl.
Defined.

(** ** Equal expressions *)

Lemma expressionsEqual_comparable (a b : ast.Expression) :
  rules.expressionsEqual a b = true -> comparable a = true.
Proof.
  revert b.
  induction a; intros b; destruct b; cbn [rules.expressionsEqual comparable];
    try discriminate; try reflexivity.
  rewrite !andb_true_iff. intros [[_ H1] H2]. split; eauto.
Qed.

Lemma expressionsEqual_comparable_r (a b : ast.Expression) :
  rules.expressionsEqual a b = true -> comparable b = true.
Proof.
  revert b.
  induction a; intros b; destruct b; cbn [rules.expressionsEqual comparable];
    try discriminate; try reflexivity.
  rewrite !andb_true_iff. intros [[_ H1] H2]. split; eauto.
Qed.

(** X22.  [expressionsEqual] is symmetric: which of two expressions is
    passed first makes no difference. *)
Theorem expressionsEqual_symmetric (a b : ast.Expression) :
  rules.expressionsEqual a b = rules.expressionsEqual b a.
Proof.
  revert b.
  induction a; intros b; destruct b; cbn [rules.expressionsEqual];
    try reflexivity; try apply String.eqb_sym.
  rewrite IHa1, IHa2. f_equal. f_equal. apply String.eqb_sym.
Qed.

(** X23.  [expressionsEqual] is transitive. *)
Theorem expressionsEqual_transitive (a b c : ast.Expression) :
  rules.expressionsEqual a b = true ->
  rules.expressionsEqual b c = true ->
  rules.expressionsEqual a c = true.
Proof.
  revert b c.
  induction a; intros b c; destruct b; cbn [rules.expressionsEqual];
    try discriminate; destruct c; cbn [rules.expressionsEqual];
      try discriminate;
      try (intros H1 H2; apply String.eqb_eq in H1, H2; apply String.eqb_eq;
           congruence).
  rewrite !andb_true_iff. intros [[Ho H1] H2] [[Ho' H1'] H2'].
  repeat split; eauto.
  apply String.eqb_eq in Ho, Ho'. apply String.eqb_eq. congruence.
Qed.

(** X24.  [expressionsEqual] is not reflexive: an expression equals
    itself exactly when it is built of identifiers, number literals,
    string literals and infix operators alone, and only such expressions
    equal anything.  A call, an index, a prefix operator, [true], [null]
    or the nil expression anywhere in an expression makes it differ from
    every expression, itself included. *)
Theorem expressionsEqual_reflexive_iff (e : ast.Expression) :
  (rules.expressionsEqual e e = true <-> comparable e = true)
  /\ (forall other,
        rules.expressionsEqual e other = true \/ rules.expressionsEqual other e = true ->
        comparable e = true).
Proof.
  split.
  - split; [apply expressionsEqual_comparable|].
    induction e; cbn [rules.expressionsEqual comparable];
      try discriminate; try (intros _; apply String.eqb_refl).
    rewrite !andb_true_iff. intros [H1 H2].
    repeat split; auto. apply String.eqb_refl.
  - intros other [H | H].
    + now apply expressionsEqual_comparable in H.
    + now apply expressionsEqual_comparable_r in H.
Qed.

(** The theorem at [a + 1], with the three expressions at three
    different positions. *)
Lemma expressionsEqual_transitive_witness :
  let sum line :=
    ast.InfixExpression (ast.mkPosition line 3 2)
                        (ast.Identifier (ast.mkPosition line 1 0) "a") "+"
                        (ast.NumberLiteral (ast.mkPosition line 5 4) true "1") in
  rules.expressionsEqual (sum 1) (sum 3) = true.
Proof.
  intros sum.
  apply (expressionsEqual_transitive (sum 1) (sum 2) (sum 3)); reflexivity.
Defined.

(** ** The classes of a tree hold no function among their statements *)

Ltac tidy_simpl :=
  unfold tidyS, tidyL in *;
  cbn [stmtClasses ifClasses forClasses whileClasses matchClasses
       branchClasses functionClasses classClasses flat_map
       ast.AddConsequenceStatement ast.AddElseIfBranch ast.SetAlternative
       ast.NewIfStatement ast.NewForStatement ast.For_AddBodyStatement
       ast.For_SetTypeHint ast.NewWhileStatement ast.While_AddBodyStatement
       ast.NewMatchStatement ast.AddBranch ast.NewMatchBranch ast.SetGuard
       ast.Branch_AddBodyStatement ast.NewFunction ast.AddParameter
       ast.Function_AddStatement ast.setIsStatic ast.setReturnType ast.NewClass
       ast.AddSubClass ast.AddFunction ast.Class_AddStatement ast.setExtends
       ast.setName] in *;
  rewrite ?flat_map_app in *; cbn [flat_map] in *;
  rewrite ?app_nil_r in *;
  rewrite ?Forall_cons_iff, ?Forall_app, ?Forall_cons_iff, ?Forall_app in *;
  unfold holdsNoFunction in *; cbn [ast.Class_Statements] in *.

Lemma tidy_AddConsequenceStatement (i : ast.IfStatement) (s : ast.Statement) :
  tidyS (ast.StmtIf (Some i)) -> tidyS s ->
  tidyS (ast.StmtIf (Some (ast.AddConsequenceStatement i s))).
Proof. destruct i. intros. tidy_simpl. tauto. Qed.

Lemma tidy_AddElseIfBranch (i : ast.IfStatement) (c : ast.Expression)
      (body : list ast.Statement) :
  tidyS (ast.StmtIf (Some i)) -> tidyL body ->
  tidyS (ast.StmtIf (Some (ast.AddElseIfBranch i c body))).
Proof. destruct i. intros. tidy_simpl. tauto. Qed.

Lemma tidy_SetAlternative (i : ast.IfStatement) (body : list ast.Statement) :
  tidyS (ast.StmtIf (Some i)) -> tidyL body ->
  tidyS (ast.StmtIf (Some (ast.SetAlternative i body))).
Proof. destruct i. intros. tidy_simpl. tauto. Qed.

Lemma tidy_append (body : list ast.Statement) (s : ast.Statement) :
  tidyL body -> tidyS s -> tidyL (body ++ [s]).
Proof. intros. tidy_simpl. tauto. Qed.

Lemma tidy_For_AddBodyStatement (f : ast.ForStatement) (s : ast.Statement) :
  tidyS (ast.StmtFor (Some f)) -> tidyS s ->
  tidyS (ast.StmtFor (Some (ast.For_AddBodyStatement f s))).
Proof. destruct f. intros. tidy_simpl. tauto. Qed.

Lemma tidy_For_SetTypeHint (f : ast.ForStatement) (t : string) :
  tidyS (ast.StmtFor (Some f)) ->
  tidyS (ast.StmtFor (Some (ast.For_SetTypeHint f t))).
Proof. destruct f. intros. tidy_simpl. tauto. Qed.

Lemma tidy_While_AddBodyStatement (w : ast.WhileStatement) (s : ast.Statement) :
  tidyS (ast.StmtWhile (Some w)) -> tidyS s ->
  tidyS (ast.StmtWhile (Some (ast.While_AddBodyStatement w s))).
Proof. destruct w. intros. tidy_simpl. tauto. Qed.

Lemma tidy_AddBranch (m : ast.MatchStatement) (b : ast.MatchBranch) :
  tidyS (ast.StmtMatch (Some m)) -> Forall holdsNoFunction (branchClasses b) ->
  tidyS (ast.StmtMatch (Some (ast.AddBranch m b))).
Proof. destruct m. intros. tidy_simpl. tauto. Qed.

Lemma tidy_SetGuard (b : ast.MatchBranch) (g : ast.Expression) :
  Forall holdsNoFunction (branchClasses b) ->
  Forall holdsNoFunction (branchClasses (ast.SetGuard b g)).
Proof. destruct b. intros. tidy_simpl. tauto. Qed.

Lemma tidy_Branch_AddBodyStatement (b : ast.MatchBranch) (s : ast.Statement) :
  Forall holdsNoFunction (branchClasses b) -> tidyS s ->
  Forall holdsNoFunction (branchClasses (ast.Branch_AddBodyStatement b s)).
Proof. destruct b. intros. tidy_simpl. tauto. Qed.

Lemma tidy_NewFunction (name : string) (pos : ast.Position) :
  tidyS (ast.StmtFunction (Some (ast.NewFunction name pos))).
Proof. tidy_simpl. constructor. Qed.

Lemma tidy_setIsStatic (f : ast.Function) (b : bool) :
  tidyS (ast.StmtFunction (Some f)) ->
  tidyS (ast.StmtFunction (Some (ast.setIsStatic f b))).
Proof. destruct f. intros. tidy_simpl. tauto. Qed.

Lemma tidy_setReturnType (f : ast.Function) (t : string) :
  tidyS (ast.StmtFunction (Some f)) ->
  tidyS (ast.StmtFunction (Some (ast.setReturnType f t))).
Proof. destruct f. intros. tidy_simpl. tauto. Qed.

Lemma tidy_AddParameter (f : ast.Function) (param : ast.Param) :
  tidyS (ast.StmtFunction (Some f)) ->
  tidyS (ast.StmtFunction (Some (ast.AddParameter f param))).
Proof. destruct f. intros. tidy_simpl. tauto. Qed.

Lemma tidy_Function_AddStatement (f : ast.Function) (s : ast.Statement) :
  tidyS (ast.StmtFunction (Some f)) -> tidyS s ->
  tidyS (ast.StmtFunction (Some (ast.Function_AddStatement f s))).
Proof. destruct f. intros. tidy_simpl. tauto. Qed.

Lemma tidy_AddSubClass (c : ast.Class) (sub : option ast.Class) :
  tidyS (ast.StmtClass (Some c)) -> tidyS (ast.StmtClass sub) ->
  tidyS (ast.StmtClass (Some (ast.AddSubClass c sub))).
Proof. destruct c, sub; intros; tidy_simpl; tauto. Qed.

Lemma tidy_AddFunction (c : ast.Class) (f : option ast.Function) :
  tidyS (ast.StmtClass (Some c)) -> tidyS (ast.StmtFunction f) ->
  tidyS (ast.StmtClass (Some (ast.AddFunction c f))).
Proof. destruct c, f; intros; tidy_simpl; tauto. Qed.

Lemma tidy_Class_AddStatement (c : ast.Class) (s : ast.Statement) :
  tidyS (ast.StmtClass (Some c)) -> tidyS s -> isFunctionStatement s = false ->
  tidyS (ast.StmtClass (Some (ast.Class_AddStatement c s))).
Proof.
  destruct c. intros H1 H2 H3. tidy_simpl.
  rewrite forallb_app. cbn [forallb]. rewrite H3. cbn [negb].
  rewrite !andb_true_r. tauto.
Qed.

Lemma tidy_NewClass (name : string) (pos : ast.Position) :
  tidyS (ast.StmtClass (Some (ast.NewClass name pos))).
Proof. tidy_simpl. split; [reflexivity|constructor]. Qed.

Lemma tidy_setExtends (c : ast.Class) (e : string) :
  tidyS (ast.StmtClass (Some c)) ->
  tidyS (ast.StmtClass (Some (ast.setExtends c e))).
Proof. destruct c. intros. tidy_simpl. tauto. Qed.

Lemma tidy_setName (c : ast.Class) (e : string) :
  tidyS (ast.StmtClass (Some c)) ->
  tidyS (ast.StmtClass (Some (ast.setName c e))).
Proof. destruct c. intros. tidy_simpl. tauto. Qed.


Create HintDb tidy.

#[export] Hint Resolve tidy_AddConsequenceStatement tidy_AddElseIfBranch
  tidy_SetAlternative tidy_append tidy_For_AddBodyStatement tidy_For_SetTypeHint
  tidy_While_AddBodyStatement tidy_AddBranch tidy_SetGuard
  tidy_Branch_AddBodyStatement tidy_NewFunction tidy_setIsStatic
  tidy_setReturnType tidy_AddParameter tidy_Function_AddStatement
  tidy_AddSubClass tidy_AddFunction tidy_Class_AddStatement tidy_setExtends
  tidy_NewClass : tidy.

#[export] Hint Extern 1 (tidyS _) => solve [apply Forall_nil] : tidy.
#[export] Hint Extern 1 (tidyL _) => solve [apply Forall_nil] : tidy.
#[export] Hint Extern 1 (Forall holdsNoFunction _) => solve [apply Forall_nil] : tidy.
#[export] Hint Extern 1 => assumption : tidy.
#[export] Hint Extern 1 (isFunctionStatement _ = false) =>
  match goal with
  | H : curType ?p <> FUNC -> _, E : tt_eqb (curType ?p) FUNC = false |- _ =>
    apply H; intros Hc; rewrite Hc in E; discriminate E
  end : tidy.
#[export] Hint Extern 4 =>
  match goal with
  | |- context [if ?c then _ else _] => destruct c
  | |- context [match ?x with Some _ => _ | None => _ end] => destruct x
  end : tidy.

Ltac tidy_intro :=
  let a := fresh "a" in
  let Ha := fresh "Ha" in
  intros a Ha;
  repeat match goal with x : (_ * _)%type |- _ => destruct x end;
  cbn [fst snd] in *; cbv beta iota;
  lazymatch type of Ha with
  | _ /\ _ => let X := fresh "X" in let Y := fresh "Y" in destruct Ha as [X Y]
  | _ => idtac
  end.

Ltac tidy_final :=
  cbn [fst snd];
  first [ solve [eauto 8 with tidy nocore]
        | split;
          [ solve [eauto 8 with tidy nocore]
          | let Hn := fresh "Hn" in
            intros Hn; first [reflexivity | exfalso; apply Hn; reflexivity] ] ].

Ltac tidy_walk :=
  lazymatch goal with
  | |- wpp OutOfFuel _ => exact I
  | |- wpp (rbind _ _) _ => apply wpp_bind; tidy_walk
  | |- wpp (if negb ?c then _ else _) _ => destruct c eqn:?; cbn [negb]; tidy_walk
  | |- wpp (if ?c then _ else _) _ => destruct c eqn:?; tidy_walk
  | |- wpp (match ?x with _ => _ end) _ => destruct x eqn:?; tidy_walk
  | |- wpp (Ok _) _ => apply wpp_ret; cbv beta iota; cbn [negb]; tidy_walk
  | |- wpp _ _ =>
    eapply wpp_mono;
    [first [solve [eauto 8 with tidy nocore]|apply wpp_True]
    |tidy_intro; tidy_walk]
  | |- _ => tidy_final
  end.

Section EveryClassTidy.

Context {U : Unicode}.

Lemma parseParameterListLoop_tidy (fuel : nat) (f : ast.Function) (p : Parser) :
  tidyS (ast.StmtFunction (Some f)) ->
  wpp (parseParameterListLoop fuel f p)
      (fun x => tidyS (ast.StmtFunction (Some (fst (fst x))))).
Proof.
  revert f p. induction fuel as [|fuel IH]; intros f p Hs; [exact I|].
  cbn [parseParameterListLoop]. tidy_walk.
Qed.

Hint Resolve parseParameterListLoop_tidy : tidy.

Lemma parseParameterList_tidy (fuel : nat) (f : ast.Function) (p : Parser) :
  tidyS (ast.StmtFunction (Some f)) ->
  wpp (parseParameterList fuel f p)
      (fun x => tidyS (ast.StmtFunction (Some (fst x)))).
Proof. intros Hs. unfold parseParameterList. tidy_walk. Qed.

Hint Resolve parseParameterList_tidy : tidy.

Lemma statements_tidy_all (fuel : nat) : statements_tidy fuel.
Proof.
  induction fuel as [|fuel IH].
  - repeat split; intros; exact I.
  - destruct IH as (H1 & H2 & H3 & H4 & H5 & H6 & H7 & H8 & H9 & H10 & H11).
    pose proof (fun skip node p => H2 _ (fun f => tidyS (ast.StmtFunction (Some f)))
                  skip _ node p tidy_Function_AddStatement) as B1.
    pose proof (fun skip node p => H2 _ (fun i => tidyS (ast.StmtIf (Some i)))
                  skip _ node p tidy_AddConsequenceStatement) as B2.
    pose proof (fun skip node p => H2 _ (fun f => tidyS (ast.StmtFor (Some f)))
                  skip _ node p tidy_For_AddBodyStatement) as B3.
    pose proof (fun skip node p => H2 _ (fun w => tidyS (ast.StmtWhile (Some w)))
                  skip _ node p tidy_While_AddBodyStatement) as B4.
    pose proof (fun skip node p =>
                  H2 _ (fun b => Forall holdsNoFunction (branchClasses b))
                     skip _ node p tidy_Branch_AddBodyStatement) as B5.
    pose proof (fun skip node p => H2 _ tidyL
                  skip _ node p tidy_append) as B6.
    cbv beta in B1, B2, B3, B4, B5, B6.
    split; [|repeat split; intros].
    + intros p. cbn [parseStatement]. tidy_walk.
    + cbn [parseBlock]. cbv zeta. tidy_walk.
    + cbn [parseFunctionDefinition]. cbv zeta. tidy_walk.
    + cbn [parseClassDefinition]. cbv zeta. tidy_walk.
    + cbn [parseClassBody]. cbv zeta. tidy_walk.
    + cbn [parseIfStatement]. cbv zeta. tidy_walk.
    + cbn [parseElifBranches]. cbv zeta. tidy_walk.
    + cbn [parseForStatement]. cbv zeta. tidy_walk.
    + cbn [parseWhileStatement]. cbv zeta. tidy_walk.
    + cbn [parseMatchStatement]. cbv zeta. tidy_walk.
    + cbn [parseMatchBranches]. cbv zeta. tidy_walk.
Qed.

Lemma parseGlobalScopeLoop_tidy (fuel : nat) (c : ast.Class) (p : Parser) :
  tidyS (ast.StmtClass (Some c)) ->
  wpp (parseGlobalScopeLoop fuel c p)
      (fun x => tidyS (ast.StmtClass (Some (fst x)))).
Proof.
  revert c p. induction fuel as [|fuel IH]; intros c p Hs; [exact I|].
  cbn [parseGlobalScopeLoop]. cbv zeta.
  destruct (tt_eqb (curType p) EOF); [exact Hs|].
  apply wpp_bind. eapply wpp_mono; [apply (statements_tidy_all fuel)|].
  intros [stmt p1] [H1 _]. cbn [fst] in H1. cbv beta iota.
  apply wpp_bind. eapply wpp_mono; [apply wpp_True|]. intros p2 _.
  apply IH. destruct stmt; auto with tidy.
Qed.

Lemma tidy_SubClasses (c : ast.Class) :
  tidyS (ast.StmtClass (Some c)) ->
  Forall holdsNoFunction
    (flat_map (fun c => stmtClasses (ast.StmtClass c)) (ast.Class_SubClasses c)).
Proof.
  destruct c. unfold tidyS. cbn [stmtClasses classClasses ast.Class_SubClasses].
  rewrite Forall_cons_iff, !Forall_app. intros (_ & H & _). exact H.
Qed.

Lemma countPublicMethods_none (statements : list ast.Statement) (n : Z) :
  forallb (fun s => negb (isFunctionStatement s)) statements = true ->
  rules.countPublicMethods statements n = Ok n.
Proof.
  induction statements as [|s statements IH]; [reflexivity|].
  cbn [forallb]. rewrite andb_true_iff. intros [Hs Hr].
  destruct s; try discriminate Hs; cbn [rules.countPublicMethods]; auto.
Qed.

(** X25.  The rule [MaxPublicMethods] counts the functions among the
    statements of a class, where the parser never puts one: it files the
    functions of a class, and of the global scope, in the list of
    functions of the class.  So at every class of a tree that [Parse]
    returns, at whatever depth, the visitor of the rule counts no public
    method and, the threshold not being negative, reports nothing,
    however many public methods the class has. *)
Theorem MaxPublicMethods_never_reports (fuel : nat) (p : Parser)
        (tree : ast.AbstractSyntaxTree) (p' : Parser) (c : ast.Class)
        (threshold : Z) (problems : list problem.Problem) :
  Parse fuel p = Ok (tree, p') ->
  In c (treeClasses tree) ->
  0 <= threshold ->
  rules.countPublicMethods (ast.Class_Statements c) 0 = Ok 0
  /\ rules.maxPublicMethods_Visit threshold problems c = Ok problems.
Proof.
  intros HP Hin Ht.
  assert (Hc : holdsNoFunction c).
  { revert c Hin. apply Forall_forall.
    unfold Parse, parseGlobalScope in HP. cbv zeta in HP.
    pose proof (parseGlobalScopeLoop_tidy fuel
                  (ast.NewClass "global scope" (ast.mkPosition 1 1 0)) p
                  (tidy_NewClass _ _)) as W.
    destruct (parseGlobalScopeLoop fuel _ p) as [[c p1]| |]; try discriminate.
    cbn [rbind] in HP. injection HP as <- <-. cbn [wpp fst] in W.
    unfold treeClasses.
    cbn [ast.RootClass ast.Classes ast.AST_Functions ast.NewAST app flat_map].
    rewrite app_nil_r, !Forall_app. split; [exact W|split; [exact W|]].
    apply tidy_SubClasses, W. }
  pose proof (countPublicMethods_none _ 0 Hc) as Hn.
  split; [exact Hn|].
  unfold rules.maxPublicMethods_Visit. rewrite Hn. cbn [rbind].
  assert ((threshold <? 0) = false) as -> by (apply Z.ltb_ge; lia).
  reflexivity.
Qed.

End EveryClassTidy.

(** The theorem at the class [A] of a source in which it has the public
    methods [f] and [g], with the threshold 1. *)
Lemma MaxPublicMethods_never_reports_witness :
  exists tree p' c,
    Parse (U:=latin1) 60 (parserOf (NewParser (U:=latin1) methodsSource)) = Ok (tree, p')
    /\ Errors p' = []
    /\ In c (treeClasses tree)
    /\ ast.Class_Name c = "A"
    /\ map (fun f => match f with
                     | Some f => ast.Function_Name f
                     | None => ""
                     end) (ast.Class_Functions c) = ["f"; "g"]
    /\ rules.countPublicMethods (ast.Class_Statements c) 0 = Ok 0
    /\ rules.maxPublicMethods_Visit 1 [] c = Ok [].
Proof.
  eexists. eexists. eexists.
  split; [vm_compute; reflexivity|].
  split; [vm_compute; reflexivity|].
  split; [vm_compute; right; left; reflexivity|].
  split; [reflexivity|]. split; [reflexivity|].
  eapply (MaxPublicMethods_never_reports (U:=latin1) 60
            (parserOf (NewParser (U:=latin1) methodsSource))).
  - vm_compute. reflexivity.
  - vm_compute. right. left. reflexivity.
  - lia.
Defined.

(** ** Assignments as expression statements *)

Section AssignmentReported.

Context {U : Unicode}.

(** X26.  The rule [ExpressionNotAssigned] reports every simple
    assignment.  At an identifier followed by an assignment operator ([=],
    [+=], [-=], [*=], [/=]), a single-token operand (a name or a literal)
    and the end of the line, [parseStatement] returns an expression
    statement whose expression is an infix expression with the
    identifier on the left and the literal of the operator token as its
    operator, and the visitor of the rule adds its warning at the
    position of the identifier: the exemption of the visitor for
    [AssignmentExpression] nodes is of no use, the parser makes none. *)
Theorem simple_assignment_reported (fuel : nat) (p : Parser)
        (operand ending : Token) (l1 l2 : Lexer)
        (problems : list problem.Problem) :
  (6 <= fuel)%nat ->
  curType p = IDENT ->
  isAssignOp (peekType p) = true ->
  NextToken (lexer p) = Ok (operand, l1) ->
  isAtom (Type_ operand) = true ->
  NextToken l1 = Ok (ending, l2) ->
  Type_ ending = NL \/ Type_ ending = EOF ->
  exists es p' right,
    parseStatement fuel p = Ok (ast.StmtExpression (Some es), p')
    /\ ast.ExprStmt_Expression es
       = ast.InfixExpression
           (ast.mkPosition (Line (peekToken p)) (Column (peekToken p))
                           (Offset (peekToken p)))
           (ast.Identifier (curPos p) (Literal (currentToken p)))
           (Literal (peekToken p)) right
    /\ rules.expressionNotAssigned_Visit problems (Some es)
       = Ok (problems
             ++ [problem.NewWarning
                   (curPos p)
                   "Expression is not assigned to a variable or used"
                   "expression-not-assigned"]).
Proof.
  intros Hf Hcur Hop H1 Hatom H2 Hend.
  do 6 (destruct fuel as [|fuel]; [lia|]). clear Hf.
  set (p1 := mkParser l1 (peekToken p) operand (errors p) (errorMode p)).
  set (p2 := mkParser l2 operand ending (errors p) (errorMode p)).
  assert (N1 : nextToken p = Ok p1) by (unfold nextToken; now rewrite H1).
  assert (N2 : nextToken p1 = Ok p2)
    by (unfold nextToken; cbn [lexer p1]; now rewrite H2).
  assert (Eend : endsExpression (peekType p2) = true)
    by (unfold peekType; cbn [peekToken p2]; destruct Hend as [-> | ->]; reflexivity).
  assert (Esemi : tt_eqb (peekType p2) SEMICOLON = false)
    by (unfold peekType; cbn [peekToken p2]; destruct Hend as [-> | ->]; reflexivity).
  assert (R : exists right,
             ast.isNil right = false
             /\ parseExpression (S (S fuel)) (curPrecedence p1) p2 = Ok (right, p2)).
  { cbn [parseExpression]. unfold curType at 1. cbn [currentToken p2].
    destruct (Type_ operand) eqn:Et; try discriminate Hatom;
      cbn [rbind ast.isNil];
      eexists; (split; [|cbn [parseExpressionLoop]; rewrite Eend; reflexivity]);
      reflexivity. }
  destruct R as (right & Hnil & R).
  assert (I : parseInfixExpression (S (S (S fuel)))
                (ast.Identifier (curPos p) (Literal (currentToken p))) p1
              = Ok (ast.InfixExpression (curPos p1)
                      (ast.Identifier (curPos p) (Literal (currentToken p)))
                      (Literal (currentToken p1)) right, p2)).
  { cbn [parseInfixExpression]. cbv zeta.
    assert (tt_eqb (curType p1) LPAREN = false) as ->.
    { unfold curType. cbn [currentToken p1]. fold (peekType p).
      destruct (peekType p); try discriminate Hop; reflexivity. }
    rewrite N2. cbn [rbind]. rewrite R. reflexivity. }
  set (e := ast.InfixExpression (curPos p1)
              (ast.Identifier (curPos p) (Literal (currentToken p)))
              (Literal (currentToken p1)) right) in *.
  assert (L : parseExpressionLoop (S (S (S (S fuel)))) PREC_LOWEST
                (ast.Identifier (curPos p) (Literal (currentToken p))) p
              = Ok (e, p2)).
  { cbn [parseExpressionLoop]. cbv zeta.
    assert (endsExpression (peekType p) = false) as ->
        by (destruct (peekType p); try discriminate Hop; reflexivity).
    assert (tt_eqb (peekType p) IF = false) as ->
        by (destruct (peekType p); try discriminate Hop; reflexivity).
    assert ((peekPrecedence p <=? PREC_LOWEST) = false) as ->
        by (unfold peekPrecedence;
            destruct (peekType p); try discriminate Hop; reflexivity).
    assert (isInfixOp (peekType p) = true) as ->
        by (destruct (peekType p); try discriminate Hop; reflexivity).
    cbn [negb]. rewrite N1. cbn [rbind]. rewrite I. cbn [rbind].
    rewrite Eend. reflexivity. }
  exists (ast.NewExpressionStatement (curPos p) e), p2, right.
  split; [|split; reflexivity].
  cbn [parseStatement]. rewrite Hcur. unfold parseExpressionStatement. cbv zeta.
  cbn [parseExpression]. rewrite Hcur. cbn [rbind].
  unfold parseIdentifier at 1. cbn [ast.isNil].
  unfold parseIdentifier. rewrite L. cbn [rbind]. rewrite Esemi. reflexivity.
Qed.

End AssignmentReported.

(** The theorem at the source [x = 1]. *)
Lemma simple_assignment_reported_witness :
  let p := parserOf (NewParser (U:=latin1) "x = 1") in
  exists es p' right,
    parseStatement (U:=latin1) 6 p = Ok (ast.StmtExpression (Some es), p')
    /\ ast.ExprStmt_Expression es
       = ast.InfixExpression (ast.mkPosition 1 4 2)
                             (ast.Identifier (ast.mkPosition 1 2 0) "x") "=" right
    /\ rules.expressionNotAssigned_Visit [] (Some es)
       = Ok [problem.NewWarning
               (ast.mkPosition 1 2 0)
               "Expression is not assigned to a variable or used"
               "expression-not-assigned"].
Proof.
  intros p.
  change (exists es p' right,
    parseStatement (U:=latin1) 6 p = Ok (ast.StmtExpression (Some es), p')
    /\ ast.ExprStmt_Expression es
       = ast.InfixExpression
           (ast.mkPosition (Line (peekToken p)) (Column (peekToken p))
                           (Offset (peekToken p)))
           (ast.Identifier (curPos p) (Literal (currentToken p)))
           (Literal (peekToken p)) right
    /\ rules.expressionNotAssigned_Visit [] (Some es)
       = Ok ([] ++ [problem.NewWarning
                      (curPos p)
                      "Expression is not assigned to a variable or used"
                      "expression-not-assigned"])).
  refine (simple_assignment_reported (U:=latin1) 6 p _ _ _ _ [] _ _ _ _ _ _ _);
    try (vm_compute; reflexivity).
  right. reflexivity.
Defined.

(** ** Pass statements *)

Lemma unnecessaryPass_loop_app (a b : list ast.Statement) hasStmt hasPass passStmt :
  rules.unnecessaryPass_loop (a ++ b) hasStmt hasPass passStmt
  = let '(hs, hp, ps) := rules.unnecessaryPass_loop a hasStmt hasPass passStmt in
    rules.unnecessaryPass_loop b hs hp ps.
Proof.
  revert hasStmt hasPass passStmt.
  induction a as [|s a IH]; intros hasStmt hasPass passStmt; [reflexivity|].
  destruct s; cbn [app rules.unnecessaryPass_loop]; apply IH.
Qed.

Lemma unnecessaryPass_loop_flags (l : list ast.Statement) hasStmt hasPass passStmt :
  fst (fst (rules.unnecessaryPass_loop l hasStmt hasPass passStmt))
  = hasStmt || existsb notPassStatement l
  /\ snd (fst (rules.unnecessaryPass_loop l hasStmt hasPass passStmt))
     = hasPass || existsb isPassStatement l.
Proof.
  revert hasStmt hasPass passStmt.
  induction l as [|s l IH]; intros hasStmt hasPass passStmt.
  - cbn. now rewrite !orb_false_r.
  - destruct s;
      cbn [rules.unnecessaryPass_loop existsb notPassStatement isPassStatement negb];
      destruct (IH true hasPass passStmt) as [E1 E2];
      try (rewrite E1, E2; cbn [orb]; rewrite orb_true_r; split; reflexivity).
    destruct (IH hasStmt true s) as [E3 E4]. rewrite E3, E4. cbn [orb].
    rewrite orb_true_r. split; reflexivity.
Qed.

Lemma unnecessaryPass_loop_no_pass (l : list ast.Statement) hasStmt hasPass passStmt :
  forallb notPassStatement l = true ->
  snd (rules.unnecessaryPass_loop l hasStmt hasPass passStmt) = passStmt.
Proof.
  revert hasStmt.
  induction l as [|s l IH]; intros hasStmt H; [reflexivity|].
  cbn [forallb] in H. apply andb_prop in H. destruct H as [Hs Hl].
  destruct s; try discriminate Hs; cbn [rules.unnecessaryPass_loop]; now apply IH.
Qed.

(** X27.  What the rule [UnnecessaryPass] reports for the statements of
    a function or of a class.  It reports one pass statement at most:
    the last one of the list, and only if the list also holds a
    statement that is not a pass.  A list of pass statements alone, of
    whatever length, is not reported, nor is a list without a pass. *)
Theorem unnecessaryPass_reports (problems : list problem.Problem)
        (statements : list ast.Statement) :
  (forall before stmt after,
      statements = before ++ ast.StmtPass (Some stmt) :: after ->
      forallb notPassStatement after = true ->
      rules.unnecessaryPass_check problems statements
      = if existsb notPassStatement (before ++ after)
        then problems ++ [passWarning stmt]
        else problems)
  /\ (forallb isPassStatement statements = true
      \/ forallb notPassStatement statements = true ->
      rules.unnecessaryPass_check problems statements = problems)
  /\ (rules.unnecessaryPass_check problems statements = problems
      \/ exists stmt,
           In (ast.StmtPass (Some stmt)) statements
           /\ rules.unnecessaryPass_check problems statements
              = problems ++ [passWarning stmt]).
Proof.
  assert (First : forall before stmt after,
             statements = before ++ ast.StmtPass (Some stmt) :: after ->
             forallb notPassStatement after = true ->
             rules.unnecessaryPass_check problems statements
             = if existsb notPassStatement (before ++ after)
               then problems ++ [passWarning stmt]
               else problems).
  { intros before stmt after -> Hafter.
    unfold rules.unnecessaryPass_check.
    rewrite unnecessaryPass_loop_app.
    pose proof (unnecessaryPass_loop_flags before false false None) as [F1 _].
    destruct (rules.unnecessaryPass_loop before false false None) as [[hs hp] ps].
    cbn [fst snd] in F1. cbn [orb] in F1. subst hs.
    cbn [rules.unnecessaryPass_loop].
    pose proof (unnecessaryPass_loop_flags after
                  (existsb notPassStatement before) true (Some stmt)) as [G1 G2].
    pose proof (unnecessaryPass_loop_no_pass after
                  (existsb notPassStatement before) true (Some stmt) Hafter) as G3.
    destruct (rules.unnecessaryPass_loop after _ true (Some stmt)) as [[hs hp'] ps'].
    cbn [fst snd] in G1, G2, G3. subst hs hp' ps'. cbn [orb andb].
    rewrite existsb_app. reflexivity. }
  split; [exact First|]. split.
  - intros H. unfold rules.unnecessaryPass_check.
    pose proof (unnecessaryPass_loop_flags statements false false None) as [F1 F2].
    destruct (rules.unnecessaryPass_loop statements false false None)
      as [[hs hp] ps].
    cbn [fst snd orb] in F1, F2. subst hs hp.
    destruct ps; [|reflexivity].
    assert (E : existsb isPassStatement statements
                && existsb notPassStatement statements = false).
    { destruct H as [H | H].
      - assert (existsb notPassStatement statements = false) as ->;
          [|apply andb_false_r].
        clear - H. induction statements as [|s l IH]; [reflexivity|].
        cbn [forallb existsb] in *. apply andb_prop in H. destruct H as [Hs Hl].
        unfold notPassStatement. rewrite Hs. cbn. now apply IH.
      - assert (existsb isPassStatement statements = false) as ->; [|reflexivity].
        clear - H. induction statements as [|s l IH]; [reflexivity|].
        cbn [forallb existsb] in *. apply andb_prop in H. destruct H as [Hs Hl].
        unfold notPassStatement in Hs. apply negb_true_iff in Hs. rewrite Hs.
        cbn. now apply IH. }
    now rewrite E.
  - (* the last pass of the list, if there is one *)
    assert (Split : forallb notPassStatement statements = true
                    \/ exists before o after,
                         statements = before ++ ast.StmtPass o :: after
                         /\ forallb notPassStatement after = true).
    { clear. induction statements as [|s l IH]; [now left|].
      destruct IH as [IH | (before & o & after & -> & Ha)].
      - destruct (isPassStatement s) eqn:Es.
        + right. destruct s; try discriminate Es.
          exists [], s, l. split; [reflexivity|exact IH].
        + left. cbn [forallb]. unfold notPassStatement at 1. now rewrite Es.
      - right. exists (s :: before), o, after. split; [reflexivity|exact Ha]. }
    destruct Split as [H | (before & o & after & E & Ha)].
    + left. unfold rules.unnecessaryPass_check.
      pose proof (unnecessaryPass_loop_no_pass statements false false None H) as G.
      destruct (rules.unnecessaryPass_loop statements false false None)
        as [[hs hp] ps].
      cbn [snd] in G. now subst ps.
    + destruct o as [stmt|].
      * rewrite (First _ _ _ E Ha).
        destruct (existsb notPassStatement (before ++ after)); [|now left].
        right. exists stmt. split; [|reflexivity].
        rewrite E. apply in_or_app. right. now left.
      * left. subst statements. unfold rules.unnecessaryPass_check.
        rewrite unnecessaryPass_loop_app.
        destruct (rules.unnecessaryPass_loop before false false None)
          as [[hs hp] ps].
        cbn [rules.unnecessaryPass_loop].
        pose proof (unnecessaryPass_loop_no_pass after hs true None Ha) as G.
        destruct (rules.unnecessaryPass_loop after hs true None) as [[hs' hp'] ps'].
        cbn [snd] in G. now subst ps'.
Qed.
